(** * Leaflet.SmoothMarkerBouncing: a shallow embedding of
    [src/leaflet.smoothmarkerbouncing.js]

    Numbers.  The plugin computes with JavaScript numbers.  Pixel heights,
    speed coefficients, screen coordinates and step numbers are integers and
    are modelled by [Z]; quotients ([speed / (height - i)], the halved error
    term of the line algorithm, scale factors) are modelled by exact
    rationals [Q].  The rounding error of IEEE doubles is outside the model,
    and so is the printing of numbers beyond the range where JavaScript
    prints an integer by its decimal digits.

    Loops.  Every [while] loop whose exit depends on the data is a
    [Fixpoint] on a fuel argument and yields [None] when the fuel runs out;
    that a call returns is then a theorem (enough fuel gives the result), and
    that a call never returns is the theorem that no fuel is enough. *)

From Stdlib Require Import Ascii ZArith QArith Qround Lia Lqa Sorted.
From stdpp Require Import base option list gmap strings pretty sorting.

Local Open Scope Z_scope.

(** ** JavaScript values used by the plugin *)

(** The result of an addition: an integer, or [NaN] once [undefined] was
    added. *)
Inductive jsnum : Type :=
  | Num (z : Z)
  | NaN.

Definition js_add (a b : jsnum) : jsnum :=
  match a, b with
  | Num x, Num y => Num (x + y)
  | _, _ => NaN
  end.

(** An array is the list of its slots; a slot is [None] where the array has a
    hole or holds [undefined]. *)
Abbreviation jsarray A := (list (option A)).

(** What [a + b] gives when [b] was read from an array slot. *)
Definition js_add_slot (a : jsnum) (b : option Z) : jsnum :=
  match b with
  | Some z => js_add a (Num z)
  | None => NaN
  end.

(** [a[i] = v].  An index beyond the end extends the array with holes.  A
    negative [i] names an ordinary property, not an element: the elements stay
    as they are (the model keeps no such properties; no run that returns ever
    reads one). *)
Definition js_set {A : Type} (a : jsarray A) (i : Z) (v : A) : jsarray A :=
  if i <? 0 then a
  else
    let n := Z.to_nat i in
    if (n <? length a)%nat then <[n := Some v]> a
    else a ++ replicate (n - length a) None ++ [Some v].

(** [a[i]], [None] for [undefined]. *)
Definition js_get {A : Type} (a : jsarray A) (i : Z) : option A :=
  if i <? 0 then None
  else match a !! Z.to_nat i with
       | Some slot => slot
       | None => None
       end.

(** [Math.round]: the nearest integer, a half rounded up. *)
Definition Math_round (q : Q) : Z := Qfloor (q + (1 # 2))%Q.

(** ** Timeline calculator: [calculateSteps] and [calculateDelays] *)

(** [_bouncingMotionsCache]: an object used as a map from key strings to the
    arrays computed so far.  The arrays are never written after they are
    stored, so the model stores them by value. *)
Abbreviation motions_cache := (gmap string (list jsnum)).

(** [i = 1; while (i <= height) { steps.push(i++); }] *)
Fixpoint calculateSteps_rise (fuel : nat) (height i : Z) (steps : list jsnum)
  : option (list jsnum) :=
  match fuel with
  | O => None
  | S fuel' =>
      if i <=? height
      then calculateSteps_rise fuel' height (i + 1) (steps ++ [Num i])
      else Some steps
  end.

(** [i = height; while (i--) { steps.push(i); }] *)
Fixpoint calculateSteps_fall (fuel : nat) (i : Z) (steps : list jsnum)
  : option (list jsnum) :=
  match fuel with
  | O => None
  | S fuel' =>
      if i =? 0 then Some steps
      else calculateSteps_fall fuel' (i - 1) (steps ++ [Num (i - 1)])
  end.

Definition calculateSteps (fuel : nat) (height : Z) (prefix : string)
    (cache : motions_cache) : option (list jsnum * motions_cache) :=
  let key := prefix +:+ pretty height in
  match cache !! key with
  | Some cached => Some (cached, cache)
  | None =>
      steps ← calculateSteps_rise fuel height 1 [];
      steps ← calculateSteps_fall fuel height steps;
      Some (steps, <[key := steps]> cache)
  end.

(** [i = height; while (--i) { deltas[i] = Math.round(speed / (height - i)); }] *)
Fixpoint calculateDelays_deltas (fuel : nat) (height speed i : Z)
    (deltas : jsarray Z) : option (jsarray Z) :=
  match fuel with
  | O => None
  | S fuel' =>
      let i := i - 1 in
      if i =? 0 then Some deltas
      else calculateDelays_deltas fuel' height speed i
             (js_set deltas i
                (Math_round (inject_Z speed / inject_Z (height - i))%Q))
  end.

(** [i = height; while (i--) { deltas.push(deltas[i]); }] *)
Fixpoint calculateDelays_mirror (fuel : nat) (i : Z) (deltas : jsarray Z)
  : option (jsarray Z) :=
  match fuel with
  | O => None
  | S fuel' =>
      if i =? 0 then Some deltas
      else calculateDelays_mirror fuel' (i - 1)
             (deltas ++ [js_get deltas (i - 1)])
  end.

(** [for (i = 0, l = deltas.length; i < l; i++)
       { totalDelay += deltas[i]; delays.push(totalDelay); }]
    The loop visits the slots of [deltas] from the first to the last. *)
Fixpoint calculateDelays_cumulate (deltas : jsarray Z) (totalDelay : jsnum)
    (delays : list jsnum) : list jsnum :=
  match deltas with
  | [] => delays
  | d :: deltas' =>
      let totalDelay := js_add_slot totalDelay d in
      calculateDelays_cumulate deltas' totalDelay (delays ++ [totalDelay])
  end.

Definition calculateDelays (fuel : nat) (height speed : Z) (prefix : string)
    (cache : motions_cache) : option (list jsnum * motions_cache) :=
  let key := prefix +:+ pretty height +:+ "_" +:+ pretty speed in
  match cache !! key with
  | Some cached => Some (cached, cache)
  | None =>
      let deltas := js_set [] height speed in
      let deltas := js_set deltas 0 0 in
      deltas ← calculateDelays_deltas fuel height speed height deltas;
      deltas ← calculateDelays_mirror fuel height deltas;
      let delays := calculateDelays_cumulate deltas (Num 0) [] in
      Some (delays, <[key := delays]> cache)
  end.

(** ** Completions *)

(** The two exceptions the plugin's own code can raise. *)
Inductive js_error : Type := TypeError | ReferenceError.

(** How the call of a function without side effects ends. *)
Inductive outcome (A : Type) : Type :=
  | Returns (a : A)
  | Throws (e : js_error)
  | OutOfFuel.
Arguments Returns {A} a.
Arguments Throws {A} e.
Arguments OutOfFuel {A}.

Definition outcome_bind {A B : Type} (o : outcome A) (k : A → outcome B)
  : outcome B :=
  match o with
  | Returns a => k a
  | Throws e => Throws e
  | OutOfFuel => OutOfFuel
  end.

Definition of_fuel {A : Type} (o : option A) : outcome A :=
  match o with
  | Some a => Returns a
  | None => OutOfFuel
  end.

(** ** Geometry engine *)

(** The entries of [' matrix3d(sx,0,0,0,0,sy,0,0,0,0,1,0,tx,ty,0,1) '] that
    the plugin fills in.  Where JavaScript divides by zero the quotient of [Q]
    is [0]; such scale factors are outside the model. *)
Record matrix3d : Type := Matrix3d {
  m_scaleX : Q;
  m_scaleY : Q;
  m_x : Z;
  m_y : Z
}.

(** [p[i]] for an array of points that was filled by [push] alone. *)
Definition point_at (p : list (Z * Z)) (i : Z) : option (Z * Z) :=
  if i <? 0 then None else p !! Z.to_nat i.

Section Geometry.

(** [Math.cos], [Math.sin] and [Math.PI]: floating-point library values,
    taken as parameters. *)
Variables Math_cos Math_sin : Q → Q.
Variable Math_PI : Q.

(** The body of [while (true)] in [calculateLine]. *)
Fixpoint calculateLine_loop (fuel : nat) (dx dy sx sy length : Z)
    (x y : Z) (err : Q) (p : list (Z * Z)) (i : Z) : option (list (Z * Z)) :=
  match fuel with
  | O => None
  | S fuel' =>
      let p := p ++ [(x, y)] in
      let i := i + 1 in
      if i =? length then Some p
      else
        let e2 := err in
        let '(err, x) :=
          if negb (Qle_bool e2 (inject_Z (- dx)))
          then ((err - inject_Z dy)%Q, x + sx) else (err, x) in
        let '(err, y) :=
          if negb (Qle_bool (inject_Z dy) e2)
          then ((err + inject_Z dx)%Q, y + sy) else (err, y) in
        calculateLine_loop fuel' dx dy sx sy length x y err p i
  end.

Definition calculateLine (fuel : nat) (x y : Z) (angle : Q) (length : Z)
  : option (list (Z * Z)) :=
  let xD := Math_round (inject_Z x + Math_cos angle * inject_Z (length * 2)) in
  let yD := Math_round (inject_Z y + Math_sin angle * inject_Z (length * 2)) in
  let dx := Z.abs (xD - x) in
  let sx := if x <? xD then 1 else -1 in
  let dy := Z.abs (yD - y) in
  let sy := if y <? yD then 1 else -1 in
  let err := (inject_Z (if dx >? dy then dx else - dy) / 2)%Q in
  calculateLine_loop fuel dx dy sx sy length x y err [] 0.

(** [while (dH--)] over the undeclared [dH]: reading it raises at once. *)
Definition calculateIconMovePoints (x y bounceHeight : Z)
  : outcome (jsarray (Z * Z)) :=
  Throws ReferenceError.

Definition calculateShadowMovePoints (fuel : nat) (x y bounceHeight : Z)
    (angle : Q) : outcome (list (Z * Z)) :=
  of_fuel (calculateLine fuel x y angle bounceHeight).

(** [while (dY--) { t[dY] = ' matrix3d(1,..,1,..,' + x + ',' + (y - dY) + ',0,1) '; }] *)
Fixpoint calculateIconMoveTransforms_loop (fuel : nat) (x y dY : Z)
    (t : jsarray matrix3d) : option (jsarray matrix3d) :=
  match fuel with
  | O => None
  | S fuel' =>
      if dY =? 0 then Some t
      else
        let dY := dY - 1 in
        calculateIconMoveTransforms_loop fuel' x y dY
          (js_set t dY (Matrix3d 1 1 x (y - dY)))
  end.

Definition calculateIconMoveTransforms (fuel : nat) (x y bounceHeight : Z)
  : outcome (jsarray matrix3d) :=
  of_fuel (calculateIconMoveTransforms_loop fuel x y (bounceHeight + 1) []).

(** [while (dY--) { t[dY] = ' matrix3d(1,..,1,..,' + p[dY][0] + ',' + p[dY][1] + ',0,1) '; }] *)
Fixpoint calculateShadowMoveTransforms_loop (fuel : nat) (p : list (Z * Z))
    (dY : Z) (t : jsarray matrix3d) : outcome (jsarray matrix3d) :=
  match fuel with
  | O => OutOfFuel
  | S fuel' =>
      if dY =? 0 then Returns t
      else
        let dY := dY - 1 in
        match point_at p dY with
        | None => Throws TypeError
        | Some (px, py) =>
            calculateShadowMoveTransforms_loop fuel' p dY
              (js_set t dY (Matrix3d 1 1 px py))
        end
  end.

Definition calculateShadowMoveTransforms (fuel : nat) (x y bounceHeight : Z)
    (angle : Q) : outcome (jsarray matrix3d) :=
  outcome_bind (of_fuel (calculateLine fuel x y angle (bounceHeight + 1)))
    (λ p, calculateShadowMoveTransforms_loop fuel p (bounceHeight + 1) []).

(** [while (dH--) { t[dH] = ' matrix3d(1,0,0,0,0,' + ((height - dH) / height)
       + ',0,0,0,0,1,0,' + x + ',' + (y + dH) + ',0,1) '; }] *)
Fixpoint calculateIconResizeTransforms_loop (fuel : nat) (x y height dH : Z)
    (t : jsarray matrix3d) : option (jsarray matrix3d) :=
  match fuel with
  | O => None
  | S fuel' =>
      if dH =? 0 then Some t
      else
        let dH := dH - 1 in
        calculateIconResizeTransforms_loop fuel' x y height dH
          (js_set t dH
             (Matrix3d 1 (inject_Z (height - dH) / inject_Z height)%Q
                x (y + dH)))
  end.

Definition calculateIconResizeTransforms (fuel : nat)
    (x y height contractHeight : Z) : outcome (jsarray matrix3d) :=
  of_fuel
    (calculateIconResizeTransforms_loop fuel x y height (contractHeight + 1) []).

(** [while (dH--) { t[dH] = ' matrix3d(' + (width / p[dH][0]) + ',0,0,0,0,'
       + (p[dH][1] / height) + ',0,0,0,0,1,0,' + x + ','
       + (y + height - p[dH][1]) + ',0,1) '; }] *)
Fixpoint calculateShadowResizeTransforms_loop (fuel : nat)
    (x y width height : Z) (p : list (Z * Z)) (dH : Z)
    (t : jsarray matrix3d) : outcome (jsarray matrix3d) :=
  match fuel with
  | O => OutOfFuel
  | S fuel' =>
      if dH =? 0 then Returns t
      else
        let dH := dH - 1 in
        match point_at p dH with
        | None => Throws TypeError
        | Some (px, py) =>
            calculateShadowResizeTransforms_loop fuel' x y width height p dH
              (js_set t dH
                 (Matrix3d (inject_Z width / inject_Z px)%Q
                    (inject_Z py / inject_Z height)%Q
                    x (y + height - py)))
        end
  end.

Definition calculateShadowResizeTransforms (fuel : nat)
    (x y width height contractHeight : Z) (angle : Q)
  : outcome (jsarray matrix3d) :=
  outcome_bind
    (of_fuel (calculateLine fuel width height (angle + Math_PI)%Q
                contractHeight))
    (λ p, calculateShadowResizeTransforms_loop fuel x y width height p
            (contractHeight + 1) []).

End Geometry.

(** ** Markers and the global state *)

(** [_bouncingOptions] *)
Record BouncingOptions : Type := {
  bounceHeight : Z;
  contractHeight : Z;
  bounceSpeed : Z;
  contractSpeed : Z;
  shadowAngle : Q;
  elastic : bool;
  exclusif : bool
}.

(** The argument of [setBouncingOptions]: an object that has some of the
    options as own properties. *)
Record OptionsArg : Type := {
  arg_bounceHeight : option Z;
  arg_contractHeight : option Z;
  arg_bounceSpeed : option Z;
  arg_contractSpeed : option Z;
  arg_shadowAngle : option Q;
  arg_elastic : option bool;
  arg_exclusif : option bool
}.

Definition no_options : OptionsArg :=
  {| arg_bounceHeight := None; arg_contractHeight := None;
     arg_bounceSpeed := None; arg_contractSpeed := None;
     arg_shadowAngle := None; arg_elastic := None; arg_exclusif := None |}.

(** For every option: the passed value if the argument has it, the other
    object's value if not. *)
Definition merge_options (options : OptionsArg) (other : BouncingOptions)
  : BouncingOptions :=
  {| bounceHeight := default (bounceHeight other) (arg_bounceHeight options);
     contractHeight :=
       default (contractHeight other) (arg_contractHeight options);
     bounceSpeed := default (bounceSpeed other) (arg_bounceSpeed options);
     contractSpeed := default (contractSpeed other) (arg_contractSpeed options);
     shadowAngle := default (shadowAngle other) (arg_shadowAngle options);
     elastic := default (elastic other) (arg_elastic options);
     exclusif := default (exclusif other) (arg_exclusif options) |}.

(** What a step of the animation writes into [style] of the icon or of the
    shadow, on top of the base text kept in [baseIconCssText] or
    [baseShadowCssText]. *)
Record css : Type := Css {
  css_zIndex : option Z;
  css_transform : option (option matrix3d);
  css_left_top : option (Z * Z)
}.

Definition base_css : css := Css None None None.

(** [_bouncingMotion].  [motion_x] and [motion_y] are [undefined] in
    JavaScript until [_setPos] runs for the first time; the model starts them
    at [0].  The arrays of visual states are [None] until they are
    computed. *)
Record BouncingMotion : Type := {
  isBouncing : bool;
  motion_x : Z;
  motion_y : Z;
  moveSteps : list jsnum;
  moveDelays : list jsnum;
  resizeSteps : list jsnum;
  resizeDelays : list jsnum;
  iconMoveTransforms : option (jsarray matrix3d);
  iconResizeTransforms : option (jsarray matrix3d);
  shadowMoveTransforms : option (jsarray matrix3d);
  shadowResizeTransforms : option (jsarray matrix3d);
  iconMovePoints : option (jsarray (Z * Z));
  shadowMovePoints : option (list (Z * Z))
}.

(** A marker: its own [_bouncingOptions] if it has any ([None]: the
    prototype's are read through it), its [_bouncingMotion], the sizes
    [options.icon.options.iconSize] and [shadowSize], [_zIndex], and the
    styles of its icon and shadow elements. *)
Record Marker : Type := {
  own_bouncingOptions : option BouncingOptions;
  bouncingMotion : BouncingMotion;
  iconSize : Z * Z;
  shadowSize : Z * Z;
  zIndex : Z;
  icon_style : css;
  shadow_style : css
}.

(** The variables a call of [bounce] closes over: the marker, the option
    values and timeline arrays read when the call started, [is3d], and
    [times], which [move] counts down ([None] for [null]). *)
Record BounceCall : Type := {
  call_marker : nat;
  call_bounceSpeed : Z;
  call_elastic : bool;
  call_is3d : bool;
  call_moveSteps : list jsnum;
  call_moveDelays : list jsnum;
  call_resizeSteps : list jsnum;
  call_resizeDelays : list jsnum;
  call_times : option Z
}.

(** The functions handed to [setTimeout]; [call] is the index of the call of
    [bounce] whose variables they close over. *)
Inductive callback : Type :=
  | MakeMoveStep (call : nat) (step : option jsnum)
  | MakeMoveStepNo3D (call : nat) (step : option jsnum)
  | MakeResizeStep (call : nat) (step : option jsnum)
  | MoveEnd (call : nat)
  | ResizeEnd (call : nat)
  | MoveAgain (call : nat).

Record timer : Type := Timer {
  timer_due : Z;
  timer_callback : callback
}.

(** The state of the page: the closure variable [_bouncingMotionsCache],
    [L.Marker._bouncingMarkers] (an array of references to markers),
    [L.Marker.prototype._bouncingOptions], [L.Browser.any3d], the markers by
    reference, the calls of [bounce] made so far, and the pending timers in
    the order in which they fire. *)
Record state : Type := {
  bouncingMotionsCache : gmap string (list jsnum);
  bouncingMarkers : list nat;
  default_bouncingOptions : BouncingOptions;
  any3d : bool;
  markers : gmap nat Marker;
  bounce_calls : list BounceCall;
  timers : list timer;
  now : Z
}.

(** How the call of a function that changes the state ends.  A thrown
    exception leaves the state as it was at the [throw]. *)
Inductive completion : Type :=
  | Normal (σ : state)
  | Abrupt (e : js_error) (σ : state)
  | NoReturn.

Definition and_then (c : completion) (k : state → completion) : completion :=
  match c with
  | Normal σ => k σ
  | Abrupt e σ => Abrupt e σ
  | NoReturn => NoReturn
  end.

(** *** Field updates *)

Definition set_bouncingMotionsCache (c : gmap string (list jsnum)) (σ : state)
  : state :=
  {| bouncingMotionsCache := c; bouncingMarkers := bouncingMarkers σ;
     default_bouncingOptions := default_bouncingOptions σ; any3d := any3d σ;
     markers := markers σ; bounce_calls := bounce_calls σ;
     timers := timers σ; now := now σ |}.

Definition set_bouncingMarkers (l : list nat) (σ : state) : state :=
  {| bouncingMotionsCache := bouncingMotionsCache σ; bouncingMarkers := l;
     default_bouncingOptions := default_bouncingOptions σ; any3d := any3d σ;
     markers := markers σ; bounce_calls := bounce_calls σ;
     timers := timers σ; now := now σ |}.

Definition set_default_bouncingOptions (o : BouncingOptions) (σ : state)
  : state :=
  {| bouncingMotionsCache := bouncingMotionsCache σ;
     bouncingMarkers := bouncingMarkers σ;
     default_bouncingOptions := o; any3d := any3d σ;
     markers := markers σ; bounce_calls := bounce_calls σ;
     timers := timers σ; now := now σ |}.

Definition set_markers (ms : gmap nat Marker) (σ : state) : state :=
  {| bouncingMotionsCache := bouncingMotionsCache σ;
     bouncingMarkers := bouncingMarkers σ;
     default_bouncingOptions := default_bouncingOptions σ; any3d := any3d σ;
     markers := ms; bounce_calls := bounce_calls σ;
     timers := timers σ; now := now σ |}.

Definition set_bounce_calls (cs : list BounceCall) (σ : state) : state :=
  {| bouncingMotionsCache := bouncingMotionsCache σ;
     bouncingMarkers := bouncingMarkers σ;
     default_bouncingOptions := default_bouncingOptions σ; any3d := any3d σ;
     markers := markers σ; bounce_calls := cs;
     timers := timers σ; now := now σ |}.

Definition set_timers (ts : list timer) (σ : state) : state :=
  {| bouncingMotionsCache := bouncingMotionsCache σ;
     bouncingMarkers := bouncingMarkers σ;
     default_bouncingOptions := default_bouncingOptions σ; any3d := any3d σ;
     markers := markers σ; bounce_calls := bounce_calls σ;
     timers := ts; now := now σ |}.

Definition set_now (t : Z) (σ : state) : state :=
  {| bouncingMotionsCache := bouncingMotionsCache σ;
     bouncingMarkers := bouncingMarkers σ;
     default_bouncingOptions := default_bouncingOptions σ; any3d := any3d σ;
     markers := markers σ; bounce_calls := bounce_calls σ;
     timers := timers σ; now := t |}.

Definition with_motion (f : BouncingMotion → BouncingMotion) (mk : Marker)
  : Marker :=
  {| own_bouncingOptions := own_bouncingOptions mk;
     bouncingMotion := f (bouncingMotion mk);
     iconSize := iconSize mk; shadowSize := shadowSize mk;
     zIndex := zIndex mk;
     icon_style := icon_style mk; shadow_style := shadow_style mk |}.

Definition with_own_bouncingOptions (o : BouncingOptions) (mk : Marker)
  : Marker :=
  {| own_bouncingOptions := Some o;
     bouncingMotion := bouncingMotion mk;
     iconSize := iconSize mk; shadowSize := shadowSize mk;
     zIndex := zIndex mk;
     icon_style := icon_style mk; shadow_style := shadow_style mk |}.

Definition with_styles (icon shadow : css) (mk : Marker) : Marker :=
  {| own_bouncingOptions := own_bouncingOptions mk;
     bouncingMotion := bouncingMotion mk;
     iconSize := iconSize mk; shadowSize := shadowSize mk;
     zIndex := zIndex mk;
     icon_style := icon; shadow_style := shadow |}.

Definition with_isBouncing (b : bool) (mo : BouncingMotion) : BouncingMotion :=
  {| isBouncing := b; motion_x := motion_x mo; motion_y := motion_y mo;
     moveSteps := moveSteps mo; moveDelays := moveDelays mo;
     resizeSteps := resizeSteps mo; resizeDelays := resizeDelays mo;
     iconMoveTransforms := iconMoveTransforms mo;
     iconResizeTransforms := iconResizeTransforms mo;
     shadowMoveTransforms := shadowMoveTransforms mo;
     shadowResizeTransforms := shadowResizeTransforms mo;
     iconMovePoints := iconMovePoints mo;
     shadowMovePoints := shadowMovePoints mo |}.

Definition with_position (x y : Z) (mo : BouncingMotion) : BouncingMotion :=
  {| isBouncing := isBouncing mo; motion_x := x; motion_y := y;
     moveSteps := moveSteps mo; moveDelays := moveDelays mo;
     resizeSteps := resizeSteps mo; resizeDelays := resizeDelays mo;
     iconMoveTransforms := iconMoveTransforms mo;
     iconResizeTransforms := iconResizeTransforms mo;
     shadowMoveTransforms := shadowMoveTransforms mo;
     shadowResizeTransforms := shadowResizeTransforms mo;
     iconMovePoints := iconMovePoints mo;
     shadowMovePoints := shadowMovePoints mo |}.

Definition with_timeline (ms md rs rd : list jsnum) (mo : BouncingMotion)
  : BouncingMotion :=
  {| isBouncing := isBouncing mo;
     motion_x := motion_x mo; motion_y := motion_y mo;
     moveSteps := ms; moveDelays := md;
     resizeSteps := rs; resizeDelays := rd;
     iconMoveTransforms := iconMoveTransforms mo;
     iconResizeTransforms := iconResizeTransforms mo;
     shadowMoveTransforms := shadowMoveTransforms mo;
     shadowResizeTransforms := shadowResizeTransforms mo;
     iconMovePoints := iconMovePoints mo;
     shadowMovePoints := shadowMovePoints mo |}.

Definition with_times (t : option Z) (c : BounceCall) : BounceCall :=
  {| call_marker := call_marker c; call_bounceSpeed := call_bounceSpeed c;
     call_elastic := call_elastic c; call_is3d := call_is3d c;
     call_moveSteps := call_moveSteps c; call_moveDelays := call_moveDelays c;
     call_resizeSteps := call_resizeSteps c;
     call_resizeDelays := call_resizeDelays c;
     call_times := t |}.

Definition update_marker (m : nat) (f : Marker → Marker) (σ : state) : state :=
  set_markers (alter f m (markers σ)) σ.

(** [marker._bouncingOptions]: the marker's own object, or the prototype's
    read through the marker. *)
Definition bouncingOptions_of (σ : state) (mk : Marker) : BouncingOptions :=
  default (default_bouncingOptions σ) (own_bouncingOptions mk).

(** ** The registry of bouncing markers *)

(** [L.Marker.getBouncingMarkers] *)
Definition getBouncingMarkers (σ : state) : list nat := bouncingMarkers σ.

(** [marker._bouncingMotion.isBouncing = false] *)
Definition stop_marker (m : nat) (σ : state) : state :=
  update_marker m (with_motion (with_isBouncing false)) σ.

(** [L.Marker.prototype.isBouncing] *)
Definition Marker_isBouncing (σ : state) (m : nat) : bool :=
  match markers σ !! m with
  | Some mk => isBouncing (bouncingMotion mk)
  | None => false
  end.

(** [marker._bouncingOptions.exclusif] *)
Definition Marker_exclusif (σ : state) (m : nat) : bool :=
  match markers σ !! m with
  | Some mk => exclusif (bouncingOptions_of σ mk)
  | None => false
  end.

(** [while (marker = L.Marker._bouncingMarkers.shift())
       { marker._bouncingMotion.isBouncing = false; }]
    [queue] is the array before the [shift]. *)
Fixpoint stopBouncingMarkers_loop (queue : list nat) (σ : state) : state :=
  match queue with
  | [] => set_bouncingMarkers [] σ
  | marker :: rest =>
      stopBouncingMarkers_loop rest
        (stop_marker marker (set_bouncingMarkers rest σ))
  end.

Definition stopBouncingMarkers (σ : state) : state :=
  stopBouncingMarkers_loop (bouncingMarkers σ) σ.

(** [while (i--) { if (L.Marker._bouncingMarkers[i]._bouncingOptions.exclusif)
       { ...isBouncing = false; L.Marker._bouncingMarkers.splice(i, 1); } }] *)
Fixpoint _stopEclusifMarkerBouncing_loop (i : nat) (σ : state) : state :=
  match i with
  | O => σ
  | S i' =>
      _stopEclusifMarkerBouncing_loop i'
        match bouncingMarkers σ !! i' with
        | Some m =>
            if Marker_exclusif σ m
            then set_bouncingMarkers (delete i' (bouncingMarkers σ))
                   (stop_marker m σ)
            else σ
        | None => σ
        end
  end.

Definition _stopEclusifMarkerBouncing (σ : state) : state :=
  _stopEclusifMarkerBouncing_loop (length (bouncingMarkers σ)) σ.

Definition _addBouncingMarker (marker : nat) (exclusif : bool) (σ : state)
  : state :=
  let σ :=
    if exclusif || Marker_exclusif σ marker
    then stopBouncingMarkers σ
    else _stopEclusifMarkerBouncing σ in
  set_bouncingMarkers (bouncingMarkers σ ++ [marker]) σ.

(** [while (i--) { if (L.Marker._bouncingMarkers[i] == marker)
       { L.Marker._bouncingMarkers.splice(i, 1); break; } }] *)
Fixpoint _removeBouncingMarker_loop (i : nat) (marker : nat) (l : list nat)
  : list nat :=
  match i with
  | O => l
  | S i' =>
      match l !! i' with
      | Some m =>
          if decide (m = marker) then delete i' l
          else _removeBouncingMarker_loop i' marker l
      | None => _removeBouncingMarker_loop i' marker l
      end
  end.

Definition _removeBouncingMarker (marker : nat) (σ : state) : state :=
  set_bouncingMarkers
    (_removeBouncingMarker_loop (length (bouncingMarkers σ)) marker
       (bouncingMarkers σ))
    σ.

(** ** Options, timeline and visual states of a marker *)

(** [L.Marker.setBouncingOptions]: the static method, which writes the passed
    options into the prototype's object. *)
Definition L_Marker_setBouncingOptions (options : OptionsArg) (σ : state)
  : state :=
  set_default_bouncingOptions
    (merge_options options (default_bouncingOptions σ)) σ.

(** [x = f(...)] for a function without side effects, then the rest. *)
Definition assign {A : Type} (o : outcome A) (σ : state)
    (k : A → completion) : completion :=
  match o with
  | Returns a => k a
  | Throws e => Abrupt e σ
  | OutOfFuel => NoReturn
  end.

(** A method called on a reference that is no marker of the state. *)
Definition on_marker (m : nat) (σ : state) (k : Marker → completion)
  : completion :=
  match markers σ !! m with
  | Some mk => k mk
  | None => Abrupt TypeError σ
  end.

Definition with_moveSteps (a : list jsnum) (mo : BouncingMotion)
  : BouncingMotion :=
  with_timeline a (moveDelays mo) (resizeSteps mo) (resizeDelays mo) mo.
Definition with_moveDelays (a : list jsnum) (mo : BouncingMotion)
  : BouncingMotion :=
  with_timeline (moveSteps mo) a (resizeSteps mo) (resizeDelays mo) mo.
Definition with_resizeSteps (a : list jsnum) (mo : BouncingMotion)
  : BouncingMotion :=
  with_timeline (moveSteps mo) (moveDelays mo) a (resizeDelays mo) mo.
Definition with_resizeDelays (a : list jsnum) (mo : BouncingMotion)
  : BouncingMotion :=
  with_timeline (moveSteps mo) (moveDelays mo) (resizeSteps mo) a mo.

(** [this._bouncingMotion.f = g(..., prefix)] for [g] one of [calculateSteps]
    and [calculateDelays]. *)
Definition assign_timeline (m : nat)
    (r : option (list jsnum * gmap string (list jsnum)))
    (f : list jsnum → BouncingMotion → BouncingMotion) (σ : state)
  : completion :=
  match r with
  | Some (a, c) =>
      Normal (update_marker m (with_motion (f a)) (set_bouncingMotionsCache c σ))
  | None => NoReturn
  end.

Definition _calculateTimeline (fuel : nat) (m : nat) (σ : state)
  : completion :=
  on_marker m σ (λ mk,
    let o := bouncingOptions_of σ mk in
    and_then
      (assign_timeline m
         (calculateSteps fuel (bounceHeight o) "moveSteps_"
            (bouncingMotionsCache σ))
         with_moveSteps σ) (λ σ,
    and_then
      (assign_timeline m
         (calculateDelays fuel (bounceHeight o) (bounceSpeed o) "moveDelays_"
            (bouncingMotionsCache σ))
         with_moveDelays σ) (λ σ,
    and_then
      (assign_timeline m
         (calculateSteps fuel (contractHeight o) "resizeSteps_"
            (bouncingMotionsCache σ))
         with_resizeSteps σ) (λ σ,
      assign_timeline m
        (calculateDelays fuel (contractHeight o) (contractSpeed o)
           "resizeDelays_" (bouncingMotionsCache σ))
        with_resizeDelays σ)))).

Definition with_iconMoveTransforms (t : jsarray matrix3d) (mo : BouncingMotion)
  : BouncingMotion :=
  {| isBouncing := isBouncing mo;
     motion_x := motion_x mo; motion_y := motion_y mo;
     moveSteps := moveSteps mo; moveDelays := moveDelays mo;
     resizeSteps := resizeSteps mo; resizeDelays := resizeDelays mo;
     iconMoveTransforms := Some t;
     iconResizeTransforms := iconResizeTransforms mo;
     shadowMoveTransforms := shadowMoveTransforms mo;
     shadowResizeTransforms := shadowResizeTransforms mo;
     iconMovePoints := iconMovePoints mo;
     shadowMovePoints := shadowMovePoints mo |}.

Definition with_iconResizeTransforms (t : jsarray matrix3d)
    (mo : BouncingMotion) : BouncingMotion :=
  {| isBouncing := isBouncing mo;
     motion_x := motion_x mo; motion_y := motion_y mo;
     moveSteps := moveSteps mo; moveDelays := moveDelays mo;
     resizeSteps := resizeSteps mo; resizeDelays := resizeDelays mo;
     iconMoveTransforms := iconMoveTransforms mo;
     iconResizeTransforms := Some t;
     shadowMoveTransforms := shadowMoveTransforms mo;
     shadowResizeTransforms := shadowResizeTransforms mo;
     iconMovePoints := iconMovePoints mo;
     shadowMovePoints := shadowMovePoints mo |}.

Definition with_shadowMoveTransforms (t : jsarray matrix3d)
    (mo : BouncingMotion) : BouncingMotion :=
  {| isBouncing := isBouncing mo;
     motion_x := motion_x mo; motion_y := motion_y mo;
     moveSteps := moveSteps mo; moveDelays := moveDelays mo;
     resizeSteps := resizeSteps mo; resizeDelays := resizeDelays mo;
     iconMoveTransforms := iconMoveTransforms mo;
     iconResizeTransforms := iconResizeTransforms mo;
     shadowMoveTransforms := Some t;
     shadowResizeTransforms := shadowResizeTransforms mo;
     iconMovePoints := iconMovePoints mo;
     shadowMovePoints := shadowMovePoints mo |}.

Definition with_shadowResizeTransforms (t : jsarray matrix3d)
    (mo : BouncingMotion) : BouncingMotion :=
  {| isBouncing := isBouncing mo;
     motion_x := motion_x mo; motion_y := motion_y mo;
     moveSteps := moveSteps mo; moveDelays := moveDelays mo;
     resizeSteps := resizeSteps mo; resizeDelays := resizeDelays mo;
     iconMoveTransforms := iconMoveTransforms mo;
     iconResizeTransforms := iconResizeTransforms mo;
     shadowMoveTransforms := shadowMoveTransforms mo;
     shadowResizeTransforms := Some t;
     iconMovePoints := iconMovePoints mo;
     shadowMovePoints := shadowMovePoints mo |}.

Definition with_iconMovePoints (t : jsarray (Z * Z)) (mo : BouncingMotion)
  : BouncingMotion :=
  {| isBouncing := isBouncing mo;
     motion_x := motion_x mo; motion_y := motion_y mo;
     moveSteps := moveSteps mo; moveDelays := moveDelays mo;
     resizeSteps := resizeSteps mo; resizeDelays := resizeDelays mo;
     iconMoveTransforms := iconMoveTransforms mo;
     iconResizeTransforms := iconResizeTransforms mo;
     shadowMoveTransforms := shadowMoveTransforms mo;
     shadowResizeTransforms := shadowResizeTransforms mo;
     iconMovePoints := Some t;
     shadowMovePoints := shadowMovePoints mo |}.

Definition with_shadowMovePoints (t : list (Z * Z)) (mo : BouncingMotion)
  : BouncingMotion :=
  {| isBouncing := isBouncing mo;
     motion_x := motion_x mo; motion_y := motion_y mo;
     moveSteps := moveSteps mo; moveDelays := moveDelays mo;
     resizeSteps := resizeSteps mo; resizeDelays := resizeDelays mo;
     iconMoveTransforms := iconMoveTransforms mo;
     iconResizeTransforms := iconResizeTransforms mo;
     shadowMoveTransforms := shadowMoveTransforms mo;
     shadowResizeTransforms := shadowResizeTransforms mo;
     iconMovePoints := iconMovePoints mo;
     shadowMovePoints := Some t |}.

Section Compile.

Variables Math_cos Math_sin : Q → Q.
Variable Math_PI : Q.

(** The options the plugin installs in [L.Marker.prototype]. *)
Definition initial_bouncingOptions : BouncingOptions :=
  {| bounceHeight := 15; contractHeight := 12;
     bounceSpeed := 52; contractSpeed := 52;
     shadowAngle := (- Math_PI / 4)%Q;
     elastic := true; exclusif := false |}.

(** The state once the plugin is loaded; [is3d] is [L.Browser.any3d]. *)
Definition initial_state (is3d : bool) : state :=
  {| bouncingMotionsCache := ∅; bouncingMarkers := [];
     default_bouncingOptions := initial_bouncingOptions; any3d := is3d;
     markers := ∅; bounce_calls := []; timers := []; now := 0 |}.

Definition _calculateTransforms (fuel : nat) (m : nat) (σ : state)
  : completion :=
  on_marker m σ (λ mk,
    let o := bouncingOptions_of σ mk in
    let mo := bouncingMotion mk in
    if any3d σ then
      assign (calculateIconMoveTransforms fuel (motion_x mo) (motion_y mo)
                (bounceHeight o)) σ (λ t,
      let σ := update_marker m (with_motion (with_iconMoveTransforms t)) σ in
      assign (calculateIconResizeTransforms fuel (motion_x mo) (motion_y mo)
                (snd (iconSize mk)) (contractHeight o)) σ (λ t,
      let σ := update_marker m (with_motion (with_iconResizeTransforms t)) σ in
      assign (calculateShadowMoveTransforms Math_cos Math_sin fuel
                (motion_x mo) (motion_y mo) (bounceHeight o) (shadowAngle o))
        σ (λ t,
      let σ := update_marker m (with_motion (with_shadowMoveTransforms t)) σ in
      assign (calculateIconResizeTransforms fuel (motion_x mo) (motion_y mo)
                (snd (shadowSize mk)) (contractHeight o)) σ (λ t,
      Normal
        (update_marker m (with_motion (with_shadowResizeTransforms t)) σ)))))
    else
      assign (calculateIconMovePoints (motion_x mo) (motion_y mo)
                (bounceHeight o)) σ (λ t,
      let σ := update_marker m (with_motion (with_iconMovePoints t)) σ in
      assign (calculateShadowMovePoints Math_cos Math_sin fuel
                (motion_x mo) (motion_y mo) (bounceHeight o) (shadowAngle o))
        σ (λ t,
      Normal (update_marker m (with_motion (with_shadowMovePoints t)) σ)))).

(** [L.Marker.prototype.setBouncingOptions] *)
Definition setBouncingOptions (fuel : nat) (m : nat) (options : OptionsArg)
    (σ : state) : completion :=
  on_marker m σ (λ mk,
    let σ :=
      update_marker m
        (with_own_bouncingOptions
           (merge_options options (default_bouncingOptions σ))) σ in
    and_then (_calculateTimeline fuel m σ) (_calculateTransforms fuel m)).

(** [L.Marker.prototype.initialize], for the marker under construction [m];
    the sizes of its icon and shadow and its [_zIndex] are Leaflet's. *)
Definition initialize (fuel : nat) (m : nat) (icon shadow : Z * Z) (z : Z)
    (σ : state) : completion :=
  let mk :=
    {| own_bouncingOptions := None;
       bouncingMotion :=
         {| isBouncing := false; motion_x := 0; motion_y := 0;
            moveSteps := []; moveDelays := [];
            resizeSteps := []; resizeDelays := [];
            iconMoveTransforms := None; iconResizeTransforms := None;
            shadowMoveTransforms := None; shadowResizeTransforms := None;
            iconMovePoints := None; shadowMovePoints := None |};
       iconSize := icon; shadowSize := shadow; zIndex := z;
       icon_style := base_css; shadow_style := base_css |} in
  _calculateTimeline fuel m (set_markers (<[m := mk]> (markers σ)) σ).

(** [L.Marker.prototype._setPos] *)
Definition _setPos (fuel : nat) (m : nat) (pos : Z * Z) (σ : state)
  : completion :=
  _calculateTransforms fuel m
    (update_marker m (with_motion (with_position (fst pos) (snd pos))) σ).

End Compile.

(** ** The bounce scheduler *)

(** Time is the time of the timers: a callback runs at the moment it is due,
    and runs to its end before the next one.  Timers that are due at the same
    moment fire in the order in which they were set. *)

(** The delay [setTimeout] makes of its second argument: not a number or a
    negative number count as [0]. *)
Definition delay_ms (delay : option jsnum) : Z :=
  match delay with
  | Some (Num d) => Z.max 0 d
  | _ => 0
  end.

Fixpoint insert_timer (t : timer) (ts : list timer) : list timer :=
  match ts with
  | [] => [t]
  | t' :: ts' =>
      if timer_due t <? timer_due t' then t :: ts
      else t' :: insert_timer t ts'
  end.

Definition setTimeout (f : callback) (delay : option jsnum) (σ : state)
  : state :=
  set_timers (insert_timer (Timer (now σ + delay_ms delay) f) (timers σ)) σ.

(** [a[i]] for an array of numbers without holes. *)
Definition num_at (a : list jsnum) (i : Z) : option jsnum :=
  if i <? 0 then None else a !! Z.to_nat i.

(** [transforms[step]] *)
Definition transform_at (transforms : jsarray matrix3d) (step : option jsnum)
  : option matrix3d :=
  match step with
  | Some (Num i) => js_get transforms i
  | _ => None
  end.

(** [while (i--) { setTimeout(makeStep, delays[i], steps[i]); }] *)
Fixpoint schedule_steps (makeStep : option jsnum → callback)
    (delays steps : list jsnum) (i : nat) (σ : state) : state :=
  match i with
  | O => σ
  | S i' =>
      schedule_steps makeStep delays steps i'
        (setTimeout (makeStep (steps !! i')) (delays !! i') σ)
  end.

(** [if (times !== null) { if (!--times) { motion.isBouncing = false; } }] *)
Definition countdown (call : nat) (c : BounceCall) (σ : state) : state :=
  match call_times c with
  | Some times =>
      let times := times - 1 in
      let σ :=
        set_bounce_calls
          (<[call := with_times (Some times) c]> (bounce_calls σ)) σ in
      if times =? 0 then stop_marker (call_marker c) σ else σ
  | None => σ
  end.

(** [move], in the call [call] of [bounce]. *)
Definition move (call : nat) (σ : state) : state :=
  match bounce_calls σ !! call with
  | None => σ
  | Some c =>
      let σ := countdown call c σ in
      let nbMoveSteps := length (call_moveSteps c) in
      let σ :=
        schedule_steps
          (if call_is3d c then MakeMoveStep call else MakeMoveStepNo3D call)
          (call_moveDelays c) (call_moveSteps c) nbMoveSteps σ in
      setTimeout (MoveEnd call)
        (num_at (call_moveDelays c) (Z.of_nat nbMoveSteps - 1)) σ
  end.

(** [resize], in the call [call] of [bounce]. *)
Definition resize (call : nat) (σ : state) : state :=
  match bounce_calls σ !! call with
  | None => σ
  | Some c =>
      let nbResizeSteps := length (call_resizeSteps c) in
      let σ :=
        schedule_steps (MakeResizeStep call)
          (call_resizeDelays c) (call_resizeSteps c) nbResizeSteps σ in
      setTimeout (ResizeEnd call)
        (num_at (call_resizeDelays c) (Z.of_nat nbResizeSteps - 1)) σ
  end.

(** The function [move] hands to [setTimeout] for the end of the movement. *)
Definition moveEnd (call : nat) (σ : state) : state :=
  match bounce_calls σ !! call with
  | None => σ
  | Some c =>
      if call_elastic c && call_is3d c then resize call σ
      else if Marker_isBouncing σ (call_marker c)
      then setTimeout (MoveAgain call) (Some (Num (call_bounceSpeed c))) σ
      else σ
  end.

(** The function [resize] hands to [setTimeout] for the end of the
    contraction. *)
Definition resizeEnd (call : nat) (σ : state) : state :=
  match bounce_calls σ !! call with
  | None => σ
  | Some c =>
      if Marker_isBouncing σ (call_marker c) then move call σ else σ
  end.

(** [makeMoveStep] and [makeResizeStep]: the style of the icon gets the
    z-index and the transform of the step, the style of the shadow the
    transform of the step.  Reading a step of arrays that were never computed
    raises. *)
Definition make_transform_step (m : nat)
    (icon_transforms shadow_transforms : BouncingMotion
                                         → option (jsarray matrix3d))
    (step : option jsnum) (σ : state) : completion :=
  on_marker m σ (λ mk,
    match icon_transforms (bouncingMotion mk) with
    | None => Abrupt TypeError σ
    | Some ts =>
        let icon := Css (Some (zIndex mk)) (Some (transform_at ts step)) None in
        let σ := update_marker m (with_styles icon (shadow_style mk)) σ in
        match shadow_transforms (bouncingMotion mk) with
        | None => Abrupt TypeError σ
        | Some ts =>
            Normal
              (update_marker m
                 (with_styles icon (Css None (Some (transform_at ts step)) None))
                 σ)
        end
    end).

Definition makeMoveStep (m : nat) (step : option jsnum) (σ : state)
  : completion :=
  make_transform_step m iconMoveTransforms shadowMoveTransforms step σ.

Definition makeResizeStep (m : nat) (step : option jsnum) (σ : state)
  : completion :=
  make_transform_step m iconResizeTransforms shadowResizeTransforms step σ.

(** What [points[step]] reads. *)
Definition move_point_at {A : Type} (get : Z → option A)
    (step : option jsnum) : option A :=
  match step with
  | Some (Num i) => get i
  | _ => None
  end.

(** [makeMoveStepNo3D]: the position of the shadow is written to the style of
    the icon, as in the source. *)
Definition makeMoveStepNo3D (m : nat) (step : option jsnum) (σ : state)
  : completion :=
  on_marker m σ (λ mk,
    let icon := Css (Some (zIndex mk)) None None in
    let σ := update_marker m (with_styles icon (shadow_style mk)) σ in
    match iconMovePoints (bouncingMotion mk) with
    | None => Abrupt TypeError σ
    | Some points =>
        match move_point_at (js_get points) step with
        | None => Abrupt TypeError σ
        | Some p =>
            let icon := Css (Some (zIndex mk)) None (Some p) in
            let σ := update_marker m (with_styles icon base_css) σ in
            match shadowMovePoints (bouncingMotion mk) with
            | None => Abrupt TypeError σ
            | Some points =>
                match move_point_at (point_at points) step with
                | None => Abrupt TypeError σ
                | Some p =>
                    Normal
                      (update_marker m
                         (with_styles (Css (Some (zIndex mk)) None (Some p))
                            base_css) σ)
                end
            end
        end
    end).

(** The state a callback leaves behind; an exception ends the callback and
    nothing else. *)
Definition settled (c : completion) (σ : state) : state :=
  match c with
  | Normal σ' => σ'
  | Abrupt _ σ' => σ'
  | NoReturn => σ
  end.

Definition call_marker_of (σ : state) (call : nat) : option nat :=
  call_marker <$> bounce_calls σ !! call.

Definition run_callback (f : callback) (σ : state) : state :=
  match f with
  | MakeMoveStep call step =>
      match call_marker_of σ call with
      | Some m => settled (makeMoveStep m step σ) σ
      | None => σ
      end
  | MakeMoveStepNo3D call step =>
      match call_marker_of σ call with
      | Some m => settled (makeMoveStepNo3D m step σ) σ
      | None => σ
      end
  | MakeResizeStep call step =>
      match call_marker_of σ call with
      | Some m => settled (makeResizeStep m step σ) σ
      | None => σ
      end
  | MoveEnd call => moveEnd call σ
  | ResizeEnd call => resizeEnd call σ
  | MoveAgain call => move call σ
  end.

(** The next timer fires. *)
Definition tick (σ : state) : option state :=
  match timers σ with
  | [] => None
  | t :: ts =>
      Some (run_callback (timer_callback t)
              (set_now (timer_due t) (set_timers ts σ)))
  end.

(** [n] timers fire, or fewer if none is left. *)
Fixpoint run (n : nat) (σ : state) : state :=
  match n with
  | O => σ
  | S n' =>
      match tick σ with
      | Some σ' => run n' σ'
      | None => σ
      end
  end.

(** [L.Marker.prototype.bounce]; [times] is [None] when the method is called
    without argument. *)
Definition bounce (m : nat) (times : option Z) (σ : state) : state :=
  match markers σ !! m with
  | None => σ
  | Some mk =>
      let bouncingOptions := bouncingOptions_of σ mk in
      let motion := bouncingMotion mk in
      let c :=
        {| call_marker := m;
           call_bounceSpeed := bounceSpeed bouncingOptions;
           call_elastic := elastic bouncingOptions;
           call_is3d := any3d σ;
           call_moveSteps := moveSteps motion;
           call_moveDelays := moveDelays motion;
           call_resizeSteps := resizeSteps motion;
           call_resizeDelays := resizeDelays motion;
           call_times := times |} in
      let call := length (bounce_calls σ) in
      let σ := set_bounce_calls (bounce_calls σ ++ [c]) σ in
      let σ := update_marker m (with_motion (with_isBouncing true)) σ in
      let σ := _addBouncingMarker m (exclusif bouncingOptions) σ in
      move call σ
  end.

(** [L.Marker.prototype.stopBouncing] *)
Definition stopBouncing (m : nat) (σ : state) : state :=
  _removeBouncingMarker m (stop_marker m σ).

(** [L.Marker.prototype.toogleBouncing] *)
Definition toogleBouncing (m : nat) (σ : state) : state :=
  if Marker_isBouncing σ m then stopBouncing m σ else bounce m None σ.

(** ** Style texts: [parseCssText], [renderCssText] and [onAdd] *)

(** A style text is a string of bytes.  A character outside ASCII is a
    sequence of bytes none of which is a character the pattern names, so that
    the pattern treats the bytes as it treats the character. *)

(** [[\w-]]: a letter, a digit, the underscore or the hyphen. *)
Definition is_word_or_hyphen (c : ascii) : bool :=
  let n := N_of_ascii c in
  ((48 <=? n) && (n <=? 57) || (65 <=? n) && (n <=? 90)
   || (97 <=? n) && (n <=? 122) || (n =? 95) || (n =? 45))%N.

(** [[^;]] *)
Definition is_not_semicolon (c : ascii) : bool := negb (Ascii.eqb c ";").

(** The longest prefix of [s] whose characters satisfy [P], and the rest of
    [s]: what a greedy [[...]+] takes before it gives anything back. *)
Fixpoint span (P : ascii → bool) (s : string) : string * string :=
  match s with
  | EmptyString => (EmptyString, EmptyString)
  | String c s' =>
      if P c then let '(taken, rest) := span P s' in (String c taken, rest)
      else (EmptyString, s)
  end.

(** [s] without its prefix [p], if it starts with [p]. *)
Fixpoint after_prefix (p s : string) : option string :=
  match p, s with
  | EmptyString, _ => Some s
  | String a p', String b s' =>
      if Ascii.eqb a b then after_prefix p' s' else None
  | String _ _, EmptyString => None
  end.

(** [/([\w-]+): ([^;]+);/] matched at the start of [s]: the two groups and
    the text after the match.  Neither [+] can give back a character: the
    character after a shorter key would be one of the key, not [:], and the
    character after a shorter value would not be [;]. *)
Definition regStyle_match (s : string) : option (string * string * string) :=
  let '(key, s) := span is_word_or_hyphen s in
  if decide (key = EmptyString) then None
  else
    s ← after_prefix ": " s;
    let '(value, s) := span is_not_semicolon s in
    if decide (value = EmptyString) then None
    else
      s ← after_prefix ";" s;
      Some (key, value, s).

(** [regStyle.exec(cssText)], for [rest] the text from [regStyle.lastIndex]
    on: the leftmost match, and the text after it, where the next search
    begins; [None] for [null], after which [lastIndex] is [0] again. *)
Fixpoint regStyle_exec (rest : string) : option (string * string * string) :=
  match regStyle_match rest with
  | Some found => Some found
  | None =>
      match rest with
      | EmptyString => None
      | String _ rest' => regStyle_exec rest'
      end
  end.

(** An object whose properties are strings, as the list of its properties in
    the order in which [for (key in ...)] visits them: those whose key is an
    array index by ascending index, then the others in the order in which
    they were created. *)
Abbreviation style_object := (list (string * string)).

Definition is_digit (c : ascii) : bool :=
  let n := N_of_ascii c in ((48 <=? n) && (n <=? 57))%N.

Fixpoint digits_value (s : string) (value : N) : option N :=
  match s with
  | EmptyString => Some value
  | String c s' =>
      if is_digit c
      then digits_value s' (value * 10 + (N_of_ascii c - 48))%N
      else None
  end.

(** The array index a key is, if it is one: the decimal digits of a number
    below [2^32 - 1], without a leading zero. *)
Definition array_index (key : string) : option N :=
  match key with
  | EmptyString => None
  | String c key' =>
      if Ascii.eqb c "0"
      then if decide (key' = EmptyString) then Some 0%N else None
      else
        n ← digits_value key 0;
        if (n <? 2 ^ 32 - 1)%N then Some n else None
  end.

(** A new property whose key is the array index [n] takes its place among
    the array indices. *)
Fixpoint obj_insert_index (n : N) (key value : string) (o : style_object)
  : style_object :=
  match o with
  | [] => [(key, value)]
  | (key', value') :: o' =>
      match array_index key' with
      | Some n' =>
          if (n' <? n)%N
          then (key', value') :: obj_insert_index n key value o'
          else (key, value) :: o
      | None => (key, value) :: o
      end
  end.

(** [o[key] = value] for an object made by [{}].  The key [__proto__] names
    the accessor of [Object.prototype], whose setter ignores a string. *)
Definition obj_set (o : style_object) (key value : string) : style_object :=
  if decide (key = "__proto__") then o
  else if decide (key ∈ o.*1)
  then (λ p, if decide (p.1 = key) then (key, value) else p) <$> o
  else
    match array_index key with
    | Some n => obj_insert_index n key value o
    | None => o ++ [(key, value)]
    end.

(** [delete o[key]] *)
Definition obj_delete (key : string) (o : style_object) : style_object :=
  filter (λ p, p.1 ≠ key) o.

(** [while (match) { styleDefinitions[match[1]] = match[2];
       match = regStyle.exec(cssText); }]
    [found] is the result of the last [exec]. *)
Fixpoint parseCssText_loop (fuel : nat)
    (found : option (string * string * string))
    (styleDefinitions : style_object) : option style_object :=
  match fuel with
  | O => None
  | S fuel' =>
      match found with
      | None => Some styleDefinitions
      | Some (key, value, rest) =>
          parseCssText_loop fuel' (regStyle_exec rest)
            (obj_set styleDefinitions key value)
      end
  end.

(** [parseCssText].  Every call leaves [regStyle.lastIndex] at [0], where the
    last [exec] put it, so that every call searches from the start. *)
Definition parseCssText (fuel : nat) (cssText : string)
  : option style_object :=
  parseCssText_loop fuel (regStyle_exec cssText) [].

(** [for (key in styleDefinitions)
       { cssText += key + ': ' + styleDefinitions[key] + '; ' }] *)
Fixpoint renderCssText_loop (keys : style_object) (cssText : string) : string :=
  match keys with
  | [] => cssText
  | (key, value) :: keys' =>
      renderCssText_loop keys' (cssText +:+ key +:+ ": " +:+ value +:+ "; ")
  end.

Definition renderCssText (styleDefinitions : style_object) : string :=
  renderCssText_loop styleDefinitions "".

(** [L.Marker.prototype.onAdd] after Leaflet's own [onAdd]: from the style
    texts of the icon and of the shadow, [baseIconCssText] and
    [baseShadowCssText]. *)
Definition onAdd (fuel : nat) (iconCssText shadowCssText : string)
  : option (string * string) :=
  styles ← parseCssText fuel iconCssText;
  let styles := obj_delete "transform" styles in
  let styles := obj_delete "z-index" styles in
  let baseIconCssText := renderCssText styles in
  styles ← parseCssText fuel shadowCssText;
  let styles := obj_delete "transform" styles in
  Some (baseIconCssText, renderCssText styles).

(** ** What the proofs speak of *)

(** The two phases of a bounce and the key prefixes [_calculateTimeline]
    passes for them. *)
Inductive phase : Type := Move | Resize.

Definition steps_prefix (p : phase) : string :=
  match p with Move => "moveSteps_" | Resize => "resizeSteps_" end.

Definition delays_prefix (p : phase) : string :=
  match p with Move => "moveDelays_" | Resize => "resizeDelays_" end.

(** *** The sequences the calculator is specified to produce *)

(** [1, 2, ..., h, h-1, ..., 1, 0] *)
Definition steps_seq (h : Z) : list jsnum :=
  Num <$> (seqZ 1 h ++ reverse (seqZ 0 h)).

(** The time between step [i] and step [i+1] on the way out. *)
Definition delta_at (h s i : Z) : Z :=
  if i =? 0 then 0
  else if i =? h then s
  else Math_round (inject_Z s / inject_Z (h - i))%Q.

(** The deltas of the way out, positions [0..h], followed by those of
    positions [h-1..0]. *)
Definition mirrored_deltas (h s : Z) : list Z :=
  let out := delta_at h s <$> seqZ 0 (h + 1) in
  out ++ reverse (take (Z.to_nat h) out).

(** Running sums: [t + x1, t + x1 + x2, ...]. *)
Fixpoint cumsum (t : Z) (l : list Z) : list Z :=
  match l with
  | [] => []
  | x :: l' => (t + x) :: cumsum (t + x) l'
  end.

Definition delays_seq (h s : Z) : list jsnum :=
  Num <$> cumsum 0 (mirrored_deltas h s).

(** What a cache filled by [_calculateTimeline] holds: under a steps key the
    steps of that height, under a delays key the delays of that height and
    speed.  Heights for which the calculator does not return leave no entry. *)
Definition cache_ok (cache : motions_cache) : Prop :=
  ∀ key v, cache !! key = Some v →
    (∃ p h, 0 ≤ h ∧ key = steps_prefix p +:+ pretty h ∧ v = steps_seq h)
    ∨ (∃ p h s, 1 ≤ h
         ∧ key = delays_prefix p +:+ pretty h +:+ "_" +:+ pretty s
         ∧ v = delays_seq h s).

(** Loop invariant of the first loop of [calculateDelays]: the array has
    [h + 1] slots, and slot [0] and the slots [i..h] hold their deltas. *)
Definition deltas_filled (h s i : Z) (a : jsarray Z) : Prop :=
  length a = Z.to_nat (h + 1)
  ∧ ∀ j, j = 0 ∨ i ≤ j ≤ h → a !! Z.to_nat j = Some (Some (delta_at h s j)).

(** A string in which the separator of the cache keys does not occur. *)
Fixpoint underscore_free (s : string) : Prop :=
  match s with
  | EmptyString => True
  | String c s' => c ≠ "_"%char ∧ underscore_free s'
  end.

(** A slot that holds no transform or one that leaves widths as they are. *)
Definition vertical_only (slot : option matrix3d) : Prop :=
  ∀ t, slot = Some t → m_scaleX t = 1%Q.

(** The timeline a marker gets from its options. *)
Definition timeline_of (o : BouncingOptions) (mo : BouncingMotion)
  : BouncingMotion :=
  with_timeline
    (steps_seq (bounceHeight o)) (delays_seq (bounceHeight o) (bounceSpeed o))
    (steps_seq (contractHeight o))
    (delays_seq (contractHeight o) (contractSpeed o)) mo.

(** The visual states [_calculateTransforms] stores where [L.Browser.any3d]
    holds. *)
Definition transforms_of (im ir sm sr : jsarray matrix3d) (mo : BouncingMotion)
  : BouncingMotion :=
  with_shadowResizeTransforms sr
    (with_shadowMoveTransforms sm
       (with_iconResizeTransforms ir (with_iconMoveTransforms im mo))).

(** Loop invariant of the loops that fill an array of [n] slots from the
    last slot to the first: the array is still empty, or it has its [n]
    slots, and the slots [k..n-1] hold their values. *)
Definition filled_from {A : Type} (f : Z → A) (n k : Z) (t : jsarray A)
  : Prop :=
  (k = n ∧ t = [])
  ∨ (length t = Z.to_nat n
     ∧ ∀ j, k ≤ j < n → t !! Z.to_nat j = Some (Some (f j))).

(** The transforms of the movement of the icon, of its contraction and of
    the movement of the shadow, by the number of the slot. *)
Definition icon_move_transform (x y d : Z) : matrix3d :=
  Matrix3d 1 1 x (y - d).

Definition icon_resize_transform (x y height d : Z) : matrix3d :=
  Matrix3d 1 (inject_Z (height - d) / inject_Z height)%Q x (y + d).

Definition shadow_move_transform (p : Z * Z) : matrix3d :=
  Matrix3d 1 1 p.1 p.2.

(** From a point of a line to the next: each coordinate stays or moves by
    the step of its direction, and the point moves unless the line has no
    extent. *)
Definition line_step (dx dy sx sy : Z) (a b : Z * Z) : Prop :=
  (b.1 = a.1 ∨ b.1 = a.1 + sx) ∧ (b.2 = a.2 ∨ b.2 = a.2 + sy)
  ∧ (dx ≠ 0 ∨ dy ≠ 0 → b ≠ a).

(** The points [q] that follow [a] on a line. *)
Fixpoint line_from (dx dy sx sy : Z) (a : Z * Z) (q : list (Z * Z)) : Prop :=
  match q with
  | [] => True
  | b :: q' => line_step dx dy sx sy a b ∧ line_from dx dy sx sy b q'
  end.

(** *** Style objects *)

(** Every character of [s] satisfies [P]. *)
Fixpoint all_chars (P : ascii → bool) (s : string) : Prop :=
  match s with
  | EmptyString => True
  | String c s' => P c = true ∧ all_chars P s'
  end.

(** A key and a value the pattern of [regStyle] can have matched. *)
Definition declaration_ok (p : string * string) : Prop :=
  p.1 ≠ EmptyString ∧ all_chars is_word_or_hyphen p.1
  ∧ p.2 ≠ EmptyString ∧ all_chars is_not_semicolon p.2.

(** If [key'] is an array index, [key] is a smaller one. *)
Definition index_before (key key' : string) : Prop :=
  ∀ n, array_index key' = Some n →
       ∃ n', array_index key = Some n' ∧ (n' < n)%N.

(** The objects [parseCssText] makes: no key twice, no key [__proto__], the
    properties in the order of [for (key in ...)], and every property a
    declaration the pattern can match. *)
Definition style_ok (o : style_object) : Prop :=
  NoDup (o.*1) ∧ ("__proto__" ∉ o.*1)
  ∧ StronglySorted index_before (o.*1) ∧ Forall declaration_ok o.

(** ** Counting the timers a bounce has yet to fire *)

(** The resize animation follows the movement. *)
Definition elastic3d (c : BounceCall) : bool := call_elastic c && call_is3d c.

(** The count [move] has yet to reach zero from; [0] for [null]. *)
Definition times_left (c : BounceCall) : nat :=
  Z.to_nat (default 0 (call_times c)).

(** The timers that fire from a call of [move] that no further call of [move]
    follows: the steps, the end of the movement and, where the resize
    animation follows, its steps and its end. *)
Definition last_cost (c : BounceCall) : nat :=
  length (call_moveSteps c) + 1
  + (if elastic3d c then length (call_resizeSteps c) + 1 else 0).

(** The timers that fire from a call of [move] up to the next call. *)
Definition cycle_cost (c : BounceCall) : nat :=
  length (call_moveSteps c) + 1
  + (if elastic3d c then length (call_resizeSteps c) + 1 else 1).

(** The timers that fire from a call of [move] on; [b] is the marker's
    [isBouncing]. *)
Definition move_cost (b : bool) (c : BounceCall) : nat :=
  if b then last_cost c + (times_left c - 1) * cycle_cost c else last_cost c.

Definition resizeEnd_cost (b : bool) (c : BounceCall) : nat :=
  1 + (if b then move_cost b c else 0).

Definition moveEnd_cost (b : bool) (c : BounceCall) : nat :=
  1 + (if elastic3d c then length (call_resizeSteps c) + resizeEnd_cost b c
       else if b then 1 + move_cost b c else 0).

(** The timers that fire because of the callback [f], itself included. *)
Definition weight (σ : state) (f : callback) : nat :=
  match f with
  | MakeMoveStep _ _ | MakeMoveStepNo3D _ _ | MakeResizeStep _ _ => 1
  | MoveEnd call =>
      match bounce_calls σ !! call with
      | Some c => moveEnd_cost (Marker_isBouncing σ (call_marker c)) c
      | None => 1
      end
  | ResizeEnd call =>
      match bounce_calls σ !! call with
      | Some c => resizeEnd_cost (Marker_isBouncing σ (call_marker c)) c
      | None => 1
      end
  | MoveAgain call =>
      match bounce_calls σ !! call with
      | Some c => 1 + move_cost (Marker_isBouncing σ (call_marker c)) c
      | None => 1
      end
  end.

Definition timers_weight (σ : state) (ts : list timer) : nat :=
  sum_list_with (λ t, weight σ (timer_callback t)) ts.

Definition potential (σ : state) : nat := timers_weight σ (timers σ).

(** The call of [bounce] a callback belongs to. *)
Definition callback_call (f : callback) : nat :=
  match f with
  | MakeMoveStep call _ | MakeMoveStepNo3D call _ | MakeResizeStep call _
  | MoveEnd call | ResizeEnd call | MoveAgain call => call
  end.

(** [c'] is [c] after some calls of [move]. *)
Definition call_le (c' c : BounceCall) : Prop :=
  call_marker c' = call_marker c
  ∧ elastic3d c' = elastic3d c
  ∧ length (call_moveSteps c') = length (call_moveSteps c)
  ∧ length (call_resizeSteps c') = length (call_resizeSteps c)
  ∧ (times_left c' ≤ times_left c)%nat.

(** [σ'] has the calls of [σ], further counted down, and no marker bounces
    in [σ'] that does not in [σ]. *)
Definition state_le (σ' σ : state) : Prop :=
  (∀ call,
     match bounce_calls σ' !! call, bounce_calls σ !! call with
     | Some c', Some c => call_le c' c
     | None, None => True
     | _, _ => False
     end)
  ∧ (∀ m, Marker_isBouncing σ' m = true → Marker_isBouncing σ m = true).

(** A call whose marker bounces has a positive count left. *)
Definition counts_down (σ : state) (call : nat) : Prop :=
  ∀ c, bounce_calls σ !! call = Some c →
       Marker_isBouncing σ (call_marker c) = true →
       ∃ k, call_times c = Some k ∧ 1 ≤ k.

(** Every pending timer belongs to a call that counts down. *)
Definition finite_bounces (σ : state) : Prop :=
  ∀ t, t ∈ timers σ → counts_down σ (callback_call (timer_callback t)).

(** The callbacks that decide how the bounce goes on. *)
Definition continues (f : callback) : bool :=
  match f with
  | MoveEnd _ | ResizeEnd _ | MoveAgain _ => true
  | _ => false
  end.

(** While the marker [m] bounces, a timer is pending that will carry one of
    its bounces on. *)
Definition carried_on (m : nat) (σ : state) : Prop :=
  Marker_isBouncing σ m = true →
  ∃ t c, t ∈ timers σ
         ∧ continues (timer_callback t) = true
         ∧ bounce_calls σ !! callback_call (timer_callback t) = Some c
         ∧ call_marker c = m.

(** [σ'] differs from [σ] in nothing the scheduler's decisions depend on. *)
Definition same_bounces (σ σ' : state) : Prop :=
  bounce_calls σ' = bounce_calls σ
  ∧ timers σ' = timers σ
  ∧ ∀ m, Marker_isBouncing σ' m = Marker_isBouncing σ m.

(** ** Animations: bounces without end, the order of the timers, scenes *)

(** A count that [move] never brings to zero: none, or one that is not
    positive. *)
Definition never_zero (times : option Z) : Prop :=
  times = None ∨ ∃ k, times = Some k ∧ k ≤ 0.

(** Every pending timer belongs to a call of [bounce] whose count never
    reaches zero. *)
Definition endless_bounces (σ : state) : Prop :=
  ∀ t c, t ∈ timers σ →
         bounce_calls σ !! callback_call (timer_callback t) = Some c →
         never_zero (call_times c).

(** The timers [while (i--) { setTimeout(makeStep, delays[i], steps[i]); }]
    sets at the time [now] for the delays [ds], by the step's place in the
    timeline. *)
Definition step_timers (makeStep : option jsnum → callback) (now : Z)
    (ds : list Z) (steps : list jsnum) : list timer :=
  imap (λ i d, Timer (now + d) (makeStep (steps !! i))) ds.

(** What the scheduler and the registry leave of a call of [bounce]: all but
    the count. *)
Definition call_timeline (c : BounceCall) : BounceCall := with_times None c.

(** What the scheduler and the registry leave of a marker: all but the flag
    and the styles. *)
Definition marker_compiled (mk : Marker) : Marker :=
  with_styles base_css base_css (with_motion (with_isBouncing false) mk).

(** [σ'] has the calls and the markers of [σ], up to the counts, the flags
    and the styles. *)
Definition same_scene (σ σ' : state) : Prop :=
  (∀ j, call_timeline <$> bounce_calls σ' !! j
        = call_timeline <$> bounce_calls σ !! j)
  ∧ (∀ j, marker_compiled <$> markers σ' !! j
          = marker_compiled <$> markers σ !! j).

(** The call [call] of [bounce] is [C], up to its count, and the marker [m]
    is [M], up to its flag and its styles. *)
Definition in_scene (call m : nat) (C : BounceCall) (M : Marker) (σ : state)
  : Prop :=
  call_timeline <$> bounce_calls σ !! call = Some C
  ∧ marker_compiled <$> markers σ !! m = Some M.

(** The frame the marker [m] shows: the z-index and the transform in the
    style of its icon, the transform in the style of its shadow. *)
Definition shows (m : nat) (z : Z) (icon shadow : option matrix3d) (σ : state)
  : Prop :=
  ∃ mk, markers σ !! m = Some mk
        ∧ icon_style mk = Css (Some z) (Some icon) None
        ∧ shadow_style mk = Css None (Some shadow) None.

(** The marker was never placed by a step of the animation without 3D: it
    has no points of the movement, and neither [left] nor [top] was written
    to a style. *)
Definition never_placed (mk : Marker) : Prop :=
  iconMovePoints (bouncingMotion mk) = None
  ∧ shadowMovePoints (bouncingMotion mk) = None
  ∧ css_left_top (icon_style mk) = None
  ∧ css_left_top (shadow_style mk) = None.

(** No marker of the page was ever placed. *)
Definition no_points (σ : state) : Prop :=
  ∀ m mk, markers σ !! m = Some mk → never_placed mk.

(** ** The states a page can reach *)

(** What no scheduler callback and no registry operation changes. *)
Definition page_fixed (σ : state)
  : gmap string (list jsnum) * BouncingOptions * bool :=
  (bouncingMotionsCache σ, default_bouncingOptions σ, any3d σ).

(** The call ended, normally or by an exception, and left [σ']. *)
Definition settles (c : completion) (σ' : state) : Prop :=
  c = Normal σ' ∨ ∃ e, c = Abrupt e σ'.

Section Reachable.

Variables Math_cos Math_sin : Q → Q.
Variable Math_PI : Q.

(** The states of a page on which the plugin was loaded, markers were created
    and moved, the methods of the plugin were called and timers fired, in any
    order. *)
Inductive reachable : state → Prop :=
  | reachable_loaded is3d :
      reachable (initial_state Math_PI is3d)
  | reachable_default_options σ options :
      reachable σ → reachable (L_Marker_setBouncingOptions options σ)
  | reachable_initialize σ fuel m icon shadow z σ' :
      reachable σ → settles (initialize fuel m icon shadow z σ) σ' →
      reachable σ'
  | reachable_setPos σ fuel m pos σ' :
      reachable σ → settles (_setPos Math_cos Math_sin fuel m pos σ) σ' →
      reachable σ'
  | reachable_setBouncingOptions σ fuel m options σ' :
      reachable σ →
      settles (setBouncingOptions Math_cos Math_sin fuel m options σ) σ' →
      reachable σ'
  | reachable_bounce σ m times :
      reachable σ → reachable (bounce m times σ)
  | reachable_stopBouncing σ m :
      reachable σ → reachable (stopBouncing m σ)
  | reachable_toogleBouncing σ m :
      reachable σ → reachable (toogleBouncing m σ)
  | reachable_stopBouncingMarkers σ :
      reachable σ → reachable (stopBouncingMarkers σ)
  | reachable_tick σ σ' :
      reachable σ → tick σ = Some σ' → reachable σ'.

End Reachable.

(** ** A page to run the plugin on *)

(** Values for [Math.PI] and for the cosine and the sine of the default
    shadow angle; every other angle gets the same values, which is all the
    examples below need. *)
Definition example_PI : Q := 355 # 113.
Definition example_cos (angle : Q) : Q := 7 # 10.
Definition example_sin (angle : Q) : Q := - 7 # 10.

(** A page with 3D transforms where the plugin was just loaded. *)
Definition example_page : state := initial_state example_PI true.

(** The page after [new L.Marker(...)] with the default icon was added to the
    map at the layer point [(100, 200)]; the marker is the reference [0]. *)
Definition example_marker_page : state :=
  let σ := settled (initialize 20 0 (25, 41) (41, 41) 0 example_page)
             example_page in
  settled (_setPos example_cos example_sin 20 0 (100, 200) σ) σ.

(** The same page with a second marker, the reference [1]. *)
Definition example_two_markers_page : state :=
  let σ := settled (initialize 20 1 (25, 41) (41, 41) 0 example_marker_page)
             example_marker_page in
  settled (_setPos example_cos example_sin 20 1 (300, 200) σ) σ.

(** [{bounceSpeed: 0}] *)
Definition example_zero_speed : OptionsArg :=
  {| arg_bounceHeight := None; arg_contractHeight := None;
     arg_bounceSpeed := Some 0; arg_contractSpeed := None;
     arg_shadowAngle := None; arg_elastic := None; arg_exclusif := None |}.

(** [{exclusif: true}] *)
Definition example_exclusif : OptionsArg :=
  {| arg_bounceHeight := None; arg_contractHeight := None;
     arg_bounceSpeed := None; arg_contractSpeed := None;
     arg_shadowAngle := None; arg_elastic := None; arg_exclusif := Some true |}.

(** The page with the two markers after
    [marker0.setBouncingOptions({exclusif: true})]. *)
Definition example_exclusif_page : state :=
  settled
    (setBouncingOptions example_cos example_sin 20 0 example_exclusif
       example_two_markers_page)
    example_two_markers_page.

(** [{contractHeight: 0}] *)
Definition example_zero_height : OptionsArg :=
  {| arg_bounceHeight := None; arg_contractHeight := Some 0;
     arg_bounceSpeed := None; arg_contractSpeed := None;
     arg_shadowAngle := None; arg_elastic := None; arg_exclusif := None |}.

(** [{bounceHeight: 5}] *)
Definition example_low_height : OptionsArg :=
  {| arg_bounceHeight := Some 5; arg_contractHeight := None;
     arg_bounceSpeed := None; arg_contractSpeed := None;
     arg_shadowAngle := None; arg_elastic := None; arg_exclusif := None |}.

(** A page without 3D transforms, and a marker on it. *)
Definition example_page_no3d : state :=
  settled (initialize 20 0 (25, 41) (41, 41) 0 (initial_state example_PI false))
    (initial_state example_PI false).

(** The page without 3D transforms after the marker was positioned, asked to
    bounce twice, and three timers have fired. *)
Definition example_bouncing_no3d : state :=
  let σ := example_page_no3d in
  let σ := settled (_setPos example_cos example_sin 20 0 (100, 200) σ) σ in
  run 3 (bounce 0 (Some 2) σ).

(** * Properties of the timeline calculator *)

Lemma js_set_within {A : Type} (a : jsarray A) (i : Z) (v : A) :
  0 ≤ i → (Z.to_nat i < length a)%nat →
  js_set a i v = <[Z.to_nat i := Some v]> a.
Proof.
  intros Hi Hlen. unfold js_set.
  rewrite (proj2 (Z.ltb_ge i 0)) by lia.
  by rewrite (proj2 (Nat.ltb_lt _ _) Hlen).
Qed.

Lemma js_set_beyond {A : Type} (a : jsarray A) (i : Z) (v : A) :
  0 ≤ i → (length a ≤ Z.to_nat i)%nat →
  js_set a i v = a ++ replicate (Z.to_nat i - length a) None ++ [Some v].
Proof.
  intros Hi Hlen. unfold js_set.
  rewrite (proj2 (Z.ltb_ge i 0)) by lia.
  by rewrite (proj2 (Nat.ltb_ge _ _) Hlen).
Qed.

Lemma js_get_within {A : Type} (a : jsarray A) (i : Z) :
  0 ≤ i → js_get a i = default None (a !! Z.to_nat i).
Proof.
  intros Hi. unfold js_get.
  rewrite (proj2 (Z.ltb_ge i 0)) by lia. by destruct (a !! Z.to_nat i).
Qed.

Section TimelineLoops.

Lemma calculateSteps_rise_spec (n : nat) :
  ∀ fuel h i steps,
    h + 1 - i = Z.of_nat n → (n < fuel)%nat →
    calculateSteps_rise fuel h i steps
    = Some (steps ++ (Num <$> seqZ i (Z.of_nat n))).
Proof.
  induction n as [|n IH]; intros [|fuel] h i steps Hn Hfuel; try lia; simpl.
  - rewrite (proj2 (Z.leb_gt i h)) by lia.
    by rewrite app_nil_r.
  - rewrite (proj2 (Z.leb_le i h)) by lia.
    rewrite (IH fuel h (i + 1)) by lia.
    rewrite (seqZ_cons i) by lia.
    rewrite <- app_assoc. simpl.
    by replace (Z.pred (Z.of_nat (S n))) with (Z.of_nat n) by lia.
Qed.

Lemma calculateSteps_fall_spec (n : nat) :
  ∀ fuel steps,
    (n < fuel)%nat →
    calculateSteps_fall fuel (Z.of_nat n) steps
    = Some (steps ++ (Num <$> reverse (seqZ 0 (Z.of_nat n)))).
Proof.
  induction n as [|n IH]; intros [|fuel] steps Hfuel; try lia.
  - simpl. by rewrite app_nil_r.
  - cbn [calculateSteps_fall].
    rewrite (proj2 (Z.eqb_neq (Z.of_nat (S n)) 0)) by lia.
    replace (Z.of_nat (S n) - 1) with (Z.of_nat n) by lia.
    rewrite IH by lia.
    replace (Z.of_nat (S n)) with (Z.of_nat n + 1) by lia.
    rewrite seqZ_app by lia. simpl.
    rewrite reverse_app. simpl.
    by rewrite <- app_assoc.
Qed.

(** A negative counter never becomes [0]: the falling loop does not end. *)
Lemma calculateSteps_fall_negative fuel :
  ∀ i steps, i < 0 → calculateSteps_fall fuel i steps = None.
Proof.
  induction fuel as [|fuel IH]; intros i steps Hi; [done|]. simpl.
  rewrite (proj2 (Z.eqb_neq i 0)) by lia. apply IH. lia.
Qed.

Lemma deltas_filled_init h s :
  1 ≤ h → deltas_filled h s h (js_set (js_set [] h s) 0 0).
Proof.
  intros Hh.
  rewrite (js_set_beyond [] h s) by (simpl; lia).
  simpl. rewrite Nat.sub_0_r.
  rewrite js_set_within;
    [|lia|rewrite length_app, length_replicate; simpl; lia].
  destruct (Z.to_nat h) as [|n] eqn:En; [lia|]. simpl.
  unfold deltas_filled, delta_at. split.
  - simpl. rewrite length_app, length_replicate. simpl. lia.
  - intros j [->|Hj].
    + done.
    + assert (j = h) as -> by lia.
      rewrite (proj2 (Z.eqb_neq h 0)) by lia. rewrite Z.eqb_refl.
      rewrite En. simpl.
      rewrite lookup_app_r by (rewrite length_replicate; lia).
      rewrite length_replicate. by rewrite Nat.sub_diag.
Qed.

Lemma deltas_filled_step h s i a :
  1 < i ≤ h → deltas_filled h s i a →
  deltas_filled h s (i - 1)
    (js_set a (i - 1) (Math_round (inject_Z s / inject_Z (h - (i - 1)))%Q)).
Proof.
  intros Hi [Hlen Hget].
  rewrite js_set_within by lia.
  split; [by rewrite length_insert|].
  intros j Hj. destruct (decide (j = i - 1)) as [->|Hne].
  - rewrite list_lookup_insert_eq by lia. unfold delta_at.
    rewrite (proj2 (Z.eqb_neq (i - 1) 0)) by lia.
    by rewrite (proj2 (Z.eqb_neq (i - 1) h)) by lia.
  - rewrite list_lookup_insert_ne by lia. apply Hget. lia.
Qed.

Lemma calculateDelays_deltas_spec h s (n : nat) :
  ∀ fuel i a,
    i = Z.of_nat n + 1 → i ≤ h → (n < fuel)%nat → deltas_filled h s i a →
    ∃ a', calculateDelays_deltas fuel h s i a = Some a'
          ∧ deltas_filled h s 1 a'.
Proof.
  induction n as [|n IH]; intros [|fuel] i a Hi Hh Hfuel Ha; try lia;
    cbn [calculateDelays_deltas]; cbv zeta.
  - subst i. simpl. eauto.
  - rewrite (proj2 (Z.eqb_neq (i - 1) 0)) by lia.
    apply IH; [lia..|]. apply deltas_filled_step; [lia|done].
Qed.

(** Started at a counter that is not positive, [--i] never reaches [0]. *)
Lemma calculateDelays_deltas_diverges h s fuel :
  ∀ i a, i ≤ 0 → calculateDelays_deltas fuel h s i a = None.
Proof.
  induction fuel as [|fuel IH]; intros i a Hi; [done|].
  cbn [calculateDelays_deltas]; cbv zeta.
  rewrite (proj2 (Z.eqb_neq (i - 1) 0)) by lia. apply IH. lia.
Qed.

Lemma deltas_filled_all h s a :
  0 ≤ h → deltas_filled h s 1 a →
  a = Some <$> (delta_at h s <$> seqZ 0 (h + 1)).
Proof.
  intros Hh [Hlen Hget]. apply list_eq. intros k.
  rewrite !list_lookup_fmap.
  destruct (decide (k < Z.to_nat (h + 1))%nat) as [Hk|Hk].
  - rewrite lookup_seqZ_lt by lia. simpl.
    rewrite <- (Nat2Z.id k) at 1. apply Hget. lia.
  - rewrite lookup_seqZ_ge by lia. simpl.
    apply lookup_ge_None. lia.
Qed.

Lemma calculateDelays_mirror_spec (a : jsarray Z) (n : nat) :
  ∀ fuel acc,
    (n ≤ length a)%nat → (n < fuel)%nat →
    calculateDelays_mirror fuel (Z.of_nat n) (a ++ acc)
    = Some (a ++ acc ++ reverse (take n a)).
Proof.
  induction n as [|n IH]; intros [|fuel] acc Hn Hfuel; try lia.
  - simpl. by rewrite app_nil_r.
  - cbn [calculateDelays_mirror].
    rewrite (proj2 (Z.eqb_neq (Z.of_nat (S n)) 0)) by lia.
    replace (Z.of_nat (S n) - 1) with (Z.of_nat n) by lia.
    destruct (lookup_lt_is_Some_2 a n) as [x Hx]; [lia|].
    unfold js_get. rewrite (proj2 (Z.ltb_ge (Z.of_nat n) 0)) by lia.
    rewrite Nat2Z.id, lookup_app_l by lia. rewrite Hx.
    rewrite <- app_assoc, IH by lia.
    rewrite (take_S_r a n x Hx), reverse_app. simpl.
    by rewrite <- app_assoc.
Qed.

Lemma calculateDelays_cumulate_spec (l : list Z) :
  ∀ t acc,
    calculateDelays_cumulate (Some <$> l) (Num t) acc
    = acc ++ (Num <$> cumsum t l).
Proof.
  induction l as [|x l IH]; intros t acc; simpl.
  - by rewrite app_nil_r.
  - rewrite IH. by rewrite <- app_assoc.
Qed.

(** What the loops have computed when they end, whatever the fuel. *)

Lemma calculateSteps_rise_Some fuel :
  ∀ h i steps r,
    i ≤ h + 1 → calculateSteps_rise fuel h i steps = Some r →
    r = steps ++ (Num <$> seqZ i (h + 1 - i)).
Proof.
  induction fuel as [|fuel IH]; intros h i steps r Hi Hr; [done|].
  simpl in Hr. destruct (Z.leb_spec i h) as [Hle|Hgt].
  - apply IH in Hr as ->; [|lia].
    rewrite (seqZ_cons i) by lia. rewrite <- app_assoc. simpl.
    repeat f_equal; lia.
  - injection Hr as <-. replace (h + 1 - i) with 0 by lia.
    by rewrite app_nil_r.
Qed.

Lemma calculateSteps_fall_Some fuel :
  ∀ i steps r,
    calculateSteps_fall fuel i steps = Some r →
    0 ≤ i ∧ r = steps ++ (Num <$> reverse (seqZ 0 i)).
Proof.
  induction fuel as [|fuel IH]; intros i steps r Hr; [done|].
  simpl in Hr. destruct (Z.eqb_spec i 0) as [->|Hi].
  - injection Hr as <-. by rewrite app_nil_r.
  - apply IH in Hr as [Hpos ->]. split; [lia|].
    replace i with (i - 1 + 1) at 3 by lia.
    rewrite seqZ_app by lia. simpl.
    rewrite reverse_app. simpl. by rewrite <- app_assoc.
Qed.

Lemma calculateDelays_deltas_Some h s fuel :
  ∀ i a r,
    calculateDelays_deltas fuel h s i a = Some r →
    1 ≤ i ∧ (i ≤ h → deltas_filled h s i a → deltas_filled h s 1 r).
Proof.
  induction fuel as [|fuel IH]; intros i a r Hr; [done|].
  cbn [calculateDelays_deltas] in Hr. cbv zeta in Hr.
  destruct (Z.eqb_spec (i - 1) 0) as [Hi|Hi].
  - injection Hr as <-. split; [lia|].
    intros _. by replace i with 1 by lia.
  - apply IH in Hr as [Hpos Hfilled]. split; [lia|].
    intros Hle Ha. apply Hfilled; [lia|].
    apply deltas_filled_step; [lia|done].
Qed.

Lemma calculateDelays_mirror_Some (a : jsarray Z) fuel :
  ∀ (n : nat) acc r,
    (n ≤ length a)%nat →
    calculateDelays_mirror fuel (Z.of_nat n) (a ++ acc) = Some r →
    r = a ++ acc ++ reverse (take n a).
Proof.
  induction fuel as [|fuel IH]; intros n acc r Hn Hr; [done|].
  cbn [calculateDelays_mirror] in Hr.
  destruct n as [|n].
  - injection Hr as <-. by rewrite app_nil_r.
  - rewrite (proj2 (Z.eqb_neq (Z.of_nat (S n)) 0)) in Hr by lia.
    replace (Z.of_nat (S n) - 1) with (Z.of_nat n) in Hr by lia.
    destruct (lookup_lt_is_Some_2 a n) as [x Hx]; [lia|].
    unfold js_get in Hr. rewrite (proj2 (Z.ltb_ge (Z.of_nat n) 0)) in Hr by lia.
    rewrite Nat2Z.id, lookup_app_l, Hx in Hr by lia.
    rewrite <- app_assoc in Hr. apply IH in Hr as ->; [|lia].
    rewrite (take_S_r a n x Hx), reverse_app. simpl.
    by rewrite <- app_assoc.
Qed.

End TimelineLoops.

(** ** Cache keys *)

Section CacheKeys.

Lemma pretty_N_go_underscore_free (x : N) :
  ∀ s, underscore_free s → underscore_free (pretty_N_go x s).
Proof.
  induction (N.lt_wf_0 x) as [x _ IH]; intros s Hs.
  destruct (decide (x = 0)%N) as [->|Hx].
  - by rewrite pretty_N_go_0.
  - rewrite pretty_N_go_step by lia. apply IH.
    + apply N.div_lt; lia.
    + split; [|done]. unfold pretty_N_char. by repeat case_match.
Qed.

Lemma pretty_Z_underscore_free (z : Z) : underscore_free (pretty z).
Proof.
  assert (∀ q : positive, underscore_free (pretty q)) as Hpos.
  { intros q. unfold pretty, pretty_positive, pretty, pretty_N.
    case_decide; [done|]. by apply pretty_N_go_underscore_free. }
  destruct z as [|q|q]; unfold pretty, pretty_Z; simpl; [done|apply Hpos|].
  split; [done|apply Hpos].
Qed.

Lemma underscore_split (a : string) :
  ∀ a' b b',
    underscore_free a → underscore_free a' →
    a +:+ String "_" b = a' +:+ String "_" b' → a = a' ∧ b = b'.
Proof.
  induction a as [|c a IH]; intros [|c' a'] b b' Ha Ha' Heq; simpl in *.
  - by simplify_eq.
  - destruct Ha' as [Hc' _]. injection Heq as Hc _. by destruct Hc'.
  - destruct Ha as [Hc _]. injection Heq as Hc' _. by destruct Hc.
  - destruct Ha as [_ Ha], Ha' as [_ Ha'].
    injection Heq as -> Heq.
    destruct (IH a' b b' Ha Ha' Heq) as [-> ->]. done.
Qed.

Lemma steps_key_inj p p' (h h' : Z) :
  steps_prefix p +:+ pretty h = steps_prefix p' +:+ pretty h' → h = h'.
Proof.
  destruct p, p'; cbv [steps_prefix String.append]; intros Heq;
    try congruence; apply (inj pretty); congruence.
Qed.

Lemma steps_delays_key_ne p p' (h h' s' : Z) :
  steps_prefix p +:+ pretty h
  ≠ delays_prefix p' +:+ pretty h' +:+ "_" +:+ pretty s'.
Proof.
  destruct p, p'; cbv [steps_prefix delays_prefix String.append]; congruence.
Qed.

Lemma delays_key_inj p p' (h h' s s' : Z) :
  delays_prefix p +:+ pretty h +:+ "_" +:+ pretty s
  = delays_prefix p' +:+ pretty h' +:+ "_" +:+ pretty s' →
  h = h' ∧ s = s'.
Proof.
  intros Heq.
  assert (pretty h +:+ String "_" (pretty s)
          = pretty h' +:+ String "_" (pretty s')) as Hkey.
  { destruct p, p'; cbv [delays_prefix String.append] in Heq |- *;
      congruence. }
  apply underscore_split in Hkey as [Hh Hs];
    [|apply pretty_Z_underscore_free..].
  split; by apply (inj pretty).
Qed.

End CacheKeys.

(** ** What the calculator returns *)

Section Timeline.

Lemma cache_ok_empty : cache_ok ∅.
Proof. intros key v Hkey. by rewrite lookup_empty in Hkey. Qed.

Lemma cache_ok_insert_steps c p h :
  0 ≤ h → cache_ok c →
  cache_ok (<[steps_prefix p +:+ pretty h := steps_seq h]> c).
Proof.
  intros Hh Hc key v. rewrite lookup_insert.
  case_decide; [|by apply Hc].
  intros [= <-]. left. by exists p, h.
Qed.

Lemma cache_ok_insert_delays c p h s :
  1 ≤ h → cache_ok c →
  cache_ok (<[delays_prefix p +:+ pretty h +:+ "_" +:+ pretty s
              := delays_seq h s]> c).
Proof.
  intros Hh Hc key v. rewrite lookup_insert.
  case_decide; [|by apply Hc].
  intros [= <-]. right. by exists p, h, s.
Qed.

(** Under a steps key a sound cache holds nothing or the steps of that
    height. *)
Lemma cache_ok_steps c p h v :
  cache_ok c → c !! (steps_prefix p +:+ pretty h) = Some v → v = steps_seq h.
Proof.
  intros Hc Hv.
  destruct (Hc _ _ Hv) as [(p' & h' & _ & Hkey & ->)|(p' & h' & s' & _ & Hkey & _)].
  - by rewrite (steps_key_inj _ _ _ _ Hkey).
  - by destruct (steps_delays_key_ne _ _ _ _ _ Hkey).
Qed.

Lemma cache_ok_delays c p h s v :
  cache_ok c →
  c !! (delays_prefix p +:+ pretty h +:+ "_" +:+ pretty s) = Some v →
  1 ≤ h ∧ v = delays_seq h s.
Proof.
  intros Hc Hv.
  destruct (Hc _ _ Hv) as [(p' & h' & _ & Hkey & _)|(p' & h' & s' & Hh & Hkey & ->)].
  - by destruct (steps_delays_key_ne _ _ _ _ _ (eq_sym Hkey)).
  - by destruct (delays_key_inj _ _ _ _ _ _ Hkey) as [-> ->].
Qed.

Lemma calculateSteps_miss fuel h prefix (c : motions_cache) :
  0 ≤ h → (Z.to_nat h < fuel)%nat → c !! (prefix +:+ pretty h) = None →
  calculateSteps fuel h prefix c
  = Some (steps_seq h, <[prefix +:+ pretty h := steps_seq h]> c).
Proof.
  intros Hh Hfuel Hmiss. unfold calculateSteps. cbv zeta. rewrite Hmiss.
  rewrite (calculateSteps_rise_spec (Z.to_nat h)) by lia. simpl.
  rewrite <- (Z2Nat.id h) at 1 by lia.
  rewrite calculateSteps_fall_spec by lia. simpl.
  rewrite !Z2Nat.id by lia.
  unfold steps_seq. by rewrite fmap_app.
Qed.

Lemma calculateSteps_hit fuel h prefix (c : motions_cache) v :
  c !! (prefix +:+ pretty h) = Some v →
  calculateSteps fuel h prefix c = Some (v, c).
Proof. intros Hhit. unfold calculateSteps. cbv zeta. by rewrite Hhit. Qed.

Lemma calculateDelays_miss fuel h s prefix (c : motions_cache) :
  1 ≤ h → (Z.to_nat h < fuel)%nat →
  c !! (prefix +:+ pretty h +:+ "_" +:+ pretty s) = None →
  calculateDelays fuel h s prefix c
  = Some (delays_seq h s,
          <[prefix +:+ pretty h +:+ "_" +:+ pretty s := delays_seq h s]> c).
Proof.
  intros Hh Hfuel Hmiss. unfold calculateDelays. cbv zeta. rewrite Hmiss.
  destruct (calculateDelays_deltas_spec h s (Z.to_nat (h - 1)) fuel h
              (js_set (js_set [] h s) 0 0)) as (a & -> & Ha);
    [lia..|by apply deltas_filled_init|].
  simpl. apply deltas_filled_all in Ha as ->; [|lia].
  set (out := delta_at h s <$> seqZ 0 (h + 1)).
  rewrite <- (app_nil_r (Some <$> out)).
  rewrite <- (Z2Nat.id h) at 1 by lia.
  rewrite calculateDelays_mirror_spec;
    [|rewrite length_fmap; unfold out; rewrite length_fmap, length_seqZ; lia|lia].
  simpl.
  rewrite <- fmap_take, <- fmap_reverse, <- fmap_app.
  rewrite calculateDelays_cumulate_spec. simpl.
  done.
Qed.

Lemma calculateDelays_hit fuel h s prefix (c : motions_cache) v :
  c !! (prefix +:+ pretty h +:+ "_" +:+ pretty s) = Some v →
  calculateDelays fuel h s prefix c = Some (v, c).
Proof. intros Hhit. unfold calculateDelays. cbv zeta. by rewrite Hhit. Qed.

Lemma calculateSteps_ok fuel p h c :
  0 ≤ h → (Z.to_nat h < fuel)%nat → cache_ok c →
  ∃ c', calculateSteps fuel h (steps_prefix p) c = Some (steps_seq h, c')
        ∧ cache_ok c'.
Proof.
  intros Hh Hfuel Hc.
  destruct (c !! (steps_prefix p +:+ pretty h)) as [v|] eqn:Hkey.
  - rewrite (calculateSteps_hit _ _ _ _ _ Hkey).
    apply cache_ok_steps in Hkey as ->; eauto.
  - rewrite calculateSteps_miss by done.
    eauto using cache_ok_insert_steps.
Qed.

Lemma calculateDelays_ok fuel p h s c :
  1 ≤ h → (Z.to_nat h < fuel)%nat → cache_ok c →
  ∃ c', calculateDelays fuel h s (delays_prefix p) c
        = Some (delays_seq h s, c')
        ∧ cache_ok c'.
Proof.
  intros Hh Hfuel Hc.
  destruct (c !! (delays_prefix p +:+ pretty h +:+ "_" +:+ pretty s))
    as [v|] eqn:Hkey.
  - rewrite (calculateDelays_hit _ _ _ _ _ _ Hkey).
    apply cache_ok_delays in Hkey as [_ ->]; eauto.
  - rewrite calculateDelays_miss by done.
    eauto using cache_ok_insert_delays.
Qed.

(** What a call that returns has returned, whatever the fuel: the entry of
    the cache, or the sequence of the height, which then is the new entry. *)
Lemma calculateSteps_returned fuel h prefix (c : motions_cache) a c' :
  calculateSteps fuel h prefix c = Some (a, c') →
  (c !! (prefix +:+ pretty h) = Some a ∧ c' = c)
  ∨ (0 ≤ h ∧ a = steps_seq h ∧ c' = <[prefix +:+ pretty h := a]> c).
Proof.
  unfold calculateSteps. cbv zeta.
  destruct (c !! (prefix +:+ pretty h)) as [v|].
  - intros [= <- <-]. by left.
  - destruct (calculateSteps_rise fuel h 1 []) as [r1|] eqn:Hr1; [|done].
    simpl.
    destruct (calculateSteps_fall fuel h r1) as [r2|] eqn:Hr2; [|done].
    simpl. intros [= <- <-]. right.
    apply calculateSteps_fall_Some in Hr2 as [Hh ->].
    apply calculateSteps_rise_Some in Hr1 as ->; [|lia].
    split; [done|]. split; [|done].
    unfold steps_seq. rewrite fmap_app. simpl. repeat f_equal; lia.
Qed.

Lemma calculateDelays_returned fuel h s prefix (c : motions_cache) a c' :
  calculateDelays fuel h s prefix c = Some (a, c') →
  (c !! (prefix +:+ pretty h +:+ "_" +:+ pretty s) = Some a ∧ c' = c)
  ∨ (1 ≤ h ∧ a = delays_seq h s
     ∧ c' = <[prefix +:+ pretty h +:+ "_" +:+ pretty s := a]> c).
Proof.
  unfold calculateDelays. cbv zeta.
  destruct (c !! (prefix +:+ pretty h +:+ "_" +:+ pretty s)) as [v|].
  - intros [= <- <-]. by left.
  - destruct (calculateDelays_deltas fuel h s h _) as [r1|] eqn:Hr1; [|done].
    simpl.
    destruct (calculateDelays_mirror fuel h r1) as [r2|] eqn:Hr2; [|done].
    simpl. intros [= <- <-]. right.
    apply calculateDelays_deltas_Some in Hr1 as [Hh Hfilled].
    split; [done|].
    apply deltas_filled_all in Hfilled as ->;
      [|lia|lia|by apply deltas_filled_init].
    revert Hr2. set (out := delta_at h s <$> seqZ 0 (h + 1)).
    rewrite <- (app_nil_r (Some <$> out)).
    rewrite <- (Z2Nat.id h) at 1 by lia.
    intros ->%calculateDelays_mirror_Some;
      [|rewrite length_fmap; unfold out; rewrite length_fmap, length_seqZ; lia].
    simpl. rewrite <- fmap_take, <- fmap_reverse, <- fmap_app.
    by rewrite calculateDelays_cumulate_spec.
Qed.

(** Both calculators keep the cache sound. *)
Lemma calculateSteps_sound fuel p h c a c' :
  cache_ok c → calculateSteps fuel h (steps_prefix p) c = Some (a, c') →
  cache_ok c'.
Proof.
  intros Hc [[_ ->]|(Hh & -> & ->)]%calculateSteps_returned; [done|].
  by apply cache_ok_insert_steps.
Qed.

Lemma calculateDelays_sound fuel p h s c a c' :
  cache_ok c → calculateDelays fuel h s (delays_prefix p) c = Some (a, c') →
  cache_ok c'.
Proof.
  intros Hc [[_ ->]|(Hh & -> & ->)]%calculateDelays_returned; [done|].
  by apply cache_ok_insert_delays.
Qed.

(** *** The delta sequence *)

Lemma Math_round_nonneg (q : Q) : (0 <= q)%Q → 0 ≤ Math_round q.
Proof.
  intros Hq. unfold Math_round.
  change 0 with (Qfloor 0). apply Qfloor_resp_le. lra.
Qed.

Lemma delta_at_nonneg h s i : 0 ≤ s → 0 ≤ i ≤ h → 0 ≤ delta_at h s i.
Proof.
  intros Hs Hi. unfold delta_at.
  destruct (Z.eqb_spec i 0); [lia|].
  destruct (Z.eqb_spec i h); [lia|].
  apply Math_round_nonneg. apply Qle_shift_div_l.
  - rewrite <- (Zlt_Qlt 0). lia.
  - rewrite Qmult_0_l. rewrite <- (Zle_Qle 0). lia.
Qed.

Lemma outbound_deltas_split h s :
  0 ≤ h →
  delta_at h s <$> seqZ 0 (h + 1)
  = take (Z.to_nat h) (delta_at h s <$> seqZ 0 (h + 1)) ++ [delta_at h s h].
Proof.
  intros Hh. rewrite seqZ_app by lia. simpl.
  rewrite fmap_app. simpl.
  rewrite take_app_length' by (rewrite length_fmap, length_seqZ; lia).
  done.
Qed.

Lemma mirrored_deltas_length h s :
  0 ≤ h → Z.of_nat (length (mirrored_deltas h s)) = 2 * h + 1.
Proof.
  intros Hh. unfold mirrored_deltas. cbv zeta.
  rewrite length_app, length_reverse, length_take.
  rewrite length_fmap, length_seqZ. lia.
Qed.

Lemma mirrored_deltas_lookup h s i :
  0 ≤ i ≤ h → mirrored_deltas h s !! Z.to_nat i = Some (delta_at h s i).
Proof.
  intros Hi. unfold mirrored_deltas. cbv zeta.
  rewrite lookup_app_l by (rewrite length_fmap, length_seqZ; lia).
  rewrite list_lookup_fmap, lookup_seqZ_lt by lia. simpl.
  do 2 f_equal. lia.
Qed.

Lemma mirrored_deltas_mirrored h s :
  0 ≤ h → reverse (mirrored_deltas h s) = mirrored_deltas h s.
Proof.
  intros Hh. unfold mirrored_deltas. cbv zeta.
  rewrite (outbound_deltas_split h s) at 1 3 by done.
  rewrite !reverse_app, reverse_involutive. simpl.
  by rewrite <- app_assoc.
Qed.

Lemma mirrored_deltas_nonneg h s :
  0 ≤ h → 0 ≤ s → Forall (Z.le 0) (mirrored_deltas h s).
Proof.
  intros Hh Hs.
  assert (Forall (Z.le 0) (delta_at h s <$> seqZ 0 (h + 1))) as Hout.
  { apply Forall_fmap, Forall_forall. intros i Hi%elem_of_seqZ. simpl.
    apply delta_at_nonneg; lia. }
  unfold mirrored_deltas. cbv zeta. apply Forall_app. split; [done|].
  apply Forall_reverse. by apply Forall_take.
Qed.

Lemma cumsum_length t l : length (cumsum t l) = length l.
Proof. revert t. induction l as [|x l IH]; intros t; simpl; [done|]. by rewrite IH. Qed.

Lemma cumsum_lower_bound l :
  ∀ t, Forall (Z.le 0) l → Forall (Z.le t) (cumsum t l).
Proof.
  induction l as [|x l IH]; intros t Hl; simpl; [constructor|].
  inversion_clear Hl as [|? ? Hx Hl'].
  constructor; [lia|].
  eapply Forall_impl; [apply IH, Hl'|]. simpl. lia.
Qed.

(** Running sums of non-negative numbers never decrease. *)
Lemma cumsum_sorted l :
  ∀ t, Forall (Z.le 0) l → StronglySorted Z.le (cumsum t l).
Proof.
  induction l as [|x l IH]; intros t Hl; simpl; [constructor|].
  inversion_clear Hl as [|? ? Hx Hl'].
  constructor; [by apply IH|]. by apply cumsum_lower_bound.
Qed.

(** The entry [i] of the running sums is the sum of the entries [0..i]. *)
Lemma cumsum_lookup l :
  ∀ t (i : nat),
    cumsum t l !! i = (λ _, t + foldr Z.add 0 (take (S i) l)) <$> l !! i.
Proof.
  induction l as [|x l IH]; intros t i; [done|].
  destruct i as [|i]; simpl.
  - f_equal. lia.
  - rewrite IH. destruct (l !! i); simpl; [|done]. f_equal. lia.
Qed.

Lemma calculateSteps_zero fuel p c :
  cache_ok c →
  calculateSteps fuel 0 (steps_prefix p) c = None
  ∨ ∃ c', calculateSteps fuel 0 (steps_prefix p) c = Some ([], c')
          ∧ cache_ok c'.
Proof.
  intros Hc. destruct fuel as [|fuel].
  - unfold calculateSteps. cbv zeta.
    destruct (c !! (steps_prefix p +:+ pretty 0)) as [v|] eqn:Hkey.
    + right. apply cache_ok_steps in Hkey as ->; [|done]. by exists c.
    + by left.
  - right. destruct (calculateSteps_ok (S fuel) p 0 c) as (c' & -> & Hc');
      [lia|simpl; lia|done|].
    by exists c'.
Qed.

(** For the extent [0] the countdown [while (--i)] starts below zero. *)
Lemma calculateDelays_zero fuel p s c :
  cache_ok c → calculateDelays fuel 0 s (delays_prefix p) c = None.
Proof.
  intros Hc. unfold calculateDelays. cbv zeta.
  destruct (c !! (delays_prefix p +:+ pretty 0 +:+ "_" +:+ pretty s))
    as [v|] eqn:Hkey.
  - apply cache_ok_delays in Hkey as [Hh _]; [lia|done].
  - by rewrite calculateDelays_deltas_diverges.
Qed.

End Timeline.

(** * Properties of the geometry engine *)

Section GeometryProperties.

Context (Math_cos Math_sin : Q → Q) (Math_PI : Q).

(** From a counter [i] below [len] the loop pushes the current point and
    [n] more, where [n + 1] is what is left to [len]. *)
Lemma calculateLine_loop_spec dx dy sx sy len (n : nat) :
  ∀ fuel x y err p i,
    len - i = Z.of_nat (S n) → (n < fuel)%nat →
    ∃ q, calculateLine_loop fuel dx dy sx sy len x y err p i
         = Some (p ++ (x, y) :: q)
         ∧ length q = n.
Proof.
  induction n as [|n IH]; intros [|fuel] x y err p i Hlen Hfuel; try lia;
    cbn [calculateLine_loop]; cbv zeta.
  - rewrite (proj2 (Z.eqb_eq (i + 1) len)) by lia. by exists [].
  - rewrite (proj2 (Z.eqb_neq (i + 1) len)) by lia.
    destruct (negb (Qle_bool err (inject_Z (- dx))));
      destruct (negb (Qle_bool (inject_Z dy) _));
      match goal with
      | |- context [calculateLine_loop fuel dx dy sx sy len ?x' ?y' ?e' _ _] =>
          destruct (IH fuel x' y' e' (p ++ [(x, y)]) (i + 1))
            as (q & -> & Hq); [lia..|];
          exists ((x', y') :: q); split;
            [by rewrite <- app_assoc|simpl; by rewrite Hq]
      end.
Qed.

(** Once the counter is past [len] it never equals [len] again. *)
Lemma calculateLine_loop_diverges dx dy sx sy len fuel :
  ∀ x y err p i,
    len ≤ i → calculateLine_loop fuel dx dy sx sy len x y err p i = None.
Proof.
  induction fuel as [|fuel IH]; intros x y err p i Hi; [done|].
  cbn [calculateLine_loop]; cbv zeta.
  rewrite (proj2 (Z.eqb_neq (i + 1) len)) by lia.
  destruct (negb (Qle_bool err (inject_Z (- dx))));
    destruct (negb (Qle_bool (inject_Z dy) _)); apply IH; lia.
Qed.

Lemma calculateLine_returns fuel x y angle len :
  1 ≤ len → (Z.to_nat len ≤ fuel)%nat →
  ∃ p, calculateLine Math_cos Math_sin fuel x y angle len = Some p
       ∧ Z.of_nat (length p) = len
       ∧ p !! 0%nat = Some (x, y).
Proof.
  intros Hlen Hfuel. unfold calculateLine. cbv zeta.
  match goal with
  | |- context [calculateLine_loop fuel ?dx ?dy ?sx ?sy len x y ?err [] 0] =>
      destruct (calculateLine_loop_spec dx dy sx sy len (Z.to_nat (len - 1))
                  fuel x y err [] 0) as (q & -> & Hq); [lia..|]
  end.
  eexists. split; [done|]. simpl. split; [lia|done].
Qed.

(** [calculateLine] with a length that is not positive does not return. *)
Lemma calculateLine_diverges fuel x y angle len :
  len ≤ 0 → calculateLine Math_cos Math_sin fuel x y angle len = None.
Proof.
  intros Hlen. unfold calculateLine. cbv zeta.
  apply calculateLine_loop_diverges. lia.
Qed.

Lemma js_set_Forall {A : Type} (P : option A → Prop) (a : jsarray A) i v :
  P None → P (Some v) → Forall P a → Forall P (js_set a i v).
Proof.
  intros Hnone Hv Ha. unfold js_set.
  destruct (i <? 0); [done|]. cbv zeta.
  destruct (Z.to_nat i <? length a)%nat.
  - by apply Forall_insert.
  - apply Forall_app. split; [done|]. apply Forall_app. split.
    + by apply Forall_replicate.
    + by constructor.
Qed.

Lemma calculateIconMoveTransforms_loop_returns x y (n : nat) :
  ∀ fuel t,
    (n < fuel)%nat →
    is_Some (calculateIconMoveTransforms_loop fuel x y (Z.of_nat n) t).
Proof.
  induction n as [|n IH]; intros [|fuel] t Hfuel; try lia;
    cbn [calculateIconMoveTransforms_loop]; cbv zeta.
  - by eexists.
  - rewrite (proj2 (Z.eqb_neq (Z.of_nat (S n)) 0)) by lia.
    replace (Z.of_nat (S n) - 1) with (Z.of_nat n) by lia.
    apply IH. lia.
Qed.

(** The icon-resize transforms scale heights only. *)
Lemma calculateIconResizeTransforms_loop_returns x y height (n : nat) :
  ∀ fuel t,
    (n < fuel)%nat → Forall vertical_only t →
    ∃ t', calculateIconResizeTransforms_loop fuel x y height (Z.of_nat n) t
          = Some t'
          ∧ Forall vertical_only t'.
Proof.
  induction n as [|n IH]; intros [|fuel] t Hfuel Ht; try lia;
    cbn [calculateIconResizeTransforms_loop]; cbv zeta.
  - eauto.
  - rewrite (proj2 (Z.eqb_neq (Z.of_nat (S n)) 0)) by lia.
    replace (Z.of_nat (S n) - 1) with (Z.of_nat n) by lia.
    apply IH; [lia|]. apply js_set_Forall; [done| |done].
    by intros t0 [= <-].
Qed.

Lemma calculateShadowMoveTransforms_loop_returns (p : list (Z * Z)) (n : nat) :
  ∀ fuel t,
    (n ≤ length p)%nat → (n < fuel)%nat →
    ∃ t', calculateShadowMoveTransforms_loop fuel p (Z.of_nat n) t
          = Returns t'.
Proof.
  induction n as [|n IH]; intros [|fuel] t Hn Hfuel; try lia;
    cbn [calculateShadowMoveTransforms_loop]; cbv zeta.
  - eauto.
  - rewrite (proj2 (Z.eqb_neq (Z.of_nat (S n)) 0)) by lia.
    replace (Z.of_nat (S n) - 1) with (Z.of_nat n) by lia.
    unfold point_at. rewrite (proj2 (Z.ltb_ge (Z.of_nat n) 0)) by lia.
    rewrite Nat2Z.id.
    destruct (lookup_lt_is_Some_2 p n) as [[px py] ->]; [lia|].
    apply IH; lia.
Qed.

Lemma calculateIconMoveTransforms_returns fuel x y h :
  0 ≤ h → (Z.to_nat h + 1 < fuel)%nat →
  ∃ t, calculateIconMoveTransforms fuel x y h = Returns t.
Proof.
  intros Hh Hfuel. unfold calculateIconMoveTransforms.
  rewrite <- (Z2Nat.id (h + 1)) by lia.
  destruct (calculateIconMoveTransforms_loop_returns x y (Z.to_nat (h + 1))
              fuel []) as [t ->]; [lia|].
  by exists t.
Qed.

Lemma calculateIconResizeTransforms_returns fuel x y height h :
  0 ≤ h → (Z.to_nat h + 1 < fuel)%nat →
  ∃ t, calculateIconResizeTransforms fuel x y height h = Returns t
       ∧ Forall vertical_only t.
Proof.
  intros Hh Hfuel. unfold calculateIconResizeTransforms.
  rewrite <- (Z2Nat.id (h + 1)) by lia.
  destruct (calculateIconResizeTransforms_loop_returns x y height
              (Z.to_nat (h + 1)) fuel []) as (t & -> & Ht);
    [lia|constructor|].
  by exists t.
Qed.

Lemma calculateShadowMoveTransforms_returns fuel x y h angle :
  0 ≤ h → (Z.to_nat h + 1 < fuel)%nat →
  ∃ t, calculateShadowMoveTransforms Math_cos Math_sin fuel x y h angle
       = Returns t.
Proof.
  intros Hh Hfuel. unfold calculateShadowMoveTransforms.
  destruct (calculateLine_returns fuel x y angle (h + 1)) as (p & -> & Hp & _);
    [lia..|].
  simpl. rewrite <- (Z2Nat.id (h + 1)) by lia.
  apply calculateShadowMoveTransforms_loop_returns; lia.
Qed.

(** [calculateShadowResizeTransforms] asks [calculateLine] for
    [contractHeight] points and then reads the point [contractHeight]. *)
Lemma calculateShadowResizeTransforms_throws fuel x y width height h angle :
  1 ≤ h → (Z.to_nat h ≤ fuel)%nat →
  calculateShadowResizeTransforms Math_cos Math_sin Math_PI fuel
    x y width height h angle
  = Throws TypeError.
Proof.
  intros Hh Hfuel. unfold calculateShadowResizeTransforms.
  destruct (calculateLine_returns fuel width height (angle + Math_PI)%Q h)
    as (p & -> & Hp & _); [lia..|].
  simpl. destruct fuel as [|fuel]; [lia|].
  cbn [calculateShadowResizeTransforms_loop]. cbv zeta.
  rewrite (proj2 (Z.eqb_neq (h + 1) 0)) by lia.
  replace (h + 1 - 1) with h by lia.
  unfold point_at. rewrite (proj2 (Z.ltb_ge h 0)) by lia.
  by rewrite (proj2 (lookup_ge_None p (Z.to_nat h))) by lia.
Qed.

End GeometryProperties.

(** * Properties of the options and of the compiled motion *)

Section CompileProperties.

Context (Math_cos Math_sin : Q → Q) (Math_PI : Q).

Lemma update_marker_insert m f σ mk :
  markers σ !! m = Some mk →
  update_marker m f σ = set_markers (<[m := f mk]> (markers σ)) σ.
Proof.
  intros Hmk. unfold update_marker. f_equal.
  apply map_eq. intros j. rewrite lookup_alter, lookup_insert.
  case_decide; [subst; by rewrite Hmk|done].
Qed.

Lemma _calculateTimeline_returns fuel m σ mk :
  markers σ !! m = Some mk →
  cache_ok (bouncingMotionsCache σ) →
  1 ≤ bounceHeight (bouncingOptions_of σ mk) →
  1 ≤ contractHeight (bouncingOptions_of σ mk) →
  (Z.to_nat (bounceHeight (bouncingOptions_of σ mk)) < fuel)%nat →
  (Z.to_nat (contractHeight (bouncingOptions_of σ mk)) < fuel)%nat →
  ∃ c, cache_ok c
       ∧ _calculateTimeline fuel m σ
         = Normal
             (set_markers
                (<[m := with_motion (timeline_of (bouncingOptions_of σ mk)) mk]>
                   (markers σ))
                (set_bouncingMotionsCache c σ)).
Proof.
  intros Hmk Hc Hbh Hch Hfb Hfc.
  set (o := bouncingOptions_of σ mk) in *.
  unfold _calculateTimeline, on_marker. rewrite Hmk. fold o.
  destruct (calculateSteps_ok fuel Move (bounceHeight o) _ ltac:(lia) Hfb Hc)
    as (c1 & Hr1 & Hc1).
  cbn [steps_prefix] in Hr1. rewrite Hr1. clear Hr1.
  cbn [assign_timeline and_then bouncingMotionsCache set_bouncingMotionsCache
         update_marker set_markers].
  destruct (calculateDelays_ok fuel Move (bounceHeight o) (bounceSpeed o) _
              Hbh Hfb Hc1) as (c2 & Hr2 & Hc2).
  cbn [delays_prefix] in Hr2. rewrite Hr2. clear Hr2.
  cbn [assign_timeline and_then bouncingMotionsCache set_bouncingMotionsCache
         update_marker set_markers].
  destruct (calculateSteps_ok fuel Resize (contractHeight o) _ ltac:(lia)
              Hfc Hc2) as (c3 & Hr3 & Hc3).
  cbn [steps_prefix] in Hr3. rewrite Hr3. clear Hr3.
  cbn [assign_timeline and_then bouncingMotionsCache set_bouncingMotionsCache
         update_marker set_markers].
  destruct (calculateDelays_ok fuel Resize (contractHeight o) (contractSpeed o)
              _ Hch Hfc Hc3) as (c4 & Hr4 & Hc4).
  cbn [delays_prefix] in Hr4. rewrite Hr4. clear Hr4.
  exists c4. split; [done|].
  cbn [assign_timeline]. f_equal.
  unfold update_marker, set_markers, set_bouncingMotionsCache.
  cbn [markers bouncingMotionsCache bouncingMarkers default_bouncingOptions
         any3d bounce_calls timers now].
  f_equal.
  apply map_eq. intros j. destruct (decide (m = j)) as [<-|Hne].
  - rewrite !lookup_alter_eq, lookup_insert_eq, Hmk. done.
  - rewrite !lookup_alter_ne, lookup_insert_ne by done. done.
Qed.

Lemma _calculateTransforms_3d fuel m σ mk :
  any3d σ = true →
  markers σ !! m = Some mk →
  0 ≤ bounceHeight (bouncingOptions_of σ mk) →
  0 ≤ contractHeight (bouncingOptions_of σ mk) →
  (Z.to_nat (bounceHeight (bouncingOptions_of σ mk)) + 1 < fuel)%nat →
  (Z.to_nat (contractHeight (bouncingOptions_of σ mk)) + 1 < fuel)%nat →
  ∃ im ir sm sr,
    calculateIconResizeTransforms fuel
      (motion_x (bouncingMotion mk)) (motion_y (bouncingMotion mk))
      (snd (shadowSize mk)) (contractHeight (bouncingOptions_of σ mk))
    = Returns sr
    ∧ Forall vertical_only sr
    ∧ _calculateTransforms Math_cos Math_sin fuel m σ
      = Normal
          (set_markers
             (<[m := with_motion (transforms_of im ir sm sr) mk]> (markers σ))
             σ).
Proof.
  intros H3d Hmk Hbh Hch Hfb Hfc.
  set (o := bouncingOptions_of σ mk) in *.
  set (mo := bouncingMotion mk).
  destruct (calculateIconMoveTransforms_returns fuel (motion_x mo)
              (motion_y mo) (bounceHeight o) Hbh Hfb) as [im Him].
  destruct (calculateIconResizeTransforms_returns fuel (motion_x mo)
              (motion_y mo) (snd (iconSize mk)) (contractHeight o) Hch Hfc)
    as (ir & Hir & _).
  destruct (calculateShadowMoveTransforms_returns Math_cos Math_sin fuel
              (motion_x mo) (motion_y mo) (bounceHeight o) (shadowAngle o)
              Hbh Hfb) as [sm Hsm].
  destruct (calculateIconResizeTransforms_returns fuel (motion_x mo)
              (motion_y mo) (snd (shadowSize mk)) (contractHeight o) Hch Hfc)
    as (sr & Hsr & Hvert).
  exists im, ir, sm, sr. split; [done|]. split; [done|].
  unfold _calculateTransforms, on_marker. rewrite Hmk, H3d.
  fold o mo. rewrite Him. cbn [assign]. rewrite Hir. cbn [assign].
  rewrite Hsm. cbn [assign]. rewrite Hsr. cbn [assign]. f_equal.
  unfold update_marker, set_markers.
  cbn [markers bouncingMotionsCache bouncingMarkers default_bouncingOptions
         any3d bounce_calls timers now].
  f_equal.
  apply map_eq. intros j. destruct (decide (m = j)) as [<-|Hne].
  - rewrite !lookup_alter_eq, lookup_insert_eq, Hmk. done.
  - rewrite !lookup_alter_ne, lookup_insert_ne by done. done.
Qed.

(** Without [L.Browser.any3d] the compilation of the visual states raises
    before it stores anything. *)
Lemma _calculateTransforms_no3d fuel m σ mk :
  any3d σ = false → markers σ !! m = Some mk →
  _calculateTransforms Math_cos Math_sin fuel m σ = Abrupt ReferenceError σ.
Proof.
  intros H3d Hmk. unfold _calculateTransforms, on_marker.
  by rewrite Hmk, H3d.
Qed.

Lemma setBouncingOptions_returns fuel m options σ mk :
  any3d σ = true →
  markers σ !! m = Some mk →
  cache_ok (bouncingMotionsCache σ) →
  1 ≤ bounceHeight (merge_options options (default_bouncingOptions σ)) →
  1 ≤ contractHeight (merge_options options (default_bouncingOptions σ)) →
  (Z.to_nat (bounceHeight (merge_options options (default_bouncingOptions σ)))
   + 1 < fuel)%nat →
  (Z.to_nat (contractHeight (merge_options options (default_bouncingOptions σ)))
   + 1 < fuel)%nat →
  ∃ σ' mk',
    setBouncingOptions Math_cos Math_sin fuel m options σ = Normal σ'
    ∧ markers σ' !! m = Some mk'
    ∧ own_bouncingOptions mk'
      = Some (merge_options options (default_bouncingOptions σ))
    ∧ bouncingMarkers σ' = bouncingMarkers σ
    ∧ cache_ok (bouncingMotionsCache σ').
Proof.
  intros H3d Hmk Hc Hbh Hch Hfb Hfc.
  set (o := merge_options options (default_bouncingOptions σ)) in *.
  unfold setBouncingOptions, on_marker. rewrite Hmk. fold o.
  rewrite (update_marker_insert _ _ _ _ Hmk).
  set (mk1 := with_own_bouncingOptions o mk).
  set (σ1 := set_markers (<[m:=mk1]> (markers σ)) σ).
  assert (markers σ1 !! m = Some mk1) as Hmk1 by apply lookup_insert_eq.
  pose proof (_calculateTimeline_returns fuel m σ1 mk1 Hmk1 Hc) as Ht.
  change (bouncingOptions_of σ1 mk1) with o in Ht.
  destruct Ht as (c & Hc' & ->); [done|done|lia|lia|].
  cbn [and_then].
  set (mk2 := with_motion _ mk1).
  set (σ2 := set_markers _ (set_bouncingMotionsCache c σ1)).
  assert (markers σ2 !! m = Some mk2) as Hmk2 by apply lookup_insert_eq.
  pose proof (_calculateTransforms_3d fuel m σ2 mk2 H3d Hmk2) as Ht.
  change (bouncingOptions_of σ2 mk2) with o in Ht.
  destruct Ht as (im & ir & sm & sr & _ & _ & ->); [lia..|].
  eexists _, _. split; [done|]. split; [apply lookup_insert_eq|]. done.
Qed.

(** Without [L.Browser.any3d] the call raises after it has stored the options
    and the timeline. *)
Lemma setBouncingOptions_no3d fuel m options σ mk :
  any3d σ = false →
  markers σ !! m = Some mk →
  cache_ok (bouncingMotionsCache σ) →
  1 ≤ bounceHeight (merge_options options (default_bouncingOptions σ)) →
  1 ≤ contractHeight (merge_options options (default_bouncingOptions σ)) →
  (Z.to_nat (bounceHeight (merge_options options (default_bouncingOptions σ)))
   < fuel)%nat →
  (Z.to_nat (contractHeight (merge_options options (default_bouncingOptions σ)))
   < fuel)%nat →
  ∃ σ' mk',
    setBouncingOptions Math_cos Math_sin fuel m options σ
    = Abrupt ReferenceError σ'
    ∧ markers σ' !! m = Some mk'
    ∧ own_bouncingOptions mk'
      = Some (merge_options options (default_bouncingOptions σ)).
Proof.
  intros H3d Hmk Hc Hbh Hch Hfb Hfc.
  set (o := merge_options options (default_bouncingOptions σ)) in *.
  unfold setBouncingOptions, on_marker. rewrite Hmk. fold o.
  rewrite (update_marker_insert _ _ _ _ Hmk).
  set (mk1 := with_own_bouncingOptions o mk).
  set (σ1 := set_markers (<[m:=mk1]> (markers σ)) σ).
  assert (markers σ1 !! m = Some mk1) as Hmk1 by apply lookup_insert_eq.
  pose proof (_calculateTimeline_returns fuel m σ1 mk1 Hmk1 Hc) as Ht.
  change (bouncingOptions_of σ1 mk1) with o in Ht.
  destruct Ht as (c & Hc' & ->); [done..|].
  cbn [and_then].
  set (mk2 := with_motion _ mk1).
  set (σ2 := set_markers _ (set_bouncingMotionsCache c σ1)).
  assert (markers σ2 !! m = Some mk2) as Hmk2 by apply lookup_insert_eq.
  rewrite (_calculateTransforms_no3d fuel m σ2 mk2 H3d Hmk2).
  by exists σ2, mk2.
Qed.

Lemma initialize_returns fuel m icon shadow z σ :
  cache_ok (bouncingMotionsCache σ) →
  1 ≤ bounceHeight (default_bouncingOptions σ) →
  1 ≤ contractHeight (default_bouncingOptions σ) →
  (Z.to_nat (bounceHeight (default_bouncingOptions σ)) < fuel)%nat →
  (Z.to_nat (contractHeight (default_bouncingOptions σ)) < fuel)%nat →
  ∃ σ' mk,
    initialize fuel m icon shadow z σ = Normal σ'
    ∧ cache_ok (bouncingMotionsCache σ')
    ∧ markers σ' !! m = Some mk
    ∧ own_bouncingOptions mk = None.
Proof.
  intros Hc Hbh Hch Hfb Hfc. unfold initialize. cbv zeta.
  match goal with
  | |- context [_calculateTimeline fuel m (set_markers (<[m:=?mk0]> _) σ)] =>
      set (mk := mk0); set (σ0 := set_markers (<[m:=mk]> (markers σ)) σ)
  end.
  assert (markers σ0 !! m = Some mk) as Hmk by apply lookup_insert_eq.
  pose proof (_calculateTimeline_returns fuel m σ0 mk Hmk Hc) as Ht.
  change (bouncingOptions_of σ0 mk) with (default_bouncingOptions σ) in Ht.
  destruct Ht as (c & Hc' & ->); [done..|].
  eexists _, _. split; [done|]. split; [done|].
  split; [apply lookup_insert_eq|done].
Qed.

Lemma _setPos_returns fuel m pos σ mk :
  any3d σ = true →
  markers σ !! m = Some mk →
  0 ≤ bounceHeight (bouncingOptions_of σ mk) →
  0 ≤ contractHeight (bouncingOptions_of σ mk) →
  (Z.to_nat (bounceHeight (bouncingOptions_of σ mk)) + 1 < fuel)%nat →
  (Z.to_nat (contractHeight (bouncingOptions_of σ mk)) + 1 < fuel)%nat →
  ∃ σ' mk',
    _setPos Math_cos Math_sin fuel m pos σ = Normal σ'
    ∧ bouncingMotionsCache σ' = bouncingMotionsCache σ
    ∧ markers σ' !! m = Some mk'
    ∧ own_bouncingOptions mk' = own_bouncingOptions mk.
Proof.
  intros H3d Hmk Hbh Hch Hfb Hfc. unfold _setPos.
  rewrite (update_marker_insert _ _ _ _ Hmk).
  set (mk1 := with_motion _ mk).
  set (σ1 := set_markers (<[m:=mk1]> (markers σ)) σ).
  assert (markers σ1 !! m = Some mk1) as Hmk1 by apply lookup_insert_eq.
  pose proof (_calculateTransforms_3d fuel m σ1 mk1 H3d Hmk1) as Ht.
  change (bouncingOptions_of σ1 mk1) with (bouncingOptions_of σ mk) in Ht.
  destruct Ht as (im & ir & sm & sr & _ & _ & ->); [done..|].
  eexists _, _. split; [done|]. split; [done|].
  split; [apply lookup_insert_eq|done].
Qed.

(** A height of [0] makes [setBouncingOptions] loop in [calculateDelays],
    after the options were stored. *)
Lemma setBouncingOptions_zero_height fuel m options σ mk :
  markers σ !! m = Some mk →
  cache_ok (bouncingMotionsCache σ) →
  bounceHeight (merge_options options (default_bouncingOptions σ)) = 0 →
  setBouncingOptions Math_cos Math_sin fuel m options σ = NoReturn.
Proof.
  intros Hmk Hc Hbh.
  set (o := merge_options options (default_bouncingOptions σ)) in *.
  unfold setBouncingOptions, on_marker. rewrite Hmk. fold o.
  rewrite (update_marker_insert _ _ _ _ Hmk).
  set (mk1 := with_own_bouncingOptions o mk).
  set (σ1 := set_markers (<[m:=mk1]> (markers σ)) σ).
  assert (markers σ1 !! m = Some mk1) as Hmk1 by apply lookup_insert_eq.
  unfold _calculateTimeline, on_marker. rewrite Hmk1. cbv zeta.
  change (bouncingOptions_of σ1 mk1) with o. rewrite Hbh.
  destruct (calculateSteps_zero fuel Move (bouncingMotionsCache σ1) Hc)
    as [Hr1|(c1 & Hr1 & Hc1)]; cbn [steps_prefix] in Hr1; rewrite Hr1;
    [done|].
  cbn [assign_timeline and_then bouncingMotionsCache set_bouncingMotionsCache
         update_marker set_markers].
  pose proof (calculateDelays_zero fuel Move (bounceSpeed o) c1 Hc1) as Hr2.
  cbn [delays_prefix] in Hr2. by rewrite Hr2.
Qed.

(** *** The cache stays sound *)

Lemma settles_Normal σ σ' : settles (Normal σ) σ' → σ' = σ.
Proof. by intros [[= ->]|[e [=]]]. Qed.

Lemma settles_Abrupt e σ σ' : settles (Abrupt e σ) σ' → σ' = σ.
Proof. by intros [[=]|[e' [= _ ->]]]. Qed.

Lemma settles_NoReturn σ' : ¬ settles NoReturn σ'.
Proof. by intros [[=]|[e [=]]]. Qed.

Lemma _calculateTimeline_sound fuel m σ σ' :
  cache_ok (bouncingMotionsCache σ) →
  settles (_calculateTimeline fuel m σ) σ' →
  cache_ok (bouncingMotionsCache σ').
Proof.
  intros Hc. unfold _calculateTimeline, on_marker.
  destruct (markers σ !! m) as [mk|]; [|by intros ->%settles_Abrupt].
  cbv zeta.
  destruct (calculateSteps fuel _ "moveSteps_" _) as [[a1 c1]|] eqn:H1;
    cbn [assign_timeline and_then]; [|by intros ?%settles_NoReturn].
  apply (calculateSteps_sound fuel Move) in H1; [|done].
  cbn [bouncingMotionsCache update_marker set_markers set_bouncingMotionsCache].
  destruct (calculateDelays fuel _ _ "moveDelays_" _) as [[a2 c2]|] eqn:H2;
    cbn [assign_timeline and_then]; [|by intros ?%settles_NoReturn].
  apply (calculateDelays_sound fuel Move) in H2; [|done].
  cbn [bouncingMotionsCache update_marker set_markers set_bouncingMotionsCache].
  destruct (calculateSteps fuel _ "resizeSteps_" _) as [[a3 c3]|] eqn:H3;
    cbn [assign_timeline and_then]; [|by intros ?%settles_NoReturn].
  apply (calculateSteps_sound fuel Resize) in H3; [|done].
  cbn [bouncingMotionsCache update_marker set_markers set_bouncingMotionsCache].
  destruct (calculateDelays fuel _ _ "resizeDelays_" _) as [[a4 c4]|] eqn:H4;
    cbn [assign_timeline and_then]; [|by intros ?%settles_NoReturn].
  apply (calculateDelays_sound fuel Resize) in H4; [|done].
  by intros ->%settles_Normal.
Qed.

Lemma _calculateTransforms_fixed fuel m σ σ' :
  settles (_calculateTransforms Math_cos Math_sin fuel m σ) σ' →
  page_fixed σ' = page_fixed σ.
Proof.
  unfold _calculateTransforms, on_marker, assign, calculateIconMovePoints.
  destruct (markers σ !! m) as [mk|]; [|by intros ->%settles_Abrupt].
  cbv zeta. destruct (any3d σ); [|by intros ->%settles_Abrupt].
  repeat
    match goal with
    | |- settles (match ?o with _ => _ end) _ → _ =>
        destruct o as [?|?|];
        [|by intros ->%settles_Abrupt|by intros ?%settles_NoReturn]
    end.
  by intros ->%settles_Normal.
Qed.

Lemma setBouncingOptions_sound fuel m options σ σ' :
  cache_ok (bouncingMotionsCache σ) →
  settles (setBouncingOptions Math_cos Math_sin fuel m options σ) σ' →
  cache_ok (bouncingMotionsCache σ').
Proof.
  intros Hc. unfold setBouncingOptions, on_marker.
  destruct (markers σ !! m) as [mk|]; [|by intros ->%settles_Abrupt].
  cbv zeta.
  match goal with
  | |- settles (and_then (_calculateTimeline fuel m ?σ1) _) _ → _ =>
      pose proof (_calculateTimeline_sound fuel m σ1) as Hsound;
      destruct (_calculateTimeline fuel m σ1) as [σ2|e σ2|]
  end; cbn [and_then].
  - intros Hs. pose proof (_calculateTransforms_fixed fuel m σ2 σ' Hs) as Hfix.
    injection Hfix as -> _ _. apply Hsound; [done|by left].
  - intros ->%settles_Abrupt. apply Hsound; [done|right; by exists e].
  - by intros ?%settles_NoReturn.
Qed.

Lemma initialize_sound fuel m icon shadow z σ σ' :
  cache_ok (bouncingMotionsCache σ) →
  settles (initialize fuel m icon shadow z σ) σ' →
  cache_ok (bouncingMotionsCache σ').
Proof. intros Hc. unfold initialize. cbv zeta. by apply _calculateTimeline_sound. Qed.

Lemma _setPos_sound fuel m pos σ σ' :
  cache_ok (bouncingMotionsCache σ) →
  settles (_setPos Math_cos Math_sin fuel m pos σ) σ' →
  cache_ok (bouncingMotionsCache σ').
Proof.
  intros Hc Hs. apply _calculateTransforms_fixed in Hs.
  injection Hs as -> _ _. done.
Qed.

End CompileProperties.

(** * Properties of the registry *)

Section RegistryProperties.

Lemma stop_marker_isBouncing σ m m' :
  Marker_isBouncing (stop_marker m σ) m'
  = if decide (m' = m) then false else Marker_isBouncing σ m'.
Proof.
  unfold Marker_isBouncing, stop_marker, update_marker. simpl.
  case_decide as Hm.
  - subst m'. rewrite lookup_alter_eq. by destruct (markers σ !! m).
  - by rewrite lookup_alter_ne.
Qed.

Lemma stop_marker_exclusif σ m m' :
  Marker_exclusif (stop_marker m σ) m' = Marker_exclusif σ m'.
Proof.
  unfold Marker_exclusif, stop_marker, update_marker. simpl.
  destruct (decide (m = m')) as [<-|Hm].
  - rewrite lookup_alter_eq. by destruct (markers σ !! m).
  - by rewrite lookup_alter_ne.
Qed.

Lemma stopBouncingMarkers_loop_spec queue :
  ∀ σ,
    bouncingMarkers (stopBouncingMarkers_loop queue σ) = []
    ∧ (∀ m', Marker_exclusif (stopBouncingMarkers_loop queue σ) m'
             = Marker_exclusif σ m')
    ∧ (∀ m', m' ∈ queue →
             Marker_isBouncing (stopBouncingMarkers_loop queue σ) m' = false)
    ∧ (∀ m', m' ∉ queue →
             Marker_isBouncing (stopBouncingMarkers_loop queue σ) m'
             = Marker_isBouncing σ m').
Proof.
  induction queue as [|m rest IH]; intros σ; simpl.
  - repeat split; try done. intros m' Hm'. by apply elem_of_nil in Hm'.
  - destruct (IH (stop_marker m (set_bouncingMarkers rest σ)))
      as (Hreg & Hexcl & Hin & Hout).
    split; [done|]. split; [|split].
    + intros m'. by rewrite Hexcl, stop_marker_exclusif.
    + intros m' Hm'. destruct (decide (m' ∈ rest)) as [Hr|Hr]; [by apply Hin|].
      rewrite Hout by done. rewrite stop_marker_isBouncing.
      apply elem_of_cons in Hm' as [->|?]; [|done]. by case_decide.
    + intros m' Hm'. apply not_elem_of_cons in Hm' as [Hne Hr].
      rewrite Hout by done. rewrite stop_marker_isBouncing.
      by case_decide.
Qed.

Lemma _stopEclusifMarkerBouncing_loop_spec (i : nat) :
  ∀ σ,
    (i ≤ length (bouncingMarkers σ))%nat →
    bouncingMarkers (_stopEclusifMarkerBouncing_loop i σ)
    = filter (λ m', Marker_exclusif σ m' = false) (take i (bouncingMarkers σ))
      ++ drop i (bouncingMarkers σ)
    ∧ (∀ m', Marker_exclusif (_stopEclusifMarkerBouncing_loop i σ) m'
             = Marker_exclusif σ m')
    ∧ (∀ m', m' ∈ take i (bouncingMarkers σ) → Marker_exclusif σ m' = true →
             Marker_isBouncing (_stopEclusifMarkerBouncing_loop i σ) m' = false)
    ∧ (∀ m', Marker_exclusif σ m' = false →
             Marker_isBouncing (_stopEclusifMarkerBouncing_loop i σ) m'
             = Marker_isBouncing σ m')
    ∧ (∀ m', Marker_isBouncing σ m' = false →
             Marker_isBouncing (_stopEclusifMarkerBouncing_loop i σ) m' = false).
Proof.
  induction i as [|i IH]; intros σ Hi.
  - simpl. rewrite drop_0. repeat split; try done.
    intros m' Hm'. by apply elem_of_nil in Hm'.
  - cbn [_stopEclusifMarkerBouncing_loop].
    destruct (lookup_lt_is_Some_2 (bouncingMarkers σ) i) as [m Hm]; [lia|].
    rewrite Hm. rewrite (take_S_r _ _ _ Hm), filter_app.
    destruct (Marker_exclusif σ m) eqn:Hexcl.
    + set (σ1 := set_bouncingMarkers (delete i (bouncingMarkers σ))
                   (stop_marker m σ)).
      assert (∀ m', Marker_exclusif σ1 m' = Marker_exclusif σ m') as Hexcl1.
      { intros m'. apply stop_marker_exclusif. }
      assert (∀ m', Marker_isBouncing σ1 m'
                    = if decide (m' = m) then false
                      else Marker_isBouncing σ m') as Hflag1.
      { intros m'. apply stop_marker_isBouncing. }
      assert (bouncingMarkers σ1 = take i (bouncingMarkers σ)
                                   ++ drop (S i) (bouncingMarkers σ)) as Hreg1.
      { apply delete_take_drop. }
      destruct (IH σ1) as (Hreg & Hex & Hin & Hout & Hoff).
      { rewrite Hreg1, length_app, length_take, length_drop. lia. }
      rewrite Hreg1 in Hreg, Hin.
      rewrite take_app_length' in Hreg, Hin by (rewrite length_take; lia).
      rewrite drop_app_length' in Hreg by (rewrite length_take; lia).
      split; [|split; [|split; [|split]]].
      * rewrite Hreg. rewrite filter_cons_False by (cbv beta; congruence).
        rewrite app_nil_r. f_equal.
        apply list_filter_iff. intros m'. by rewrite Hexcl1.
      * intros m'. by rewrite Hex.
      * intros m' Hm' Hm'excl.
        apply elem_of_app in Hm' as [Hm'|Hm'].
        -- apply Hin; [done|]. by rewrite Hexcl1.
        -- apply list_elem_of_singleton in Hm' as ->.
           apply Hoff. rewrite Hflag1. by case_decide.
      * intros m' Hm'. rewrite Hout by (by rewrite Hexcl1).
        rewrite Hflag1. case_decide; [congruence|done].
      * intros m' Hm'. apply Hoff. rewrite Hflag1. by case_decide.
    + destruct (IH σ) as (Hreg & Hex & Hin & Hout & Hoff); [lia|].
      split; [|split; [|split; [|split]]].
      * rewrite Hreg. rewrite filter_cons_True by done.
        rewrite <- app_assoc. simpl. by rewrite (drop_S _ _ _ Hm).
      * done.
      * intros m' Hm' Hm'excl.
        apply elem_of_app in Hm' as [Hm'|Hm']; [by apply Hin|].
        apply list_elem_of_singleton in Hm' as ->. congruence.
      * done.
      * done.
Qed.

Lemma _addBouncingMarker_exclusive σ marker excl :
  excl || Marker_exclusif σ marker = true →
  bouncingMarkers (_addBouncingMarker marker excl σ) = [marker]
  ∧ (∀ m', Marker_exclusif (_addBouncingMarker marker excl σ) m'
           = Marker_exclusif σ m')
  ∧ (∀ m', m' ∈ bouncingMarkers σ →
           Marker_isBouncing (_addBouncingMarker marker excl σ) m' = false)
  ∧ (∀ m', m' ∉ bouncingMarkers σ →
           Marker_isBouncing (_addBouncingMarker marker excl σ) m'
           = Marker_isBouncing σ m').
Proof.
  intros Hexcl. unfold _addBouncingMarker. rewrite Hexcl.
  unfold stopBouncingMarkers.
  destruct (stopBouncingMarkers_loop_spec (bouncingMarkers σ) σ)
    as (Hreg & Hex & Hin & Hout).
  cbn [bouncingMarkers set_bouncingMarkers]. rewrite Hreg.
  repeat split; done.
Qed.

Lemma _addBouncingMarker_shared σ marker excl :
  excl || Marker_exclusif σ marker = false →
  bouncingMarkers (_addBouncingMarker marker excl σ)
  = filter (λ m', Marker_exclusif σ m' = false) (bouncingMarkers σ) ++ [marker]
  ∧ (∀ m', Marker_exclusif (_addBouncingMarker marker excl σ) m'
           = Marker_exclusif σ m')
  ∧ (∀ m', m' ∈ bouncingMarkers σ → Marker_exclusif σ m' = true →
           Marker_isBouncing (_addBouncingMarker marker excl σ) m' = false)
  ∧ (∀ m', Marker_exclusif σ m' = false →
           Marker_isBouncing (_addBouncingMarker marker excl σ) m'
           = Marker_isBouncing σ m').
Proof.
  intros Hexcl. unfold _addBouncingMarker. rewrite Hexcl.
  unfold _stopEclusifMarkerBouncing.
  destruct (_stopEclusifMarkerBouncing_loop_spec
              (length (bouncingMarkers σ)) σ) as (Hreg & Hex & Hin & Hout & _);
    [done|].
  rewrite firstn_all, drop_all, app_nil_r in Hreg.
  rewrite firstn_all in Hin.
  cbn [bouncingMarkers set_bouncingMarkers]. rewrite Hreg.
  repeat split; done.
Qed.

End RegistryProperties.

(** * Properties of the scheduler *)

Section SchedulerFrame.

(** Nothing the scheduler does touches the registry. *)
Lemma setTimeout_registry f d σ :
  bouncingMarkers (setTimeout f d σ) = bouncingMarkers σ.
Proof. done. Qed.

Lemma schedule_steps_registry mk ds ss (i : nat) :
  ∀ σ, bouncingMarkers (schedule_steps mk ds ss i σ) = bouncingMarkers σ.
Proof. induction i as [|i IH]; intros σ; simpl; [done|]. by rewrite IH. Qed.

Lemma move_registry call σ :
  bouncingMarkers (move call σ) = bouncingMarkers σ.
Proof.
  unfold move. destruct (bounce_calls σ !! call) as [c|]; [|done].
  cbv zeta. rewrite setTimeout_registry, schedule_steps_registry.
  unfold countdown. destruct (call_times c) as [k|]; [|done].
  cbv zeta. by destruct (k - 1 =? 0).
Qed.

Lemma resize_registry call σ :
  bouncingMarkers (resize call σ) = bouncingMarkers σ.
Proof.
  unfold resize. destruct (bounce_calls σ !! call) as [c|]; [|done].
  cbv zeta. by rewrite setTimeout_registry, schedule_steps_registry.
Qed.

Lemma run_callback_registry f σ :
  bouncingMarkers (run_callback f σ) = bouncingMarkers σ.
Proof.
  destruct f as [call step|call step|call step|call|call|call]; simpl.
  - destruct (call_marker_of σ call) as [m|]; [|done].
    unfold makeMoveStep, make_transform_step, on_marker.
    destruct (markers σ !! m) as [mk|]; [|done].
    destruct (iconMoveTransforms _); [|done].
    by destruct (shadowMoveTransforms _).
  - destruct (call_marker_of σ call) as [m|]; [|done].
    unfold makeMoveStepNo3D, on_marker.
    destruct (markers σ !! m) as [mk|]; [|done].
    destruct (iconMovePoints _); [|done].
    destruct (move_point_at _ _); [|done].
    destruct (shadowMovePoints _); [|done].
    by destruct (move_point_at _ _).
  - destruct (call_marker_of σ call) as [m|]; [|done].
    unfold makeResizeStep, make_transform_step, on_marker.
    destruct (markers σ !! m) as [mk|]; [|done].
    destruct (iconResizeTransforms _); [|done].
    by destruct (shadowResizeTransforms _).
  - unfold moveEnd. destruct (bounce_calls σ !! call) as [c|]; [|done].
    destruct (call_elastic c && call_is3d c); [apply resize_registry|].
    by destruct (Marker_isBouncing σ (call_marker c)).
  - unfold resizeEnd. destruct (bounce_calls σ !! call) as [c|]; [|done].
    destruct (Marker_isBouncing σ (call_marker c)); [apply move_registry|done].
  - apply move_registry.
Qed.

Lemma tick_registry σ σ' :
  tick σ = Some σ' → bouncingMarkers σ' = bouncingMarkers σ.
Proof.
  unfold tick. destruct (timers σ) as [|t ts]; [done|].
  intros [= <-]. by rewrite run_callback_registry.
Qed.

Lemma run_registry (n : nat) :
  ∀ σ, bouncingMarkers (run n σ) = bouncingMarkers σ.
Proof.
  induction n as [|n IH]; intros σ; simpl; [done|].
  destruct (tick σ) as [σ'|] eqn:Htick; [|done].
  rewrite IH. by apply tick_registry.
Qed.

Lemma bounce_registry σ m mk times :
  markers σ !! m = Some mk →
  bouncingMarkers (bounce m times σ)
  = if exclusif (bouncingOptions_of σ mk) then [m]
    else filter (λ m', Marker_exclusif σ m' = false) (bouncingMarkers σ)
         ++ [m].
Proof.
  intros Hmk. unfold bounce. rewrite Hmk. cbv zeta. rewrite move_registry.
  match goal with
  | |- context [_addBouncingMarker m ?excl ?σa] => set (σa' := σa)
  end.
  assert (∀ m', Marker_exclusif σa' m' = Marker_exclusif σ m') as Hexcl.
  { intros m'. unfold Marker_exclusif, σa', update_marker.
    cbn [markers set_markers set_bounce_calls].
    destruct (decide (m = m')) as [<-|Hm].
    - rewrite lookup_alter_eq, Hmk. done.
    - by rewrite lookup_alter_ne. }
  assert (Marker_exclusif σ m = exclusif (bouncingOptions_of σ mk)) as Hm.
  { unfold Marker_exclusif. by rewrite Hmk. }
  destruct (exclusif (bouncingOptions_of σ mk)) eqn:Hex.
  - apply _addBouncingMarker_exclusive. done.
  - destruct (_addBouncingMarker_shared σa' m false) as [-> _].
    { by rewrite Hexcl, Hm. }
    f_equal. apply list_filter_iff. intros m'. by rewrite Hexcl.
Qed.

(** Nor does it, or any operation on the registry, touch the cache, the
    default options or [L.Browser.any3d]. *)

Lemma stopBouncingMarkers_loop_fixed queue :
  ∀ σ, page_fixed (stopBouncingMarkers_loop queue σ) = page_fixed σ.
Proof.
  induction queue as [|m rest IH]; intros σ; simpl; [done|]. by rewrite IH.
Qed.

Lemma _stopEclusifMarkerBouncing_loop_fixed (i : nat) :
  ∀ σ, page_fixed (_stopEclusifMarkerBouncing_loop i σ) = page_fixed σ.
Proof.
  induction i as [|i IH]; intros σ; cbn [_stopEclusifMarkerBouncing_loop];
    [done|].
  rewrite IH. destruct (bouncingMarkers σ !! i) as [m|]; [|done].
  by destruct (Marker_exclusif σ m).
Qed.

Lemma _addBouncingMarker_fixed marker excl σ :
  page_fixed (_addBouncingMarker marker excl σ) = page_fixed σ.
Proof.
  unfold _addBouncingMarker.
  destruct (excl || Marker_exclusif σ marker).
  - apply stopBouncingMarkers_loop_fixed.
  - apply _stopEclusifMarkerBouncing_loop_fixed.
Qed.

Lemma schedule_steps_fixed mk ds ss (i : nat) :
  ∀ σ, page_fixed (schedule_steps mk ds ss i σ) = page_fixed σ.
Proof. induction i as [|i IH]; intros σ; simpl; [done|]. by rewrite IH. Qed.

Lemma move_fixed call σ : page_fixed (move call σ) = page_fixed σ.
Proof.
  unfold move. destruct (bounce_calls σ !! call) as [c|]; [|done].
  cbv zeta.
  change (page_fixed (schedule_steps
                        (if call_is3d c then MakeMoveStep call
                         else MakeMoveStepNo3D call)
                        (call_moveDelays c) (call_moveSteps c)
                        (length (call_moveSteps c)) (countdown call c σ))
          = page_fixed σ).
  rewrite schedule_steps_fixed.
  unfold countdown. destruct (call_times c) as [k|]; [|done].
  cbv zeta. by destruct (k - 1 =? 0).
Qed.

Lemma resize_fixed call σ : page_fixed (resize call σ) = page_fixed σ.
Proof.
  unfold resize. destruct (bounce_calls σ !! call) as [c|]; [|done].
  cbv zeta.
  change (page_fixed (schedule_steps (MakeResizeStep call)
                        (call_resizeDelays c) (call_resizeSteps c)
                        (length (call_resizeSteps c)) σ)
          = page_fixed σ).
  apply schedule_steps_fixed.
Qed.

Lemma run_callback_fixed f σ : page_fixed (run_callback f σ) = page_fixed σ.
Proof.
  destruct f as [call step|call step|call step|call|call|call]; simpl.
  - destruct (call_marker_of σ call) as [m|]; [|done].
    unfold makeMoveStep, make_transform_step, on_marker.
    destruct (markers σ !! m) as [mk|]; [|done].
    destruct (iconMoveTransforms _); [|done].
    by destruct (shadowMoveTransforms _).
  - destruct (call_marker_of σ call) as [m|]; [|done].
    unfold makeMoveStepNo3D, on_marker.
    destruct (markers σ !! m) as [mk|]; [|done].
    destruct (iconMovePoints _); [|done].
    destruct (move_point_at _ _); [|done].
    destruct (shadowMovePoints _); [|done].
    by destruct (move_point_at _ _).
  - destruct (call_marker_of σ call) as [m|]; [|done].
    unfold makeResizeStep, make_transform_step, on_marker.
    destruct (markers σ !! m) as [mk|]; [|done].
    destruct (iconResizeTransforms _); [|done].
    by destruct (shadowResizeTransforms _).
  - unfold moveEnd. destruct (bounce_calls σ !! call) as [c|]; [|done].
    destruct (call_elastic c && call_is3d c); [apply resize_fixed|].
    by destruct (Marker_isBouncing σ (call_marker c)).
  - unfold resizeEnd. destruct (bounce_calls σ !! call) as [c|]; [|done].
    destruct (Marker_isBouncing σ (call_marker c)); [apply move_fixed|done].
  - apply move_fixed.
Qed.

Lemma tick_fixed σ σ' : tick σ = Some σ' → page_fixed σ' = page_fixed σ.
Proof.
  unfold tick. destruct (timers σ) as [|t ts]; [done|].
  intros [= <-]. by rewrite run_callback_fixed.
Qed.

Lemma bounce_fixed m times σ : page_fixed (bounce m times σ) = page_fixed σ.
Proof.
  unfold bounce. destruct (markers σ !! m) as [mk|]; [|done].
  cbv zeta. by rewrite move_fixed, _addBouncingMarker_fixed.
Qed.

End SchedulerFrame.

(** ** A finite bounce comes to rest *)

Section SchedulerTermination.

Lemma timers_weight_insert σ t ts :
  timers_weight σ (insert_timer t ts)
  = (weight σ (timer_callback t) + timers_weight σ ts)%nat.
Proof.
  unfold timers_weight. induction ts as [|t' ts IH]; simpl; [done|].
  destruct (timer_due t <? timer_due t'); simpl; [done|].
  rewrite IH. lia.
Qed.

Lemma elem_of_insert_timer t t' ts :
  t' ∈ insert_timer t ts ↔ t' = t ∨ t' ∈ ts.
Proof.
  induction ts as [|t0 ts IH]; simpl.
  - rewrite list_elem_of_singleton, elem_of_nil. tauto.
  - destruct (timer_due t <? timer_due t0).
    + by rewrite elem_of_cons.
    + rewrite !elem_of_cons, IH. tauto.
Qed.

Lemma weight_positive σ f : (1 ≤ weight σ f)%nat.
Proof.
  destruct f; simpl; try done;
    destruct (bounce_calls σ !! call) as [c|]; try done;
    unfold moveEnd_cost, resizeEnd_cost; lia.
Qed.

Lemma call_le_refl c : call_le c c.
Proof. by repeat split. Qed.

Lemma move_cost_mono b' b c' c :
  call_le c' c → (b' = true → b = true) →
  (move_cost b' c' ≤ move_cost b c)%nat.
Proof.
  intros (_ & He & Hm & Hr & Hk) Hb.
  unfold move_cost, last_cost, cycle_cost. rewrite He, Hm, Hr.
  destruct b', b.
  - apply Nat.add_le_mono_l, Nat.mul_le_mono_r. lia.
  - by specialize (Hb eq_refl).
  - apply Nat.le_add_r.
  - done.
Qed.

Lemma resizeEnd_cost_mono b' b c' c :
  call_le c' c → (b' = true → b = true) →
  (resizeEnd_cost b' c' ≤ resizeEnd_cost b c)%nat.
Proof.
  intros Hc Hb. pose proof (move_cost_mono b' b c' c Hc Hb) as Hm.
  unfold resizeEnd_cost.
  destruct b'; [rewrite Hb in * by done|destruct b]; lia.
Qed.

Lemma moveEnd_cost_mono b' b c' c :
  call_le c' c → (b' = true → b = true) →
  (moveEnd_cost b' c' ≤ moveEnd_cost b c)%nat.
Proof.
  intros Hc Hb. pose proof (move_cost_mono b' b c' c Hc Hb) as Hm.
  pose proof (resizeEnd_cost_mono b' b c' c Hc Hb) as Hr.
  destruct Hc as (_ & He & _ & Hlen & _).
  unfold moveEnd_cost. rewrite He, Hlen.
  destruct (elastic3d c); [lia|].
  destruct b'; [rewrite Hb in * by done|destruct b]; lia.
Qed.

Lemma weight_mono σ' σ f : state_le σ' σ → (weight σ' f ≤ weight σ f)%nat.
Proof.
  intros [Hcalls Hflags].
  destruct f as [call step|call step|call step|call|call|call]; simpl;
    try done; specialize (Hcalls call);
    destruct (bounce_calls σ' !! call) as [c'|],
             (bounce_calls σ !! call) as [c|]; try done.
  - apply moveEnd_cost_mono; [done|].
    destruct Hcalls as [-> _]. apply Hflags.
  - apply resizeEnd_cost_mono; [done|].
    destruct Hcalls as [-> _]. apply Hflags.
  - apply le_n_S, move_cost_mono; [done|].
    destruct Hcalls as [-> _]. apply Hflags.
Qed.

Lemma timers_weight_mono σ' σ ts :
  state_le σ' σ → (timers_weight σ' ts ≤ timers_weight σ ts)%nat.
Proof.
  intros Hle. unfold timers_weight.
  induction ts as [|t ts IH]; simpl; [done|].
  pose proof (weight_mono σ' σ (timer_callback t) Hle). lia.
Qed.

(** States with the same calls and the same bouncing markers. *)
Lemma state_le_same σ' σ :
  bounce_calls σ' = bounce_calls σ →
  (∀ m, Marker_isBouncing σ' m = Marker_isBouncing σ m) →
  state_le σ' σ.
Proof.
  intros Hcalls Hflags. split.
  - intros call. rewrite Hcalls.
    destruct (bounce_calls σ !! call); [apply call_le_refl|done].
  - intros m. by rewrite Hflags.
Qed.

Lemma state_le_trans σ3 σ2 σ1 :
  state_le σ3 σ2 → state_le σ2 σ1 → state_le σ3 σ1.
Proof.
  intros [Hc32 Hf32] [Hc21 Hf21]. split; [|by auto].
  intros call. specialize (Hc32 call). specialize (Hc21 call).
  destruct (bounce_calls σ3 !! call) as [c3|],
           (bounce_calls σ2 !! call) as [c2|],
           (bounce_calls σ1 !! call) as [c1|]; try done.
  destruct Hc32 as (? & ? & ? & ? & ?), Hc21 as (? & ? & ? & ? & ?).
  repeat split; try congruence. lia.
Qed.

Lemma weight_same σ' σ f :
  bounce_calls σ' = bounce_calls σ →
  (∀ m, Marker_isBouncing σ' m = Marker_isBouncing σ m) →
  weight σ' f = weight σ f.
Proof.
  intros Hcalls Hflags.
  destruct f; simpl; try done; rewrite Hcalls;
    destruct (bounce_calls σ !! call); try done; by rewrite Hflags.
Qed.

Lemma timers_weight_same σ' σ ts :
  bounce_calls σ' = bounce_calls σ →
  (∀ m, Marker_isBouncing σ' m = Marker_isBouncing σ m) →
  timers_weight σ' ts = timers_weight σ ts.
Proof.
  intros Hcalls Hflags. unfold timers_weight.
  induction ts as [|t ts IH]; simpl; [done|].
  by rewrite IH, (weight_same σ' σ).
Qed.

Lemma counts_down_same σ' σ call :
  bounce_calls σ' = bounce_calls σ →
  (∀ m, Marker_isBouncing σ' m = Marker_isBouncing σ m) →
  counts_down σ call → counts_down σ' call.
Proof.
  intros Hcalls Hflags Hcount c. rewrite Hcalls, Hflags. apply Hcount.
Qed.

(** *** [setTimeout] and the loop that sets the timers of the steps *)

Lemma potential_setTimeout f d σ :
  potential (setTimeout f d σ) = (weight σ f + potential σ)%nat.
Proof.
  unfold potential, setTimeout. cbn [timers set_timers].
  rewrite (timers_weight_same _ σ) by done.
  by rewrite timers_weight_insert.
Qed.

Lemma schedule_steps_frame mk ds ss (i : nat) :
  ∀ σ,
    bounce_calls (schedule_steps mk ds ss i σ) = bounce_calls σ
    ∧ markers (schedule_steps mk ds ss i σ) = markers σ.
Proof.
  induction i as [|i IH]; intros σ; simpl; [done|].
  by destruct (IH (setTimeout (mk (ss !! i)) (ds !! i) σ)) as [-> ->].
Qed.

Lemma schedule_steps_flags mk ds ss i σ m :
  Marker_isBouncing (schedule_steps mk ds ss i σ) m = Marker_isBouncing σ m.
Proof.
  unfold Marker_isBouncing.
  by rewrite (proj2 (schedule_steps_frame mk ds ss i σ)).
Qed.

(** The timers [move] and [resize] set change neither the calls nor the
    markers. *)
Lemma scheduled_calls f d mk ds ss i σ :
  bounce_calls (setTimeout f d (schedule_steps mk ds ss i σ)) = bounce_calls σ.
Proof.
  cbn [setTimeout bounce_calls set_timers]. apply schedule_steps_frame.
Qed.

Lemma scheduled_flags f d mk ds ss i σ m :
  Marker_isBouncing (setTimeout f d (schedule_steps mk ds ss i σ)) m
  = Marker_isBouncing σ m.
Proof.
  unfold Marker_isBouncing at 1. cbn [setTimeout markers set_timers].
  by rewrite (proj2 (schedule_steps_frame mk ds ss i σ)).
Qed.

Lemma potential_schedule_steps mk ds ss (i : nat) :
  (∀ σ step, weight σ (mk step) = 1%nat) →
  ∀ σ, potential (schedule_steps mk ds ss i σ) = (i + potential σ)%nat.
Proof.
  intros Hmk. induction i as [|i IH]; intros σ; simpl; [done|].
  rewrite IH, potential_setTimeout, Hmk. lia.
Qed.

Lemma schedule_steps_timers mk ds ss (i : nat) call :
  (∀ step, callback_call (mk step) = call) →
  ∀ σ t,
    t ∈ timers (schedule_steps mk ds ss i σ) →
    t ∈ timers σ ∨ callback_call (timer_callback t) = call.
Proof.
  intros Hmk. induction i as [|i IH]; intros σ t; simpl; [by left|].
  intros Ht. apply IH in Ht as [Ht|Ht]; [|by right].
  unfold setTimeout in Ht. cbn [timers set_timers] in Ht.
  apply elem_of_insert_timer in Ht as [->|Ht]; [right; apply Hmk|by left].
Qed.

Lemma schedule_steps_keeps mk ds ss (i : nat) :
  ∀ σ t, t ∈ timers σ → t ∈ timers (schedule_steps mk ds ss i σ).
Proof.
  induction i as [|i IH]; intros σ t Ht; simpl; [done|].
  apply IH. unfold setTimeout. cbn [timers set_timers].
  apply elem_of_insert_timer. by right.
Qed.

(** *** The countdown of [move] *)

Lemma countdown_timers call c σ : timers (countdown call c σ) = timers σ.
Proof.
  unfold countdown. destruct (call_times c) as [k|]; [|done].
  cbv zeta. by destruct (k - 1 =? 0).
Qed.

Lemma countdown_call call c σ :
  bounce_calls σ !! call = Some c →
  ∃ c', bounce_calls (countdown call c σ) !! call = Some c'
        ∧ call_le c' c
        ∧ call_times c' = (λ k, k - 1) <$> call_times c.
Proof.
  intros Hc. unfold countdown. destruct (call_times c) as [k|] eqn:Hk.
  - exists (with_times (Some (k - 1)) c). split; [|split].
    + cbv zeta. pose proof (lookup_lt_Some _ _ _ Hc).
      destruct (k - 1 =? 0); cbn [bounce_calls stop_marker update_marker
        set_markers set_bounce_calls]; by apply list_lookup_insert_eq.
    + repeat split. unfold times_left. rewrite Hk. simpl. lia.
    + done.
  - exists c. rewrite Hk. repeat split; done.
Qed.

Lemma countdown_other call c σ j :
  j ≠ call →
  bounce_calls (countdown call c σ) !! j = bounce_calls σ !! j.
Proof.
  intros Hj. unfold countdown. destruct (call_times c) as [k|]; [|done].
  cbv zeta.
  destruct (k - 1 =? 0); cbn [bounce_calls stop_marker update_marker
    set_markers set_bounce_calls]; by apply list_lookup_insert_ne.
Qed.

Lemma countdown_flag call c σ m :
  Marker_isBouncing (countdown call c σ) m
  = match call_times c with
    | Some k =>
        if (k - 1 =? 0) && bool_decide (m = call_marker c) then false
        else Marker_isBouncing σ m
    | None => Marker_isBouncing σ m
    end.
Proof.
  unfold countdown. destruct (call_times c) as [k|]; [|done].
  cbv zeta. destruct (k - 1 =? 0); simpl.
  - rewrite stop_marker_isBouncing. by case_decide; case_bool_decide.
  - done.
Qed.

Lemma countdown_le call c σ :
  bounce_calls σ !! call = Some c → state_le (countdown call c σ) σ.
Proof.
  intros Hc. split.
  - intros j. destruct (decide (j = call)) as [->|Hj].
    + destruct (countdown_call call c σ Hc) as (c' & -> & Hle & _).
      by rewrite Hc.
    + rewrite countdown_other by done.
      destruct (bounce_calls σ !! j); [apply call_le_refl|done].
  - intros m. rewrite countdown_flag.
    destruct (call_times c) as [k|]; [|done].
    by destruct ((k - 1 =? 0) && bool_decide (m = call_marker c)).
Qed.

Lemma countdown_counts call c σ j :
  bounce_calls σ !! call = Some c →
  counts_down σ j → counts_down (countdown call c σ) j.
Proof.
  intros Hc Hcount c' Hc' Hflag.
  destruct (decide (j = call)) as [->|Hj].
  - destruct (countdown_call call c σ Hc) as (c2 & Hc2 & (Hm & _) & Htimes).
    rewrite Hc' in Hc2. injection Hc2 as <-.
    rewrite countdown_flag, Hm in Hflag.
    destruct (call_times c) as [k|] eqn:Hk.
    + rewrite bool_decide_eq_true_2, andb_true_r in Hflag by done.
      destruct (Z.eqb_spec (k - 1) 0) as [|Hk1]; [done|].
      destruct (Hcount c Hc Hflag) as (k0 & Hk0 & Hpos).
      rewrite Hk in Hk0. injection Hk0 as <-.
      exists (k - 1). split; [done|lia].
    + destruct (Hcount c Hc Hflag) as (k0 & Hk0 & _). by rewrite Hk in Hk0.
  - rewrite countdown_other in Hc' by done.
    apply (Hcount c' Hc').
    apply (proj2 (countdown_le call c σ Hc)). done.
Qed.

(** *** [move] and [resize] *)

Lemma move_step_weight (is3d : bool) call σ step :
  weight σ ((if is3d then MakeMoveStep call else MakeMoveStepNo3D call) step)
  = 1%nat.
Proof. by destruct is3d. Qed.

Lemma move_step_call (is3d : bool) call step :
  callback_call
    ((if is3d then MakeMoveStep call else MakeMoveStepNo3D call) step)
  = call.
Proof. by destruct is3d. Qed.

(** What the end of the movement weighs right after the countdown. *)
Lemma moveEnd_after_countdown call c σ :
  bounce_calls σ !! call = Some c →
  counts_down σ call →
  (length (call_moveSteps c) + weight (countdown call c σ) (MoveEnd call)
   ≤ move_cost (Marker_isBouncing σ (call_marker c)) c)%nat.
Proof.
  intros Hc Hcount.
  destruct (countdown_call call c σ Hc)
    as (c' & Hc' & (Hm & He & Hms & Hrs & _) & Htimes).
  cbn [weight]. rewrite Hc', countdown_flag, Hm.
  unfold moveEnd_cost, resizeEnd_cost, move_cost, last_cost, cycle_cost.
  rewrite He, Hms, Hrs. unfold times_left. rewrite Htimes.
  destruct (Marker_isBouncing σ (call_marker c)) eqn:Hflag.
  - destruct (Hcount c Hc Hflag) as (k & Hk & Hpos). rewrite Hk.
    rewrite bool_decide_eq_true_2, andb_true_r by done. simpl.
    destruct (Z.eqb_spec (k - 1) 0) as [Hk1|Hk1].
    + replace (Z.to_nat k - 1)%nat with 0%nat by lia.
      destruct (elastic3d c); lia.
    + replace (Z.to_nat k - 1)%nat with (S (Z.to_nat (k - 1) - 1)) by lia.
      destruct (elastic3d c); simpl; lia.
  - destruct (call_times c) as [k|].
    + destruct ((k - 1 =? 0) && bool_decide (call_marker c = call_marker c));
        destruct (elastic3d c); lia.
    + destruct (elastic3d c); lia.
Qed.

Lemma move_potential call c σ :
  bounce_calls σ !! call = Some c →
  counts_down σ call →
  (potential (move call σ)
   ≤ move_cost (Marker_isBouncing σ (call_marker c)) c + potential σ)%nat.
Proof.
  intros Hc Hcount. unfold move. rewrite Hc. cbv zeta.
  rewrite potential_setTimeout.
  rewrite potential_schedule_steps by apply move_step_weight.
  rewrite (weight_same _ (countdown call c σ));
    [|apply schedule_steps_frame|apply schedule_steps_flags].
  pose proof (moveEnd_after_countdown call c σ Hc Hcount) as Hend.
  assert (potential (countdown call c σ) ≤ potential σ)%nat as Hrest.
  { unfold potential. rewrite countdown_timers.
    by apply timers_weight_mono, countdown_le. }
  lia.
Qed.

Lemma resize_potential call c σ :
  bounce_calls σ !! call = Some c →
  potential (resize call σ)
  = (length (call_resizeSteps c)
     + resizeEnd_cost (Marker_isBouncing σ (call_marker c)) c
     + potential σ)%nat.
Proof.
  intros Hc. unfold resize. rewrite Hc. cbv zeta.
  rewrite potential_setTimeout.
  rewrite potential_schedule_steps by done.
  rewrite (weight_same _ σ);
    [|apply schedule_steps_frame|apply schedule_steps_flags].
  cbn [weight]. rewrite Hc. lia.
Qed.

Lemma move_le call σ : state_le (move call σ) σ.
Proof.
  unfold move. destruct (bounce_calls σ !! call) as [c|] eqn:Hc;
    [|by apply state_le_same].
  cbv zeta. eapply state_le_trans; [|by apply countdown_le].
  apply state_le_same.
  - apply scheduled_calls.
  - apply scheduled_flags.
Qed.

Lemma resize_le call σ : state_le (resize call σ) σ.
Proof.
  unfold resize. destruct (bounce_calls σ !! call) as [c|] eqn:Hc;
    [|by apply state_le_same].
  cbv zeta. apply state_le_same.
  - apply scheduled_calls.
  - apply scheduled_flags.
Qed.

Lemma move_counts call σ j :
  counts_down σ j → counts_down (move call σ) j.
Proof.
  intros Hcount. unfold move.
  destruct (bounce_calls σ !! call) as [c|] eqn:Hc; [|done].
  cbv zeta.
  apply (counts_down_same _ (countdown call c σ)).
  - apply scheduled_calls.
  - apply scheduled_flags.
  - by apply countdown_counts.
Qed.

Lemma move_timers call σ t :
  t ∈ timers (move call σ) →
  t ∈ timers σ ∨ callback_call (timer_callback t) = call.
Proof.
  unfold move. destruct (bounce_calls σ !! call) as [c|]; [|by left].
  cbv zeta. unfold setTimeout at 1. cbn [timers set_timers].
  intros [->|Ht]%elem_of_insert_timer; [by right|].
  apply (schedule_steps_timers _ _ _ _ call) in Ht as [Ht|Ht];
    [|by right|apply move_step_call].
  left. by rewrite countdown_timers in Ht.
Qed.

Lemma move_keeps call σ t : t ∈ timers σ → t ∈ timers (move call σ).
Proof.
  intros Ht. unfold move. destruct (bounce_calls σ !! call) as [c|]; [|done].
  cbv zeta. unfold setTimeout at 1. cbn [timers set_timers].
  apply elem_of_insert_timer. right. apply schedule_steps_keeps.
  by rewrite countdown_timers.
Qed.

(** [move] leaves the timer of the end of the movement behind. *)
Lemma move_continues call c σ :
  bounce_calls σ !! call = Some c →
  ∃ t c', t ∈ timers (move call σ)
          ∧ timer_callback t = MoveEnd call
          ∧ bounce_calls (move call σ) !! call = Some c'
          ∧ call_marker c' = call_marker c.
Proof.
  intros Hc. pose proof (move_le call σ) as [Hcalls _].
  specialize (Hcalls call). rewrite Hc in Hcalls.
  destruct (bounce_calls (move call σ) !! call) as [c'|] eqn:Hc'; [|done].
  destruct Hcalls as [Hm _].
  unfold move in *. rewrite Hc in *. cbv zeta in *.
  eexists _, c'. split; [|split; [|done]].
  - unfold setTimeout at 1. cbn [timers set_timers].
    apply elem_of_insert_timer. by left.
  - done.
Qed.

Lemma resize_timers call σ t :
  t ∈ timers (resize call σ) →
  t ∈ timers σ ∨ callback_call (timer_callback t) = call.
Proof.
  unfold resize. destruct (bounce_calls σ !! call) as [c|]; [|by left].
  cbv zeta. unfold setTimeout at 1. cbn [timers set_timers].
  intros [->|Ht]%elem_of_insert_timer; [by right|].
  by apply (schedule_steps_timers _ _ _ _ call) in Ht.
Qed.

Lemma resize_keeps call σ t : t ∈ timers σ → t ∈ timers (resize call σ).
Proof.
  intros Ht. unfold resize. destruct (bounce_calls σ !! call) as [c|]; [|done].
  cbv zeta. unfold setTimeout at 1. cbn [timers set_timers].
  apply elem_of_insert_timer. right. by apply schedule_steps_keeps.
Qed.

(** *** The callbacks *)

Lemma same_bounces_refl σ : same_bounces σ σ.
Proof. done. Qed.

Lemma with_styles_same σ m icon shadow :
  same_bounces σ (update_marker m (with_styles icon shadow) σ).
Proof.
  split; [done|]. split; [done|]. intros m'.
  unfold Marker_isBouncing, update_marker. cbn [markers set_markers].
  destruct (decide (m = m')) as [<-|Hm].
  - rewrite lookup_alter_eq. by destruct (markers σ !! m).
  - by rewrite lookup_alter_ne.
Qed.

Lemma same_bounces_trans σ1 σ2 σ3 :
  same_bounces σ1 σ2 → same_bounces σ2 σ3 → same_bounces σ1 σ3.
Proof.
  intros (Hc12 & Ht12 & Hf12) (Hc23 & Ht23 & Hf23).
  split; [congruence|]. split; [congruence|].
  intros m. by rewrite Hf23.
Qed.

Lemma make_transform_step_same m icons shadows step σ :
  same_bounces σ (settled (make_transform_step m icons shadows step σ) σ).
Proof.
  unfold make_transform_step, on_marker.
  destruct (markers σ !! m) as [mk|]; [|done].
  destruct (icons (bouncingMotion mk)); [|done]. cbv zeta.
  destruct (shadows (bouncingMotion mk)); cbn [settled].
  - eapply same_bounces_trans; apply with_styles_same.
  - apply with_styles_same.
Qed.

Lemma makeMoveStepNo3D_same m step σ :
  same_bounces σ (settled (makeMoveStepNo3D m step σ) σ).
Proof.
  unfold makeMoveStepNo3D, on_marker.
  destruct (markers σ !! m) as [mk|]; [|done]. cbv zeta.
  destruct (iconMovePoints _); cbn [settled]; [|apply with_styles_same].
  destruct (move_point_at _ _); cbn [settled]; [|apply with_styles_same].
  destruct (shadowMovePoints _); cbn [settled];
    [|eapply same_bounces_trans; apply with_styles_same].
  destruct (move_point_at _ _); cbn [settled].
  - eapply same_bounces_trans; [|apply with_styles_same].
    eapply same_bounces_trans; apply with_styles_same.
  - eapply same_bounces_trans; apply with_styles_same.
Qed.

(** A callback that applies a step changes styles and nothing else. *)
Lemma step_callback_same f σ :
  continues f = false → same_bounces σ (run_callback f σ).
Proof.
  destruct f as [call step|call step|call step|call|call|call]; try done;
    intros _; cbn [run_callback];
    destruct (call_marker_of σ call) as [m|]; try done.
  - apply make_transform_step_same.
  - apply makeMoveStepNo3D_same.
  - apply make_transform_step_same.
Qed.

Lemma run_callback_le f σ : state_le (run_callback f σ) σ.
Proof.
  destruct (continues f) eqn:Hf.
  - destruct f as [call step|call step|call step|call|call|call]; try done;
      cbn [run_callback].
    + unfold moveEnd. destruct (bounce_calls σ !! call) as [c|];
        [|by apply state_le_same].
      destruct (call_elastic c && call_is3d c); [apply resize_le|].
      destruct (Marker_isBouncing σ (call_marker c)); by apply state_le_same.
    + unfold resizeEnd. destruct (bounce_calls σ !! call) as [c|];
        [|by apply state_le_same].
      destruct (Marker_isBouncing σ (call_marker c));
        [apply move_le|by apply state_le_same].
    + apply move_le.
  - destruct (step_callback_same f σ Hf) as (Hc & _ & Hflags).
    by apply state_le_same.
Qed.

Lemma run_callback_timers f σ t :
  t ∈ timers (run_callback f σ) →
  t ∈ timers σ ∨ callback_call (timer_callback t) = callback_call f.
Proof.
  destruct (continues f) eqn:Hf.
  - destruct f as [call step|call step|call step|call|call|call]; try done;
      cbn [run_callback callback_call].
    + unfold moveEnd. destruct (bounce_calls σ !! call) as [c|]; [|by left].
      destruct (call_elastic c && call_is3d c); [apply resize_timers|].
      destruct (Marker_isBouncing σ (call_marker c)); [|by left].
      unfold setTimeout. cbn [timers set_timers].
      intros [->|Ht]%elem_of_insert_timer; [by right|by left].
    + unfold resizeEnd. destruct (bounce_calls σ !! call) as [c|]; [|by left].
      destruct (Marker_isBouncing σ (call_marker c));
        [apply move_timers|by left].
    + apply move_timers.
  - destruct (step_callback_same f σ Hf) as (_ & -> & _). by left.
Qed.

Lemma run_callback_keeps f σ t :
  t ∈ timers σ → t ∈ timers (run_callback f σ).
Proof.
  intros Ht. destruct (continues f) eqn:Hf.
  - destruct f as [call step|call step|call step|call|call|call]; try done;
      cbn [run_callback].
    + unfold moveEnd. destruct (bounce_calls σ !! call) as [c|]; [|done].
      destruct (call_elastic c && call_is3d c); [by apply resize_keeps|].
      destruct (Marker_isBouncing σ (call_marker c)); [|done].
      unfold setTimeout. cbn [timers set_timers].
      apply elem_of_insert_timer. by right.
    + unfold resizeEnd. destruct (bounce_calls σ !! call) as [c|]; [|done].
      destruct (Marker_isBouncing σ (call_marker c));
        [by apply move_keeps|done].
    + by apply move_keeps.
  - destruct (step_callback_same f σ Hf) as (_ & -> & _). done.
Qed.

Lemma run_callback_counts f σ j :
  counts_down σ j → counts_down (run_callback f σ) j.
Proof.
  intros Hcount. destruct (continues f) eqn:Hf.
  - destruct f as [call step|call step|call step|call|call|call]; try done;
      cbn [run_callback].
    + unfold moveEnd. destruct (bounce_calls σ !! call) as [c|]; [|done].
      destruct (call_elastic c && call_is3d c).
      * unfold resize. destruct (bounce_calls σ !! call) as [c0|]; [|done].
        cbv zeta. apply (counts_down_same _ σ); [| |done].
        -- apply scheduled_calls.
        -- apply scheduled_flags.
      * by destruct (Marker_isBouncing σ (call_marker c)).
    + unfold resizeEnd. destruct (bounce_calls σ !! call) as [c|]; [|done].
      destruct (Marker_isBouncing σ (call_marker c));
        [by apply move_counts|done].
    + by apply move_counts.
  - destruct (step_callback_same f σ Hf) as (Hc & _ & Hflags).
    by apply (counts_down_same _ σ).
Qed.

(** Every callback uses up at least itself of what is left to fire. *)
Lemma run_callback_potential f σ :
  counts_down σ (callback_call f) →
  (potential (run_callback f σ) + 1 ≤ weight σ f + potential σ)%nat.
Proof.
  intros Hcount. destruct (continues f) eqn:Hf.
  - destruct f as [call step|call step|call step|call|call|call]; try done;
      cbn [run_callback weight callback_call] in *.
    + unfold moveEnd. destruct (bounce_calls σ !! call) as [c|] eqn:Hc; [|lia].
      unfold moveEnd_cost, elastic3d.
      destruct (call_elastic c && call_is3d c).
      * rewrite (resize_potential call c σ Hc). lia.
      * destruct (Marker_isBouncing σ (call_marker c)) eqn:Hflag; [|lia].
        rewrite potential_setTimeout. cbn [weight]. rewrite Hc, Hflag. lia.
    + unfold resizeEnd. destruct (bounce_calls σ !! call) as [c|] eqn:Hc; [|lia].
      unfold resizeEnd_cost.
      destruct (Marker_isBouncing σ (call_marker c)) eqn:Hflag; [|lia].
      pose proof (move_potential call c σ Hc Hcount) as Hmove.
      rewrite Hflag in Hmove. lia.
    + destruct (bounce_calls σ !! call) as [c|] eqn:Hc.
      * pose proof (move_potential call c σ Hc Hcount). lia.
      * unfold move. rewrite Hc. lia.
  - destruct (step_callback_same f σ Hf) as (Hc & Ht & Hflags).
    unfold potential. rewrite Ht, (timers_weight_same _ σ) by done.
    pose proof (weight_positive σ f). lia.
Qed.

(** A callback that carries a bounce on and leaves its marker bouncing leaves
    a timer that carries the bounce on. *)
Lemma run_callback_continues f σ c :
  continues f = true →
  bounce_calls σ !! callback_call f = Some c →
  Marker_isBouncing (run_callback f σ) (call_marker c) = true →
  ∃ t c', t ∈ timers (run_callback f σ)
          ∧ continues (timer_callback t) = true
          ∧ bounce_calls (run_callback f σ) !! callback_call (timer_callback t)
            = Some c'
          ∧ call_marker c' = call_marker c.
Proof.
  intros Hf Hc.
  destruct f as [call step|call step|call step|call|call|call]; try done;
    cbn [run_callback callback_call] in *.
  - unfold moveEnd. rewrite Hc.
    destruct (call_elastic c && call_is3d c).
    + intros _. unfold resize. rewrite Hc. cbv zeta.
      eexists (Timer _ (ResizeEnd call)), c. split; [|split; [done|split]].
      * unfold setTimeout at 1. cbn [timers set_timers].
        apply elem_of_insert_timer. by left.
      * cbn [timer_callback callback_call setTimeout bounce_calls set_timers].
        by rewrite (proj1 (schedule_steps_frame _ _ _ _ _)).
      * done.
    + destruct (Marker_isBouncing σ (call_marker c)) eqn:Hflag;
        [|by rewrite Hflag].
      intros _. eexists (Timer _ (MoveAgain call)), c.
      split; [|split; [done|split; done]].
      unfold setTimeout. cbn [timers set_timers].
      apply elem_of_insert_timer. by left.
  - unfold resizeEnd. rewrite Hc.
    destruct (Marker_isBouncing σ (call_marker c)) eqn:Hflag;
      [|by rewrite Hflag].
    intros _. destruct (move_continues call c σ Hc) as (t & c' & Ht & Hcb & ?).
    exists t, c'. by rewrite Hcb.
  - intros _. destruct (move_continues call c σ Hc) as (t & c' & Ht & Hcb & ?).
    exists t, c'. by rewrite Hcb.
Qed.

(** The call of [move] that counts [times] down to zero clears the flag. *)
Lemma move_last call c σ :
  bounce_calls σ !! call = Some c → call_times c = Some 1 →
  Marker_isBouncing (move call σ) (call_marker c) = false.
Proof.
  intros Hc Htimes. unfold move. rewrite Hc. cbv zeta.
  unfold Marker_isBouncing at 1. cbn [setTimeout markers set_timers].
  rewrite (proj2 (schedule_steps_frame _ _ _ _ _)).
  change (Marker_isBouncing (countdown call c σ) (call_marker c) = false).
  rewrite countdown_flag, Htimes. simpl. by rewrite bool_decide_eq_true_2.
Qed.

(** *** The timers fire one after the other *)

Lemma tick_potential σ σ' :
  finite_bounces σ → tick σ = Some σ' → (potential σ' < potential σ)%nat.
Proof.
  intros Hfin. unfold tick.
  destruct (timers σ) as [|t ts] eqn:Hts; [done|]. intros [= <-].
  set (σ0 := set_now (timer_due t) (set_timers ts σ)).
  assert (counts_down σ0 (callback_call (timer_callback t))) as Hcount.
  { apply (counts_down_same _ σ); [done..|].
    apply Hfin. rewrite Hts. apply list_elem_of_here. }
  pose proof (run_callback_potential (timer_callback t) σ0 Hcount) as Hstep.
  assert (potential σ
          = (weight σ0 (timer_callback t) + potential σ0)%nat) as ->.
  { unfold potential. rewrite Hts. done. }
  lia.
Qed.

Lemma tick_finite σ σ' :
  finite_bounces σ → tick σ = Some σ' → finite_bounces σ'.
Proof.
  intros Hfin. unfold tick.
  destruct (timers σ) as [|t ts] eqn:Hts; [done|]. intros [= <-].
  set (σ0 := set_now (timer_due t) (set_timers ts σ)).
  intros t' Ht'. apply run_callback_counts.
  apply (counts_down_same _ σ); [done..|].
  apply run_callback_timers in Ht' as [Ht'|Ht'].
  - apply Hfin. rewrite Hts. by apply list_elem_of_further.
  - rewrite Ht'. apply Hfin. rewrite Hts. apply list_elem_of_here.
Qed.

Lemma tick_carried m σ σ' :
  carried_on m σ → tick σ = Some σ' → carried_on m σ'.
Proof.
  intros Hcarried. unfold tick.
  destruct (timers σ) as [|t ts] eqn:Hts; [done|]. intros [= <-].
  set (σ0 := set_now (timer_due t) (set_timers ts σ)).
  intros Hflag.
  pose proof (run_callback_le (timer_callback t) σ0) as [Hcalls Hflags].
  destruct Hcarried as (t0 & c0 & Ht0 & Hcont & Hc0 & Hm0).
  { by apply Hflags. }
  rewrite Hts in Ht0. apply elem_of_cons in Ht0 as [->|Ht0].
  - destruct (run_callback_continues (timer_callback t) σ0 c0 Hcont Hc0)
      as (t1 & c1 & Ht1 & Hcont1 & Hc1 & Hm1); [by rewrite Hm0|].
    exists t1, c1. repeat split; try done. congruence.
  - specialize (Hcalls (callback_call (timer_callback t0))).
    change (bounce_calls σ0) with (bounce_calls σ) in Hcalls.
    rewrite Hc0 in Hcalls.
    destruct (bounce_calls (run_callback (timer_callback t) σ0)
                !! callback_call (timer_callback t0)) as [c1|] eqn:Hc1;
      [|done].
    exists t0, c1. repeat split; try done.
    + by apply run_callback_keeps.
    + destruct Hcalls as [-> _]. done.
Qed.

Lemma run_invariants m (n : nat) :
  ∀ σ, finite_bounces σ → carried_on m σ →
       finite_bounces (run n σ) ∧ carried_on m (run n σ).
Proof.
  induction n as [|n IH]; intros σ Hfin Hcarried; simpl; [done|].
  destruct (tick σ) as [σ'|] eqn:Htick; [|done].
  apply IH; [by eapply tick_finite|by eapply tick_carried].
Qed.

(** After as many timers as are left to fire, none is pending. *)
Lemma run_quiesces (n : nat) :
  ∀ σ, finite_bounces σ → (potential σ ≤ n)%nat → timers (run n σ) = [].
Proof.
  induction n as [|n IH]; intros σ Hfin Hpot.
  - simpl. unfold potential, timers_weight in Hpot.
    destruct (timers σ) as [|t ts]; [done|]. simpl in Hpot.
    pose proof (weight_positive σ (timer_callback t)). lia.
  - simpl. destruct (tick σ) as [σ'|] eqn:Htick.
    + apply IH; [by eapply tick_finite|].
      pose proof (tick_potential σ σ' Hfin Htick). lia.
    + unfold tick in Htick. by destruct (timers σ).
Qed.

(** *** The start of a bounce *)

Lemma stopBouncingMarkers_loop_frame queue :
  ∀ σ,
    bounce_calls (stopBouncingMarkers_loop queue σ) = bounce_calls σ
    ∧ timers (stopBouncingMarkers_loop queue σ) = timers σ.
Proof.
  induction queue as [|m rest IH]; intros σ; simpl; [done|].
  by destruct (IH (stop_marker m (set_bouncingMarkers rest σ))) as [-> ->].
Qed.

Lemma _stopEclusifMarkerBouncing_loop_frame (i : nat) :
  ∀ σ,
    bounce_calls (_stopEclusifMarkerBouncing_loop i σ) = bounce_calls σ
    ∧ timers (_stopEclusifMarkerBouncing_loop i σ) = timers σ.
Proof.
  induction i as [|i IH]; intros σ; cbn [_stopEclusifMarkerBouncing_loop];
    [done|].
  destruct (bouncingMarkers σ !! i) as [m|]; [|apply IH].
  destruct (Marker_exclusif σ m); [|apply IH].
  by destruct (IH (set_bouncingMarkers (delete i (bouncingMarkers σ))
                     (stop_marker m σ))) as [-> ->].
Qed.

Lemma _addBouncingMarker_frame marker excl σ :
  bounce_calls (_addBouncingMarker marker excl σ) = bounce_calls σ
  ∧ timers (_addBouncingMarker marker excl σ) = timers σ.
Proof.
  unfold _addBouncingMarker.
  destruct (excl || Marker_exclusif σ marker);
    cbn [bounce_calls timers set_bouncingMarkers].
  - apply stopBouncingMarkers_loop_frame.
  - apply _stopEclusifMarkerBouncing_loop_frame.
Qed.

Lemma _addBouncingMarker_registered marker excl σ :
  marker ∈ bouncingMarkers (_addBouncingMarker marker excl σ).
Proof.
  unfold _addBouncingMarker. cbn [bouncingMarkers set_bouncingMarkers].
  apply elem_of_app. right. apply list_elem_of_here.
Qed.

Lemma bounce_starts σ m mk n :
  markers σ !! m = Some mk → timers σ = [] → 1 ≤ n →
  finite_bounces (bounce m (Some n) σ)
  ∧ carried_on m (bounce m (Some n) σ)
  ∧ m ∈ bouncingMarkers (bounce m (Some n) σ).
Proof.
  intros Hmk Hts Hn. unfold bounce. rewrite Hmk. cbv zeta.
  match goal with
  | |- context [move ?call (_addBouncingMarker m ?excl ?σa)] =>
      set (σb := _addBouncingMarker m excl σa);
      assert (bounce_calls σb !! call
              = Some {| call_marker := m;
                        call_bounceSpeed := bounceSpeed (bouncingOptions_of σ mk);
                        call_elastic := elastic (bouncingOptions_of σ mk);
                        call_is3d := any3d σ;
                        call_moveSteps := moveSteps (bouncingMotion mk);
                        call_moveDelays := moveDelays (bouncingMotion mk);
                        call_resizeSteps := resizeSteps (bouncingMotion mk);
                        call_resizeDelays := resizeDelays (bouncingMotion mk);
                        call_times := Some n |}) as Hc;
      [unfold σb; rewrite (proj1 (_addBouncingMarker_frame m excl σa));
       cbn [bounce_calls update_marker set_markers set_bounce_calls];
       by rewrite lookup_app_r, Nat.sub_diag by done|];
      assert (timers σb = []) as Htsb;
      [unfold σb; rewrite (proj2 (_addBouncingMarker_frame m excl σa));
       done|];
      assert (m ∈ bouncingMarkers σb) as Hreg
        by apply _addBouncingMarker_registered
  end.
  split; [|split].
  - intros t Ht. apply move_timers in Ht as [Ht|Ht].
    + rewrite Htsb in Ht. by apply elem_of_nil in Ht.
    + rewrite Ht. apply move_counts.
      intros c. rewrite Hc. intros [= <-] _. by exists n.
  - intros _. destruct (move_continues _ _ σb Hc) as (t & c' & Ht & Hcb & Hc' & Hm).
    exists t, c'. rewrite Hcb. done.
  - by rewrite move_registry.
Qed.

End SchedulerTermination.

(** * The claims of the specification *)

Lemma example_marker_page_cache_ok :
  cache_ok (bouncingMotionsCache example_marker_page).
Proof.
  destruct (initialize_returns 20 0 (25, 41) (41, 41) 0 example_page)
    as (σ1 & mk1 & Hinit & Hc1 & Hmk1 & Hown1);
    [apply cache_ok_empty|simpl; lia..|].
  assert (σ1 = settled (initialize 20 0 (25, 41) (41, 41) 0 example_page)
                 example_page) as Hσ1 by (by rewrite Hinit).
  assert (bouncingOptions_of σ1 mk1 = default_bouncingOptions example_page)
    as Ho.
  { unfold bouncingOptions_of. rewrite Hown1, Hσ1. by vm_compute. }
  destruct (_setPos_returns example_cos example_sin 20 0 (100, 200) σ1 mk1)
    as (σ2 & mk2 & Hpos & Hc2 & _);
    [rewrite Hσ1; by vm_compute|done|rewrite Ho; simpl; lia..|].
  unfold example_marker_page. cbv zeta.
  rewrite <- Hσ1, Hpos. cbn [settled]. by rewrite Hc2.
Qed.

(** C1, as stated, fails: for the extent [1] and the speed [1] the delay
    calculator returns [0, 1, 1], three delays and not two. *)
Lemma calculateDelays_of_extent_one :
  ∃ c', calculateDelays 2 1 1 (delays_prefix Move) ∅
        = Some ([Num 0; Num 1; Num 1], c')
        ∧ Z.of_nat (length [Num 0; Num 1; Num 1]) ≠ 2 * 1.
Proof. eexists. split; [vm_compute; reflexivity|]. simpl. lia. Qed.

(** C1, amended: for every extent [h >= 1], every speed and each of the two
    phases, the array returned by [calculateDelays] has length [2h + 1]: one
    delay for each of the positions [0..h] on the way out and one for each of
    the positions [h-1..0] on the way back. *)
Theorem calculateDelays_length p h s fuel c :
  1 ≤ h → cache_ok c → (Z.to_nat h < fuel)%nat →
  ∃ delays c',
    calculateDelays fuel h s (delays_prefix p) c = Some (delays, c')
    ∧ Z.of_nat (length delays) = 2 * h + 1.
Proof.
  intros Hh Hc Hfuel.
  destruct (calculateDelays_ok fuel p h s c Hh Hfuel Hc) as (c' & -> & _).
  eexists _, _. split; [done|].
  unfold delays_seq. rewrite length_fmap, cumsum_length.
  apply mirrored_deltas_length. lia.
Qed.

Lemma calculateDelays_length_witness :
  1 ≤ 15 ∧ cache_ok ∅ ∧ (Z.to_nat 15 < 20)%nat
  ∧ ∃ delays c',
      calculateDelays 20 15 52 (delays_prefix Move) ∅ = Some (delays, c')
      ∧ Z.of_nat (length delays) = 2 * 15 + 1.
Proof.
  split; [lia|]. split; [apply cache_ok_empty|]. split; [simpl; lia|].
  apply (calculateDelays_length Move 15 52 20 ∅);
    [lia|apply cache_ok_empty|simpl; lia].
Defined.

(** C2: for every extent [h >= 1] and speed [s >= 1], [calculateDelays]
    returns the running sums of a mirrored sequence of deltas in which the
    delta at position [0] is [0], the delta at position [i], for
    [1 <= i < h], is [Math.round(s / (h - i))], and the delta at the full
    extent [h] is [s]; the returned delays never decrease. *)
Theorem calculateDelays_cumulative p h s fuel c :
  1 ≤ h → 1 ≤ s → cache_ok c → (Z.to_nat h < fuel)%nat →
  ∃ deltas c',
    calculateDelays fuel h s (delays_prefix p) c
    = Some (Num <$> cumsum 0 deltas, c')
    ∧ reverse deltas = deltas
    ∧ deltas !! 0%nat = Some 0
    ∧ (∀ i, 1 ≤ i < h →
            deltas !! Z.to_nat i
            = Some (Math_round (inject_Z s / inject_Z (h - i))%Q))
    ∧ deltas !! Z.to_nat h = Some s
    ∧ StronglySorted Z.le (cumsum 0 deltas).
Proof.
  intros Hh Hs Hc Hfuel.
  destruct (calculateDelays_ok fuel p h s c Hh Hfuel Hc) as (c' & -> & _).
  exists (mirrored_deltas h s), c'. split; [done|].
  split; [apply mirrored_deltas_mirrored; lia|].
  split; [|split; [|split]].
  - exact (mirrored_deltas_lookup h s 0 ltac:(lia)).
  - intros i Hi. rewrite mirrored_deltas_lookup by lia.
    unfold delta_at.
    rewrite (proj2 (Z.eqb_neq i 0)), (proj2 (Z.eqb_neq i h)) by lia. done.
  - rewrite mirrored_deltas_lookup by lia. unfold delta_at.
    rewrite (proj2 (Z.eqb_neq h 0)), Z.eqb_refl by lia. done.
  - apply cumsum_sorted, mirrored_deltas_nonneg; lia.
Qed.

Lemma calculateDelays_cumulative_witness :
  1 ≤ 3 ∧ 1 ≤ 52 ∧ cache_ok ∅ ∧ (Z.to_nat 3 < 10)%nat
  ∧ ∃ deltas c',
      calculateDelays 10 3 52 (delays_prefix Move) ∅
      = Some (Num <$> cumsum 0 deltas, c')
      ∧ reverse deltas = deltas
      ∧ deltas !! 0%nat = Some 0
      ∧ (∀ i, 1 ≤ i < 3 →
              deltas !! Z.to_nat i
              = Some (Math_round (inject_Z 52 / inject_Z (3 - i))%Q))
      ∧ deltas !! Z.to_nat 3 = Some 52
      ∧ StronglySorted Z.le (cumsum 0 deltas).
Proof.
  split; [lia|]. split; [lia|]. split; [apply cache_ok_empty|].
  split; [simpl; lia|].
  apply (calculateDelays_cumulative Move 3 52 10 ∅);
    [lia|lia|apply cache_ok_empty|simpl; lia].
Defined.

(** C3: for every extent [h >= 1] and each of the two phases,
    [calculateSteps] returns exactly [1, 2, ..., h, h-1, ..., 1, 0], of
    length [2h]; so it does for any key prefix at all under which the cache
    holds nothing yet for [h]. *)
Theorem calculateSteps_sequence p h fuel c :
  1 ≤ h → cache_ok c → (Z.to_nat h < fuel)%nat →
  (∃ c',
     calculateSteps fuel h (steps_prefix p) c
     = Some (Num <$> (seqZ 1 h ++ reverse (seqZ 0 h)), c'))
  ∧ (∀ prefix,
       c !! (prefix +:+ pretty h) = None →
       calculateSteps fuel h prefix c
       = Some (Num <$> (seqZ 1 h ++ reverse (seqZ 0 h)),
               <[prefix +:+ pretty h
                 := Num <$> (seqZ 1 h ++ reverse (seqZ 0 h))]> c))
  ∧ Z.of_nat (length (Num <$> (seqZ 1 h ++ reverse (seqZ 0 h)))) = 2 * h.
Proof.
  intros Hh Hc Hfuel. split; [|split].
  - destruct (calculateSteps_ok fuel p h c) as (c' & -> & _); [lia|done..|].
    by exists c'.
  - intros prefix Hmiss. apply calculateSteps_miss; [lia|done..].
  - rewrite length_fmap, length_app, length_reverse, !length_seqZ. lia.
Qed.

Lemma calculateSteps_sequence_witness :
  1 ≤ 3 ∧ cache_ok ∅ ∧ (Z.to_nat 3 < 10)%nat
  ∧ (∃ c',
       calculateSteps 10 3 (steps_prefix Resize) ∅
       = Some (Num <$> (seqZ 1 3 ++ reverse (seqZ 0 3)), c'))
  ∧ (∀ prefix,
       (∅ : gmap string (list jsnum)) !! (prefix +:+ pretty 3) = None →
       calculateSteps 10 3 prefix ∅
       = Some (Num <$> (seqZ 1 3 ++ reverse (seqZ 0 3)),
               <[prefix +:+ pretty 3
                 := Num <$> (seqZ 1 3 ++ reverse (seqZ 0 3))]> ∅))
  ∧ Z.of_nat (length (Num <$> (seqZ 1 3 ++ reverse (seqZ 0 3)))) = 2 * 3.
Proof.
  split; [lia|]. split; [apply cache_ok_empty|]. split; [simpl; lia|].
  apply (calculateSteps_sequence Resize 3 10 ∅);
    [lia|apply cache_ok_empty|simpl; lia].
Defined.

(** C4, as stated, fails: a marker with the default options that is bouncing
    and is told to bounce again is registered a second time; [stopBouncing]
    then removes one of the two entries. *)
Lemma bounce_twice_registers_twice :
  Marker_isBouncing (bounce 0 None example_marker_page) 0 = true
  ∧ getBouncingMarkers (bounce 0 None example_marker_page) = [0%nat]
  ∧ getBouncingMarkers (bounce 0 None (bounce 0 None example_marker_page))
    = [0%nat; 0%nat]
  ∧ getBouncingMarkers
      (stopBouncing 0 (bounce 0 None (bounce 0 None example_marker_page)))
    = [0%nat].
Proof. repeat split; vm_compute; reflexivity. Qed.

(** C4, amended: the registry can hold a marker more than once.  [bounce]
    always appends the marker: to the empty registry if the marker is
    exclusive, so that it then is the only entry, and otherwise behind the
    registered markers that are not exclusive, so that a marker that is
    registered already is registered a second time. *)
Theorem bounce_registers_again σ m mk times :
  markers σ !! m = Some mk →
  bouncingMarkers (bounce m times σ)
  = (if exclusif (bouncingOptions_of σ mk) then [m]
     else filter (λ m', Marker_exclusif σ m' = false) (bouncingMarkers σ)
          ++ [m])
  ∧ (exclusif (bouncingOptions_of σ mk) = false →
     m ∈ bouncingMarkers σ →
     ¬ NoDup (bouncingMarkers (bounce m times σ))).
Proof.
  intros Hmk.
  rewrite (bounce_registry σ m mk times Hmk). split; [done|].
  intros Hexcl Hreg. rewrite Hexcl.
  intros (_ & Hdisjoint & _)%NoDup_app.
  apply (Hdisjoint m); [|apply list_elem_of_here].
  apply list_elem_of_filter. split; [|done].
  unfold Marker_exclusif. by rewrite Hmk.
Qed.

Lemma bounce_registers_again_witness :
  ∃ mk,
    markers (bounce 0 None example_marker_page) !! 0%nat = Some mk
    ∧ bouncingMarkers (bounce 0 None (bounce 0 None example_marker_page))
      = (if exclusif (bouncingOptions_of (bounce 0 None example_marker_page) mk)
         then [0%nat]
         else filter
                (λ m', Marker_exclusif (bounce 0 None example_marker_page) m'
                       = false)
                (bouncingMarkers (bounce 0 None example_marker_page))
              ++ [0%nat])
    ∧ (exclusif (bouncingOptions_of (bounce 0 None example_marker_page) mk)
       = false →
       0%nat ∈ bouncingMarkers (bounce 0 None example_marker_page) →
       ¬ NoDup (bouncingMarkers
                  (bounce 0 None (bounce 0 None example_marker_page)))).
Proof.
  eexists. split; [vm_compute; reflexivity|].
  apply (bounce_registers_again (bounce 0 None example_marker_page) 0).
  vm_compute; reflexivity.
Defined.

(** C5: adding a marker with the exclusive flag, or a marker whose own
    options are exclusive, stops every registered marker and leaves the
    registry with that marker alone; adding any other marker stops and
    removes the registered exclusive markers and keeps the others, in their
    order, before the new one; from an empty registry two markers that are
    not exclusive end up registered together. *)
Theorem addBouncingMarker_registry σ marker excl :
  (excl || Marker_exclusif σ marker = true →
     bouncingMarkers (_addBouncingMarker marker excl σ) = [marker]
     ∧ ∀ m', m' ∈ bouncingMarkers σ →
             Marker_isBouncing (_addBouncingMarker marker excl σ) m' = false)
  ∧ (excl || Marker_exclusif σ marker = false →
     bouncingMarkers (_addBouncingMarker marker excl σ)
     = filter (λ m', Marker_exclusif σ m' = false) (bouncingMarkers σ)
       ++ [marker]
     ∧ (∀ m', m' ∈ bouncingMarkers σ → Marker_exclusif σ m' = true →
              Marker_isBouncing (_addBouncingMarker marker excl σ) m' = false)
     ∧ (∀ m', Marker_exclusif σ m' = false →
              Marker_isBouncing (_addBouncingMarker marker excl σ) m'
              = Marker_isBouncing σ m'))
  ∧ (∀ m2,
       bouncingMarkers σ = [] →
       Marker_exclusif σ marker = false → Marker_exclusif σ m2 = false →
       bouncingMarkers
         (_addBouncingMarker m2 false (_addBouncingMarker marker false σ))
       = [marker; m2]).
Proof.
  split; [|split].
  - intros Hexcl.
    destruct (_addBouncingMarker_exclusive σ marker excl Hexcl)
      as (Hreg & _ & Hin & _).
    done.
  - intros Hexcl.
    destruct (_addBouncingMarker_shared σ marker excl Hexcl)
      as (Hreg & _ & Hin & Hout).
    done.
  - intros m2 Hempty Hm1 Hm2.
    destruct (_addBouncingMarker_shared σ marker false) as (Hreg1 & Hex1 & _);
      [done|].
    destruct (_addBouncingMarker_shared (_addBouncingMarker marker false σ)
                m2 false) as (Hreg2 & _); [by rewrite Hex1|].
    rewrite Hreg2, Hreg1, Hempty. simpl.
    rewrite filter_cons_True by (by rewrite Hex1). done.
Qed.

Lemma addBouncingMarker_registry_witness :
  bouncingMarkers example_two_markers_page = []
  ∧ Marker_exclusif example_two_markers_page 0 = false
  ∧ Marker_exclusif example_two_markers_page 1 = false
  ∧ bouncingMarkers
      (_addBouncingMarker 1 false
         (_addBouncingMarker 0 false example_two_markers_page))
    = [0%nat; 1%nat].
Proof.
  split; [vm_compute; reflexivity|]. split; [vm_compute; reflexivity|].
  split; [vm_compute; reflexivity|].
  apply (proj2 (proj2 (addBouncingMarker_registry example_two_markers_page
                         0 false)) 1%nat);
    vm_compute; reflexivity.
Defined.

(** C6: for the extent [0] [calculateSteps] returns the empty sequence, but
    [calculateDelays] does not return: its countdown [while (--i)] starts at
    [0] and never reaches [0] again, whatever the fuel. *)
Theorem calculateDelays_zero_extent p s fuel c :
  cache_ok c →
  (∃ c', calculateSteps (S fuel) 0 (steps_prefix p) c = Some ([], c'))
  ∧ calculateDelays fuel 0 s (delays_prefix p) c = None.
Proof.
  intros Hc. split; [|by apply calculateDelays_zero].
  destruct (calculateSteps_ok (S fuel) p 0 c) as (c' & -> & _);
    [lia|simpl; lia|done|].
  by exists c'.
Qed.

Lemma calculateDelays_zero_extent_witness :
  cache_ok ∅
  ∧ (∃ c', calculateSteps 100 0 (steps_prefix Move) ∅ = Some ([], c'))
  ∧ calculateDelays 99 0 52 (delays_prefix Move) ∅ = None.
Proof.
  split; [apply cache_ok_empty|].
  apply (calculateDelays_zero_extent Move 52 99 ∅), cache_ok_empty.
Defined.

(** C7: for every origin [(x, y)], every angle and every length [>= 1],
    [calculateLine] returns, and returns exactly [length] points, the first
    of which is [(x, y)]. *)
Theorem calculateLine_points (Math_cos Math_sin : Q → Q) fuel x y angle len :
  1 ≤ len → (Z.to_nat len ≤ fuel)%nat →
  ∃ p, calculateLine Math_cos Math_sin fuel x y angle len = Some p
       ∧ Z.of_nat (length p) = len
       ∧ p !! 0%nat = Some (x, y).
Proof. apply calculateLine_returns. Qed.

Lemma calculateLine_points_witness :
  1 ≤ 5 ∧ (Z.to_nat 5 ≤ 5)%nat
  ∧ ∃ p, calculateLine example_cos example_sin 5 100 200
           (- example_PI / 4)%Q 5 = Some p
         ∧ Z.of_nat (length p) = 5
         ∧ p !! 0%nat = Some (100, 200).
Proof.
  split; [lia|]. split; [simpl; lia|].
  apply (calculateLine_points example_cos example_sin 5 100 200
           (- example_PI / 4)%Q 5); [lia|simpl; lia].
Defined.

(** C8: the code does not compute the shadow resize states from the
    reversed-angle segment.  [_calculateTransforms] stores, as
    [shadowResizeTransforms], what [calculateIconResizeTransforms] returns
    for the height of the shadow: transforms that scale heights only.
    [calculateShadowResizeTransforms], which the comment in the source says
    to use, is not called, and called on the same shadow it raises: it reads
    the point [contractHeight] of the [contractHeight] points it asked for. *)
Theorem shadowResizeTransforms_from_icon_resize
    (Math_cos Math_sin : Q → Q) (Math_PI : Q) fuel m σ mk :
  any3d σ = true →
  markers σ !! m = Some mk →
  0 ≤ bounceHeight (bouncingOptions_of σ mk) →
  1 ≤ contractHeight (bouncingOptions_of σ mk) →
  (Z.to_nat (bounceHeight (bouncingOptions_of σ mk)) + 1 < fuel)%nat →
  (Z.to_nat (contractHeight (bouncingOptions_of σ mk)) + 1 < fuel)%nat →
  ∃ σ' mk' t,
    _calculateTransforms Math_cos Math_sin fuel m σ = Normal σ'
    ∧ markers σ' !! m = Some mk'
    ∧ shadowResizeTransforms (bouncingMotion mk') = Some t
    ∧ calculateIconResizeTransforms fuel
        (motion_x (bouncingMotion mk)) (motion_y (bouncingMotion mk))
        (snd (shadowSize mk)) (contractHeight (bouncingOptions_of σ mk))
      = Returns t
    ∧ Forall vertical_only t
    ∧ calculateShadowResizeTransforms Math_cos Math_sin Math_PI fuel
        (motion_x (bouncingMotion mk)) (motion_y (bouncingMotion mk))
        (fst (shadowSize mk)) (snd (shadowSize mk))
        (contractHeight (bouncingOptions_of σ mk))
        (shadowAngle (bouncingOptions_of σ mk))
      = Throws TypeError.
Proof.
  intros H3d Hmk Hbh Hch Hfb Hfc.
  destruct (_calculateTransforms_3d Math_cos Math_sin fuel m σ mk H3d Hmk)
    as (im & ir & sm & sr & Hsr & Hvert & ->); [lia|lia|done..|].
  eexists _, _, sr. split; [done|].
  split; [apply lookup_insert_eq|]. split; [done|]. split; [done|].
  split; [done|].
  apply calculateShadowResizeTransforms_throws; lia.
Qed.

Lemma shadowResizeTransforms_from_icon_resize_witness :
  ∃ mk,
    any3d example_marker_page = true
    ∧ markers example_marker_page !! 0%nat = Some mk
    ∧ 0 ≤ bounceHeight (bouncingOptions_of example_marker_page mk)
    ∧ 1 ≤ contractHeight (bouncingOptions_of example_marker_page mk)
    ∧ ∃ σ' mk' t,
        _calculateTransforms example_cos example_sin 20 0 example_marker_page
        = Normal σ'
        ∧ markers σ' !! 0%nat = Some mk'
        ∧ shadowResizeTransforms (bouncingMotion mk') = Some t
        ∧ calculateIconResizeTransforms 20
            (motion_x (bouncingMotion mk)) (motion_y (bouncingMotion mk))
            (snd (shadowSize mk))
            (contractHeight (bouncingOptions_of example_marker_page mk))
          = Returns t
        ∧ Forall vertical_only t
        ∧ calculateShadowResizeTransforms example_cos example_sin example_PI 20
            (motion_x (bouncingMotion mk)) (motion_y (bouncingMotion mk))
            (fst (shadowSize mk)) (snd (shadowSize mk))
            (contractHeight (bouncingOptions_of example_marker_page mk))
            (shadowAngle (bouncingOptions_of example_marker_page mk))
          = Throws TypeError.
Proof.
  eexists. split; [vm_compute; reflexivity|].
  split; [vm_compute; reflexivity|].
  split; [by vm_compute|]. split; [by vm_compute|].
  apply (shadowResizeTransforms_from_icon_resize example_cos example_sin
           example_PI 20 0 example_marker_page);
    [vm_compute; reflexivity|vm_compute; reflexivity
    |by vm_compute|by vm_compute|vm_compute; lia|vm_compute; lia].
Defined.

(** C9, as stated, fails: [setBouncingOptions] with the speed [0] returns
    normally, and afterwards the marker's own options hold the speed [0]. *)
Lemma setBouncingOptions_zero_speed_accepted :
  ∃ σ' mk',
    setBouncingOptions example_cos example_sin 20 0 example_zero_speed
      example_marker_page
    = Normal σ'
    ∧ markers σ' !! 0%nat = Some mk'
    ∧ bounceSpeed <$> own_bouncingOptions mk' = Some 0.
Proof.
  eexists _, _. split; [vm_compute; reflexivity|].
  split; vm_compute; reflexivity.
Qed.

(** C9, amended: [setBouncingOptions] validates nothing and knows no
    [InvalidExtent] or [InvalidSpeed]: where the merged heights are positive
    it returns normally for every speed, also zero or negative, and the
    marker's own options then are the passed options completed by the
    defaults. *)
Theorem setBouncingOptions_stores_options
    (Math_cos Math_sin : Q → Q) fuel m options σ mk :
  any3d σ = true →
  markers σ !! m = Some mk →
  cache_ok (bouncingMotionsCache σ) →
  1 ≤ bounceHeight (merge_options options (default_bouncingOptions σ)) →
  1 ≤ contractHeight (merge_options options (default_bouncingOptions σ)) →
  (Z.to_nat (bounceHeight (merge_options options (default_bouncingOptions σ)))
   + 1 < fuel)%nat →
  (Z.to_nat (contractHeight (merge_options options (default_bouncingOptions σ)))
   + 1 < fuel)%nat →
  ∃ σ' mk',
    setBouncingOptions Math_cos Math_sin fuel m options σ = Normal σ'
    ∧ markers σ' !! m = Some mk'
    ∧ own_bouncingOptions mk'
      = Some (merge_options options (default_bouncingOptions σ))
    ∧ bounceSpeed (merge_options options (default_bouncingOptions σ))
      = default (bounceSpeed (default_bouncingOptions σ))
          (arg_bounceSpeed options)
    ∧ contractSpeed (merge_options options (default_bouncingOptions σ))
      = default (contractSpeed (default_bouncingOptions σ))
          (arg_contractSpeed options).
Proof.
  intros H3d Hmk Hc Hbh Hch Hfb Hfc.
  destruct (setBouncingOptions_returns Math_cos Math_sin fuel m options σ mk
              H3d Hmk Hc Hbh Hch Hfb Hfc) as (σ' & mk' & -> & Hmk' & Hown & _).
  by exists σ', mk'.
Qed.

Lemma setBouncingOptions_stores_options_witness :
  ∃ mk,
    any3d example_marker_page = true
    ∧ markers example_marker_page !! 0%nat = Some mk
    ∧ cache_ok (bouncingMotionsCache example_marker_page)
    ∧ ∃ σ' mk',
        setBouncingOptions example_cos example_sin 20 0 example_zero_speed
          example_marker_page
        = Normal σ'
        ∧ markers σ' !! 0%nat = Some mk'
        ∧ own_bouncingOptions mk'
          = Some (merge_options example_zero_speed
                    (default_bouncingOptions example_marker_page))
        ∧ bounceSpeed (merge_options example_zero_speed
                         (default_bouncingOptions example_marker_page))
          = default (bounceSpeed (default_bouncingOptions example_marker_page))
              (arg_bounceSpeed example_zero_speed)
        ∧ contractSpeed (merge_options example_zero_speed
                           (default_bouncingOptions example_marker_page))
          = default
              (contractSpeed (default_bouncingOptions example_marker_page))
              (arg_contractSpeed example_zero_speed).
Proof.
  eexists. split; [vm_compute; reflexivity|].
  split; [vm_compute; reflexivity|].
  split; [apply example_marker_page_cache_ok|].
  eapply (setBouncingOptions_stores_options example_cos example_sin 20 0
            example_zero_speed example_marker_page);
    [vm_compute; reflexivity|vm_compute; reflexivity
    |apply example_marker_page_cache_ok
    |by vm_compute|by vm_compute|vm_compute; lia|vm_compute; lia].
Defined.

(** C10, as stated, fails in its last part: entries are also removed when
    another marker starts to bounce.  The exclusive marker [0] has finished
    a bounce of one cycle and is still registered; [bounce] on the marker
    [1], which is not exclusive, removes it from the registry. *)
Lemma other_bounce_removes_entry :
  timers (run 100 (bounce 0 (Some 1) example_exclusif_page)) = []
  ∧ Marker_isBouncing (run 100 (bounce 0 (Some 1) example_exclusif_page)) 0
    = false
  ∧ getBouncingMarkers (run 100 (bounce 0 (Some 1) example_exclusif_page))
    = [0%nat]
  ∧ Marker_exclusif (run 100 (bounce 0 (Some 1) example_exclusif_page)) 1
    = false
  ∧ getBouncingMarkers
      (bounce 1 None (run 100 (bounce 0 (Some 1) example_exclusif_page)))
    = [1%nat].
Proof. repeat split; vm_compute; reflexivity. Qed.

(** C10, amended: when a bounce is started with a count [n >= 1] of cycles
    on a page without pending timers, the call of [move] that counts down to
    zero clears [isBouncing] and leaves the registry alone, no timer that
    fires changes the registry, and the animation comes to an end: after
    finitely many timers none is pending, [isBouncing] is false and the
    marker is still among [getBouncingMarkers()].  (Entries leave the
    registry through [stopBouncing], through [stopBouncingMarkers] and when
    another marker starts to bounce, never through the scheduler.) *)
Theorem finite_bounce_stays_registered σ m n :
  is_Some (markers σ !! m) → timers σ = [] → 1 ≤ n →
  (∀ σ' call c,
     bounce_calls σ' !! call = Some c → call_times c = Some 1 →
     Marker_isBouncing (move call σ') (call_marker c) = false
     ∧ bouncingMarkers (move call σ') = bouncingMarkers σ')
  ∧ (∀ σ' σ'', tick σ' = Some σ'' → bouncingMarkers σ'' = bouncingMarkers σ')
  ∧ (∀ j, bouncingMarkers (run j (bounce m (Some n) σ))
          = bouncingMarkers (bounce m (Some n) σ))
  ∧ ∃ j, timers (run j (bounce m (Some n) σ)) = []
         ∧ Marker_isBouncing (run j (bounce m (Some n) σ)) m = false
         ∧ m ∈ getBouncingMarkers (run j (bounce m (Some n) σ)).
Proof.
  intros [mk Hmk] Hts Hn.
  split; [|split; [|split]].
  - intros σ' call c Hc Htimes.
    split; [by apply move_last|apply move_registry].
  - apply tick_registry.
  - intros j. apply run_registry.
  - destruct (bounce_starts σ m mk n Hmk Hts Hn) as (Hfin & Hcarried & Hreg).
    set (σ1 := bounce m (Some n) σ) in *.
    exists (potential σ1).
    destruct (run_invariants m (potential σ1) σ1 Hfin Hcarried)
      as [_ Hcarried'].
    assert (timers (run (potential σ1) σ1) = []) as Hquiet
      by (by apply run_quiesces).
    split; [done|]. split.
    + destruct (Marker_isBouncing (run (potential σ1) σ1) m) eqn:Hflag;
        [|done].
      destruct (Hcarried' Hflag) as (t & _ & Ht & _).
      rewrite Hquiet in Ht. by apply elem_of_nil in Ht.
    + unfold getBouncingMarkers. by rewrite run_registry.
Qed.

Lemma finite_bounce_stays_registered_witness :
  is_Some (markers example_marker_page !! 0%nat)
  ∧ timers example_marker_page = []
  ∧ 1 ≤ 2
  ∧ ∃ j, timers (run j (bounce 0 (Some 2) example_marker_page)) = []
         ∧ Marker_isBouncing (run j (bounce 0 (Some 2) example_marker_page)) 0
           = false
         ∧ 0%nat ∈ getBouncingMarkers
                     (run j (bounce 0 (Some 2) example_marker_page)).
Proof.
  split; [vm_compute; eauto|]. split; [vm_compute; reflexivity|].
  split; [lia|].
  apply (finite_bounce_stays_registered example_marker_page 0 2);
    [vm_compute; eauto|vm_compute; reflexivity|lia].
Defined.

(** * The cache on every page *)

(** In every state a page can reach the cache holds, under each key, the
    array the calculator computes for the height and the speed of the key:
    the hypothesis [cache_ok] of the theorems above holds wherever the
    plugin runs. *)
Lemma reachable_cache_ok (Math_cos Math_sin : Q → Q) (Math_PI : Q) σ :
  reachable Math_cos Math_sin Math_PI σ → cache_ok (bouncingMotionsCache σ).
Proof.
  induction 1 as [is3d|σ options _ IH|σ fuel m icon shadow z σ' _ IH Hs
                 |σ fuel m pos σ' _ IH Hs|σ fuel m options σ' _ IH Hs
                 |σ m times _ IH|σ m _ IH|σ m _ IH|σ _ IH|σ σ' _ IH Htick].
  - apply cache_ok_empty.
  - done.
  - by eapply initialize_sound.
  - by eapply _setPos_sound.
  - by eapply setBouncingOptions_sound.
  - pose proof (bounce_fixed m times σ) as Hfix. by injection Hfix as -> _ _.
  - done.
  - unfold toogleBouncing. destruct (Marker_isBouncing σ m); [done|].
    pose proof (bounce_fixed m None σ) as Hfix. by injection Hfix as -> _ _.
  - pose proof (stopBouncingMarkers_loop_fixed (bouncingMarkers σ) σ) as Hfix.
    unfold stopBouncingMarkers. by injection Hfix as -> _ _.
  - pose proof (tick_fixed σ σ' Htick) as Hfix. by injection Hfix as -> _ _.
Qed.

(** * Further properties of the code *)

(** ** The timeline, computed once *)

Section TimelineAgain.

Lemma calculateSteps_grows fuel h prefix (c : motions_cache) a c' :
  calculateSteps fuel h prefix c = Some (a, c') →
  c ⊆ c' ∧ c' !! (prefix +:+ pretty h) = Some a.
Proof.
  unfold calculateSteps. cbv zeta.
  destruct (c !! (prefix +:+ pretty h)) as [v|] eqn:Hkey.
  - by intros [= <- <-].
  - unfold mbind, option_bind.
    destruct (calculateSteps_rise fuel h 1 []) as [r|]; [|done].
    destruct (calculateSteps_fall fuel h r) as [r'|]; [|done].
    intros [= <- <-]. split; [by apply insert_subseteq|].
    apply lookup_insert_eq.
Qed.

Lemma calculateDelays_grows fuel h s prefix (c : motions_cache) a c' :
  calculateDelays fuel h s prefix c = Some (a, c') →
  c ⊆ c' ∧ c' !! (prefix +:+ pretty h +:+ "_" +:+ pretty s) = Some a.
Proof.
  unfold calculateDelays. cbv zeta.
  destruct (c !! (prefix +:+ pretty h +:+ "_" +:+ pretty s)) as [v|] eqn:Hkey.
  - by intros [= <- <-].
  - unfold mbind, option_bind.
    destruct (calculateDelays_deltas fuel h s h _) as [r|]; [|done].
    destruct (calculateDelays_mirror fuel h r) as [r'|]; [|done].
    intros [= <- <-]. split; [by apply insert_subseteq|].
    apply lookup_insert_eq.
Qed.

Lemma update_marker_id m f σ mk :
  markers σ !! m = Some mk → f mk = mk → update_marker m f σ = σ.
Proof.
  intros Hmk Hf. unfold update_marker.
  rewrite alter_id by (intros mk' Hmk'; congruence). by destruct σ.
Qed.

Lemma set_bouncingMotionsCache_id σ :
  set_bouncingMotionsCache (bouncingMotionsCache σ) σ = σ.
Proof. by destruct σ. Qed.

Lemma assign_timeline_hit m a c f σ mk (k : state → completion) :
  markers σ !! m = Some mk → bouncingMotionsCache σ = c →
  with_motion (f a) mk = mk →
  and_then (assign_timeline m (Some (a, c)) f σ) k = k σ.
Proof.
  intros Hmk <- Hf. cbn [assign_timeline and_then].
  rewrite set_bouncingMotionsCache_id.
  by rewrite (update_marker_id m _ σ mk).
Qed.

Lemma _calculateTimeline_Normal fuel m σ σ' :
  _calculateTimeline fuel m σ = Normal σ' →
  ∃ mk a1 c1 a2 c2 a3 c3 a4 c4,
    markers σ !! m = Some mk
    ∧ calculateSteps fuel (bounceHeight (bouncingOptions_of σ mk))
        "moveSteps_" (bouncingMotionsCache σ) = Some (a1, c1)
    ∧ calculateDelays fuel (bounceHeight (bouncingOptions_of σ mk))
        (bounceSpeed (bouncingOptions_of σ mk)) "moveDelays_" c1
      = Some (a2, c2)
    ∧ calculateSteps fuel (contractHeight (bouncingOptions_of σ mk))
        "resizeSteps_" c2 = Some (a3, c3)
    ∧ calculateDelays fuel (contractHeight (bouncingOptions_of σ mk))
        (contractSpeed (bouncingOptions_of σ mk)) "resizeDelays_" c3
      = Some (a4, c4)
    ∧ σ' = set_markers
             (<[m := with_motion (with_timeline a1 a2 a3 a4) mk]> (markers σ))
             (set_bouncingMotionsCache c4 σ).
Proof.
  unfold _calculateTimeline, on_marker.
  destruct (markers σ !! m) as [mk|] eqn:Hmk; [|done]. cbv zeta.
  set (o := bouncingOptions_of σ mk).
  destruct (calculateSteps fuel _ "moveSteps_" _) as [[a1 c1]|] eqn:H1;
    cbn [assign_timeline and_then]; [|done].
  cbn [bouncingMotionsCache update_marker set_markers set_bouncingMotionsCache].
  destruct (calculateDelays fuel _ _ "moveDelays_" _) as [[a2 c2]|] eqn:H2;
    cbn [assign_timeline and_then]; [|done].
  cbn [bouncingMotionsCache update_marker set_markers set_bouncingMotionsCache].
  destruct (calculateSteps fuel _ "resizeSteps_" _) as [[a3 c3]|] eqn:H3;
    cbn [assign_timeline and_then]; [|done].
  cbn [bouncingMotionsCache update_marker set_markers set_bouncingMotionsCache].
  destruct (calculateDelays fuel _ _ "resizeDelays_" _) as [[a4 c4]|] eqn:H4;
    cbn [assign_timeline and_then]; [|done].
  intros [= <-]. exists mk, a1, c1, a2, c2, a3, c3, a4, c4.
  split_and!; [done..|].
  unfold update_marker, set_markers, set_bouncingMotionsCache.
  cbn [markers bouncingMotionsCache bouncingMarkers default_bouncingOptions
         any3d bounce_calls timers now].
  f_equal.
  apply map_eq. intros j. destruct (decide (m = j)) as [<-|Hne].
  - rewrite !lookup_alter_eq, lookup_insert_eq, Hmk. done.
  - rewrite !lookup_alter_ne, lookup_insert_ne by done. done.
Qed.

End TimelineAgain.

(** X1: what [_calculateTimeline] has computed it finds in the cache: the call
    removes and changes no entry of the cache, and a second call for the same
    marker runs no loop (any fuel is enough) and changes nothing. *)
Theorem _calculateTimeline_again fuel m σ σ' :
  _calculateTimeline fuel m σ = Normal σ' →
  bouncingMotionsCache σ ⊆ bouncingMotionsCache σ'
  ∧ ∀ fuel', _calculateTimeline fuel' m σ' = Normal σ'.
Proof.
  intros Hσ'.
  destruct (_calculateTimeline_Normal _ _ _ _ Hσ')
    as (mk & a1 & c1 & a2 & c2 & a3 & c3 & a4 & c4
        & Hmk & H1 & H2 & H3 & H4 & ->).
  apply calculateSteps_grows in H1 as [Hc1 Hk1].
  apply calculateDelays_grows in H2 as [Hc2 Hk2].
  apply calculateSteps_grows in H3 as [Hc3 Hk3].
  apply calculateDelays_grows in H4 as [Hc4 Hk4].
  split.
  { cbn [bouncingMotionsCache set_markers set_bouncingMotionsCache].
    by repeat (etrans; [eassumption|]). }
  intros fuel'.
  set (o := bouncingOptions_of σ mk) in *.
  set (mk' := with_motion (with_timeline a1 a2 a3 a4) mk).
  set (σ' := set_markers _ _) in *.
  assert (markers σ' !! m = Some mk') as Hmk' by apply lookup_insert_eq.
  assert (bouncingMotionsCache σ' = c4) as Hc by done.
  assert (∀ key a, c4 !! key = Some a →
                   bouncingMotionsCache σ' !! key = Some a) as Hhit by done.
  unfold _calculateTimeline, on_marker. rewrite Hmk'. cbv zeta.
  change (bouncingOptions_of σ' mk') with o.
  rewrite (calculateSteps_hit fuel' _ "moveSteps_" _ a1)
    by (apply Hhit; eapply lookup_weaken; [exact Hk1|];
        by repeat (etrans; [eassumption|])).
  rewrite (assign_timeline_hit m a1 _ _ σ' mk') by done. cbv beta.
  rewrite (calculateDelays_hit fuel' _ _ "moveDelays_" _ a2)
    by (apply Hhit; eapply lookup_weaken; [exact Hk2|];
        by repeat (etrans; [eassumption|])).
  rewrite (assign_timeline_hit m a2 _ _ σ' mk') by done. cbv beta.
  rewrite (calculateSteps_hit fuel' _ "resizeSteps_" _ a3)
    by (apply Hhit; eapply lookup_weaken; [exact Hk3|];
        by repeat (etrans; [eassumption|])).
  rewrite (assign_timeline_hit m a3 _ _ σ' mk') by done. cbv beta.
  rewrite (calculateDelays_hit fuel' _ _ "resizeDelays_" _ a4)
    by by apply Hhit.
  apply (assign_timeline_hit m a4 _ _ σ' mk' Normal); done.
Qed.

Lemma _calculateTimeline_again_witness :
  ∃ σ',
    _calculateTimeline 20 0 example_marker_page = Normal σ'
    ∧ bouncingMotionsCache example_marker_page ⊆ bouncingMotionsCache σ'
    ∧ ∀ fuel', _calculateTimeline fuel' 0 σ' = Normal σ'.
Proof.
  destruct (_calculateTimeline 20 0 example_marker_page) as [σ'|e σ'|] eqn:Hσ';
    [|by vm_compute in Hσ'..].
  exists σ'. split; [done|].
  exact (_calculateTimeline_again 20 0 example_marker_page σ' Hσ').
Defined.

Section HeightsWithoutTimeline.

Lemma calculateSteps_negative fuel p h c :
  cache_ok c → h < 0 → calculateSteps fuel h (steps_prefix p) c = None.
Proof.
  intros Hc Hh. unfold calculateSteps. cbv zeta.
  destruct (c !! (steps_prefix p +:+ pretty h)) as [v|] eqn:Hkey.
  { destruct (Hc _ _ Hkey) as [(p' & h' & Hh' & Heq & _)
                              |(p' & h' & s' & _ & Heq & _)].
    - apply steps_key_inj in Heq. lia.
    - by apply steps_delays_key_ne in Heq. }
  unfold mbind, option_bind.
  destruct (calculateSteps_rise fuel h 1 []) as [r|]; [|done].
  by rewrite calculateSteps_fall_negative.
Qed.

Lemma calculateDelays_nonpositive fuel p h s c :
  cache_ok c → h ≤ 0 → calculateDelays fuel h s (delays_prefix p) c = None.
Proof.
  intros Hc Hh. unfold calculateDelays. cbv zeta.
  destruct (c !! (delays_prefix p +:+ pretty h +:+ "_" +:+ pretty s))
    as [v|] eqn:Hkey.
  { destruct (Hc _ _ Hkey) as [(p' & h' & _ & Heq & _)
                              |(p' & h' & s' & Hh' & Heq & _)].
    - symmetry in Heq. by apply steps_delays_key_ne in Heq.
    - apply delays_key_inj in Heq as [-> _]. lia. }
  by rewrite calculateDelays_deltas_diverges.
Qed.

Lemma _calculateTimeline_nonpositive fuel m σ mk :
  markers σ !! m = Some mk →
  cache_ok (bouncingMotionsCache σ) →
  bounceHeight (bouncingOptions_of σ mk) ≤ 0
  ∨ contractHeight (bouncingOptions_of σ mk) ≤ 0 →
  _calculateTimeline fuel m σ = NoReturn.
Proof.
  intros Hmk Hc Hh. unfold _calculateTimeline, on_marker. rewrite Hmk.
  cbv zeta. set (o := bouncingOptions_of σ mk) in *.
  destruct (calculateSteps fuel _ "moveSteps_" _) as [[a1 c1]|] eqn:H1;
    cbn [assign_timeline and_then]; [|done].
  apply (calculateSteps_sound fuel Move) in H1; [|done].
  cbn [bouncingMotionsCache update_marker set_markers set_bouncingMotionsCache].
  destruct (calculateDelays fuel _ _ "moveDelays_" _) as [[a2 c2]|] eqn:H2;
    cbn [assign_timeline and_then]; [|done].
  destruct Hh as [Hh|Hh].
  { by rewrite (calculateDelays_nonpositive fuel Move) in H2. }
  apply (calculateDelays_sound fuel Move) in H2; [|done].
  cbn [bouncingMotionsCache update_marker set_markers set_bouncingMotionsCache].
  destruct (calculateSteps fuel _ "resizeSteps_" _) as [[a3 c3]|] eqn:H3;
    cbn [assign_timeline and_then]; [|done].
  apply (calculateSteps_sound fuel Resize) in H3; [|done].
  cbn [bouncingMotionsCache update_marker set_markers set_bouncingMotionsCache].
  by rewrite (calculateDelays_nonpositive fuel Resize).
Qed.

End HeightsWithoutTimeline.

(** X2: a bounce height or a contraction height of zero makes the timeline
    calculation loop for ever in [calculateDelays]: [setBouncingOptions] with
    such a height does not return, and after the static
    [L.Marker.setBouncingOptions] with such a height the construction of a
    marker does not return. *)
Theorem zero_height_never_returns
    (Math_cos Math_sin : Q → Q) fuel m options σ :
  cache_ok (bouncingMotionsCache σ) →
  is_Some (markers σ !! m) →
  bounceHeight (merge_options options (default_bouncingOptions σ)) = 0
  ∨ (1 ≤ bounceHeight (merge_options options (default_bouncingOptions σ))
     ∧ contractHeight (merge_options options (default_bouncingOptions σ)) = 0) →
  setBouncingOptions Math_cos Math_sin fuel m options σ = NoReturn
  ∧ ∀ m' icon shadow z,
      initialize fuel m' icon shadow z (L_Marker_setBouncingOptions options σ)
      = NoReturn.
Proof.
  intros Hc [mk Hmk] Hh.
  set (o := merge_options options (default_bouncingOptions σ)) in *.
  assert (bounceHeight o ≤ 0 ∨ contractHeight o ≤ 0) as Hh' by lia.
  split.
  - unfold setBouncingOptions, on_marker. rewrite Hmk. fold o.
    rewrite (update_marker_insert _ _ _ _ Hmk).
    set (mk1 := with_own_bouncingOptions o mk).
    set (σ1 := set_markers (<[m:=mk1]> (markers σ)) σ).
    by rewrite (_calculateTimeline_nonpositive fuel m σ1 mk1);
      [|apply lookup_insert_eq|done|done].
  - intros m' icon shadow z. unfold initialize. cbv zeta.
    match goal with
    | |- context [_calculateTimeline fuel m' (set_markers (<[m':=?mk0]> _) ?s)] =>
        set (mk' := mk0); set (σ0 := set_markers (<[m':=mk']> (markers s)) s)
    end.
    apply (_calculateTimeline_nonpositive fuel m' σ0 mk');
      [apply lookup_insert_eq|done|done].
Qed.

Lemma zero_height_never_returns_witness :
  cache_ok (bouncingMotionsCache example_marker_page)
  ∧ is_Some (markers example_marker_page !! 0%nat)
  ∧ setBouncingOptions example_cos example_sin 1000 0 example_zero_height
      example_marker_page
    = NoReturn
  ∧ ∀ m' icon shadow z,
      initialize 1000 m' icon shadow z
        (L_Marker_setBouncingOptions example_zero_height example_marker_page)
      = NoReturn.
Proof.
  split; [apply example_marker_page_cache_ok|].
  split; [vm_compute; eauto|].
  apply (zero_height_never_returns example_cos example_sin 1000 0
           example_zero_height example_marker_page);
    [apply example_marker_page_cache_ok|vm_compute; eauto
    |right; split; by vm_compute].
Defined.

(** ** The transforms, slot by slot *)

Section FilledArrays.

Context {A : Type} (f : Z → A).

Lemma filled_from_step n k t :
  0 < k ≤ n → filled_from f n k t →
  filled_from f n (k - 1) (js_set t (k - 1) (f (k - 1))).
Proof.
  intros Hk [[-> ->]|[Hlen Hget]]; right.
  - rewrite js_set_beyond by (simpl; lia). simpl.
    rewrite length_app, length_replicate. simpl. split; [lia|].
    intros j Hj. assert (j = n - 1) as -> by lia.
    rewrite lookup_app_r by (rewrite length_replicate; lia).
    rewrite length_replicate.
    by replace (Z.to_nat (n - 1) - (Z.to_nat (n - 1) - 0))%nat with 0%nat
      by lia.
  - rewrite js_set_within by lia.
    split; [by rewrite length_insert|].
    intros j Hj. destruct (decide (j = k - 1)) as [->|Hne].
    + by rewrite list_lookup_insert_eq by lia.
    + rewrite list_lookup_insert_ne by lia. apply Hget. lia.
Qed.

Lemma filled_from_all n t :
  0 ≤ n → filled_from f n 0 t → t = Some <$> (f <$> seqZ 0 n).
Proof.
  intros Hn [[<- ->]|[Hlen Hget]]; [done|].
  apply list_eq. intros k. rewrite !list_lookup_fmap.
  destruct (decide (k < Z.to_nat n)%nat) as [Hk|Hk].
  - rewrite lookup_seqZ_lt by lia. simpl.
    rewrite <- (Nat2Z.id k) at 1. apply Hget. lia.
  - rewrite lookup_seqZ_ge by lia. simpl. apply lookup_ge_None. lia.
Qed.

End FilledArrays.

Section TransformSlots.

Context (Math_cos Math_sin : Q → Q) (Math_PI : Q).

Lemma calculateIconMoveTransforms_loop_spec x y n (k : nat) :
  ∀ fuel t,
    (k < fuel)%nat → Z.of_nat k ≤ n →
    filled_from (icon_move_transform x y) n (Z.of_nat k) t →
    calculateIconMoveTransforms_loop fuel x y (Z.of_nat k) t
    = Some (Some <$> (icon_move_transform x y <$> seqZ 0 n)).
Proof.
  induction k as [|k IH]; intros [|fuel] t Hfuel Hk Ht; try lia;
    cbn [calculateIconMoveTransforms_loop]; cbv zeta.
  - simpl. f_equal. apply filled_from_all; [lia|done].
  - rewrite (proj2 (Z.eqb_neq (Z.of_nat (S k)) 0)) by lia.
    apply (filled_from_step _ n (Z.of_nat (S k))) in Ht; [|lia].
    replace (Z.of_nat (S k) - 1) with (Z.of_nat k) in * by lia.
    apply IH; [lia|lia|done].
Qed.

Lemma calculateIconMoveTransforms_slots fuel x y h :
  -1 ≤ h → (Z.to_nat (h + 1) < fuel)%nat →
  calculateIconMoveTransforms fuel x y h
  = Returns (Some <$> (icon_move_transform x y <$> seqZ 0 (h + 1))).
Proof.
  intros Hh Hfuel. unfold calculateIconMoveTransforms.
  rewrite <- (Z2Nat.id (h + 1)) at 1 by lia.
  rewrite (calculateIconMoveTransforms_loop_spec x y (h + 1)); [done|lia|lia|].
  left. split; [lia|done].
Qed.

Lemma calculateIconResizeTransforms_loop_spec x y height n (k : nat) :
  ∀ fuel t,
    (k < fuel)%nat → Z.of_nat k ≤ n →
    filled_from (icon_resize_transform x y height) n (Z.of_nat k) t →
    calculateIconResizeTransforms_loop fuel x y height (Z.of_nat k) t
    = Some (Some <$> (icon_resize_transform x y height <$> seqZ 0 n)).
Proof.
  induction k as [|k IH]; intros [|fuel] t Hfuel Hk Ht; try lia;
    cbn [calculateIconResizeTransforms_loop]; cbv zeta.
  - simpl. f_equal. apply filled_from_all; [lia|done].
  - rewrite (proj2 (Z.eqb_neq (Z.of_nat (S k)) 0)) by lia.
    apply (filled_from_step _ n (Z.of_nat (S k))) in Ht; [|lia].
    replace (Z.of_nat (S k) - 1) with (Z.of_nat k) in * by lia.
    apply IH; [lia|lia|done].
Qed.

Lemma calculateIconResizeTransforms_slots fuel x y height h :
  -1 ≤ h → (Z.to_nat (h + 1) < fuel)%nat →
  calculateIconResizeTransforms fuel x y height h
  = Returns (Some <$> (icon_resize_transform x y height <$> seqZ 0 (h + 1))).
Proof.
  intros Hh Hfuel. unfold calculateIconResizeTransforms.
  rewrite <- (Z2Nat.id (h + 1)) at 1 by lia.
  rewrite (calculateIconResizeTransforms_loop_spec x y height (h + 1));
    [done|lia|lia|].
  left. split; [lia|done].
Qed.

Lemma calculateShadowMoveTransforms_loop_spec (p : list (Z * Z)) (k : nat) :
  ∀ fuel t,
    (k < fuel)%nat → (k ≤ length p)%nat →
    filled_from (λ d, shadow_move_transform (default (0, 0) (p !! Z.to_nat d)))
      (Z.of_nat (length p)) (Z.of_nat k) t →
    calculateShadowMoveTransforms_loop fuel p (Z.of_nat k) t
    = Returns (Some <$> (shadow_move_transform <$> p)).
Proof.
  induction k as [|k IH]; intros [|fuel] t Hfuel Hk Ht; try lia;
    cbn [calculateShadowMoveTransforms_loop]; cbv zeta.
  - simpl. f_equal. rewrite (filled_from_all _ _ t (Nat2Z.is_nonneg _) Ht).
    f_equal. apply list_eq. intros i. rewrite !list_lookup_fmap.
    destruct (decide (i < length p)%nat) as [Hi|Hi].
    + rewrite lookup_seqZ_lt by lia. simpl.
      replace (Z.to_nat (0 + Z.of_nat i)) with i by lia.
      by destruct (lookup_lt_is_Some_2 p i Hi) as [q ->].
    + rewrite lookup_seqZ_ge by lia.
      by rewrite (proj2 (lookup_ge_None p i)) by lia.
  - rewrite (proj2 (Z.eqb_neq (Z.of_nat (S k)) 0)) by lia.
    replace (Z.of_nat (S k) - 1) with (Z.of_nat k) by lia.
    unfold point_at. rewrite (proj2 (Z.ltb_ge (Z.of_nat k) 0)) by lia.
    rewrite Nat2Z.id.
    destruct (lookup_lt_is_Some_2 p k) as [[px py] Hp]; [lia|]. rewrite Hp.
    apply IH; [lia|lia|].
    apply (filled_from_step _ _ (Z.of_nat (S k))) in Ht; [|lia].
    replace (Z.of_nat (S k) - 1) with (Z.of_nat k) in Ht by lia.
    by rewrite Nat2Z.id, Hp in Ht.
Qed.

Lemma calculateShadowMoveTransforms_slots fuel x y h angle :
  0 ≤ h → (Z.to_nat h + 1 < fuel)%nat →
  ∃ p, calculateLine Math_cos Math_sin fuel x y angle (h + 1) = Some p
       ∧ Z.of_nat (length p) = h + 1
       ∧ p !! 0%nat = Some (x, y)
       ∧ calculateShadowMoveTransforms Math_cos Math_sin fuel x y h angle
         = Returns (Some <$> (shadow_move_transform <$> p)).
Proof.
  intros Hh Hfuel. unfold calculateShadowMoveTransforms.
  destruct (calculateLine_returns Math_cos Math_sin fuel x y angle (h + 1))
    as (p & Hp & Hlen & H0); [lia..|].
  exists p. rewrite Hp. split_and!; [done..|]. simpl.
  rewrite <- Hlen. apply calculateShadowMoveTransforms_loop_spec; [lia|lia|].
  left. by split.
Qed.

End TransformSlots.

Section TransformSlots2.

Context (Math_cos Math_sin : Q → Q) (Math_PI : Q).

Lemma js_get_filled {A : Type} (f : Z → A) n d :
  0 ≤ d < n → js_get (Some <$> (f <$> seqZ 0 n)) d = Some (f d).
Proof.
  intros Hd. rewrite js_get_within by lia.
  rewrite !list_lookup_fmap, lookup_seqZ_lt by lia. simpl.
  by rewrite Z2Nat.id by lia.
Qed.

Lemma js_get_beyond {A : Type} (f : Z → A) n d :
  0 ≤ n → n ≤ d → js_get (Some <$> (f <$> seqZ 0 n)) d = None.
Proof.
  intros Hn Hd. rewrite js_get_within by lia.
  by rewrite !list_lookup_fmap, lookup_seqZ_ge by lia.
Qed.

Lemma filled_length {A : Type} (f : Z → A) n :
  0 ≤ n → Z.of_nat (length (Some <$> (f <$> seqZ 0 n))) = n.
Proof. intros Hn. rewrite !length_fmap, length_seqZ. lia. Qed.

End TransformSlots2.

(** X3: [calculateIconMoveTransforms] returns one transform for every pixel
    of the bounce height and one for the position at rest: the slot [d]
    moves the icon [d] pixels up from [(x, y)] and scales nothing. *)
Theorem calculateIconMoveTransforms_translates fuel x y h :
  0 ≤ h → (Z.to_nat h + 1 < fuel)%nat →
  ∃ t, calculateIconMoveTransforms fuel x y h = Returns t
       ∧ Z.of_nat (length t) = h + 1
       ∧ ∀ d, 0 ≤ d ≤ h → js_get t d = Some (Matrix3d 1 1 x (y - d)).
Proof.
  intros Hh Hfuel. eexists. split; [|split].
  - apply calculateIconMoveTransforms_slots; lia.
  - apply filled_length. lia.
  - intros d Hd. by rewrite js_get_filled by lia.
Qed.

Lemma calculateIconMoveTransforms_translates_witness :
  0 ≤ 15 ∧ (Z.to_nat 15 + 1 < 20)%nat
  ∧ ∃ t, calculateIconMoveTransforms 20 100 200 15 = Returns t
         ∧ Z.of_nat (length t) = 15 + 1
         ∧ ∀ d, 0 ≤ d ≤ 15 → js_get t d = Some (Matrix3d 1 1 100 (200 - d)).
Proof.
  split; [lia|]. split; [vm_compute; lia|].
  apply (calculateIconMoveTransforms_translates 20 100 200 15);
    [lia|vm_compute; lia].
Defined.

(** X4: [calculateIconResizeTransforms] returns one transform for every pixel
    of the contraction height and one for the full size: the slot [d] scales
    the height [height] by [(height - d) / height], leaves the width as it is
    and moves the icon [d] pixels down, so that the offset and the scaled
    height add up to [y + height] in every slot. *)
Theorem calculateIconResizeTransforms_contracts fuel x y height h :
  0 ≤ h → height ≠ 0 → (Z.to_nat h + 1 < fuel)%nat →
  ∃ t, calculateIconResizeTransforms fuel x y height h = Returns t
       ∧ Z.of_nat (length t) = h + 1
       ∧ ∀ d, 0 ≤ d ≤ h →
           js_get t d
           = Some (Matrix3d 1 (inject_Z (height - d) / inject_Z height)%Q
                     x (y + d))
           ∧ (inject_Z (y + d)
              + inject_Z (height - d) / inject_Z height * inject_Z height
              == inject_Z (y + height))%Q.
Proof.
  intros Hh Hheight Hfuel. eexists. split; [|split].
  - apply calculateIconResizeTransforms_slots; lia.
  - apply filled_length. lia.
  - intros d Hd. split; [by rewrite js_get_filled by lia|].
    rewrite Qmult_comm, Qmult_div_r
      by (unfold Qeq; simpl; lia).
    rewrite <- inject_Z_plus.
    by replace (y + d + (height - d)) with (y + height) by lia.
Qed.

Lemma calculateIconResizeTransforms_contracts_witness :
  0 ≤ 12 ∧ 41 ≠ 0 ∧ (Z.to_nat 12 + 1 < 20)%nat
  ∧ ∃ t, calculateIconResizeTransforms 20 100 200 41 12 = Returns t
         ∧ Z.of_nat (length t) = 12 + 1
         ∧ ∀ d, 0 ≤ d ≤ 12 →
             js_get t d
             = Some (Matrix3d 1 (inject_Z (41 - d) / inject_Z 41)%Q
                       100 (200 + d))
             ∧ (inject_Z (200 + d)
                + inject_Z (41 - d) / inject_Z 41 * inject_Z 41
                == inject_Z (200 + 41))%Q.
Proof.
  split; [lia|]. split; [lia|]. split; [vm_compute; lia|].
  apply (calculateIconResizeTransforms_contracts 20 100 200 41 12);
    [lia|lia|vm_compute; lia].
Defined.

(** X5: [calculateShadowMoveTransforms] returns one transform for every point
    of the line [calculateLine] draws from [(x, y)] at the shadow angle over
    [bounceHeight + 1] points: the slot [d] moves the shadow to the point [d]
    of the line, the slot [0] to [(x, y)], and no slot scales. *)
Theorem calculateShadowMoveTransforms_follows_line
    (Math_cos Math_sin : Q → Q) fuel x y h angle :
  0 ≤ h → (Z.to_nat h + 1 < fuel)%nat →
  ∃ p t,
    calculateLine Math_cos Math_sin fuel x y angle (h + 1) = Some p
    ∧ calculateShadowMoveTransforms Math_cos Math_sin fuel x y h angle
      = Returns t
    ∧ Z.of_nat (length t) = h + 1
    ∧ js_get t 0 = Some (Matrix3d 1 1 x y)
    ∧ ∀ d px py,
        0 ≤ d → p !! Z.to_nat d = Some (px, py) →
        js_get t d = Some (Matrix3d 1 1 px py).
Proof.
  intros Hh Hfuel.
  destruct (calculateShadowMoveTransforms_slots Math_cos Math_sin fuel x y h
              angle Hh Hfuel) as (p & Hp & Hlen & H0 & Ht).
  assert (∀ d px py, 0 ≤ d → p !! Z.to_nat d = Some (px, py) →
            js_get (Some <$> (shadow_move_transform <$> p)) d
            = Some (Matrix3d 1 1 px py)) as Hget.
  { intros d px py Hd Hpd. rewrite js_get_within by done.
    by rewrite !list_lookup_fmap, Hpd. }
  exists p. eexists. split_and!; [done|done| |by apply Hget|done].
  rewrite !length_fmap. lia.
Qed.

Lemma calculateShadowMoveTransforms_follows_line_witness :
  0 ≤ 15 ∧ (Z.to_nat 15 + 1 < 20)%nat
  ∧ ∃ p t,
      calculateLine example_cos example_sin 20 100 200 (- example_PI / 4)%Q
        (15 + 1) = Some p
      ∧ calculateShadowMoveTransforms example_cos example_sin 20 100 200 15
          (- example_PI / 4)%Q
        = Returns t
      ∧ Z.of_nat (length t) = 15 + 1
      ∧ js_get t 0 = Some (Matrix3d 1 1 100 200)
      ∧ ∀ d px py,
          0 ≤ d → p !! Z.to_nat d = Some (px, py) →
          js_get t d = Some (Matrix3d 1 1 px py).
Proof.
  split; [lia|]. split; [vm_compute; lia|].
  apply (calculateShadowMoveTransforms_follows_line example_cos example_sin
           20 100 200 15 (- example_PI / 4)%Q); [lia|vm_compute; lia].
Defined.

(** ** The line of the shadow *)

Section LineSteps.

Context (Math_cos Math_sin : Q → Q).

Lemma calculateLine_loop_line dx dy sx sy len fuel :
  0 ≤ dx → 0 ≤ dy → sx ≠ 0 → sy ≠ 0 →
  ∀ x y err p i r,
    calculateLine_loop fuel dx dy sx sy len x y err p i = Some r →
    ∃ q, r = p ++ (x, y) :: q ∧ line_from dx dy sx sy (x, y) q.
Proof.
  intros Hdx Hdy Hsx Hsy.
  induction fuel as [|fuel IH]; intros x y err p i r Hr; [done|].
  cbn [calculateLine_loop] in Hr. cbv zeta in Hr.
  destruct (i + 1 =? len).
  { injection Hr as <-. by exists []. }
  destruct (Qle_bool err (inject_Z (- dx))) eqn:Hx;
    destruct (Qle_bool (inject_Z dy) err) eqn:Hy;
    cbn [negb] in Hr;
    destruct (IH _ _ _ _ _ _ Hr) as (q & -> & Hq);
    eexists (_ :: q); (split; [by rewrite <- app_assoc|]);
    (split; [|done]); unfold line_step; simpl;
    (split_and!; [by auto..|]); intros Hd.
  - apply Qle_bool_iff in Hx, Hy.
    assert (inject_Z dy <= inject_Z (- dx))%Q as Hle
      by (eapply Qle_trans; eassumption).
    rewrite <- Zle_Qle in Hle. lia.
  - intros [= ?]. lia.
  - intros [= ?]. lia.
  - intros [= ? ?]. lia.
Qed.

Lemma line_from_lookup dx dy sx sy q :
  ∀ a (i : nat) u v,
    line_from dx dy sx sy a q →
    (a :: q) !! i = Some u → (a :: q) !! S i = Some v →
    line_step dx dy sx sy u v.
Proof.
  induction q as [|b q IH]; intros a i u v Hq Hu Hv.
  - by destruct i.
  - destruct Hq as [Hab Hq]. destruct i as [|i].
    + simpl in Hu, Hv. by simplify_eq.
    + by apply (IH b i).
Qed.

End LineSteps.

(** X6: the points [calculateLine] returns make a connected line that
    leaves the origin in one direction: from a point to the next each
    coordinate stays or moves by one pixel, always the same way, and unless
    the far end of the line rounds to the origin no point is repeated. *)
Theorem calculateLine_connected
    (Math_cos Math_sin : Q → Q) fuel x y angle len p :
  calculateLine Math_cos Math_sin fuel x y angle len = Some p →
  ∃ sx sy,
    (sx = 1 ∨ sx = -1) ∧ (sy = 1 ∨ sy = -1)
    ∧ ∀ (i : nat) a b,
        p !! i = Some a → p !! S i = Some b →
        (b.1 = a.1 ∨ b.1 = a.1 + sx) ∧ (b.2 = a.2 ∨ b.2 = a.2 + sy)
        ∧ (Math_round (inject_Z x + Math_cos angle * inject_Z (len * 2)) ≠ x
           ∨ Math_round (inject_Z y + Math_sin angle * inject_Z (len * 2)) ≠ y
           → b ≠ a).
Proof.
  unfold calculateLine. cbv zeta.
  set (xD := Math_round (inject_Z x + Math_cos angle * inject_Z (len * 2))).
  set (yD := Math_round (inject_Z y + Math_sin angle * inject_Z (len * 2))).
  intros Hp.
  apply calculateLine_loop_line in Hp as (q & -> & Hq);
    [|lia|lia|by destruct (x <? xD)|by destruct (y <? yD)].
  exists (if x <? xD then 1 else -1), (if y <? yD then 1 else -1).
  split; [destruct (x <? xD); auto|]. split; [destruct (y <? yD); auto|].
  intros i a b Ha Hb.
  destruct (line_from_lookup _ _ _ _ _ _ _ _ _ Hq Ha Hb) as (H1 & H2 & H3).
  split_and!; [done..|]. intros Hd. apply H3. lia.
Qed.

Lemma calculateLine_connected_witness :
  ∃ p,
    calculateLine example_cos example_sin 5 100 200 (- example_PI / 4)%Q 5
    = Some p
    ∧ ∃ sx sy,
        (sx = 1 ∨ sx = -1) ∧ (sy = 1 ∨ sy = -1)
        ∧ ∀ (i : nat) a b,
            p !! i = Some a → p !! S i = Some b →
            (b.1 = a.1 ∨ b.1 = a.1 + sx) ∧ (b.2 = a.2 ∨ b.2 = a.2 + sy)
            ∧ (Math_round (inject_Z 100
                           + example_cos (- example_PI / 4)%Q
                             * inject_Z (5 * 2)) ≠ 100
               ∨ Math_round (inject_Z 200
                             + example_sin (- example_PI / 4)%Q
                               * inject_Z (5 * 2)) ≠ 200
               → b ≠ a).
Proof.
  eexists. split; [vm_compute; reflexivity|].
  apply (calculateLine_connected example_cos example_sin 5 100 200
           (- example_PI / 4)%Q 5).
  vm_compute. reflexivity.
Defined.

(** ** The marker after [setBouncingOptions] *)

Section CompiledSlots.

Context (Math_cos Math_sin : Q → Q) (Math_PI : Q).

Lemma _calculateTransforms_3d_slots fuel m σ mk :
  any3d σ = true →
  markers σ !! m = Some mk →
  0 ≤ bounceHeight (bouncingOptions_of σ mk) →
  -1 ≤ contractHeight (bouncingOptions_of σ mk) →
  (Z.to_nat (bounceHeight (bouncingOptions_of σ mk)) + 1 < fuel)%nat →
  (Z.to_nat (contractHeight (bouncingOptions_of σ mk) + 1) < fuel)%nat →
  ∃ p,
    Z.of_nat (length p) = bounceHeight (bouncingOptions_of σ mk) + 1
    ∧ p !! 0%nat
      = Some (motion_x (bouncingMotion mk), motion_y (bouncingMotion mk))
    ∧ _calculateTransforms Math_cos Math_sin fuel m σ
      = Normal
          (set_markers
             (<[m := with_motion
                       (transforms_of
                          (Some <$>
                             (icon_move_transform
                                (motion_x (bouncingMotion mk))
                                (motion_y (bouncingMotion mk))
                              <$> seqZ 0
                                    (bounceHeight (bouncingOptions_of σ mk)
                                     + 1)))
                          (Some <$>
                             (icon_resize_transform
                                (motion_x (bouncingMotion mk))
                                (motion_y (bouncingMotion mk))
                                (snd (iconSize mk))
                              <$> seqZ 0
                                    (contractHeight (bouncingOptions_of σ mk)
                                     + 1)))
                          (Some <$> (shadow_move_transform <$> p))
                          (Some <$>
                             (icon_resize_transform
                                (motion_x (bouncingMotion mk))
                                (motion_y (bouncingMotion mk))
                                (snd (shadowSize mk))
                              <$> seqZ 0
                                    (contractHeight (bouncingOptions_of σ mk)
                                     + 1))))
                       mk]> (markers σ))
             σ).
Proof.
  intros H3d Hmk Hbh Hch Hfb Hfc.
  set (o := bouncingOptions_of σ mk) in *.
  set (mo := bouncingMotion mk).
  destruct (calculateShadowMoveTransforms_slots Math_cos Math_sin fuel
              (motion_x mo) (motion_y mo) (bounceHeight o) (shadowAngle o)
              Hbh Hfb) as (p & _ & Hlen & Hp0 & Hsm).
  exists p. split; [done|]. split; [done|].
  unfold _calculateTransforms, on_marker. rewrite Hmk, H3d.
  fold o mo.
  rewrite calculateIconMoveTransforms_slots by lia. cbn [assign].
  rewrite calculateIconResizeTransforms_slots by lia. cbn [assign].
  rewrite Hsm. cbn [assign].
  rewrite calculateIconResizeTransforms_slots by lia. cbn [assign]. f_equal.
  unfold update_marker, set_markers.
  cbn [markers bouncingMotionsCache bouncingMarkers default_bouncingOptions
         any3d bounce_calls timers now].
  f_equal.
  apply map_eq. intros j. destruct (decide (m = j)) as [<-|Hne].
  - rewrite !lookup_alter_eq, lookup_insert_eq, Hmk. done.
  - rewrite !lookup_alter_ne, lookup_insert_ne by done. done.
Qed.

Lemma steps_seq_range h step :
  0 ≤ h → step ∈ steps_seq h → ∃ k, step = Num k ∧ 0 ≤ k ≤ h.
Proof.
  intros Hh. unfold steps_seq.
  intros (k & -> & Hk)%list_elem_of_fmap. exists k. split; [done|].
  rewrite elem_of_app, elem_of_reverse, !elem_of_seqZ in Hk. lia.
Qed.

End CompiledSlots.

(** X7: after [setBouncingOptions] every step of the two timelines has its
    visual state: the transforms of the icon and of the shadow hold a
    transform, not a hole, at every step number of [moveSteps], and the
    resize transforms at every step number of [resizeSteps]. *)
Theorem setBouncingOptions_steps_have_transforms
    (Math_cos Math_sin : Q → Q) fuel m options σ mk :
  any3d σ = true →
  markers σ !! m = Some mk →
  cache_ok (bouncingMotionsCache σ) →
  1 ≤ bounceHeight (merge_options options (default_bouncingOptions σ)) →
  1 ≤ contractHeight (merge_options options (default_bouncingOptions σ)) →
  (Z.to_nat (bounceHeight (merge_options options (default_bouncingOptions σ)))
   + 1 < fuel)%nat →
  (Z.to_nat (contractHeight (merge_options options (default_bouncingOptions σ)))
   + 1 < fuel)%nat →
  ∃ σ' mk' im ir sm sr,
    setBouncingOptions Math_cos Math_sin fuel m options σ = Normal σ'
    ∧ markers σ' !! m = Some mk'
    ∧ iconMoveTransforms (bouncingMotion mk') = Some im
    ∧ iconResizeTransforms (bouncingMotion mk') = Some ir
    ∧ shadowMoveTransforms (bouncingMotion mk') = Some sm
    ∧ shadowResizeTransforms (bouncingMotion mk') = Some sr
    ∧ (∀ step, step ∈ moveSteps (bouncingMotion mk') →
               is_Some (transform_at im (Some step))
               ∧ is_Some (transform_at sm (Some step)))
    ∧ (∀ step, step ∈ resizeSteps (bouncingMotion mk') →
               is_Some (transform_at ir (Some step))
               ∧ is_Some (transform_at sr (Some step))).
Proof.
  intros H3d Hmk Hc Hbh Hch Hfb Hfc.
  set (o := merge_options options (default_bouncingOptions σ)) in *.
  unfold setBouncingOptions, on_marker. rewrite Hmk. fold o.
  rewrite (update_marker_insert _ _ _ _ Hmk).
  set (mk1 := with_own_bouncingOptions o mk).
  set (σ1 := set_markers (<[m:=mk1]> (markers σ)) σ).
  assert (markers σ1 !! m = Some mk1) as Hmk1 by apply lookup_insert_eq.
  pose proof (_calculateTimeline_returns fuel m σ1 mk1 Hmk1 Hc) as Ht.
  change (bouncingOptions_of σ1 mk1) with o in Ht.
  destruct Ht as (c & Hc' & ->); [done|done|lia|lia|].
  cbn [and_then].
  set (mk2 := with_motion _ mk1).
  set (σ2 := set_markers _ (set_bouncingMotionsCache c σ1)).
  assert (markers σ2 !! m = Some mk2) as Hmk2 by apply lookup_insert_eq.
  pose proof (_calculateTransforms_3d_slots Math_cos Math_sin fuel m σ2 mk2
                H3d Hmk2) as Ht.
  change (bouncingOptions_of σ2 mk2) with o in Ht.
  destruct Ht as (p & Hlen & _ & ->); [lia..|].
  eexists _, _, _, _, _, _. split; [done|].
  split; [apply lookup_insert_eq|]. split_and!; [done..| |].
  - intros step Hstep. change (step ∈ steps_seq (bounceHeight o)) in Hstep.
    apply steps_seq_range in Hstep as (k & -> & Hk); [|lia].
    unfold transform_at. split.
    + rewrite js_get_filled by lia. by eexists.
    + rewrite js_get_within by lia. rewrite !list_lookup_fmap.
      destruct (lookup_lt_is_Some_2 p (Z.to_nat k)) as [q ->]; [lia|].
      by eexists.
  - intros step Hstep. change (step ∈ steps_seq (contractHeight o)) in Hstep.
    apply steps_seq_range in Hstep as (k & -> & Hk); [|lia].
    unfold transform_at. rewrite !js_get_filled by lia. split; by eexists.
Qed.

Lemma setBouncingOptions_steps_have_transforms_witness :
  ∃ mk,
    any3d example_marker_page = true
    ∧ markers example_marker_page !! 0%nat = Some mk
    ∧ cache_ok (bouncingMotionsCache example_marker_page)
    ∧ ∃ σ' mk' im ir sm sr,
        setBouncingOptions example_cos example_sin 20 0 example_zero_speed
          example_marker_page
        = Normal σ'
        ∧ markers σ' !! 0%nat = Some mk'
        ∧ iconMoveTransforms (bouncingMotion mk') = Some im
        ∧ iconResizeTransforms (bouncingMotion mk') = Some ir
        ∧ shadowMoveTransforms (bouncingMotion mk') = Some sm
        ∧ shadowResizeTransforms (bouncingMotion mk') = Some sr
        ∧ (∀ step, step ∈ moveSteps (bouncingMotion mk') →
                   is_Some (transform_at im (Some step))
                   ∧ is_Some (transform_at sm (Some step)))
        ∧ (∀ step, step ∈ resizeSteps (bouncingMotion mk') →
                   is_Some (transform_at ir (Some step))
                   ∧ is_Some (transform_at sr (Some step))).
Proof.
  eexists. split; [vm_compute; reflexivity|].
  split; [vm_compute; reflexivity|].
  split; [apply example_marker_page_cache_ok|].
  eapply (setBouncingOptions_steps_have_transforms example_cos example_sin
            20 0 example_zero_speed example_marker_page);
    [vm_compute; reflexivity|vm_compute; reflexivity
    |apply example_marker_page_cache_ok
    |by vm_compute|by vm_compute|vm_compute; lia|vm_compute; lia].
Defined.

Section OptionsAgain.

Context (Math_cos Math_sin : Q → Q) (Math_PI : Q).

Lemma setBouncingOptions_defaults fuel m options σ σ' :
  setBouncingOptions Math_cos Math_sin fuel m options σ = Normal σ' →
  default_bouncingOptions σ' = default_bouncingOptions σ
  ∧ any3d σ' = any3d σ.
Proof.
  unfold setBouncingOptions, on_marker.
  destruct (markers σ !! m) as [mk|]; [|done]. cbv zeta.
  destruct (_calculateTimeline fuel m _) as [σ1| |] eqn:H1; [|done..].
  cbn [and_then]. intros H2.
  apply _calculateTimeline_Normal in H1
    as (mk1 & a1 & c1 & a2 & c2 & a3 & c3 & a4 & c4 & _ & _ & _ & _ & _ & ->).
  assert (settles (_calculateTransforms Math_cos Math_sin fuel m
                     (set_markers
                        (<[m:=with_motion (with_timeline a1 a2 a3 a4) mk1]>
                           (markers
                              (update_marker m
                                 (with_own_bouncingOptions
                                    (merge_options options
                                       (default_bouncingOptions σ))) σ)))
                        (set_bouncingMotionsCache c4
                           (update_marker m
                              (with_own_bouncingOptions
                                 (merge_options options
                                    (default_bouncingOptions σ))) σ)))) σ')
    as Hs by (by left).
  apply _calculateTransforms_fixed in Hs. by injection Hs as _ -> ->.
Qed.

End OptionsAgain.

(** X8: [setBouncingOptions] does not add to the options of an earlier call:
    after two calls the marker's own options are the options of the second
    call completed by the defaults; what only the first call had set is
    gone. *)
Theorem setBouncingOptions_replaces
    (Math_cos Math_sin : Q → Q) fuel m options1 options2 σ mk :
  any3d σ = true →
  markers σ !! m = Some mk →
  cache_ok (bouncingMotionsCache σ) →
  1 ≤ bounceHeight (merge_options options1 (default_bouncingOptions σ)) →
  1 ≤ contractHeight (merge_options options1 (default_bouncingOptions σ)) →
  1 ≤ bounceHeight (merge_options options2 (default_bouncingOptions σ)) →
  1 ≤ contractHeight (merge_options options2 (default_bouncingOptions σ)) →
  (Z.to_nat (bounceHeight (merge_options options1 (default_bouncingOptions σ)))
   + 1 < fuel)%nat →
  (Z.to_nat (contractHeight (merge_options options1 (default_bouncingOptions σ)))
   + 1 < fuel)%nat →
  (Z.to_nat (bounceHeight (merge_options options2 (default_bouncingOptions σ)))
   + 1 < fuel)%nat →
  (Z.to_nat (contractHeight (merge_options options2 (default_bouncingOptions σ)))
   + 1 < fuel)%nat →
  ∃ σ1 σ2 mk2,
    setBouncingOptions Math_cos Math_sin fuel m options1 σ = Normal σ1
    ∧ setBouncingOptions Math_cos Math_sin fuel m options2 σ1 = Normal σ2
    ∧ markers σ2 !! m = Some mk2
    ∧ own_bouncingOptions mk2
      = Some (merge_options options2 (default_bouncingOptions σ)).
Proof.
  intros H3d Hmk Hc Hb1 Hc1 Hb2 Hc2 Hfb1 Hfc1 Hfb2 Hfc2.
  destruct (setBouncingOptions_returns Math_cos Math_sin fuel m options1 σ mk
              H3d Hmk Hc Hb1 Hc1 Hfb1 Hfc1)
    as (σ1 & mk1 & Hσ1 & Hmk1 & _ & _ & Hcache1).
  destruct (setBouncingOptions_defaults _ _ _ _ _ _ _ Hσ1) as [Hd H3d1].
  destruct (setBouncingOptions_returns Math_cos Math_sin fuel m options2 σ1 mk1)
    as (σ2 & mk2 & Hσ2 & Hmk2 & Hown & _ & _);
    [congruence|done|done|by rewrite Hd..|].
  exists σ1, σ2, mk2. by rewrite <- Hd.
Qed.

Lemma setBouncingOptions_replaces_witness :
  ∃ mk,
    any3d example_marker_page = true
    ∧ markers example_marker_page !! 0%nat = Some mk
    ∧ cache_ok (bouncingMotionsCache example_marker_page)
    ∧ ∃ σ1 σ2 mk2,
        setBouncingOptions example_cos example_sin 20 0 example_exclusif
          example_marker_page = Normal σ1
        ∧ setBouncingOptions example_cos example_sin 20 0 example_zero_speed
            σ1 = Normal σ2
        ∧ markers σ2 !! 0%nat = Some mk2
        ∧ own_bouncingOptions mk2
          = Some (merge_options example_zero_speed
                    (default_bouncingOptions example_marker_page)).
Proof.
  eexists. split; [vm_compute; reflexivity|].
  split; [vm_compute; reflexivity|].
  split; [apply example_marker_page_cache_ok|].
  eapply (setBouncingOptions_replaces example_cos example_sin 20 0
            example_exclusif example_zero_speed example_marker_page);
    [vm_compute; reflexivity|vm_compute; reflexivity
    |apply example_marker_page_cache_ok
    |by vm_compute|by vm_compute|by vm_compute|by vm_compute
    |vm_compute; lia|vm_compute; lia|vm_compute; lia|vm_compute; lia].
Defined.

(** X9: the static [L.Marker.setBouncingOptions] reaches a marker without
    options of its own through the prototype, but recalculates nothing: when
    the marker is next positioned its transforms are computed for the new
    bounce height, while its timeline is still the one of the old height, so
    that a step above the new height has no transform. *)
Theorem default_options_leave_timeline_stale
    (Math_cos Math_sin : Q → Q) fuel m options pos σ mk :
  any3d σ = true →
  markers σ !! m = Some mk →
  own_bouncingOptions mk = None →
  0 ≤ bounceHeight (merge_options options (default_bouncingOptions σ)) →
  0 ≤ contractHeight (merge_options options (default_bouncingOptions σ)) →
  (Z.to_nat (bounceHeight (merge_options options (default_bouncingOptions σ)))
   + 1 < fuel)%nat →
  (Z.to_nat (contractHeight (merge_options options (default_bouncingOptions σ)))
   + 1 < fuel)%nat →
  ∃ σ' mk' im,
    _setPos Math_cos Math_sin fuel m pos
      (L_Marker_setBouncingOptions options σ) = Normal σ'
    ∧ markers σ' !! m = Some mk'
    ∧ moveSteps (bouncingMotion mk') = moveSteps (bouncingMotion mk)
    ∧ moveDelays (bouncingMotion mk') = moveDelays (bouncingMotion mk)
    ∧ resizeSteps (bouncingMotion mk') = resizeSteps (bouncingMotion mk)
    ∧ resizeDelays (bouncingMotion mk') = resizeDelays (bouncingMotion mk)
    ∧ iconMoveTransforms (bouncingMotion mk') = Some im
    ∧ Z.of_nat (length im)
      = bounceHeight (merge_options options (default_bouncingOptions σ)) + 1
    ∧ ∀ step,
        bounceHeight (merge_options options (default_bouncingOptions σ)) < step →
        transform_at im (Some (Num step)) = None.
Proof.
  intros H3d Hmk Hown Hbh Hch Hfb Hfc.
  set (o := merge_options options (default_bouncingOptions σ)) in *.
  set (σ0 := L_Marker_setBouncingOptions options σ).
  assert (markers σ0 !! m = Some mk) as Hmk0 by done.
  unfold _setPos. rewrite (update_marker_insert _ _ _ _ Hmk0).
  set (mk1 := with_motion _ mk).
  set (σ1 := set_markers (<[m:=mk1]> (markers σ0)) σ0).
  assert (markers σ1 !! m = Some mk1) as Hmk1 by apply lookup_insert_eq.
  assert (bouncingOptions_of σ1 mk1 = o) as Ho.
  { unfold bouncingOptions_of.
    change (own_bouncingOptions mk1) with (own_bouncingOptions mk).
    by rewrite Hown. }
  pose proof (_calculateTransforms_3d_slots Math_cos Math_sin fuel m σ1 mk1
                H3d Hmk1) as Ht.
  rewrite Ho in Ht. destruct Ht as (p & _ & _ & ->); [lia..|].
  eexists _, _, _. split; [done|]. split; [apply lookup_insert_eq|].
  split_and!; [done..| |].
  - apply filled_length. lia.
  - intros step Hstep. unfold transform_at. apply js_get_beyond; lia.
Qed.

Lemma default_options_leave_timeline_stale_witness :
  ∃ mk,
    any3d example_marker_page = true
    ∧ markers example_marker_page !! 0%nat = Some mk
    ∧ own_bouncingOptions mk = None
    ∧ ∃ σ' mk' im,
        _setPos example_cos example_sin 20 0 (100, 200)
          (L_Marker_setBouncingOptions example_low_height example_marker_page)
        = Normal σ'
        ∧ markers σ' !! 0%nat = Some mk'
        ∧ moveSteps (bouncingMotion mk') = moveSteps (bouncingMotion mk)
        ∧ moveDelays (bouncingMotion mk') = moveDelays (bouncingMotion mk)
        ∧ resizeSteps (bouncingMotion mk') = resizeSteps (bouncingMotion mk)
        ∧ resizeDelays (bouncingMotion mk') = resizeDelays (bouncingMotion mk)
        ∧ iconMoveTransforms (bouncingMotion mk') = Some im
        ∧ Z.of_nat (length im)
          = bounceHeight
              (merge_options example_low_height
                 (default_bouncingOptions example_marker_page)) + 1
        ∧ ∀ step,
            bounceHeight
              (merge_options example_low_height
                 (default_bouncingOptions example_marker_page)) < step →
            transform_at im (Some (Num step)) = None.
Proof.
  eexists. split; [vm_compute; reflexivity|].
  split; [vm_compute; reflexivity|]. split; [vm_compute; reflexivity|].
  eapply (default_options_leave_timeline_stale example_cos example_sin 20 0
            example_low_height (100, 200) example_marker_page);
    [vm_compute; reflexivity|vm_compute; reflexivity|vm_compute; reflexivity
    |by vm_compute|by vm_compute|vm_compute; lia|vm_compute; lia].
Defined.

(** ** The registry, entry by entry *)

Section RegistryAgain.

Lemma _removeBouncingMarker_loop_absent marker l (i : nat) :
  marker ∉ l → _removeBouncingMarker_loop i marker l = l.
Proof.
  intros Hl. induction i as [|i IH]; [done|]. simpl.
  destruct (l !! i) as [m|] eqn:Hm; [|done].
  destruct (decide (m = marker)) as [->|]; [|done].
  destruct Hl. by eapply list_elem_of_lookup_2.
Qed.

Lemma _removeBouncingMarker_loop_last marker l1 l2 (k : nat) :
  marker ∉ l2 → (k ≤ length l2)%nat →
  _removeBouncingMarker_loop (S (length l1 + k)) marker (l1 ++ marker :: l2)
  = l1 ++ l2.
Proof.
  intros Hl2. induction k as [|k IH]; intros Hk.
  - cbn [_removeBouncingMarker_loop]. rewrite Nat.add_0_r.
    rewrite list_lookup_middle by done.
    destruct (decide (marker = marker)); [|done].
    rewrite delete_middle. done.
  - cbn [_removeBouncingMarker_loop].
    rewrite lookup_app_r by lia.
    replace (length l1 + S k - length l1)%nat with (S k) by lia.
    cbn [lookup list_lookup].
    destruct (lookup_lt_is_Some_2 l2 k) as [m Hm]; [lia|].
    change (l2 !! k) with (lookup k l2). rewrite Hm.
    destruct (decide (m = marker)) as [->|].
    { destruct Hl2. by eapply list_elem_of_lookup_2. }
    replace (length l1 + S k)%nat with (S (length l1 + k)) by lia.
    apply IH. lia.
Qed.

Lemma stop_marker_frame m σ :
  bouncingMarkers (stop_marker m σ) = bouncingMarkers σ
  ∧ timers (stop_marker m σ) = timers σ
  ∧ bounce_calls (stop_marker m σ) = bounce_calls σ.
Proof. done. Qed.

End RegistryAgain.

(** X10: [_removeBouncingMarker] removes one entry of the registry, the last
    one that is the marker, and leaves the registry as it is when the marker
    is not in it. *)
Theorem _removeBouncingMarker_last_entry marker σ :
  (marker ∉ bouncingMarkers σ →
   bouncingMarkers (_removeBouncingMarker marker σ) = bouncingMarkers σ)
  ∧ (∀ l1 l2,
       bouncingMarkers σ = l1 ++ marker :: l2 → marker ∉ l2 →
       bouncingMarkers (_removeBouncingMarker marker σ) = l1 ++ l2).
Proof.
  unfold _removeBouncingMarker. cbn [bouncingMarkers set_bouncingMarkers].
  split.
  - apply _removeBouncingMarker_loop_absent.
  - intros l1 l2 -> Hl2. rewrite length_app. cbn [length].
    replace (length l1 + S (length l2))%nat with (S (length l1 + length l2))
      by lia.
    by apply _removeBouncingMarker_loop_last.
Qed.

(** X11: [stopBouncingMarkers] empties the registry and stops every marker
    that was in it; the markers that were not in it keep their flag, and no
    pending timer is cancelled. *)
Theorem stopBouncingMarkers_stops_all σ :
  getBouncingMarkers (stopBouncingMarkers σ) = []
  ∧ (∀ m, m ∈ getBouncingMarkers σ →
          Marker_isBouncing (stopBouncingMarkers σ) m = false)
  ∧ (∀ m, m ∉ getBouncingMarkers σ →
          Marker_isBouncing (stopBouncingMarkers σ) m = Marker_isBouncing σ m)
  ∧ timers (stopBouncingMarkers σ) = timers σ.
Proof.
  unfold stopBouncingMarkers, getBouncingMarkers.
  destruct (stopBouncingMarkers_loop_spec (bouncingMarkers σ) σ)
    as (H1 & _ & H2 & H3).
  split_and!; [done..|].
  apply stopBouncingMarkers_loop_frame.
Qed.

(** X12: [stopBouncing] after [bounce] takes back the entry that [bounce]
    added and no other: the registry holds the entries of before that
    [bounce] left in it (none if the marker is exclusive, the markers that
    are not exclusive otherwise).  The marker no longer bounces, and the
    timers of the bounce stay pending: the animation is not cut short. *)
Theorem bounce_then_stopBouncing σ m mk times :
  markers σ !! m = Some mk →
  getBouncingMarkers (stopBouncing m (bounce m times σ))
  = (if exclusif (bouncingOptions_of σ mk) then []
     else filter (λ m', Marker_exclusif σ m' = false) (bouncingMarkers σ))
  ∧ Marker_isBouncing (stopBouncing m (bounce m times σ)) m = false
  ∧ timers (stopBouncing m (bounce m times σ)) = timers (bounce m times σ).
Proof.
  intros Hmk. unfold stopBouncing, getBouncingMarkers. split_and!.
  - set (σb := stop_marker m (bounce m times σ)).
    assert (bouncingMarkers σb
            = (if exclusif (bouncingOptions_of σ mk) then []
               else filter (λ m', Marker_exclusif σ m' = false)
                      (bouncingMarkers σ)) ++ [m]) as Hreg.
    { unfold σb. rewrite (proj1 (stop_marker_frame _ _)).
      rewrite (bounce_registry σ m mk times Hmk).
      by destruct (exclusif (bouncingOptions_of σ mk)). }
    unfold _removeBouncingMarker. cbn [bouncingMarkers set_bouncingMarkers].
    rewrite Hreg, length_app. cbn [length].
    rewrite Nat.add_1_r, <- (Nat.add_0_r (length _)).
    rewrite _removeBouncingMarker_loop_last
      by (apply not_elem_of_nil || (simpl; lia)).
    by rewrite app_nil_r.
  - unfold _removeBouncingMarker, Marker_isBouncing.
    cbn [markers set_bouncingMarkers].
    change (Marker_isBouncing (stop_marker m (bounce m times σ)) m = false).
    rewrite stop_marker_isBouncing. by destruct (decide (m = m)).
  - done.
Qed.

Lemma bounce_then_stopBouncing_witness :
  ∃ mk,
    markers example_marker_page !! 0%nat = Some mk
    ∧ getBouncingMarkers (stopBouncing 0 (bounce 0 None example_marker_page))
      = (if exclusif (bouncingOptions_of example_marker_page mk) then []
         else filter (λ m', Marker_exclusif example_marker_page m' = false)
                (bouncingMarkers example_marker_page))
    ∧ Marker_isBouncing (stopBouncing 0 (bounce 0 None example_marker_page)) 0
      = false
    ∧ timers (stopBouncing 0 (bounce 0 None example_marker_page))
      = timers (bounce 0 None example_marker_page).
Proof.
  eexists. split; [vm_compute; reflexivity|].
  apply (bounce_then_stopBouncing example_marker_page 0 _ None).
  vm_compute. reflexivity.
Defined.

(** ** What an animation leaves of a marker *)

Section Scene.

Lemma same_scene_refl σ : same_scene σ σ.
Proof. done. Qed.

Lemma same_scene_trans σ1 σ2 σ3 :
  same_scene σ1 σ2 → same_scene σ2 σ3 → same_scene σ1 σ3.
Proof.
  intros [Hc Hm] [Hc' Hm']. split; intros j.
  - by rewrite Hc', Hc.
  - by rewrite Hm', Hm.
Qed.

Lemma same_scene_eq σ σ' :
  bounce_calls σ' = bounce_calls σ → markers σ' = markers σ →
  same_scene σ σ'.
Proof. intros Hc Hm. split; intros j; by rewrite ?Hc, ?Hm. Qed.

Lemma same_scene_update m f σ :
  (∀ mk, marker_compiled (f mk) = marker_compiled mk) →
  same_scene σ (update_marker m f σ).
Proof.
  intros Hf. split; intros j; [done|].
  unfold update_marker. cbn [markers set_markers].
  destruct (decide (j = m)) as [->|Hne].
  - rewrite lookup_alter_eq. destruct (markers σ !! m) as [mk|]; [|done].
    cbn. by rewrite Hf.
  - by rewrite lookup_alter_ne.
Qed.

Lemma same_scene_stop_marker m σ : same_scene σ (stop_marker m σ).
Proof. by apply same_scene_update. Qed.

Lemma same_scene_stopBouncingMarkers_loop queue :
  ∀ σ, same_scene σ (stopBouncingMarkers_loop queue σ).
Proof.
  induction queue as [|marker rest IH]; intros σ; [done|].
  cbn [stopBouncingMarkers_loop].
  eapply same_scene_trans; [|apply IH].
  apply (same_scene_stop_marker marker (set_bouncingMarkers rest σ)).
Qed.

Lemma same_scene__stopEclusifMarkerBouncing_loop (i : nat) :
  ∀ σ, same_scene σ (_stopEclusifMarkerBouncing_loop i σ).
Proof.
  induction i as [|i IH]; intros σ; [done|].
  cbn [_stopEclusifMarkerBouncing_loop].
  eapply same_scene_trans; [|apply IH].
  destruct (bouncingMarkers σ !! i) as [m|]; [|done].
  destruct (Marker_exclusif σ m); [|done].
  apply (same_scene_stop_marker m σ).
Qed.

Lemma same_scene__addBouncingMarker marker excl σ :
  same_scene σ (_addBouncingMarker marker excl σ).
Proof.
  unfold _addBouncingMarker.
  destruct (excl || Marker_exclusif σ marker).
  - apply (same_scene_stopBouncingMarkers_loop (bouncingMarkers σ) σ).
  - apply (same_scene__stopEclusifMarkerBouncing_loop
             (length (bouncingMarkers σ)) σ).
Qed.

Lemma same_scene_countdown call c σ :
  bounce_calls σ !! call = Some c → same_scene σ (countdown call c σ).
Proof.
  intros Hc. unfold countdown. destruct (call_times c) as [k|]; [|done].
  cbv zeta.
  assert (same_scene σ
            (set_bounce_calls
               (<[call:=with_times (Some (k - 1)) c]> (bounce_calls σ)) σ))
    as Hs.
  { split; intros j; [|done]. cbn [bounce_calls set_bounce_calls].
    destruct (decide (j = call)) as [->|Hne].
    - rewrite list_lookup_insert_eq by (by eapply lookup_lt_Some).
      by rewrite Hc.
    - by rewrite list_lookup_insert_ne. }
  destruct (k - 1 =? 0); [|done].
  eapply same_scene_trans; [exact Hs|]. apply same_scene_stop_marker.
Qed.

Lemma same_scene_move call σ : same_scene σ (move call σ).
Proof.
  unfold move. destruct (bounce_calls σ !! call) as [c|] eqn:Hc; [|done].
  cbv zeta. eapply same_scene_trans; [by apply (same_scene_countdown call c)|].
  apply same_scene_eq; cbn [setTimeout bounce_calls markers set_timers];
    apply schedule_steps_frame.
Qed.

Lemma same_scene_resize call σ : same_scene σ (resize call σ).
Proof.
  unfold resize. destruct (bounce_calls σ !! call) as [c|] eqn:Hc; [|done].
  cbv zeta.
  apply same_scene_eq; cbn [setTimeout bounce_calls markers set_timers];
    apply schedule_steps_frame.
Qed.

Lemma same_scene_make_transform_step m icons shadows step σ :
  same_scene σ (settled (make_transform_step m icons shadows step σ) σ).
Proof.
  unfold make_transform_step, on_marker.
  destruct (markers σ !! m) as [mk|]; [|done].
  destruct (icons (bouncingMotion mk)) as [ts|]; [|done].
  destruct (shadows (bouncingMotion mk)) as [ts'|]; cbn [settled].
  - eapply same_scene_trans; by apply same_scene_update.
  - by apply same_scene_update.
Qed.

Lemma same_scene_makeMoveStepNo3D m step σ :
  same_scene σ (settled (makeMoveStepNo3D m step σ) σ).
Proof.
  unfold makeMoveStepNo3D, on_marker.
  destruct (markers σ !! m) as [mk|]; [|done]. cbv zeta.
  assert (∀ icon shadow σ0,
            same_scene σ0 (update_marker m (with_styles icon shadow) σ0))
    as Hstyle by (intros; by apply same_scene_update).
  destruct (iconMovePoints (bouncingMotion mk)) as [points|];
    [|apply Hstyle].
  destruct (move_point_at (js_get points) step) as [p|]; [|apply Hstyle].
  destruct (shadowMovePoints (bouncingMotion mk)) as [points'|]; cbn [settled].
  - destruct (move_point_at (point_at points') step) as [p'|]; cbn [settled].
    + do 2 (eapply same_scene_trans; [apply Hstyle|]). apply Hstyle.
    + eapply same_scene_trans; apply Hstyle.
  - eapply same_scene_trans; apply Hstyle.
Qed.

Lemma same_scene_run_callback f σ : same_scene σ (run_callback f σ).
Proof.
  destruct f as [call step|call step|call step|call|call|call];
    cbn [run_callback].
  - destruct (call_marker_of σ call); [|done].
    apply same_scene_make_transform_step.
  - destruct (call_marker_of σ call); [|done].
    apply same_scene_makeMoveStepNo3D.
  - destruct (call_marker_of σ call); [|done].
    apply same_scene_make_transform_step.
  - unfold moveEnd. destruct (bounce_calls σ !! call) as [c|]; [|done].
    destruct (call_elastic c && call_is3d c); [apply same_scene_resize|].
    by destruct (Marker_isBouncing σ (call_marker c)).
  - unfold resizeEnd. destruct (bounce_calls σ !! call) as [c|]; [|done].
    destruct (Marker_isBouncing σ (call_marker c)); [|done].
    apply same_scene_move.
  - apply same_scene_move.
Qed.

Lemma same_scene_tick σ σ' : tick σ = Some σ' → same_scene σ σ'.
Proof.
  unfold tick. destruct (timers σ) as [|t ts]; [done|]. intros [= <-].
  eapply same_scene_trans; [|apply same_scene_run_callback].
  by apply same_scene_eq.
Qed.

Lemma same_scene_run (n : nat) : ∀ σ, same_scene σ (run n σ).
Proof.
  induction n as [|n IH]; intros σ; [done|].
  cbn [run]. destruct (tick σ) as [σ'|] eqn:E; [|done].
  eapply same_scene_trans; [by apply same_scene_tick|apply IH].
Qed.

End Scene.

(** ** The flag after [bounce] *)

Section BounceAgain.

Lemma move_flag call c σ m :
  bounce_calls σ !! call = Some c →
  Marker_isBouncing (move call σ) m = Marker_isBouncing (countdown call c σ) m.
Proof.
  intros Hc. unfold move. rewrite Hc. cbv zeta. apply scheduled_flags.
Qed.

Lemma stopBouncingMarkers_loop_now queue :
  ∀ σ, now (stopBouncingMarkers_loop queue σ) = now σ.
Proof. induction queue as [|x q IH]; intros σ; [done|]. simpl. by rewrite IH. Qed.

Lemma _stopEclusifMarkerBouncing_loop_now (i : nat) :
  ∀ σ, now (_stopEclusifMarkerBouncing_loop i σ) = now σ.
Proof.
  induction i as [|i IH]; intros σ; [done|]. simpl. rewrite IH.
  destruct (bouncingMarkers σ !! i); [|done].
  by destruct (Marker_exclusif σ _).
Qed.

Lemma _addBouncingMarker_now marker excl σ :
  now (_addBouncingMarker marker excl σ) = now σ.
Proof.
  unfold _addBouncingMarker. cbv zeta. cbn [now set_bouncingMarkers].
  destruct (_ || _).
  - apply stopBouncingMarkers_loop_now.
  - apply _stopEclusifMarkerBouncing_loop_now.
Qed.

(** What [bounce] has done when it calls [move]. *)
Lemma bounce_before_move σ m mk times :
  markers σ !! m = Some mk →
  ∃ σb c,
    bounce m times σ = move (length (bounce_calls σ)) σb
    ∧ bounce_calls σb = bounce_calls σ ++ [c]
    ∧ call_marker c = m ∧ call_times c = times
    ∧ call_elastic c = elastic (bouncingOptions_of σ mk)
    ∧ call_is3d c = any3d σ
    ∧ call_bounceSpeed c = bounceSpeed (bouncingOptions_of σ mk)
    ∧ call_moveSteps c = moveSteps (bouncingMotion mk)
    ∧ call_moveDelays c = moveDelays (bouncingMotion mk)
    ∧ call_resizeSteps c = resizeSteps (bouncingMotion mk)
    ∧ call_resizeDelays c = resizeDelays (bouncingMotion mk)
    ∧ timers σb = timers σ
    ∧ now σb = now σ
    ∧ Marker_isBouncing σb m
      = negb (exclusif (bouncingOptions_of σ mk)
              && bool_decide (m ∈ bouncingMarkers σ))
    ∧ ∀ j, marker_compiled <$> markers σb !! j
           = marker_compiled <$> markers σ !! j.
Proof.
  intros Hmk. unfold bounce. rewrite Hmk. cbv zeta.
  match goal with
  | |- context [move ?call (_addBouncingMarker m ?excl ?σa)] =>
      set (σa' := σa); set (σb := _addBouncingMarker m excl σa')
  end.
  eexists σb, _. split; [done|].
  destruct (_addBouncingMarker_frame m (exclusif (bouncingOptions_of σ mk)) σa')
    as [Hcalls Htimers].
  fold σb in Hcalls, Htimers.
  split; [by rewrite Hcalls|].
  split_and!; [done..|by rewrite Htimers| | |].
  { unfold σb. by rewrite _addBouncingMarker_now. }
  2: { intros j.
       etrans;
         [apply (proj2 (same_scene__addBouncingMarker m
                          (exclusif (bouncingOptions_of σ mk)) σa') j)|].
       apply (proj2 (same_scene_update m (with_motion (with_isBouncing true))
                       (set_bounce_calls (bounce_calls σ ++ [_]) σ)
                       ltac:(done)) j). }
  assert (Marker_isBouncing σa' m = true) as Hflag.
  { unfold Marker_isBouncing, σa', update_marker.
    cbn [markers set_markers set_bounce_calls].
    by rewrite lookup_alter_eq, Hmk. }
  assert (Marker_exclusif σa' m = exclusif (bouncingOptions_of σ mk)) as Hexcl.
  { unfold Marker_exclusif, σa', update_marker.
    cbn [markers set_markers set_bounce_calls].
    by rewrite lookup_alter_eq, Hmk. }
  change (bouncingMarkers σ) with (bouncingMarkers σa').
  destruct (exclusif (bouncingOptions_of σ mk)) eqn:Hex.
  - destruct (_addBouncingMarker_exclusive σa' m true eq_refl)
      as (_ & _ & Hin & Hout).
    fold σb in Hin, Hout. case_bool_decide as Hm.
    + by rewrite Hin.
    + by rewrite Hout.
  - destruct (_addBouncingMarker_shared σa' m false) as (_ & _ & _ & Hkeep).
    { by rewrite Hexcl. }
    fold σb in Hkeep. by rewrite Hkeep.
Qed.

End BounceAgain.

(** X13: [bounce] leaves the marker bouncing unless the marker is exclusive
    and still in the registry: then [_addBouncingMarker] stops it with the
    other registered markers, after [bounce] has set its flag, and the
    animation that starts is the last one. *)
Theorem bounce_sets_isBouncing σ m mk times :
  markers σ !! m = Some mk → times ≠ Some 1 →
  Marker_isBouncing (bounce m times σ) m
  = negb (exclusif (bouncingOptions_of σ mk)
          && bool_decide (m ∈ getBouncingMarkers σ)).
Proof.
  intros Hmk Htimes.
  destruct (bounce_before_move σ m mk times Hmk)
    as (σb & c & -> & Hcalls & Hm & Ht & _ & _ & _ & _ & _ & _ & _ & _ & _
        & Hflag & _).
  assert (bounce_calls σb !! length (bounce_calls σ) = Some c) as Hc
    by (by rewrite Hcalls, lookup_app_r, Nat.sub_diag).
  rewrite (move_flag _ c) by done. rewrite countdown_flag, Ht.
  destruct times as [k|]; [|done].
  rewrite (proj2 (Z.eqb_neq (k - 1) 0)); [done|]. intros Hk. apply Htimes.
  f_equal. lia.
Qed.

Lemma bounce_sets_isBouncing_witness :
  ∃ mk,
    markers (run 100 (bounce 0 (Some 1) example_exclusif_page)) !! 0%nat
    = Some mk
    ∧ None ≠ Some 1
    ∧ Marker_isBouncing
        (bounce 0 None (run 100 (bounce 0 (Some 1) example_exclusif_page))) 0
      = negb (exclusif
                (bouncingOptions_of
                   (run 100 (bounce 0 (Some 1) example_exclusif_page)) mk)
              && bool_decide
                   (0%nat ∈ getBouncingMarkers
                              (run 100
                                 (bounce 0 (Some 1) example_exclusif_page)))).
Proof.
  eexists. split; [vm_compute; reflexivity|]. split; [done|].
  apply (bounce_sets_isBouncing
           (run 100 (bounce 0 (Some 1) example_exclusif_page)) 0 _ None);
    [vm_compute; reflexivity|done].
Defined.

(** X14: [toogleBouncing] stops a marker that bounces and starts a bounce
    without count on one that does not; the flag is the opposite of what it
    was, except for an exclusive marker that does not bounce and is still in
    the registry, which [bounce] leaves stopped. *)
Theorem toogleBouncing_flips σ m mk :
  markers σ !! m = Some mk →
  Marker_isBouncing (toogleBouncing m σ) m
  = negb (Marker_isBouncing σ m)
    && negb (exclusif (bouncingOptions_of σ mk)
             && bool_decide (m ∈ getBouncingMarkers σ)).
Proof.
  intros Hmk. unfold toogleBouncing.
  destruct (Marker_isBouncing σ m) eqn:Hflag.
  - unfold stopBouncing, _removeBouncingMarker, Marker_isBouncing at 1.
    cbn [markers set_bouncingMarkers].
    change (Marker_isBouncing (stop_marker m σ) m = false).
    rewrite stop_marker_isBouncing. by destruct (decide (m = m)).
  - destruct (bounce_before_move σ m mk None Hmk)
      as (σb & c & -> & Hcalls & _ & Ht & _ & _ & _ & _ & _ & _ & _ & _ & _
          & Hflagb & _).
    assert (bounce_calls σb !! length (bounce_calls σ) = Some c) as Hc
      by (by rewrite Hcalls, lookup_app_r, Nat.sub_diag).
    rewrite (move_flag _ c) by done. by rewrite countdown_flag, Ht.
Qed.

Lemma toogleBouncing_flips_witness :
  ∃ mk,
    markers example_marker_page !! 0%nat = Some mk
    ∧ Marker_isBouncing (toogleBouncing 0 example_marker_page) 0
      = negb (Marker_isBouncing example_marker_page 0)
        && negb (exclusif (bouncingOptions_of example_marker_page mk)
                 && bool_decide (0%nat ∈ getBouncingMarkers example_marker_page)).
Proof.
  eexists. split; [vm_compute; reflexivity|].
  apply (toogleBouncing_flips example_marker_page 0). vm_compute. reflexivity.
Defined.

(** X15: where [L.Browser.any3d] does not hold, positioning a marker raises a
    ReferenceError: [calculateIconMovePoints] reads the undeclared [dH].  The
    position is stored, the points of the movement are not. *)
Theorem _setPos_without_3d
    (Math_cos Math_sin : Q → Q) fuel m pos σ mk :
  any3d σ = false → markers σ !! m = Some mk →
  ∃ σ' mk',
    _setPos Math_cos Math_sin fuel m pos σ = Abrupt ReferenceError σ'
    ∧ markers σ' !! m = Some mk'
    ∧ motion_x (bouncingMotion mk') = pos.1
    ∧ motion_y (bouncingMotion mk') = pos.2
    ∧ iconMovePoints (bouncingMotion mk') = iconMovePoints (bouncingMotion mk)
    ∧ shadowMovePoints (bouncingMotion mk')
      = shadowMovePoints (bouncingMotion mk).
Proof.
  intros H3d Hmk. unfold _setPos.
  rewrite (update_marker_insert _ _ _ _ Hmk).
  set (mk1 := with_motion _ mk).
  set (σ1 := set_markers (<[m:=mk1]> (markers σ)) σ).
  assert (markers σ1 !! m = Some mk1) as Hmk1 by apply lookup_insert_eq.
  rewrite (_calculateTransforms_no3d Math_cos Math_sin fuel m σ1 mk1 H3d Hmk1).
  by exists σ1, mk1.
Qed.

Lemma _setPos_without_3d_witness :
  ∃ mk,
    any3d example_page_no3d = false
    ∧ markers example_page_no3d !! 0%nat = Some mk
    ∧ ∃ σ' mk',
        _setPos example_cos example_sin 20 0 (100, 200) example_page_no3d
        = Abrupt ReferenceError σ'
        ∧ markers σ' !! 0%nat = Some mk'
        ∧ motion_x (bouncingMotion mk') = (100, 200).1
        ∧ motion_y (bouncingMotion mk') = (100, 200).2
        ∧ iconMovePoints (bouncingMotion mk')
          = iconMovePoints (bouncingMotion mk)
        ∧ shadowMovePoints (bouncingMotion mk')
          = shadowMovePoints (bouncingMotion mk).
Proof.
  eexists. split; [vm_compute; reflexivity|].
  split; [vm_compute; reflexivity|].
  apply (_setPos_without_3d example_cos example_sin 20 0 (100, 200)
           example_page_no3d); vm_compute; reflexivity.
Defined.

(** X16: an animation changes nothing of a marker but its flag and its
    styles.  Whatever [bounce], [stopBouncing], [toogleBouncing] and
    [stopBouncingMarkers] do and however many timers fire, every marker keeps
    its options, its position, its timeline, its transforms, its sizes and
    its z-index. *)
Theorem animation_keeps_compiled_marker σ m times (j : nat) m' :
  marker_compiled <$> markers (bounce m times σ) !! m'
  = marker_compiled <$> markers σ !! m'
  ∧ marker_compiled <$> markers (stopBouncing m σ) !! m'
    = marker_compiled <$> markers σ !! m'
  ∧ marker_compiled <$> markers (toogleBouncing m σ) !! m'
    = marker_compiled <$> markers σ !! m'
  ∧ marker_compiled <$> markers (stopBouncingMarkers σ) !! m'
    = marker_compiled <$> markers σ !! m'
  ∧ marker_compiled <$> markers (run j σ) !! m'
    = marker_compiled <$> markers σ !! m'.
Proof.
  assert (∀ times,
            marker_compiled <$> markers (bounce m times σ) !! m'
            = marker_compiled <$> markers σ !! m') as Hbounce.
  { intros times'. destruct (markers σ !! m) as [mk|] eqn:Hmk.
    - destruct (bounce_before_move σ m mk times' Hmk)
        as (σb & c & -> & _ & _ & _ & _ & _ & _ & _ & _ & _ & _ & _ & _ & _
            & Hmarkers).
      rewrite <- Hmarkers. apply (proj2 (same_scene_move _ σb)).
    - unfold bounce. by rewrite Hmk. }
  assert (marker_compiled <$> markers (stopBouncing m σ) !! m'
          = marker_compiled <$> markers σ !! m') as Hstop
    by apply (proj2 (same_scene_stop_marker m σ)).
  split_and!; [done|done| | |].
  - unfold toogleBouncing. by destruct (Marker_isBouncing σ m).
  - apply (proj2 (same_scene_stopBouncingMarkers_loop (bouncingMarkers σ) σ)).
  - apply (proj2 (same_scene_run j σ)).
Qed.

(** ** Bounces without end *)

Section EndlessBounces.

Lemma move_calls call c σ :
  bounce_calls σ !! call = Some c →
  bounce_calls (move call σ) = bounce_calls (countdown call c σ).
Proof.
  intros Hc. unfold move. rewrite Hc. cbv zeta. apply scheduled_calls.
Qed.

Lemma move_endless call c σ :
  bounce_calls σ !! call = Some c → never_zero (call_times c) →
  (∀ m, Marker_isBouncing (move call σ) m = Marker_isBouncing σ m)
  ∧ (∀ c', bounce_calls (move call σ) !! call = Some c' →
           never_zero (call_times c'))
  ∧ (∀ j, j ≠ call → bounce_calls (move call σ) !! j = bounce_calls σ !! j).
Proof.
  intros Hc Hnever. split_and!.
  - intros m. rewrite (move_flag call c) by done. rewrite countdown_flag.
    destruct Hnever as [->|(k & -> & Hk)]; [done|].
    by rewrite (proj2 (Z.eqb_neq (k - 1) 0)) by lia.
  - intros c'. rewrite (move_calls call c) by done.
    destruct (countdown_call call c σ Hc) as (c1 & -> & _ & Htimes).
    intros [= <-]. rewrite Htimes.
    destruct Hnever as [->|(k & -> & Hk)]; [by left|].
    right. exists (k - 1). split; [done|lia].
  - intros j Hj. rewrite (move_calls call c) by done.
    by apply countdown_other.
Qed.

Lemma run_callback_endless f σ :
  (∀ c, bounce_calls σ !! callback_call f = Some c →
        never_zero (call_times c)) →
  (∀ m, Marker_isBouncing (run_callback f σ) m = Marker_isBouncing σ m)
  ∧ (∀ c', bounce_calls (run_callback f σ) !! callback_call f = Some c' →
           never_zero (call_times c'))
  ∧ (∀ j, j ≠ callback_call f →
          bounce_calls (run_callback f σ) !! j = bounce_calls σ !! j).
Proof.
  intros Hnever.
  assert (∀ σ', bounce_calls σ' = bounce_calls σ →
                (∀ m, Marker_isBouncing σ' m = Marker_isBouncing σ m) →
                (∀ m, Marker_isBouncing σ' m = Marker_isBouncing σ m)
                ∧ (∀ c', bounce_calls σ' !! callback_call f = Some c' →
                         never_zero (call_times c'))
                ∧ (∀ j, j ≠ callback_call f →
                        bounce_calls σ' !! j = bounce_calls σ !! j)) as Hsame.
  { intros σ' Hcalls Hflags. rewrite Hcalls. by split_and!. }
  destruct (continues f) eqn:Hf.
  - destruct f as [call step|call step|call step|call|call|call]; try done;
      cbn [run_callback callback_call] in *.
    + unfold moveEnd.
      destruct (bounce_calls σ !! call) as [c|] eqn:Hc; [|by apply Hsame].
      destruct (call_elastic c && call_is3d c).
      * unfold resize. rewrite Hc. cbv zeta. apply Hsame.
        -- apply scheduled_calls.
        -- intros m. apply scheduled_flags.
      * destruct (Marker_isBouncing σ (call_marker c)); by apply Hsame.
    + unfold resizeEnd.
      destruct (bounce_calls σ !! call) as [c|] eqn:Hc; [|by apply Hsame].
      destruct (Marker_isBouncing σ (call_marker c)); [|by apply Hsame].
      apply (move_endless call c); [done|by apply Hnever].
    + destruct (bounce_calls σ !! call) as [c|] eqn:Hc.
      * apply (move_endless call c); [done|by apply Hnever].
      * unfold move. rewrite Hc. by apply Hsame.
  - destruct (step_callback_same f σ Hf) as (Hcalls & _ & Hflags).
    by apply Hsame.
Qed.

Lemma tick_endless σ σ' :
  endless_bounces σ → tick σ = Some σ' →
  endless_bounces σ'
  ∧ ∀ m, Marker_isBouncing σ' m = Marker_isBouncing σ m.
Proof.
  intros Hendless. unfold tick.
  destruct (timers σ) as [|t ts] eqn:Hts; [done|]. intros [= <-].
  set (σ0 := set_now (timer_due t) (set_timers ts σ)).
  destruct (run_callback_endless (timer_callback t) σ0)
    as (Hflags & Hcall & Hother).
  { intros c Hc. apply (Hendless t c); [rewrite Hts; by left|done]. }
  split; [|done].
  intros t' c' Ht' Hc'.
  destruct (decide (callback_call (timer_callback t')
                    = callback_call (timer_callback t))) as [Heq|Hne].
  - rewrite Heq in Hc'. by apply Hcall.
  - rewrite Hother in Hc' by done.
    apply run_callback_timers in Ht' as [Ht'|Ht']; [|done].
    apply (Hendless t' c'); [rewrite Hts; by right|done].
Qed.

Lemma run_endless m (n : nat) :
  ∀ σ, endless_bounces σ → carried_on m σ →
       Marker_isBouncing σ m = true →
       Marker_isBouncing (run n σ) m = true ∧ timers (run n σ) ≠ [].
Proof.
  induction n as [|n IH]; intros σ Hendless Hcarried Hflag.
  - split; [done|]. destruct (Hcarried Hflag) as (t & _ & Ht & _).
    simpl. intros Hts. rewrite Hts in Ht. by apply elem_of_nil in Ht.
  - simpl. destruct (tick σ) as [σ'|] eqn:Htick.
    + destruct (tick_endless σ σ' Hendless Htick) as [Hendless' Hflags].
      apply IH; [done|by eapply tick_carried|by rewrite Hflags].
    + unfold tick in Htick. destruct (Hcarried Hflag) as (t & _ & Ht & _).
      destruct (timers σ); [by apply elem_of_nil in Ht|done].
Qed.

End EndlessBounces.

(** X17: a bounce started without a count, or with a count that is zero or
    negative, does not end by itself: however many timers have fired, the
    marker is bouncing and a timer is pending.  ([bounce(0)] is such a
    bounce, not one of no cycle.) *)
Theorem bounce_without_count_goes_on σ m mk times :
  markers σ !! m = Some mk →
  timers σ = [] →
  times = None ∨ (∃ n, times = Some n ∧ n ≤ 0) →
  exclusif (bouncingOptions_of σ mk) = false ∨ m ∉ getBouncingMarkers σ →
  ∀ j, Marker_isBouncing (run j (bounce m times σ)) m = true
       ∧ timers (run j (bounce m times σ)) ≠ [].
Proof.
  intros Hmk Hts Htimes Hfree j.
  destruct (bounce_before_move σ m mk times Hmk)
    as (σb & c & Hb & Hcalls & Hm & Ht & _ & _ & _ & _ & _ & _ & _ & Htsb
        & _ & Hflag & _).
  assert (bounce_calls σb !! length (bounce_calls σ) = Some c) as Hc
    by (by rewrite Hcalls, lookup_app_r, Nat.sub_diag).
  assert (never_zero (call_times c)) as Hnever by (by rewrite Ht).
  destruct (move_endless _ c σb Hc Hnever) as (Hflags & Hcall & _).
  rewrite Hb. apply run_endless.
  - intros t c' Ht' Hc'. apply move_timers in Ht' as [Ht'|Ht'].
    + rewrite Htsb, Hts in Ht'. by apply elem_of_nil in Ht'.
    + rewrite Ht' in Hc'. by apply Hcall.
  - intros _. destruct (move_continues _ _ σb Hc)
      as (t & c' & Ht' & Hcb & Hc' & Hm').
    exists t, c'. rewrite Hcb. split_and!; [done..|]. by rewrite Hm'.
  - rewrite Hflags, Hflag. unfold getBouncingMarkers in Hfree.
    destruct Hfree as [->|Hfree]; [done|].
    by rewrite bool_decide_eq_false_2, andb_false_r.
Qed.

Lemma bounce_without_count_goes_on_witness :
  ∃ mk,
    markers example_marker_page !! 0%nat = Some mk
    ∧ timers example_marker_page = []
    ∧ ∀ j, Marker_isBouncing (run j (bounce 0 (Some 0) example_marker_page)) 0
           = true
           ∧ timers (run j (bounce 0 (Some 0) example_marker_page)) ≠ [].
Proof.
  eexists. split; [vm_compute; reflexivity|]. split; [vm_compute; reflexivity|].
  eapply (bounce_without_count_goes_on example_marker_page 0 _ (Some 0));
    [vm_compute; reflexivity|vm_compute; reflexivity
    |right; exists 0; split; [done|lia]|left; vm_compute; reflexivity].
Defined.

(** ** The end of a stopped bounce *)

Section StoppedBounces.

Lemma tick_le σ σ' : tick σ = Some σ' → state_le σ' σ.
Proof.
  unfold tick. destruct (timers σ) as [|t ts]; [done|]. intros [= <-].
  eapply state_le_trans; [apply run_callback_le|]. by apply state_le_same.
Qed.

Lemma run_le (n : nat) : ∀ σ, state_le (run n σ) σ.
Proof.
  induction n as [|n IH]; intros σ; cbn [run]; [by apply state_le_same|].
  destruct (tick σ) as [σ'|] eqn:Htick; [|by apply state_le_same].
  eapply state_le_trans; [apply IH|by apply tick_le].
Qed.

End StoppedBounces.

(** X18: [stopBouncing] brings the animation of the marker to an end, not at
    once but when the timers that are pending have fired.  If every other
    marker's bounce counts down, then after [stopBouncing] the marker does
    not bounce again, however many timers fire, and after finitely many
    timers none is pending. *)
Theorem stopBouncing_ends_animation σ m :
  (∀ call c, bounce_calls σ !! call = Some c →
             call_marker c = m ∨ counts_down σ call) →
  (∀ j, Marker_isBouncing (run j (stopBouncing m σ)) m = false)
  ∧ ∃ j, timers (run j (stopBouncing m σ)) = [].
Proof.
  intros Hcalls.
  assert (Marker_isBouncing (stopBouncing m σ) m = false) as Hflag.
  { change (Marker_isBouncing (stop_marker m σ) m = false).
    rewrite stop_marker_isBouncing. by destruct (decide (m = m)). }
  split.
  - intros j. destruct (run_le j (stopBouncing m σ)) as [_ Hle].
    destruct (Marker_isBouncing (run j (stopBouncing m σ)) m) eqn:E; [|done].
    apply Hle in E. by rewrite Hflag in E.
  - exists (potential (stopBouncing m σ)). apply run_quiesces; [|done].
    intros t Ht c Hc Hbouncing.
    change (bounce_calls (stopBouncing m σ)) with (bounce_calls σ) in Hc.
    destruct (Hcalls _ c Hc) as [Hm|Hcount].
    + rewrite Hm, Hflag in Hbouncing. done.
    + apply (Hcount c Hc).
      change (Marker_isBouncing (stop_marker m σ) (call_marker c) = true)
        in Hbouncing.
      rewrite stop_marker_isBouncing in Hbouncing.
      by destruct (decide (call_marker c = m)).
Qed.

Lemma stopBouncing_ends_animation_witness :
  (∀ call c,
     bounce_calls (run 7 (bounce 0 None example_marker_page)) !! call = Some c →
     call_marker c = 0%nat
     ∨ counts_down (run 7 (bounce 0 None example_marker_page)) call)
  ∧ (∀ j,
       Marker_isBouncing
         (run j (stopBouncing 0 (run 7 (bounce 0 None example_marker_page)))) 0
       = false)
  ∧ ∃ j,
      timers
        (run j (stopBouncing 0 (run 7 (bounce 0 None example_marker_page))))
      = [].
Proof.
  assert (∀ call c,
            bounce_calls (run 7 (bounce 0 None example_marker_page)) !! call
            = Some c →
            call_marker c = 0%nat
            ∨ counts_down (run 7 (bounce 0 None example_marker_page)) call)
    as Hcalls.
  { intros call c Hc. left.
    assert (Forall (λ c, call_marker c = 0%nat)
              (bounce_calls (run 7 (bounce 0 None example_marker_page))))
      as Hall by (vm_compute; repeat constructor).
    by eapply Forall_lookup_1 in Hall. }
  split; [exact Hcalls|].
  apply (stopBouncing_ends_animation
           (run 7 (bounce 0 None example_marker_page)) 0 Hcalls).
Defined.

(** ** The order of the timers *)

Section TimersInOrder.

Lemma insert_timer_first t ts :
  Forall (λ t', timer_due t < timer_due t') ts → insert_timer t ts = t :: ts.
Proof.
  destruct ts as [|t' ts]; [done|]. intros [Ht' _]%Forall_cons. simpl.
  by rewrite (proj2 (Z.ltb_lt _ _)).
Qed.

Lemma insert_timer_last t ts :
  Forall (λ t', timer_due t' ≤ timer_due t) ts → insert_timer t ts = ts ++ [t].
Proof.
  induction ts as [|t' ts IH]; [done|]. intros [Ht' Hts]%Forall_cons. simpl.
  rewrite (proj2 (Z.ltb_ge _ _)) by done. by rewrite IH.
Qed.

Lemma schedule_steps_now mk ds ss (i : nat) :
  ∀ σ, now (schedule_steps mk ds ss i σ) = now σ.
Proof. induction i as [|i IH]; intros σ; [done|]. simpl. by rewrite IH. Qed.

Lemma schedule_steps_in_order makeStep (ds : list Z) steps (i : nat) :
  ∀ σ,
    (i ≤ length ds)%nat →
    StronglySorted Z.lt (take i ds) → Forall (Z.le 0) (take i ds) →
    Forall (λ t, ∀ d, d ∈ take i ds → now σ + d < timer_due t) (timers σ) →
    timers (schedule_steps makeStep (Num <$> ds) steps i σ)
    = step_timers makeStep (now σ) (take i ds) steps ++ timers σ.
Proof.
  induction i as [|i IH]; intros σ Hi Hsorted Hpos Hlater.
  - rewrite take_0. reflexivity.
  - destruct (lookup_lt_is_Some_2 ds i) as [d Hd]; [lia|].
    rewrite (take_S_r _ _ _ Hd) in *.
    apply StronglySorted_app in Hsorted as (Hlt & Hsorted & _).
    apply Forall_app in Hpos as [Hpos Hd0].
    rewrite Forall_singleton in Hd0.
    cbn [schedule_steps].
    set (σ1 := setTimeout _ _ σ).
    assert (timers σ1
            = Timer (now σ + d) (makeStep (steps !! i)) :: timers σ) as Hts.
    { unfold σ1, setTimeout. cbn [timers set_timers].
      rewrite list_lookup_fmap, Hd. cbn [fmap option_fmap option_map delay_ms].
      rewrite Z.max_r by done. apply insert_timer_first.
      eapply Forall_impl; [exact Hlater|]. intros t Ht. cbn [timer_due].
      apply Ht. apply elem_of_app. right. by apply list_elem_of_here. }
    rewrite IH; [|lia|done|done|].
    + rewrite Hts. unfold step_timers. rewrite imap_app.
      rewrite <- app_assoc. cbn [imap app].
      rewrite length_take_le by lia. by rewrite Nat.add_0_r.
    + rewrite Hts. constructor.
      * intros d' Hd'. cbn [timer_due].
        change (now σ1) with (now σ).
        assert (d' < d); [|lia].
        apply Hlt; [done|by apply list_elem_of_here].
      * eapply Forall_impl; [exact Hlater|]. intros t Ht d' Hd'.
        apply Ht. apply elem_of_app. by left.
Qed.

Lemma step_timers_due makeStep now ds steps :
  timer_due <$> step_timers makeStep now ds steps = (λ d, now + d) <$> ds.
Proof.
  unfold step_timers. apply list_eq. intros j.
  rewrite !list_lookup_fmap, list_lookup_imap. by destruct (ds !! j).
Qed.

Lemma step_timers_callbacks makeStep now ds steps :
  length ds = length steps →
  timer_callback <$> step_timers makeStep now ds steps
  = (makeStep ∘ Some) <$> steps.
Proof.
  intros Hlen. unfold step_timers. apply list_eq. intros j.
  rewrite !list_lookup_fmap, list_lookup_imap.
  destruct (decide (j < length ds)%nat) as [Hj|Hj].
  - destruct (lookup_lt_is_Some_2 ds j Hj) as [d ->].
    destruct (lookup_lt_is_Some_2 steps j) as [s ->]; [lia|]. done.
  - rewrite (proj2 (lookup_ge_None ds j)) by lia.
    by rewrite (proj2 (lookup_ge_None steps j)) by lia.
Qed.

Lemma phase_timers_in_order makeStep endOfPhase σ (ds : list Z) steps
    (n : nat) :
  timers σ = [] →
  (1 ≤ n ≤ length ds)%nat →
  StronglySorted Z.lt (take n ds) →
  Forall (Z.le 0) (take n ds) →
  ∃ d,
    ds !! (n - 1)%nat = Some d
    ∧ timers (setTimeout endOfPhase (num_at (Num <$> ds) (Z.of_nat n - 1))
                (schedule_steps makeStep (Num <$> ds) steps n σ))
      = step_timers makeStep (now σ) (take n ds) steps
        ++ [Timer (now σ + d) endOfPhase].
Proof.
  intros Hts Hn Hsorted Hpos.
  destruct (lookup_lt_is_Some_2 ds (n - 1)) as [d Hd]; [lia|].
  exists d. split; [done|].
  unfold setTimeout. cbn [timers set_timers].
  rewrite schedule_steps_now.
  rewrite schedule_steps_in_order; [|lia|done|done|].
  2: { rewrite Hts. constructor. }
  rewrite Hts, app_nil_r.
  unfold num_at. rewrite (proj2 (Z.ltb_ge _ _)) by lia.
  replace (Z.to_nat (Z.of_nat n - 1)) with (n - 1)%nat by lia.
  rewrite list_lookup_fmap, Hd. cbn [fmap option_fmap option_map delay_ms].
  assert (0 ≤ d) as Hd0.
  { eapply Forall_forall in Hpos; [exact Hpos|].
    apply list_elem_of_lookup. exists (n - 1)%nat.
    rewrite lookup_take_lt by lia. done. }
  rewrite Z.max_r by done.
  apply insert_timer_last. apply Forall_forall. intros t Ht.
  apply list_elem_of_lookup in Ht as [j Hj]. unfold step_timers in Hj.
  rewrite list_lookup_imap in Hj.
  destruct (take n ds !! j) as [d'|] eqn:Hd'; [|done]. injection Hj as <-.
  cbn [timer_due].
  assert (d' ≤ d); [|lia].
  pose proof (lookup_lt_Some _ _ _ Hd') as Hj. rewrite length_take in Hj.
  destruct (decide (j = n - 1)%nat) as [->|Hne].
  - rewrite lookup_take_lt in Hd' by lia. assert (d' = d) by congruence. lia.
  - assert (d' < d); [|lia].
    rewrite <- (take_drop (S j) (take n ds)) in Hsorted.
    apply StronglySorted_app in Hsorted as (Hlt & _ & _). apply Hlt.
    + apply list_elem_of_lookup. exists j. rewrite lookup_take_lt by lia. done.
    + apply list_elem_of_lookup. exists (n - 1 - S j)%nat.
      rewrite lookup_drop, lookup_take_lt by lia.
      by replace (S j + (n - 1 - S j))%nat with (n - 1)%nat by lia.
Qed.

Lemma countdown_now call c σ : now (countdown call c σ) = now σ.
Proof.
  unfold countdown. destruct (call_times c) as [k|]; [|done]. cbv zeta.
  by destruct (k - 1 =? 0).
Qed.

Lemma move_timers_in_order call c σ (ds : list Z) :
  bounce_calls σ !! call = Some c →
  timers σ = [] →
  call_moveDelays c = Num <$> ds →
  (1 ≤ length (call_moveSteps c) ≤ length ds)%nat →
  StronglySorted Z.lt (take (length (call_moveSteps c)) ds) →
  Forall (Z.le 0) (take (length (call_moveSteps c)) ds) →
  ∃ d,
    ds !! (length (call_moveSteps c) - 1)%nat = Some d
    ∧ timers (move call σ)
      = step_timers
          (if call_is3d c then MakeMoveStep call else MakeMoveStepNo3D call)
          (now σ) (take (length (call_moveSteps c)) ds) (call_moveSteps c)
        ++ [Timer (now σ + d) (MoveEnd call)].
Proof.
  intros Hc Hts Hds Hn Hsorted Hpos.
  unfold move. rewrite Hc. cbv zeta. rewrite Hds.
  rewrite <- (countdown_now call c σ).
  apply phase_timers_in_order; [|done..].
  by rewrite countdown_timers.
Qed.

Lemma resize_timers_in_order call c σ (ds : list Z) :
  bounce_calls σ !! call = Some c →
  timers σ = [] →
  call_resizeDelays c = Num <$> ds →
  (1 ≤ length (call_resizeSteps c) ≤ length ds)%nat →
  StronglySorted Z.lt (take (length (call_resizeSteps c)) ds) →
  Forall (Z.le 0) (take (length (call_resizeSteps c)) ds) →
  ∃ d,
    ds !! (length (call_resizeSteps c) - 1)%nat = Some d
    ∧ timers (resize call σ)
      = step_timers (MakeResizeStep call) (now σ)
          (take (length (call_resizeSteps c)) ds) (call_resizeSteps c)
        ++ [Timer (now σ + d) (ResizeEnd call)].
Proof.
  intros Hc Hts Hds Hn Hsorted Hpos.
  unfold resize. rewrite Hc. cbv zeta. rewrite Hds.
  by apply phase_timers_in_order.
Qed.

End TimersInOrder.

Section StrictDelays.

Lemma cumsum_take l (n : nat) :
  ∀ t, take n (cumsum t l) = cumsum t (take n l).
Proof.
  revert n. induction l as [|x l IH]; intros [|n] t; try done.
  simpl. by rewrite IH.
Qed.

Lemma cumsum_strict l :
  ∀ t, Forall (Z.le 1) l →
       StronglySorted Z.lt (cumsum t l) ∧ Forall (Z.lt t) (cumsum t l).
Proof.
  induction l as [|x l IH]; intros t Hl; simpl.
  - split; constructor.
  - inversion_clear Hl as [|? ? Hx Hl'].
    destruct (IH (t + x) Hl') as [Hsorted Hlater]. split.
    + by constructor.
    + constructor; [lia|]. eapply Forall_impl; [exact Hlater|]. simpl. lia.
Qed.

Lemma Math_round_pos (q : Q) : (1 # 2 <= q)%Q → 1 ≤ Math_round q.
Proof.
  intros Hq. unfold Math_round.
  change (Qfloor 1 ≤ Qfloor (q + (1 # 2))). apply Qfloor_resp_le. lra.
Qed.

Lemma delta_at_pos h s i :
  1 ≤ s → h ≤ 2 * s + 1 → 1 ≤ i ≤ h → 1 ≤ delta_at h s i.
Proof.
  intros Hs Hh Hi. unfold delta_at.
  destruct (Z.eqb_spec i 0); [lia|].
  destruct (Z.eqb_spec i h); [lia|].
  apply Math_round_pos. apply Qle_shift_div_l.
  - rewrite <- (Zlt_Qlt 0). lia.
  - assert (inject_Z (h - i) <= 2 * inject_Z s)%Q as Hle.
    { change 2%Q with (inject_Z 2). rewrite <- inject_Z_mult, <- Zle_Qle. lia. }
    lra.
Qed.

Lemma mirrored_deltas_pos h s (j : nat) δ :
  1 ≤ s → 1 ≤ h → h ≤ 2 * s + 1 →
  (1 ≤ j < Z.to_nat (2 * h))%nat →
  mirrored_deltas h s !! j = Some δ → 1 ≤ δ.
Proof.
  intros Hs Hh1 Hh Hj Hδ.
  assert (∀ i, 1 ≤ i ≤ h → mirrored_deltas h s !! Z.to_nat i = Some δ → 1 ≤ δ)
    as Hout.
  { intros i Hi. rewrite mirrored_deltas_lookup by lia.
    intros [= <-]. by apply delta_at_pos. }
  destruct (decide (j ≤ Z.to_nat h)%nat) as [Hle|Hgt].
  - apply (Hout (Z.of_nat j)); [lia|]. by rewrite Nat2Z.id.
  - pose proof (mirrored_deltas_length h s ltac:(lia)) as Hlen.
    rewrite <- mirrored_deltas_mirrored in Hδ by lia.
    rewrite reverse_lookup in Hδ by lia.
    apply (Hout (Z.of_nat (length (mirrored_deltas h s) - S j))); [lia|].
    by rewrite Nat2Z.id.
Qed.

Lemma delays_strict h s :
  1 ≤ s → 1 ≤ h → h ≤ 2 * s + 1 →
  StronglySorted Z.lt (take (Z.to_nat (2 * h)) (cumsum 0 (mirrored_deltas h s)))
  ∧ Forall (Z.le 0)
      (take (Z.to_nat (2 * h)) (cumsum 0 (mirrored_deltas h s))).
Proof.
  intros Hs Hh1 Hh. split.
  - rewrite cumsum_take.
    pose proof (mirrored_deltas_pos h s) as Hpos.
    pose proof (mirrored_deltas_lookup h s 0 ltac:(lia)) as H0.
    destruct (mirrored_deltas h s) as [|x l]; [done|].
    injection H0 as ->.
    destruct (Z.to_nat (2 * h)) as [|n] eqn:Hn; [lia|]. simpl.
    destruct (cumsum_strict (take n l) (0 + delta_at h s 0)) as [Hsorted Hlater].
    { apply Forall_forall. intros δ Hδ.
      apply list_elem_of_lookup in Hδ as [j Hj].
      pose proof (lookup_lt_Some _ _ _ Hj) as Hlt. rewrite length_take in Hlt.
      rewrite lookup_take_lt in Hj by lia.
      apply (Hpos (S j) δ); [done..|lia|done]. }
    by constructor.
  - apply Forall_take. apply cumsum_lower_bound.
    apply mirrored_deltas_nonneg; lia.
Qed.

End StrictDelays.

Section Compiled.

Context (Math_cos Math_sin : Q → Q) (Math_PI : Q).

(** The marker and the page after [setBouncingOptions]. *)
Lemma setBouncingOptions_compiled fuel m options σ mk :
  any3d σ = true →
  markers σ !! m = Some mk →
  cache_ok (bouncingMotionsCache σ) →
  1 ≤ bounceHeight (merge_options options (default_bouncingOptions σ)) →
  1 ≤ contractHeight (merge_options options (default_bouncingOptions σ)) →
  (Z.to_nat (bounceHeight (merge_options options (default_bouncingOptions σ)))
   + 1 < fuel)%nat →
  (Z.to_nat (contractHeight (merge_options options (default_bouncingOptions σ)))
   + 1 < fuel)%nat →
  ∃ σ' mk' p,
    setBouncingOptions Math_cos Math_sin fuel m options σ = Normal σ'
    ∧ markers σ' !! m = Some mk'
    ∧ bouncingOptions_of σ' mk'
      = merge_options options (default_bouncingOptions σ)
    ∧ bouncingMotion mk'
      = transforms_of
          (Some <$>
             (icon_move_transform (motion_x (bouncingMotion mk))
                (motion_y (bouncingMotion mk))
              <$> seqZ 0
                    (bounceHeight
                       (merge_options options (default_bouncingOptions σ))
                     + 1)))
          (Some <$>
             (icon_resize_transform (motion_x (bouncingMotion mk))
                (motion_y (bouncingMotion mk)) (snd (iconSize mk))
              <$> seqZ 0
                    (contractHeight
                       (merge_options options (default_bouncingOptions σ))
                     + 1)))
          (Some <$> (shadow_move_transform <$> p))
          (Some <$>
             (icon_resize_transform (motion_x (bouncingMotion mk))
                (motion_y (bouncingMotion mk)) (snd (shadowSize mk))
              <$> seqZ 0
                    (contractHeight
                       (merge_options options (default_bouncingOptions σ))
                     + 1)))
          (timeline_of (merge_options options (default_bouncingOptions σ))
             (bouncingMotion mk))
    ∧ Z.of_nat (length p)
      = bounceHeight (merge_options options (default_bouncingOptions σ)) + 1
    ∧ p !! 0%nat
      = Some (motion_x (bouncingMotion mk), motion_y (bouncingMotion mk))
    ∧ zIndex mk' = zIndex mk
    ∧ icon_style mk' = icon_style mk ∧ shadow_style mk' = shadow_style mk
    ∧ (∀ j, j ≠ m → markers σ' !! j = markers σ !! j)
    ∧ timers σ' = timers σ ∧ now σ' = now σ
    ∧ bounce_calls σ' = bounce_calls σ
    ∧ bouncingMarkers σ' = bouncingMarkers σ
    ∧ any3d σ' = any3d σ.
Proof.
  intros H3d Hmk Hc Hbh Hch Hfb Hfc.
  set (o := merge_options options (default_bouncingOptions σ)) in *.
  unfold setBouncingOptions, on_marker. rewrite Hmk. fold o.
  rewrite (update_marker_insert _ _ _ _ Hmk).
  set (mk1 := with_own_bouncingOptions o mk).
  set (σ1 := set_markers (<[m:=mk1]> (markers σ)) σ).
  assert (markers σ1 !! m = Some mk1) as Hmk1 by apply lookup_insert_eq.
  pose proof (_calculateTimeline_returns fuel m σ1 mk1 Hmk1 Hc) as Ht.
  change (bouncingOptions_of σ1 mk1) with o in Ht.
  destruct Ht as (c & Hc' & ->); [done|done|lia|lia|].
  cbn [and_then].
  set (mk2 := with_motion _ mk1).
  set (σ2 := set_markers _ (set_bouncingMotionsCache c σ1)).
  assert (markers σ2 !! m = Some mk2) as Hmk2 by apply lookup_insert_eq.
  pose proof (_calculateTransforms_3d_slots Math_cos Math_sin fuel m σ2 mk2
                H3d Hmk2) as Ht.
  change (bouncingOptions_of σ2 mk2) with o in Ht.
  destruct Ht as (p & Hlen & Hp0 & ->); [lia..|].
  eexists _, _, p. split; [done|].
  split; [apply lookup_insert_eq|]. split_and!; try done.
  intros j Hj. unfold σ2, σ1.
  cbn [markers set_markers set_bouncingMotionsCache].
  by rewrite !lookup_insert_ne.
Qed.

End Compiled.

(** X19: the timers of a bounce fire in the order of the timeline.  For a
    marker whose options were set with a bounce speed of at least 1 and a
    bounce height of at most twice the speed plus 1 (the defaults are such),
    [bounce] leaves [2 * bounceHeight + 1] timers pending: the timer [i] is
    the step [moveSteps[i]], due after [moveDelays[i]], and the last one is
    the end of the movement, due with the last step. *)
Theorem bounce_timers_follow_timeline
    (Math_cos Math_sin : Q → Q) fuel m options times σ mk :
  any3d σ = true →
  markers σ !! m = Some mk →
  cache_ok (bouncingMotionsCache σ) →
  timers σ = [] →
  1 ≤ bounceHeight (merge_options options (default_bouncingOptions σ)) →
  1 ≤ contractHeight (merge_options options (default_bouncingOptions σ)) →
  1 ≤ bounceSpeed (merge_options options (default_bouncingOptions σ)) →
  bounceHeight (merge_options options (default_bouncingOptions σ))
  ≤ 2 * bounceSpeed (merge_options options (default_bouncingOptions σ)) + 1 →
  (Z.to_nat (bounceHeight (merge_options options (default_bouncingOptions σ)))
   + 1 < fuel)%nat →
  (Z.to_nat (contractHeight (merge_options options (default_bouncingOptions σ)))
   + 1 < fuel)%nat →
  ∃ σ' mk',
    setBouncingOptions Math_cos Math_sin fuel m options σ = Normal σ'
    ∧ markers σ' !! m = Some mk'
    ∧ Z.of_nat (length (timers (bounce m times σ')))
      = 2 * bounceHeight (merge_options options (default_bouncingOptions σ)) + 1
    ∧ (∀ (i : nat) step,
         moveSteps (bouncingMotion mk') !! i = Some step →
         ∃ d, moveDelays (bouncingMotion mk') !! i = Some (Num d)
              ∧ timers (bounce m times σ') !! i
                = Some (Timer (now σ' + d)
                          (MakeMoveStep (length (bounce_calls σ'))
                             (Some step))))
    ∧ ∃ d,
        moveDelays (bouncingMotion mk')
        !! (length (moveSteps (bouncingMotion mk')) - 1)%nat = Some (Num d)
        ∧ last (timers (bounce m times σ'))
          = Some (Timer (now σ' + d) (MoveEnd (length (bounce_calls σ')))).
Proof.
  intros H3d Hmk Hc Hts Hbh Hch Hs Hhs Hfb Hfc.
  destruct (setBouncingOptions_compiled Math_cos Math_sin fuel m options σ mk
              H3d Hmk Hc Hbh Hch Hfb Hfc)
    as (σ' & mk' & p & Hσ' & Hmk' & _ & Hmo & _ & _ & _ & _ & _ & _ & Hts'
        & Hnow
        & Hcalls & _ & H3d').
  set (o := merge_options options (default_bouncingOptions σ)) in *.
  set (h := bounceHeight o) in *. set (s := bounceSpeed o) in *.
  assert (moveSteps (bouncingMotion mk') = steps_seq h) as Hsteps
    by (by rewrite Hmo).
  assert (moveDelays (bouncingMotion mk') = delays_seq h s) as Hdelays
    by (by rewrite Hmo).
  exists σ', mk'. split; [done|]. split; [done|].
  rewrite Hnow, Hcalls.
  destruct (bounce_before_move σ' m mk' times Hmk')
    as (σb & c & -> & Hcb & _ & _ & _ & Hc3d & _ & Hcs & Hcd & _ & _ & Htsb
        & Hnowb & _).
  rewrite Hcalls in *. rewrite Hsteps in Hcs. rewrite Hdelays in Hcd.
  assert (bounce_calls σb !! length (bounce_calls σ) = Some c) as Hcall
    by (by rewrite Hcb, lookup_app_r, Nat.sub_diag).
  assert (length (steps_seq h) = Z.to_nat (2 * h)) as Hlen.
  { unfold steps_seq.
    rewrite length_fmap, length_app, length_reverse, !length_seqZ. lia. }
  destruct (delays_strict h s Hs Hbh Hhs) as [Hsorted Hpos].
  destruct (move_timers_in_order (length (bounce_calls σ)) c σb
              (cumsum 0 (mirrored_deltas h s)) Hcall)
    as (d & Hd & Htimers).
  { by rewrite Htsb, Hts'. }
  { done. }
  { rewrite Hcs, Hlen, cumsum_length.
    pose proof (mirrored_deltas_length h s ltac:(lia)). lia. }
  { by rewrite Hcs, Hlen. }
  { by rewrite Hcs, Hlen. }
  rewrite Hcs, Hlen, Hc3d, H3d', H3d, Hnowb, Hnow in Htimers.
  rewrite Hcs, Hlen in Hd.
  rewrite Htimers, Hsteps, Hdelays, Hlen. unfold delays_seq.
  assert (length (take (Z.to_nat (2 * h)) (cumsum 0 (mirrored_deltas h s)))
          = Z.to_nat (2 * h)) as Hlen'.
  { rewrite length_take, cumsum_length.
    pose proof (mirrored_deltas_length h s ltac:(lia)). lia. }
  split_and!.
  - rewrite length_app. unfold step_timers. rewrite length_imap, Hlen'.
    simpl. lia.
  - intros i step Hstep.
    pose proof (lookup_lt_Some _ _ _ Hstep) as Hi. rewrite Hlen in Hi.
    destruct (lookup_lt_is_Some_2
                (take (Z.to_nat (2 * h)) (cumsum 0 (mirrored_deltas h s))) i)
      as [di Hdi]; [lia|].
    exists di. split.
    + rewrite list_lookup_fmap.
      rewrite lookup_take_lt in Hdi by lia. by rewrite Hdi.
    + rewrite lookup_app_l
        by (unfold step_timers; rewrite length_imap; lia).
      unfold step_timers. rewrite list_lookup_imap, Hdi. simpl.
      by rewrite Hstep.
  - exists d. split; [by rewrite list_lookup_fmap, Hd|].
    by rewrite last_snoc.
Qed.

Lemma bounce_timers_follow_timeline_witness :
  ∃ mk,
    any3d example_marker_page = true
    ∧ markers example_marker_page !! 0%nat = Some mk
    ∧ cache_ok (bouncingMotionsCache example_marker_page)
    ∧ timers example_marker_page = []
    ∧ ∃ σ' mk',
        setBouncingOptions example_cos example_sin 20 0 example_exclusif
          example_marker_page = Normal σ'
        ∧ markers σ' !! 0%nat = Some mk'
        ∧ Z.of_nat (length (timers (bounce 0 (Some 1) σ')))
          = 2 * bounceHeight
                  (merge_options example_exclusif
                     (default_bouncingOptions example_marker_page)) + 1
        ∧ (∀ (i : nat) step,
             moveSteps (bouncingMotion mk') !! i = Some step →
             ∃ d, moveDelays (bouncingMotion mk') !! i = Some (Num d)
                  ∧ timers (bounce 0 (Some 1) σ') !! i
                    = Some (Timer (now σ' + d)
                              (MakeMoveStep (length (bounce_calls σ'))
                                 (Some step))))
        ∧ ∃ d,
            moveDelays (bouncingMotion mk')
            !! (length (moveSteps (bouncingMotion mk')) - 1)%nat
            = Some (Num d)
            ∧ last (timers (bounce 0 (Some 1) σ'))
              = Some (Timer (now σ' + d)
                        (MoveEnd (length (bounce_calls σ')))).
Proof.
  eexists. split; [vm_compute; reflexivity|].
  split; [vm_compute; reflexivity|].
  split; [apply example_marker_page_cache_ok|].
  split; [vm_compute; reflexivity|].
  eapply (bounce_timers_follow_timeline example_cos example_sin 20 0
            example_exclusif (Some 1) example_marker_page);
    [vm_compute; reflexivity|vm_compute; reflexivity
    |apply example_marker_page_cache_ok|vm_compute; reflexivity
    |by vm_compute|by vm_compute|by vm_compute|by vm_compute
    |vm_compute; lia|vm_compute; lia].
Defined.

(** ** The last frame of a bounce *)

Section RunningSteps.

Lemma run_add (a b : nat) : ∀ σ, run (a + b) σ = run b (run a σ).
Proof.
  induction a as [|a IH]; intros σ; [done|].
  cbn [Nat.add run]. destruct (tick σ) as [σ'|] eqn:E; [apply IH|].
  destruct b as [|b]; [done|]. cbn [run]. by rewrite E.
Qed.

Lemma in_scene_same call m C M σ σ' :
  same_scene σ σ' → in_scene call m C M σ → in_scene call m C M σ'.
Proof. intros [Hc Hm] [HC HM]. split; by rewrite ?Hc, ?Hm. Qed.

(** The timers of the steps of a phase fire: the marker shows the frame of
    the last one. *)
Lemma run_step_timers (makeStep : option jsnum → callback) icons shadows
    call m ti tsh :
  (∀ step σ,
     run_callback (makeStep step) σ
     = match call_marker_of σ call with
       | Some m => settled (make_transform_step m icons shadows step σ) σ
       | None => σ
       end) →
  (∀ a b, makeStep a = makeStep b → a = b) →
  ∀ l σ mk rest,
    Forall (λ t, ∃ step, timer_callback t = makeStep step) l →
    timers σ = l ++ rest →
    call_marker_of σ call = Some m →
    markers σ !! m = Some mk →
    icons (bouncingMotion mk) = Some ti →
    shadows (bouncingMotion mk) = Some tsh →
    ∃ mk',
      timers (run (length l) σ) = rest
      ∧ bounce_calls (run (length l) σ) = bounce_calls σ
      ∧ markers (run (length l) σ) !! m = Some mk'
      ∧ bouncingMotion mk' = bouncingMotion mk
      ∧ zIndex mk' = zIndex mk
      ∧ ∀ t step,
          last l = Some t → timer_callback t = makeStep step →
          icon_style mk'
          = Css (Some (zIndex mk)) (Some (transform_at ti step)) None
          ∧ shadow_style mk' = Css None (Some (transform_at tsh step)) None.
Proof.
  intros Hrun Hinj.
  induction l as [|t l IH]; intros σ mk rest Hl Hts Hcall Hmk Hi Hs.
  - exists mk. cbn. split_and!; done.
  - apply Forall_cons in Hl as [[step0 Hstep0] Hl].
    cbn [length run]. unfold tick. rewrite Hts. cbn [app].
    rewrite Hstep0, Hrun.
    set (σ0 := set_now _ (set_timers _ σ)).
    change (call_marker_of σ0 call) with (call_marker_of σ call).
    rewrite Hcall. unfold make_transform_step, on_marker.
    change (markers σ0) with (markers σ). rewrite Hmk, Hi, Hs. cbn [settled].
    set (icon := Css _ _ _). set (shadow := Css None _ None).
    set (σ1 := update_marker m (with_styles icon shadow) _).
    set (mk1 := with_styles icon shadow (with_styles icon (shadow_style mk) mk)).
    assert (markers σ1 !! m = Some mk1) as Hmk1.
    { unfold σ1, update_marker. cbn [markers set_markers].
      rewrite !lookup_alter_eq. change (markers σ0) with (markers σ).
      by rewrite Hmk. }
    destruct (IH σ1 mk1 rest Hl) as (mk' & Ht' & Hc' & Hmk' & Hmo & Hz & Hlast);
      [done..|].
    exists mk'. split_and!; [done..|].
    intros t' step Hlast' Hcb. destruct l as [|t2 l'].
    + cbn in Hlast'. injection Hlast' as <-.
      rewrite Hstep0 in Hcb. apply Hinj in Hcb as <-.
      cbn [length run] in Hmk'. rewrite Hmk1 in Hmk'. by injection Hmk' as <-.
    + apply (Hlast t' step); done.
Qed.

Lemma last_step_timers makeStep t0 ds steps d :
  last ds = Some d →
  last (step_timers makeStep t0 ds steps)
  = Some (Timer (t0 + d) (makeStep (steps !! (length ds - 1)%nat))).
Proof.
  intros Hd. rewrite last_lookup in Hd. rewrite last_lookup.
  unfold step_timers. rewrite length_imap, list_lookup_imap.
  replace (Init.Nat.pred (length ds)) with (length ds - 1)%nat in * by lia.
  by rewrite Hd.
Qed.

Lemma step_timers_callbacks_are makeStep t0 ds steps :
  Forall (λ t, ∃ step, timer_callback t = makeStep step)
    (step_timers makeStep t0 ds steps).
Proof.
  apply Forall_forall. intros t Ht.
  apply list_elem_of_lookup in Ht as [j Hj]. unfold step_timers in Hj.
  rewrite list_lookup_imap in Hj. destruct (ds !! j) as [d|]; [|done].
  injection Hj as <-. by eexists.
Qed.

Lemma steps_seq_length h : 0 ≤ h → length (steps_seq h) = Z.to_nat (2 * h).
Proof.
  intros Hh. unfold steps_seq.
  rewrite length_fmap, length_app, length_reverse, !length_seqZ. lia.
Qed.

Lemma steps_seq_last h :
  1 ≤ h → steps_seq h !! (Z.to_nat (2 * h) - 1)%nat = Some (Num 0).
Proof.
  intros Hh. unfold steps_seq. rewrite list_lookup_fmap.
  rewrite lookup_app_r by (rewrite length_seqZ; lia).
  rewrite length_seqZ.
  rewrite reverse_lookup by (rewrite length_seqZ; lia).
  rewrite length_seqZ.
  replace (Z.to_nat h - S (Z.to_nat (2 * h) - 1 - Z.to_nat h))%nat
    with 0%nat by lia.
  rewrite lookup_seqZ_lt by lia. done.
Qed.

End RunningSteps.

Section RestFrame.

Variables (call m : nat) (C : BounceCall) (M : Marker).
Variables (h s hc sc : Z) (im ir sm sr : jsarray matrix3d).

Hypothesis HCm : call_marker C = m.
Hypothesis HC3 : call_is3d C = true.
Hypothesis HCms : call_moveSteps C = steps_seq h.
Hypothesis HCmd : call_moveDelays C = delays_seq h s.
Hypothesis HCrs : call_resizeSteps C = steps_seq hc.
Hypothesis HCrd : call_resizeDelays C = delays_seq hc sc.
Hypothesis HMim : iconMoveTransforms (bouncingMotion M) = Some im.
Hypothesis HMir : iconResizeTransforms (bouncingMotion M) = Some ir.
Hypothesis HMsm : shadowMoveTransforms (bouncingMotion M) = Some sm.
Hypothesis HMsr : shadowResizeTransforms (bouncingMotion M) = Some sr.
Hypothesis Hh : 1 ≤ h.
Hypothesis Hs : 1 ≤ s.
Hypothesis Hhs : h ≤ 2 * s + 1.
Hypothesis Hel :
  call_elastic C = true → 1 ≤ hc ∧ 1 ≤ sc ∧ hc ≤ 2 * sc + 1.

Lemma in_scene_call σ c :
  in_scene call m C M σ → bounce_calls σ !! call = Some c →
  call_timeline c = C.
Proof. intros [HC _] Hc. rewrite Hc in HC. by injection HC. Qed.

Lemma in_scene_has_call σ :
  in_scene call m C M σ → ∃ c, bounce_calls σ !! call = Some c.
Proof.
  intros [HC _]. destruct (bounce_calls σ !! call) as [c|]; [|done].
  by exists c.
Qed.

Lemma in_scene_marker σ :
  in_scene call m C M σ →
  ∃ mk, markers σ !! m = Some mk ∧ marker_compiled mk = M.
Proof.
  intros [_ HM]. destruct (markers σ !! m) as [mk|]; [|done].
  exists mk. split; [done|]. by injection HM.
Qed.

Lemma in_scene_call_marker σ :
  in_scene call m C M σ → call_marker_of σ call = Some m.
Proof.
  intros Hσ. destruct (in_scene_has_call σ Hσ) as [c Hc].
  pose proof (in_scene_call σ c Hσ Hc) as HcC.
  unfold call_marker_of. rewrite Hc. cbn. f_equal.
  rewrite <- HCm, <- HcC. done.
Qed.

Lemma steps_phase (makeStep : option jsnum → callback) icons shadows
    ti tsh t0 ds steps rest σ1 :
  (∀ step σ,
     run_callback (makeStep step) σ
     = match call_marker_of σ call with
       | Some m => settled (make_transform_step m icons shadows step σ) σ
       | None => σ
       end) →
  (∀ a b, makeStep a = makeStep b → a = b) →
  (∀ mk, icons (bouncingMotion (marker_compiled mk))
         = icons (bouncingMotion mk)) →
  (∀ mk, shadows (bouncingMotion (marker_compiled mk))
         = shadows (bouncingMotion mk)) →
  icons (bouncingMotion M) = Some ti →
  shadows (bouncingMotion M) = Some tsh →
  in_scene call m C M σ1 →
  timers σ1 = step_timers makeStep t0 ds steps ++ rest →
  ds ≠ [] →
  timers (run (length ds) σ1) = rest
  ∧ bounce_calls (run (length ds) σ1) = bounce_calls σ1
  ∧ in_scene call m C M (run (length ds) σ1)
  ∧ Marker_isBouncing (run (length ds) σ1) m = Marker_isBouncing σ1 m
  ∧ shows m (zIndex M)
      (transform_at ti (steps !! (length ds - 1)%nat))
      (transform_at tsh (steps !! (length ds - 1)%nat))
      (run (length ds) σ1).
Proof.
  intros Hrun Hinj Hicons Hshadows Hti Htsh Hσ1 Hts Hds.
  destruct (in_scene_marker σ1 Hσ1) as (mk & Hmk & HmkM).
  assert (length (step_timers makeStep t0 ds steps) = length ds) as Hlen
    by (unfold step_timers; by rewrite length_imap).
  destruct (run_step_timers makeStep icons shadows call m ti tsh Hrun Hinj
              (step_timers makeStep t0 ds steps) σ1 mk rest)
    as (mk' & Ht' & Hc' & Hmk' & Hmo & Hz & Hlast).
  { apply step_timers_callbacks_are. }
  { done. }
  { by apply in_scene_call_marker. }
  { done. }
  { by rewrite <- Hicons, HmkM. }
  { by rewrite <- Hshadows, HmkM. }
  rewrite Hlen in *.
  split_and!; [done|done| | |].
  - eapply in_scene_same; [apply same_scene_run|done].
  - unfold Marker_isBouncing. by rewrite Hmk', Hmk, Hmo.
  - destruct (last ds) as [d|] eqn:Hd.
    2: { apply last_None in Hd. done. }
    destruct (Hlast _ (steps !! (length ds - 1)%nat)
                (last_step_timers makeStep t0 ds steps d Hd) eq_refl)
      as [Hicon Hshadow].
    exists mk'. split; [done|].
    assert (zIndex mk = zIndex M) as <- by (by rewrite <- HmkM).
    done.
Qed.

Lemma delays_of h' s' :
  1 ≤ s' → 1 ≤ h' → h' ≤ 2 * s' + 1 →
  (1 ≤ length (steps_seq h') ≤ length (cumsum 0 (mirrored_deltas h' s')))%nat
  ∧ StronglySorted Z.lt
      (take (length (steps_seq h')) (cumsum 0 (mirrored_deltas h' s')))
  ∧ Forall (Z.le 0)
      (take (length (steps_seq h')) (cumsum 0 (mirrored_deltas h' s')))
  ∧ length (take (length (steps_seq h')) (cumsum 0 (mirrored_deltas h' s')))
    = Z.to_nat (2 * h')
  ∧ steps_seq h' !! (Z.to_nat (2 * h') - 1)%nat = Some (Num 0).
Proof.
  intros Hs' Hh' Hhs'.
  destruct (delays_strict h' s' Hs' Hh' Hhs') as [Hsorted Hpos].
  pose proof (mirrored_deltas_length h' s' ltac:(lia)) as Hlen.
  rewrite steps_seq_length by lia.
  split; [rewrite cumsum_length; lia|]. split; [done|]. split; [done|].
  split; [|by apply steps_seq_last].
  rewrite length_take, cumsum_length. lia.
Qed.

(** The movement, up to its end. *)
Lemma move_phase σ c :
  in_scene call m C M σ → timers σ = [] →
  bounce_calls σ !! call = Some c →
  ∃ t,
    timers (run (Z.to_nat (2 * h)) (move call σ)) = [Timer t (MoveEnd call)]
    ∧ bounce_calls (run (Z.to_nat (2 * h)) (move call σ))
      = bounce_calls (move call σ)
    ∧ in_scene call m C M (run (Z.to_nat (2 * h)) (move call σ))
    ∧ Marker_isBouncing (run (Z.to_nat (2 * h)) (move call σ)) m
      = Marker_isBouncing (move call σ) m
    ∧ shows m (zIndex M)
        (transform_at im (Some (Num 0))) (transform_at sm (Some (Num 0)))
        (run (Z.to_nat (2 * h)) (move call σ)).
Proof.
  intros Hσ Hts Hc.
  pose proof (in_scene_call σ c Hσ Hc) as HcC.
  assert (call_moveSteps c = steps_seq h) as Hsteps
    by (by rewrite <- HCms, <- HcC).
  assert (call_moveDelays c = delays_seq h s) as Hdelays
    by (by rewrite <- HCmd, <- HcC).
  assert (call_is3d c = true) as H3d by (by rewrite <- HC3, <- HcC).
  destruct (delays_of h s Hs Hh Hhs) as (Hn & Hsorted & Hpos & Hlen & Hlast).
  destruct (move_timers_in_order call c σ (cumsum 0 (mirrored_deltas h s)) Hc
              Hts Hdelays)
    as (d & Hd & Htimers); [by rewrite Hsteps..|].
  rewrite Hsteps, H3d in Htimers.
  set (ds := take (length (steps_seq h)) (cumsum 0 (mirrored_deltas h s))) in *.
  exists (now σ + d). rewrite <- Hlast, <- Hlen.
  apply (steps_phase (MakeMoveStep call) iconMoveTransforms
           shadowMoveTransforms im sm (now σ) ds (steps_seq h)
           [Timer (now σ + d) (MoveEnd call)] (move call σ));
    [done|by intros a b [= ->]|done|done|done|done| |done|].
  - eapply in_scene_same; [apply same_scene_move|done].
  - intros E. rewrite E in Hlen. cbn in Hlen. lia.
Qed.

(** The contraction, up to its end. *)
Lemma resize_phase σ c :
  call_elastic C = true →
  in_scene call m C M σ → timers σ = [] →
  bounce_calls σ !! call = Some c →
  ∃ t,
    timers (run (Z.to_nat (2 * hc)) (resize call σ))
    = [Timer t (ResizeEnd call)]
    ∧ bounce_calls (run (Z.to_nat (2 * hc)) (resize call σ)) = bounce_calls σ
    ∧ in_scene call m C M (run (Z.to_nat (2 * hc)) (resize call σ))
    ∧ Marker_isBouncing (run (Z.to_nat (2 * hc)) (resize call σ)) m
      = Marker_isBouncing σ m
    ∧ shows m (zIndex M)
        (transform_at ir (Some (Num 0))) (transform_at sr (Some (Num 0)))
        (run (Z.to_nat (2 * hc)) (resize call σ)).
Proof.
  intros He Hσ Hts Hc. destruct (Hel He) as (Hhc & Hsc & Hhsc).
  pose proof (in_scene_call σ c Hσ Hc) as HcC.
  assert (call_resizeSteps c = steps_seq hc) as Hsteps
    by (by rewrite <- HCrs, <- HcC).
  assert (call_resizeDelays c = delays_seq hc sc) as Hdelays
    by (by rewrite <- HCrd, <- HcC).
  destruct (delays_of hc sc Hsc Hhc Hhsc)
    as (Hn & Hsorted & Hpos & Hlen & Hlast).
  destruct (resize_timers_in_order call c σ (cumsum 0 (mirrored_deltas hc sc))
              Hc Hts Hdelays)
    as (d & Hd & Htimers); [by rewrite Hsteps..|].
  rewrite Hsteps in Htimers.
  set (ds := take (length (steps_seq hc)) (cumsum 0 (mirrored_deltas hc sc)))
    in *.
  assert (bounce_calls (resize call σ) = bounce_calls σ
          ∧ markers (resize call σ) = markers σ) as [Hcalls Hmarkers].
  { unfold resize. rewrite Hc. cbv zeta.
    cbn [setTimeout bounce_calls markers set_timers].
    apply schedule_steps_frame. }
  exists (now σ + d). rewrite <- Hlast, <- Hlen, <- Hcalls.
  replace (Marker_isBouncing σ m) with (Marker_isBouncing (resize call σ) m)
    by (unfold Marker_isBouncing; by rewrite Hmarkers).
  apply (steps_phase (MakeResizeStep call) iconResizeTransforms
           shadowResizeTransforms ir sr (now σ) ds (steps_seq hc)
           [Timer (now σ + d) (ResizeEnd call)] (resize call σ));
    [done|by intros a b [= ->]|done|done|done|done| |done|].
  - eapply in_scene_same; [apply same_scene_resize|done].
  - intros E. rewrite E in Hlen. cbn in Hlen. lia.
Qed.

Lemma run_end_of_phase σ t f :
  timers σ = [Timer t f] →
  run 1 σ = run_callback f (set_now t (set_timers [] σ)).
Proof. intros Hts. cbn [run]. unfold tick. by rewrite Hts. Qed.

(** One cycle of the animation: it is the last one and leaves the marker at
    rest, or it ends in the next call of [move]. *)
Lemma bounce_cycle σ c (k : nat) :
  in_scene call m C M σ → timers σ = [] →
  bounce_calls σ !! call = Some c → call_times c = Some (Z.of_nat (S k)) →
  ∃ j,
    (timers (run j (move call σ)) = []
     ∧ Marker_isBouncing (run j (move call σ)) m = false
     ∧ shows m (zIndex M)
         (transform_at (if call_elastic C then ir else im) (Some (Num 0)))
         (transform_at (if call_elastic C then sr else sm) (Some (Num 0)))
         (run j (move call σ)))
    ∨ ∃ σ' c' k',
        k = S k' ∧ run j (move call σ) = move call σ'
        ∧ in_scene call m C M σ' ∧ timers σ' = []
        ∧ bounce_calls σ' !! call = Some c'
        ∧ call_times c' = Some (Z.of_nat k).
Proof.
  intros Hσ Hts Hc Htimes.
  destruct (move_phase σ c Hσ Hts Hc)
    as (t & Hts2 & Hcalls2 & Hσ2 & Hflag2 & Hshows2).
  set (σ1 := move call σ) in *.
  set (σ2 := run (Z.to_nat (2 * h)) σ1) in *.
  pose proof (in_scene_call σ c Hσ Hc) as HcC.
  assert (call_marker c = m) as Hcm by (by rewrite <- HCm, <- HcC).
  assert (∃ c1, bounce_calls σ1 !! call = Some c1
                ∧ call_times c1 = Some (Z.of_nat k)) as (c1 & Hc1 & Htimes1).
  { unfold σ1. rewrite (move_calls call c σ Hc).
    destruct (countdown_call call c σ Hc) as (c1 & Hc1 & _ & Htimes1).
    exists c1. split; [done|]. rewrite Htimes1, Htimes. cbn. f_equal. lia. }
  assert (Marker_isBouncing σ1 m
          = if Z.of_nat k =? 0 then false else Marker_isBouncing σ m)
    as Hflag1.
  { unfold σ1. rewrite (move_flag call c σ m Hc), countdown_flag, Htimes.
    rewrite Hcm, bool_decide_eq_true_2 by done.
    replace (Z.of_nat (S k) - 1) with (Z.of_nat k) by lia.
    by destruct (Z.of_nat k =? 0). }
  assert (call_timeline c1 = C) as Hc1C.
  { apply (in_scene_call σ2); [done|]. by rewrite Hcalls2. }
  assert (call_marker c1 = m) as Hc1m by (by rewrite <- HCm, <- Hc1C).
  assert (call_elastic c1 = call_elastic C) as Hc1e by (by rewrite <- Hc1C).
  assert (call_is3d c1 = true) as Hc13 by (by rewrite <- HC3, <- Hc1C).
  set (σ2' := set_now t (set_timers [] σ2)).
  assert (run 1 σ2 = moveEnd call σ2') as Hend2
    by exact (run_end_of_phase σ2 t (MoveEnd call) Hts2).
  assert (bounce_calls σ2' !! call = Some c1) as Hc2'
    by (change (bounce_calls σ2') with (bounce_calls σ2); by rewrite Hcalls2).
  assert (Marker_isBouncing σ2' m = Marker_isBouncing σ1 m) as Hflag2'
    by exact Hflag2.
  unfold moveEnd in Hend2. rewrite Hc2', Hc1e, Hc13, Hc1m, Hflag2' in Hend2.
  destruct (decide (call_elastic C = true)) as [He|He%not_true_is_false];
    rewrite He in Hend2 |- *; cbn [andb] in Hend2.
  - destruct (resize_phase σ2' c1 He) as (t' & Hts4 & Hcalls4 & Hσ4
                                                & Hflag4 & Hshows4);
      [exact Hσ2|done|done|].
    set (σ4 := run (Z.to_nat (2 * hc)) (resize call σ2')) in *.
    set (σ4' := set_now t' (set_timers [] σ4)).
    assert (run 1 σ4 = resizeEnd call σ4') as Hend4
      by exact (run_end_of_phase σ4 t' (ResizeEnd call) Hts4).
    assert (bounce_calls σ4' !! call = Some c1) as Hc4'
      by (change (bounce_calls σ4') with (bounce_calls σ4);
          by rewrite Hcalls4).
    assert (Marker_isBouncing σ4' m = Marker_isBouncing σ1 m) as Hflag4'.
    { change (Marker_isBouncing σ4' m) with (Marker_isBouncing σ4 m).
      by rewrite Hflag4. }
    unfold resizeEnd in Hend4. rewrite Hc4', Hc1m, Hflag4' in Hend4.
    exists (Z.to_nat (2 * h) + (1 + (Z.to_nat (2 * hc) + 1)))%nat.
    rewrite !run_add. fold σ2. rewrite Hend2. fold σ4. rewrite Hend4.
    destruct (Marker_isBouncing σ1 m) eqn:Hf.
    + right. destruct k as [|k']; [done|].
      exists σ4', c1, k'. split_and!; done.
    + left. split_and!; done.
  - destruct (Marker_isBouncing σ1 m) eqn:Hf.
    + set (σ3 := setTimeout (MoveAgain call) (Some (Num (call_bounceSpeed c1)))
                   σ2') in *.
      assert (∃ t3, timers σ3 = [Timer t3 (MoveAgain call)]) as [t3 Hts3]
        by (by eexists).
      pose proof (run_end_of_phase σ3 t3 (MoveAgain call) Hts3) as Hend3.
      cbn [run_callback] in Hend3.
      exists (Z.to_nat (2 * h) + (1 + 1))%nat.
      rewrite !run_add. fold σ2. rewrite Hend2, Hend3.
      right. destruct k as [|k']; [done|].
      exists (set_now t3 (set_timers [] σ3)), c1, k'. split_and!; done.
    + exists (Z.to_nat (2 * h) + 1)%nat.
      rewrite !run_add. fold σ2. rewrite Hend2.
      left. split_and!; done.
Qed.

(** A bounce with a count leaves the marker at rest. *)
Lemma bounce_cycles (k : nat) :
  ∀ σ c,
    in_scene call m C M σ → timers σ = [] →
    bounce_calls σ !! call = Some c → call_times c = Some (Z.of_nat (S k)) →
    ∃ j,
      timers (run j (move call σ)) = []
      ∧ Marker_isBouncing (run j (move call σ)) m = false
      ∧ shows m (zIndex M)
          (transform_at (if call_elastic C then ir else im) (Some (Num 0)))
          (transform_at (if call_elastic C then sr else sm) (Some (Num 0)))
          (run j (move call σ)).
Proof.
  induction k as [|k IH]; intros σ c Hσ Hts Hc Htimes.
  - destruct (bounce_cycle σ c 0 Hσ Hts Hc Htimes)
      as [j [Hrest|(σ' & c' & k' & ? & _)]]; [by exists j|done].
  - destruct (bounce_cycle σ c (S k) Hσ Hts Hc Htimes)
      as [j [Hrest|(σ' & c' & k' & _ & Hrun & Hσ' & Hts' & Hc' & Htimes')]];
      [by exists j|].
    destruct (IH σ' c' Hσ' Hts' Hc' Htimes') as (j' & Hrest).
    exists (j + j')%nat. by rewrite run_add, Hrun.
Qed.

End RestFrame.

(** X20: a bounce with a count comes to rest where the marker is.  For a
    marker whose options were set with speeds of at least 1 and heights of
    at most twice the speed plus 1 (the defaults are such), [bounce(n)] with
    [n >= 1] ends: after finitely many timers none is pending, the marker no
    longer bounces, and the last frame written to the styles of the icon and
    of the shadow is the one of step 0, which puts them at the position of
    the marker in their full size. *)
Theorem bounce_ends_at_rest
    (Math_cos Math_sin : Q → Q) fuel m options n σ mk :
  any3d σ = true →
  markers σ !! m = Some mk →
  cache_ok (bouncingMotionsCache σ) →
  timers σ = [] →
  1 ≤ bounceHeight (merge_options options (default_bouncingOptions σ)) →
  1 ≤ contractHeight (merge_options options (default_bouncingOptions σ)) →
  1 ≤ bounceSpeed (merge_options options (default_bouncingOptions σ)) →
  bounceHeight (merge_options options (default_bouncingOptions σ))
  ≤ 2 * bounceSpeed (merge_options options (default_bouncingOptions σ)) + 1 →
  (elastic (merge_options options (default_bouncingOptions σ)) = true →
   1 ≤ contractSpeed (merge_options options (default_bouncingOptions σ))
   ∧ contractHeight (merge_options options (default_bouncingOptions σ))
     ≤ 2 * contractSpeed (merge_options options (default_bouncingOptions σ))
       + 1
   ∧ (iconSize mk).2 ≠ 0 ∧ (shadowSize mk).2 ≠ 0) →
  (Z.to_nat (bounceHeight (merge_options options (default_bouncingOptions σ)))
   + 1 < fuel)%nat →
  (Z.to_nat (contractHeight (merge_options options (default_bouncingOptions σ)))
   + 1 < fuel)%nat →
  1 ≤ n →
  ∃ σ' j mk' icon shadow,
    setBouncingOptions Math_cos Math_sin fuel m options σ = Normal σ'
    ∧ timers (run j (bounce m (Some n) σ')) = []
    ∧ Marker_isBouncing (run j (bounce m (Some n) σ')) m = false
    ∧ markers (run j (bounce m (Some n) σ')) !! m = Some mk'
    ∧ icon_style mk' = Css (Some (zIndex mk)) (Some (Some icon)) None
    ∧ shadow_style mk' = Css None (Some (Some shadow)) None
    ∧ m_x icon = motion_x (bouncingMotion mk)
    ∧ m_y icon = motion_y (bouncingMotion mk)
    ∧ (m_scaleX icon == 1)%Q ∧ (m_scaleY icon == 1)%Q
    ∧ m_x shadow = motion_x (bouncingMotion mk)
    ∧ m_y shadow = motion_y (bouncingMotion mk)
    ∧ (m_scaleX shadow == 1)%Q ∧ (m_scaleY shadow == 1)%Q.
Proof.
  intros H3d Hmk Hc Hts Hbh Hch Hbs Hbhs Hel Hfb Hfc Hn.
  destruct (setBouncingOptions_compiled Math_cos Math_sin fuel m options σ mk
              H3d Hmk Hc Hbh Hch Hfb Hfc)
    as (σ' & mk' & p & Hσ' & Hmk' & Ho & Hmo & Hlen & Hp0 & Hz & _ & _ & _
        & Hts' & _ & _ & _ & H3d').
  set (o := merge_options options (default_bouncingOptions σ)) in *.
  set (x := motion_x (bouncingMotion mk)) in *.
  set (y := motion_y (bouncingMotion mk)) in *.
  destruct (bounce_before_move σ' m mk' (Some n) Hmk')
    as (σb & c & Hb & Hcalls & Hcm & Htimes & Hce & Hc3 & _ & Hcms & Hcmd
        & Hcrs & Hcrd & Htsb & _ & _ & Hmarkers).
  rewrite Hmo in Hcms, Hcmd, Hcrs, Hcrd. rewrite Ho in Hce.
  cbn in Hcms, Hcmd, Hcrs, Hcrd.
  set (call := length (bounce_calls σ')) in *.
  assert (bounce_calls σb !! call = Some c) as Hcall
    by (unfold call; by rewrite Hcalls, lookup_app_r, Nat.sub_diag).
  assert (in_scene call m (call_timeline c) (marker_compiled mk') σb) as Hσb.
  { split; [by rewrite Hcall|]. by rewrite Hmarkers, Hmk'. }
  match type of Hmo with
  | _ = transforms_of ?a ?b ?c ?d _ =>
      set (im := a) in *; set (ir := b) in *;
      set (sm := c) in *; set (sr := d) in *
  end.
  destruct (bounce_cycles call m (call_timeline c) (marker_compiled mk')
              (bounceHeight o) (bounceSpeed o) (contractHeight o)
              (contractSpeed o) im ir sm sr) with (k := (Z.to_nat n - 1)%nat)
      (σ := σb) (c := c)
    as (j & Hquiet & Hflag & mk'' & Hmk'' & Hicon & Hshadow);
    try done.
  { cbn. by rewrite Hc3, H3d'. }
  { cbn. by rewrite Hmo. }
  { cbn. by rewrite Hmo. }
  { cbn. by rewrite Hmo. }
  { cbn. by rewrite Hmo. }
  { cbn. rewrite Hce. intros He. destruct (Hel He) as (? & ? & _). done. }
  { by rewrite Htsb, Hts'. }
  { rewrite Htimes. f_equal. lia. }
  rewrite <- Hb in Hquiet, Hflag, Hmk''.
  cbn [call_timeline call_elastic with_times] in Hicon, Hshadow.
  rewrite Hce in Hicon, Hshadow.
  change (zIndex (marker_compiled mk')) with (zIndex mk') in Hicon.
  rewrite Hz in Hicon.
  assert (transform_at im (Some (Num 0)) = Some (icon_move_transform x y 0))
    as Him by (apply js_get_filled; lia).
  assert (transform_at ir (Some (Num 0))
          = Some (icon_resize_transform x y (iconSize mk).2 0))
    as Hir by (apply js_get_filled; lia).
  assert (transform_at sr (Some (Num 0))
          = Some (icon_resize_transform x y (shadowSize mk).2 0))
    as Hsr by (apply js_get_filled; lia).
  assert (transform_at sm (Some (Num 0)) = Some (Matrix3d 1 1 x y)) as Hsm.
  { unfold transform_at, sm. rewrite js_get_within by lia.
    change (Z.to_nat 0) with 0%nat.
    by rewrite !list_lookup_fmap, Hp0. }
  assert (∀ H : Z, H ≠ 0 → (inject_Z (H - 0) / inject_Z H == 1)%Q) as Hone.
  { intros H HH. rewrite Z.sub_0_r. apply Qmult_inv_r.
    intros E. apply HH. by apply (inject_Z_injective H 0). }
  exists σ', j, mk''.
  destruct (elastic o) eqn:He.
  - destruct (Hel eq_refl) as (_ & _ & Hicon0 & Hshadow0).
    rewrite Hir in Hicon. rewrite Hsr in Hshadow.
    eexists _, _. split_and!; [done..|cbn; lia|done|by apply Hone
                                |done|cbn; lia|done|by apply Hone].
  - rewrite Him in Hicon. rewrite Hsm in Hshadow.
    eexists _, _. split_and!; [done..|cbn; lia|done|done|done|done|done|done].
Qed.

Lemma bounce_ends_at_rest_witness :
  ∃ mk,
    any3d example_marker_page = true
    ∧ markers example_marker_page !! 0%nat = Some mk
    ∧ cache_ok (bouncingMotionsCache example_marker_page)
    ∧ timers example_marker_page = []
    ∧ ∃ σ' j mk' icon shadow,
        setBouncingOptions example_cos example_sin 20 0 no_options
          example_marker_page = Normal σ'
        ∧ timers (run j (bounce 0 (Some 2) σ')) = []
        ∧ Marker_isBouncing (run j (bounce 0 (Some 2) σ')) 0 = false
        ∧ markers (run j (bounce 0 (Some 2) σ')) !! 0%nat = Some mk'
        ∧ icon_style mk' = Css (Some (zIndex mk)) (Some (Some icon)) None
        ∧ shadow_style mk' = Css None (Some (Some shadow)) None
        ∧ m_x icon = motion_x (bouncingMotion mk)
        ∧ m_y icon = motion_y (bouncingMotion mk)
        ∧ (m_scaleX icon == 1)%Q ∧ (m_scaleY icon == 1)%Q
        ∧ m_x shadow = motion_x (bouncingMotion mk)
        ∧ m_y shadow = motion_y (bouncingMotion mk)
        ∧ (m_scaleX shadow == 1)%Q ∧ (m_scaleY shadow == 1)%Q.
Proof.
  eexists. split; [vm_compute; reflexivity|].
  split; [vm_compute; reflexivity|].
  split; [apply example_marker_page_cache_ok|].
  split; [vm_compute; reflexivity|].
  eapply (bounce_ends_at_rest example_cos example_sin 20 0 no_options 2
            example_marker_page);
    [vm_compute; reflexivity|vm_compute; reflexivity
    |apply example_marker_page_cache_ok|vm_compute; reflexivity
    |by vm_compute|by vm_compute|by vm_compute|by vm_compute
    |intros _; vm_compute; repeat split; discriminate
    |vm_compute; lia|vm_compute; lia|lia].
Defined.

(** ** Without 3D transforms *)

Section NeverPlaced.

Variables Math_cos Math_sin : Q → Q.
Variable Math_PI : Q.

Lemma no_points_update m f σ :
  (∀ mk, never_placed mk → never_placed (f mk)) →
  no_points σ → no_points (update_marker m f σ).
Proof.
  intros Hf Hσ j mk. unfold update_marker. cbn.
  destruct (decide (j = m)) as [->|Hne].
  - rewrite lookup_alter_eq. destruct (markers σ !! m) as [mk0|] eqn:E; [|done].
    cbn. intros [= <-]. apply Hf. by apply (Hσ m).
  - rewrite lookup_alter_ne by done. apply Hσ.
Qed.

Lemma no_points_same σ σ' :
  markers σ' = markers σ → no_points σ → no_points σ'.
Proof. intros E Hσ j mk. rewrite E. apply Hσ. Qed.

Lemma no_points_flag b m σ :
  no_points σ → no_points (update_marker m (with_motion (with_isBouncing b)) σ).
Proof. apply no_points_update. by intros mk. Qed.

Lemma no_points_stop_marker m σ : no_points σ → no_points (stop_marker m σ).
Proof. apply no_points_flag. Qed.

Lemma no_points_stopBouncingMarkers_loop queue :
  ∀ σ, no_points σ → no_points (stopBouncingMarkers_loop queue σ).
Proof.
  induction queue as [|marker rest IH]; intros σ Hσ; [done|].
  cbn. apply IH. by apply no_points_stop_marker.
Qed.

Lemma no_points__stopEclusifMarkerBouncing_loop (i : nat) :
  ∀ σ, no_points σ → no_points (_stopEclusifMarkerBouncing_loop i σ).
Proof.
  induction i as [|i IH]; intros σ Hσ; [done|].
  cbn. apply IH. destruct (bouncingMarkers σ !! i) as [m|]; [|done].
  destruct (Marker_exclusif σ m); [|done].
  by apply (no_points_stop_marker m).
Qed.

Lemma no_points__addBouncingMarker marker excl σ :
  no_points σ → no_points (_addBouncingMarker marker excl σ).
Proof.
  intros Hσ. unfold _addBouncingMarker.
  destruct (excl || Marker_exclusif σ marker).
  - by apply (no_points_stopBouncingMarkers_loop (bouncingMarkers σ)).
  - by apply (no_points__stopEclusifMarkerBouncing_loop
                (length (bouncingMarkers σ))).
Qed.

Lemma schedule_steps_markers mk ds ss (i : nat) :
  ∀ σ, markers (schedule_steps mk ds ss i σ) = markers σ.
Proof. induction i as [|i IH]; intros σ; [done|]. cbn. by rewrite IH. Qed.

Lemma no_points_countdown call c σ :
  no_points σ → no_points (countdown call c σ).
Proof.
  intros Hσ. unfold countdown. destruct (call_times c) as [times|]; [|done].
  destruct (times - 1 =? 0); [|done].
  by apply no_points_stop_marker.
Qed.

Lemma no_points_move call σ : no_points σ → no_points (move call σ).
Proof.
  intros Hσ. unfold move. destruct (bounce_calls σ !! call) as [c|]; [|done].
  eapply no_points_same; [|by apply (no_points_countdown call c)].
  cbn. by rewrite schedule_steps_markers.
Qed.

Lemma no_points_resize call σ : no_points σ → no_points (resize call σ).
Proof.
  intros Hσ. unfold resize. destruct (bounce_calls σ !! call) as [c|]; [|done].
  eapply no_points_same; [|done].
  cbn. by rewrite schedule_steps_markers.
Qed.

Lemma no_points_make_transform_step m icons shadows step σ :
  no_points σ →
  no_points (settled (make_transform_step m icons shadows step σ) σ).
Proof.
  intros Hσ. unfold make_transform_step, on_marker.
  destruct (markers σ !! m) as [mk|] eqn:E; [|done].
  destruct (Hσ m mk E) as (Hi & Hs & _ & Hst).
  destruct (icons (bouncingMotion mk)) as [ts|]; [|done].
  destruct (shadows (bouncingMotion mk)) as [ts'|]; cbn.
  - do 2 (apply no_points_update; [by intros mk' (? & ? & _ & _)|]). done.
  - apply no_points_update; [|done]. intros mk' (? & ? & _ & _).
    by repeat split.
Qed.

Lemma makeMoveStepNo3D_raises m step σ mk :
  no_points σ → markers σ !! m = Some mk →
  makeMoveStepNo3D m step σ
  = Abrupt TypeError
      (update_marker m
         (with_styles (Css (Some (zIndex mk)) None None) (shadow_style mk)) σ).
Proof.
  intros Hσ E. unfold makeMoveStepNo3D, on_marker. rewrite E.
  destruct (Hσ m mk E) as (-> & _). done.
Qed.

Lemma no_points_makeMoveStepNo3D m step σ :
  no_points σ → no_points (settled (makeMoveStepNo3D m step σ) σ).
Proof.
  intros Hσ. destruct (markers σ !! m) as [mk|] eqn:E.
  - rewrite (makeMoveStepNo3D_raises m step σ mk Hσ E). cbn.
    destruct (Hσ m mk E) as (_ & _ & _ & Hst).
    apply no_points_update; [|done]. by intros mk' (? & ? & _ & _).
  - unfold makeMoveStepNo3D, on_marker. by rewrite E.
Qed.

Lemma no_points_run_callback f σ :
  no_points σ → no_points (run_callback f σ).
Proof.
  intros Hσ. destruct f as [call step|call step|call step|call|call|call]; cbn.
  - destruct (call_marker_of σ call); [|done].
    by apply no_points_make_transform_step.
  - destruct (call_marker_of σ call); [|done].
    by apply no_points_makeMoveStepNo3D.
  - destruct (call_marker_of σ call); [|done].
    by apply no_points_make_transform_step.
  - unfold moveEnd. destruct (bounce_calls σ !! call) as [c|]; [|done].
    destruct (call_elastic c && call_is3d c); [by apply no_points_resize|].
    by destruct (Marker_isBouncing σ (call_marker c)).
  - unfold resizeEnd. destruct (bounce_calls σ !! call) as [c|]; [|done].
    destruct (Marker_isBouncing σ (call_marker c)); [|done].
    by apply no_points_move.
  - by apply no_points_move.
Qed.

Lemma no_points_tick σ σ' : no_points σ → tick σ = Some σ' → no_points σ'.
Proof.
  intros Hσ. unfold tick. destruct (timers σ) as [|t ts]; [done|].
  intros [= <-]. by apply no_points_run_callback.
Qed.

Lemma no_points_bounce m times σ :
  no_points σ → no_points (bounce m times σ).
Proof.
  intros Hσ. unfold bounce. destruct (markers σ !! m) as [mk|]; [|done].
  apply no_points_move, no_points__addBouncingMarker.
  by apply no_points_flag.
Qed.

Lemma no_points_stopBouncing m σ :
  no_points σ → no_points (stopBouncing m σ).
Proof. intros Hσ. by apply (no_points_stop_marker m). Qed.

Lemma no_points_assign_timeline m r f σ σ' :
  (∀ a mo, iconMovePoints (f a mo) = iconMovePoints mo
           ∧ shadowMovePoints (f a mo) = shadowMovePoints mo) →
  no_points σ → assign_timeline m r f σ = Normal σ' → no_points σ'.
Proof.
  intros Hf Hσ. unfold assign_timeline. destruct r as [[a c]|]; [|done].
  intros [= <-]. apply no_points_update; [|done].
  intros mk (Hi & Hs & ? & ?). destruct (Hf a (bouncingMotion mk)) as [Ei Es].
  repeat split; cbn; congruence.
Qed.

Lemma no_points__calculateTimeline fuel m σ σ' :
  no_points σ → settles (_calculateTimeline fuel m σ) σ' → no_points σ'.
Proof.
  intros Hσ. unfold _calculateTimeline, on_marker.
  destruct (markers σ !! m) as [mk|];
    [|by intros ->%settles_Abrupt].
  cbv zeta.
  destruct (assign_timeline m _ with_moveSteps σ) as [σ1|e σ1|] eqn:E1;
    [|by destruct (calculateSteps _ _ _ _) as [[? ?]|] in E1
     |by intros ?%settles_NoReturn].
  apply no_points_assign_timeline in E1; [|done|done].
  cbn [and_then].
  destruct (assign_timeline m _ with_moveDelays σ1) as [σ2|e σ2|] eqn:E2;
    [|by destruct (calculateDelays _ _ _ _ _) as [[? ?]|] in E2
     |by intros ?%settles_NoReturn].
  apply no_points_assign_timeline in E2; [|done|done].
  cbn [and_then].
  destruct (assign_timeline m _ with_resizeSteps σ2) as [σ3|e σ3|] eqn:E3;
    [|by destruct (calculateSteps _ _ _ _) as [[? ?]|] in E3
     |by intros ?%settles_NoReturn].
  apply no_points_assign_timeline in E3; [|done|done].
  cbn [and_then].
  destruct (assign_timeline m _ with_resizeDelays σ3) as [σ4|e σ4|] eqn:E4;
    [|by destruct (calculateDelays _ _ _ _ _) as [[? ?]|] in E4
     |by intros ?%settles_NoReturn].
  apply no_points_assign_timeline in E4; [|done|done].
  by intros ->%settles_Normal.
Qed.

Lemma no_points__calculateTransforms fuel m σ σ' :
  no_points σ →
  settles (_calculateTransforms Math_cos Math_sin fuel m σ) σ' → no_points σ'.
Proof.
  intros Hσ. unfold _calculateTransforms, on_marker.
  destruct (markers σ !! m) as [mk|];
    [|by intros ->%settles_Abrupt].
  cbv zeta. destruct (any3d σ).
  - destruct (calculateIconMoveTransforms _ _ _ _) as [t1|e|]; cbn [assign];
      [|by intros ->%settles_Abrupt|by intros ?%settles_NoReturn].
    assert (no_points
              (update_marker m (with_motion (with_iconMoveTransforms t1)) σ))
      as H1 by (by apply no_points_update).
    destruct (calculateIconResizeTransforms _ _ _ _ _) as [t2|e|];
      cbn [assign];
      [|by intros ->%settles_Abrupt|by intros ?%settles_NoReturn].
    match goal with
    | |- settles (assign _ ?s _) _ → _ =>
        assert (no_points s) as H2 by (by apply no_points_update)
    end.
    destruct (calculateShadowMoveTransforms _ _ _ _ _ _ _) as [t3|e|];
      cbn [assign];
      [|by intros ->%settles_Abrupt|by intros ?%settles_NoReturn].
    match goal with
    | |- settles (assign _ ?s _) _ → _ =>
        assert (no_points s) as H3 by (by apply no_points_update)
    end.
    destruct (calculateIconResizeTransforms _ _ _ _ _) as [t4|e|];
      cbn [assign];
      [|by intros ->%settles_Abrupt|by intros ?%settles_NoReturn].
    intros ->%settles_Normal. by apply no_points_update.
  - cbn. by intros ->%settles_Abrupt.
Qed.

Lemma no_points_reachable σ :
  reachable Math_cos Math_sin Math_PI σ → no_points σ.
Proof.
  induction 1 as [is3d|σ options _ IH|σ fuel m icon shadow z σ' _ IH Hs
                 |σ fuel m pos σ' _ IH Hs|σ fuel m options σ' _ IH Hs
                 |σ m times _ IH|σ m _ IH|σ m _ IH|σ _ IH|σ σ' _ IH Htick].
  - intros m mk. cbn. by rewrite lookup_empty.
  - done.
  - unfold initialize in Hs. cbv zeta in Hs.
    eapply no_points__calculateTimeline; [|exact Hs].
    intros j mk. cbn. destruct (decide (j = m)) as [->|Hne].
    + rewrite lookup_insert_eq. by intros [= <-].
    + rewrite lookup_insert_ne by done. apply IH.
  - unfold _setPos in Hs.
    eapply no_points__calculateTransforms; [|exact Hs].
    by apply no_points_update.
  - unfold setBouncingOptions, on_marker in Hs.
    destruct (markers σ !! m) as [mk|];
      [|by apply settles_Abrupt in Hs as ->].
    cbv zeta in Hs.
    match type of Hs with
    | settles (and_then (_calculateTimeline _ _ ?s) _) _ =>
        assert (no_points s) as H0 by (by apply no_points_update);
        destruct (_calculateTimeline fuel m s) as [σ1|e σ1|] eqn:E1
    end; cbn [and_then] in Hs.
    + eapply no_points__calculateTransforms; [|exact Hs].
      eapply no_points__calculateTimeline; [exact H0|]. left. exact E1.
    + apply settles_Abrupt in Hs as ->.
      eapply no_points__calculateTimeline; [exact H0|]. right. eauto.
    + by apply settles_NoReturn in Hs.
  - by apply no_points_bounce.
  - by apply no_points_stopBouncing.
  - unfold toogleBouncing. destruct (Marker_isBouncing σ m).
    + by apply no_points_stopBouncing.
    + by apply no_points_bounce.
  - by apply (no_points_stopBouncingMarkers_loop (bouncingMarkers σ)).
  - by eapply no_points_tick.
Qed.

End NeverPlaced.

Section Without3D.

Lemma reachable_run Math_cos Math_sin Math_PI (n : nat) :
  ∀ σ, reachable Math_cos Math_sin Math_PI σ →
       reachable Math_cos Math_sin Math_PI (run n σ).
Proof.
  induction n as [|n IH]; intros σ Hσ; [done|].
  cbn. destruct (tick σ) as [σ'|] eqn:E; [|done].
  apply IH. by eapply reachable_tick.
Qed.

Lemma example_bouncing_no3d_reachable :
  reachable example_cos example_sin example_PI example_bouncing_no3d.
Proof.
  apply reachable_run, reachable_bounce.
  eapply (reachable_setPos _ _ _ example_page_no3d 20 0 (100, 200)).
  - eapply (reachable_initialize _ _ _ _ 20 0 (25, 41) (41, 41) 0).
    + apply (reachable_loaded _ _ _ false).
    + left. vm_compute. reflexivity.
  - right. exists ReferenceError. vm_compute. reflexivity.
Qed.

End Without3D.

(** X21: without 3D transforms no marker is ever moved.  On every page the
    plugin can bring about, no marker has the points of its movement (their
    calculation raises whenever it is tried), neither [left] nor [top] was
    written to the style of an icon, and the step of the movement for
    browsers without 3D transforms writes the z-index of the icon and then
    raises a TypeError. *)
Theorem makeMoveStepNo3D_never_moves
    (Math_cos Math_sin : Q → Q) (Math_PI : Q) σ m mk step :
  reachable Math_cos Math_sin Math_PI σ →
  markers σ !! m = Some mk →
  iconMovePoints (bouncingMotion mk) = None
  ∧ shadowMovePoints (bouncingMotion mk) = None
  ∧ css_left_top (icon_style mk) = None
  ∧ css_left_top (shadow_style mk) = None
  ∧ makeMoveStepNo3D m step σ
    = Abrupt TypeError
        (update_marker m
           (with_styles (Css (Some (zIndex mk)) None None) (shadow_style mk))
           σ).
Proof.
  intros Hσ Hmk. apply no_points_reachable in Hσ.
  destruct (Hσ m mk Hmk) as (Hi & Hs & Hl & Hl').
  split_and!; [done..|]. by apply makeMoveStepNo3D_raises.
Qed.

Lemma makeMoveStepNo3D_never_moves_witness :
  ∃ mk,
    reachable example_cos example_sin example_PI example_bouncing_no3d
    ∧ markers example_bouncing_no3d !! 0%nat = Some mk
    ∧ iconMovePoints (bouncingMotion mk) = None
    ∧ shadowMovePoints (bouncingMotion mk) = None
    ∧ css_left_top (icon_style mk) = None
    ∧ css_left_top (shadow_style mk) = None
    ∧ makeMoveStepNo3D 0 (Some (Num 1)) example_bouncing_no3d
      = Abrupt TypeError
          (update_marker 0
             (with_styles (Css (Some (zIndex mk)) None None) (shadow_style mk))
             example_bouncing_no3d).
Proof.
  eexists. split; [apply example_bouncing_no3d_reachable|].
  split; [vm_compute; reflexivity|].
  apply (makeMoveStepNo3D_never_moves example_cos example_sin example_PI
           example_bouncing_no3d 0 _ (Some (Num 1)));
    [apply example_bouncing_no3d_reachable|vm_compute; reflexivity].
Defined.

(** * Properties of the style texts *)

Section StyleTexts.

Lemma string_app_nil_l (b : string) : (EmptyString +:+ b) = b.
Proof. done. Qed.

Lemma string_app_cons (x : ascii) (a b : string) :
  ((String x a) +:+ b) = String x (a +:+ b).
Proof. done. Qed.

Lemma string_app_assoc (a b c : string) :
  ((a +:+ b) +:+ c) = (a +:+ (b +:+ c)).
Proof.
  induction a as [|x a IH]; [done|]. rewrite !string_app_cons. by rewrite IH.
Qed.

Lemma string_app_length (a b : string) :
  String.length (a +:+ b) = (String.length a + String.length b)%nat.
Proof.
  induction a as [|x a IH]; [done|]. rewrite string_app_cons. simpl.
  by rewrite IH.
Qed.

Lemma span_spec P s :
  ∀ a b, span P s = (a, b) → s = a +:+ b ∧ all_chars P a.
Proof.
  induction s as [|c s IH]; intros a b Hs; simpl in Hs.
  - by injection Hs as <- <-.
  - destruct (P c) eqn:Hc.
    + destruct (span P s) as [a' b'] eqn:Hs'. injection Hs as <- <-.
      destruct (IH a' b' eq_refl) as [-> Ha]. by split.
    + by injection Hs as <- <-.
Qed.

Lemma span_app P a :
  ∀ b, all_chars P a →
       (b = EmptyString ∨ ∃ c b', b = String c b' ∧ P c = false) →
       span P (a +:+ b) = (a, b).
Proof.
  induction a as [|x a IH]; intros b Ha Hb.
  - rewrite string_app_nil_l.
    destruct Hb as [->|(c & b' & -> & Hc)]; [done|]. simpl. by rewrite Hc.
  - destruct Ha as [Hx Ha]. rewrite string_app_cons. simpl.
    rewrite Hx. by rewrite (IH b Ha Hb).
Qed.

Lemma after_prefix_spec p :
  ∀ s r, after_prefix p s = Some r → s = p +:+ r.
Proof.
  induction p as [|a p IH]; intros s r Hs; simpl in Hs.
  - by injection Hs as ->.
  - destruct s as [|b s]; [done|].
    destruct (Ascii.eqb a b) eqn:Hab; [|done].
    apply Ascii.eqb_eq in Hab as ->. rewrite string_app_cons.
    by rewrite (IH s r Hs).
Qed.

Lemma after_prefix_app p r : after_prefix p (p +:+ r) = Some r.
Proof.
  induction p as [|a p IH]; [done|]. rewrite string_app_cons. simpl.
  by rewrite Ascii.eqb_refl.
Qed.

Lemma regStyle_match_spec s key value rest :
  regStyle_match s = Some (key, value, rest) →
  s = key +:+ ": " +:+ value +:+ ";" +:+ rest ∧ declaration_ok (key, value).
Proof.
  unfold regStyle_match. intros Hs.
  destruct (span is_word_or_hyphen s) as [k s1] eqn:Hk.
  destruct (decide (k = EmptyString)) as [|Hk0]; [done|].
  unfold mbind, option_bind in Hs.
  destruct (after_prefix ": " s1) as [s2|] eqn:H1; [|done].
  destruct (span is_not_semicolon s2) as [v s3] eqn:Hv.
  destruct (decide (v = EmptyString)) as [|Hv0]; [done|].
  destruct (after_prefix ";" s3) as [s4|] eqn:H2; [|done].
  injection Hs as <- <- <-.
  apply span_spec in Hk as [-> Hk], Hv as [-> Hv].
  apply after_prefix_spec in H1 as ->, H2 as ->.
  split; [|done]. by rewrite <- !string_app_assoc.
Qed.

Lemma regStyle_exec_unfold s :
  regStyle_exec s
  = match regStyle_match s with
    | Some found => Some found
    | None =>
        match s with
        | EmptyString => None
        | String _ rest' => regStyle_exec rest'
        end
    end.
Proof. by destruct s. Qed.

Lemma regStyle_exec_spec s :
  ∀ key value rest,
    regStyle_exec s = Some (key, value, rest) →
    declaration_ok (key, value) ∧ (String.length rest < String.length s)%nat.
Proof.
  induction s as [|c s IH]; intros key value rest Hs;
    rewrite regStyle_exec_unfold in Hs.
  - destruct (regStyle_match "") as [[[k v] r]|] eqn:Hm; [|done].
    injection Hs as -> -> ->. apply regStyle_match_spec in Hm as [Hm _].
    by destruct key.
  - destruct (regStyle_match (String c s)) as [[[k v] r]|] eqn:Hm.
    + injection Hs as -> -> ->. apply regStyle_match_spec in Hm as [Hm Hok].
      split; [done|]. rewrite Hm, !string_app_length. simpl. lia.
    + destruct (IH _ _ _ Hs) as [Hok Hlen]. split; [done|]. simpl. lia.
Qed.

Lemma regStyle_match_declaration key value rest :
  declaration_ok (key, value) →
  regStyle_match (key +:+ ": " +:+ value +:+ "; " +:+ rest)
  = Some (key, value, " " +:+ rest).
Proof.
  intros (Hk0 & Hk & Hv0 & Hv). simpl in *. unfold regStyle_match.
  rewrite (span_app _ key _ Hk)
    by (right; by exists ":"%char, (" " +:+ value +:+ "; " +:+ rest)).
  destruct (decide (key = EmptyString)); [done|].
  change (": " +:+ value +:+ "; " +:+ rest)
    with (": " +:+ (value +:+ "; " +:+ rest)).
  rewrite after_prefix_app. simpl.
  rewrite (span_app _ value _ Hv)
    by (right; by exists ";"%char, (" " +:+ rest)).
  by destruct (decide (value = EmptyString)).
Qed.

Lemma regStyle_exec_declaration key value rest :
  declaration_ok (key, value) →
  regStyle_exec (key +:+ ": " +:+ value +:+ "; " +:+ rest)
  = Some (key, value, " " +:+ rest).
Proof.
  intros Hok. pose proof (regStyle_match_declaration key value rest Hok) as Hm.
  rewrite regStyle_exec_unfold. by rewrite Hm.
Qed.

Lemma regStyle_exec_space rest :
  regStyle_exec (" " +:+ rest) = regStyle_exec rest.
Proof.
  rewrite regStyle_exec_unfold.
  by rewrite string_app_cons, string_app_nil_l.
Qed.

End StyleTexts.

Section StyleObjects.

Lemma is_digit_spec c :
  is_digit c = true → (48 ≤ N_of_ascii c ≤ 57)%N.
Proof.
  unfold is_digit. cbv zeta.
  intros [?%N.leb_le ?%N.leb_le]%andb_true_iff. lia.
Qed.

Lemma digits_value_acc s :
  ∀ acc,
    digits_value s acc
    = (λ v, acc * 10 ^ N.of_nat (String.length s) + v)%N <$> digits_value s 0.
Proof.
  induction s as [|c s IH]; intros acc; simpl.
  - f_equal. lia.
  - destruct (is_digit c); [|done].
    rewrite (IH (acc * 10 + _)%N), (IH (0 * 10 + _)%N).
    destruct (digits_value s 0) as [v|]; [|done]. simpl. f_equal.
    rewrite Nat2N.inj_succ, N.pow_succ_r'. lia.
Qed.

Lemma digits_value_bound s :
  ∀ v, digits_value s 0 = Some v → (v < 10 ^ N.of_nat (String.length s))%N.
Proof.
  induction s as [|c s IH]; intros v Hv; simpl in Hv.
  - injection Hv as <-. simpl. lia.
  - destruct (is_digit c) eqn:Hc; [|done].
    rewrite digits_value_acc in Hv.
    destruct (digits_value s 0) as [v'|]; [|done]. injection Hv as <-.
    specialize (IH v' eq_refl).
    apply is_digit_spec in Hc.
    change (String.length (String c s)) with (S (String.length s)).
    rewrite Nat2N.inj_succ, N.pow_succ_r'. nia.
Qed.

Lemma digits_value_inj s :
  ∀ s' v,
    String.length s = String.length s' →
    digits_value s 0 = Some v → digits_value s' 0 = Some v → s = s'.
Proof.
  induction s as [|c s IH]; intros [|c' s'] v Hlen Hv Hv'; try done.
  simpl in Hv, Hv', Hlen. injection Hlen as Hlen.
  destruct (is_digit c) eqn:Hc; [|done].
  destruct (is_digit c') eqn:Hc'; [|done].
  rewrite digits_value_acc in Hv, Hv'.
  destruct (digits_value s 0) as [w|] eqn:Hw; [|done].
  destruct (digits_value s' 0) as [w'|] eqn:Hw'; [|done].
  injection Hv as <-. injection Hv' as Hv'.
  pose proof (digits_value_bound _ _ Hw) as Hb.
  pose proof (digits_value_bound _ _ Hw') as Hb'.
  rewrite <- Hlen in Hv', Hb'.
  apply is_digit_spec in Hc, Hc'.
  assert (N_of_ascii c = N_of_ascii c' ∧ w = w') as [Hcc ->].
  { revert Hv' Hb Hb'. generalize (10 ^ N.of_nat (String.length s))%N.
    intros P Hv' Hb Hb'.
    destruct (N.lt_trichotomy (N_of_ascii c) (N_of_ascii c')) as [|[|]];
      [exfalso; nia|split; [done|nia]|exfalso; nia]. }
  f_equal.
  - by rewrite <- (ascii_N_embedding c), <- (ascii_N_embedding c'), Hcc.
  - by apply (IH s' w').
Qed.

Lemma digits_value_leading c s v :
  is_digit c = true → Ascii.eqb c "0" = false →
  digits_value (String c s) 0 = Some v →
  (10 ^ N.of_nat (String.length s) ≤ v)%N.
Proof.
  intros Hc H0 Hv. simpl in Hv. rewrite Hc in Hv.
  rewrite digits_value_acc in Hv.
  destruct (digits_value s 0) as [w|]; [|done]. injection Hv as <-.
  assert (N_of_ascii c ≠ 48%N) as Hne.
  { intros Heq. apply Ascii.eqb_neq in H0. apply H0.
    by rewrite <- (ascii_N_embedding c), Heq. }
  apply is_digit_spec in Hc. nia.
Qed.

Lemma array_index_inj key key' n :
  array_index key = Some n → array_index key' = Some n → key = key'.
Proof.
  assert (∀ c s v, Ascii.eqb c "0" = false →
            digits_value (String c s) 0 = Some v →
            is_digit c = true ∧ (1 ≤ v)%N) as Hpos.
  { intros c s v H0 Hv. assert (is_digit c = true) as Hc.
    { simpl in Hv. by destruct (is_digit c). }
    split; [done|]. pose proof (digits_value_leading c s v Hc H0 Hv).
    pose proof (N.pow_nonzero 10 (N.of_nat (String.length s))). lia. }
  assert (∀ c s c' s' v,
            Ascii.eqb c "0" = false → Ascii.eqb c' "0" = false →
            digits_value (String c s) 0 = Some v →
            digits_value (String c' s') 0 = Some v →
            String c s = String c' s') as Hinj.
  { intros c s c' s' v H0 H0' Hv Hv'.
    destruct (Hpos _ _ _ H0 Hv) as [Hc _], (Hpos _ _ _ H0' Hv') as [Hc' _].
    apply (digits_value_inj _ _ v); [|done..].
    pose proof (digits_value_leading _ _ _ Hc H0 Hv) as Hl.
    pose proof (digits_value_leading _ _ _ Hc' H0' Hv') as Hl'.
    pose proof (digits_value_bound _ _ Hv) as Hb.
    pose proof (digits_value_bound _ _ Hv') as Hb'.
    simpl in *.
    destruct (decide (String.length s = String.length s')) as [->|Hne];
      [done|exfalso].
    rewrite !Nat2N.inj_succ in *.
    destruct (decide (String.length s < String.length s')%nat).
    - assert (10 ^ N.succ (N.of_nat (String.length s))
              ≤ 10 ^ N.of_nat (String.length s'))%N
        by (apply N.pow_le_mono_r; lia). lia.
    - assert (10 ^ N.succ (N.of_nat (String.length s'))
              ≤ 10 ^ N.of_nat (String.length s))%N
        by (apply N.pow_le_mono_r; lia). lia. }
  unfold array_index. intros Hk Hk'.
  destruct key as [|c s]; [done|]. destruct key' as [|c' s']; [done|].
  destruct (Ascii.eqb c "0") eqn:H0, (Ascii.eqb c' "0") eqn:H0'.
  - apply Ascii.eqb_eq in H0 as ->, H0' as ->.
    destruct (decide (s = EmptyString)) as [->|]; [|done].
    by destruct (decide (s' = EmptyString)) as [->|].
  - destruct (decide (s = EmptyString)) as [->|]; [|done].
    injection Hk as <-.
    destruct (digits_value (String c' s') 0) as [v|] eqn:Hv; [|done].
    simpl in Hk'. destruct (v <? 2 ^ 32 - 1)%N; [|done]. injection Hk' as ->.
    destruct (Hpos _ _ _ H0' Hv). lia.
  - destruct (decide (s' = EmptyString)) as [->|]; [|done].
    injection Hk' as <-.
    destruct (digits_value (String c s) 0) as [v|] eqn:Hv; [|done].
    simpl in Hk. destruct (v <? 2 ^ 32 - 1)%N; [|done]. injection Hk as ->.
    destruct (Hpos _ _ _ H0 Hv). lia.
  - destruct (digits_value (String c s) 0) as [v|] eqn:Hv; [|done].
    destruct (digits_value (String c' s') 0) as [v'|] eqn:Hv'; [|done].
    simpl in Hk, Hk'.
    destruct (v <? 2 ^ 32 - 1)%N; [|done].
    destruct (v' <? 2 ^ 32 - 1)%N; [|done].
    injection Hk as ->. injection Hk' as ->. by apply (Hinj _ _ _ _ n).
Qed.

Lemma obj_insert_index_perm n key value o :
  obj_insert_index n key value o ≡ₚ (key, value) :: o.
Proof.
  induction o as [|[k v] o IH]; simpl; [done|].
  destruct (array_index k) as [n'|]; [|done].
  destruct (n' <? n)%N; [|done]. rewrite IH. apply Permutation_swap.
Qed.

Lemma obj_insert_index_sorted n key value o :
  array_index key = Some n → key ∉ o.*1 →
  StronglySorted index_before (o.*1) →
  StronglySorted index_before ((obj_insert_index n key value o).*1).
Proof.
  intros Hkey. induction o as [|[k v] o IH]; intros Hnew Hsorted; simpl.
  - repeat constructor.
  - rewrite fmap_cons, not_elem_of_cons in Hnew. destruct Hnew as [Hne Hnew].
    rewrite fmap_cons in Hsorted.
    apply StronglySorted_cons in Hsorted as [Hall Hsorted]. simpl in *.
    destruct (array_index k) as [n'|] eqn:Hk.
    + destruct (n' <? n)%N eqn:Hlt.
      * apply N.ltb_lt in Hlt. rewrite fmap_cons.
        apply StronglySorted_cons. split; [|by apply IH].
        rewrite (fmap_Permutation fst _ _ (obj_insert_index_perm _ _ _ _)).
        rewrite fmap_cons. constructor; [|done].
        intros m Hm. simpl in Hm. exists n'. split; [done|]. congruence.
      * apply N.ltb_ge in Hlt. rewrite !fmap_cons.
        apply StronglySorted_cons. split; [|by apply StronglySorted_cons].
        assert (n < n')%N as Hlt'.
        { destruct (decide (n = n')) as [->|]; [|lia].
          destruct Hne. by apply (array_index_inj _ _ n'). }
        simpl. constructor.
        -- intros m Hm. exists n. split; [done|]. simpl in Hm. congruence.
        -- eapply Forall_impl; [exact Hall|]. intros k' Hk' m Hm.
           destruct (Hk' m Hm) as (m' & Hm' & ?). exists n. split; [done|].
           simpl in Hm'. assert (m' = n') by congruence. lia.
    + rewrite !fmap_cons. apply StronglySorted_cons.
      split; [|by apply StronglySorted_cons]. simpl. constructor.
      * intros m Hm. simpl in Hm. congruence.
      * eapply Forall_impl; [exact Hall|]. intros k' Hk' m Hm.
        destruct (Hk' m Hm) as (m' & Hm' & ?). simpl in Hm'. congruence.
Qed.

Lemma obj_insert_index_last n key value o :
  array_index key = Some n →
  Forall (λ key', index_before key' key) (o.*1) →
  obj_insert_index n key value o = o ++ [(key, value)].
Proof.
  intros Hkey. induction o as [|[k v] o IH]; intros Hall; simpl; [done|].
  rewrite fmap_cons in Hall. apply Forall_cons in Hall as [Hk Hall].
  destruct (Hk n Hkey) as (n' & Hn' & Hlt). simpl in Hn'. rewrite Hn'.
  apply N.ltb_lt in Hlt. rewrite Hlt. by rewrite IH.
Qed.

Lemma obj_set_keys o key value :
  ((λ p : string * string, if decide (p.1 = key) then (key, value) else p)
     <$> o).*1 = o.*1.
Proof.
  induction o as [|[k v] o IH]; [done|]. rewrite !fmap_cons, IH. f_equal.
  simpl. by destruct (decide (k = key)).
Qed.

Lemma obj_set_ok o key value :
  style_ok o → declaration_ok (key, value) → style_ok (obj_set o key value).
Proof.
  intros (Hnodup & Hproto & Hsorted & Hall) Hok. unfold obj_set.
  destruct (decide (key = "__proto__")) as [|Hkey]; [done|].
  destruct (decide (key ∈ o.*1)) as [Hin|Hnew].
  - unfold style_ok. rewrite obj_set_keys. split_and!; try done.
    apply Forall_fmap. eapply Forall_impl; [exact Hall|].
    intros [k v] Hkv. simpl. by destruct (decide (k = key)).
  - destruct (array_index key) as [n|] eqn:Hn.
    + pose proof (obj_insert_index_perm n key value o) as Hperm.
      pose proof (fmap_Permutation fst _ _ Hperm) as Hkeys.
      rewrite fmap_cons in Hkeys. simpl in Hkeys.
      split_and!.
      * rewrite Hkeys. by constructor.
      * rewrite Hkeys, not_elem_of_cons. by split; [intros ?|].
      * by apply obj_insert_index_sorted.
      * rewrite Hperm. by constructor.
    + unfold style_ok. rewrite fmap_app.
      change ([(key, value)].*1) with [key]. split_and!.
      * apply NoDup_app. split_and!; [done| |apply NoDup_singleton].
        intros k Hk ->%list_elem_of_singleton. done.
      * rewrite elem_of_app, list_elem_of_singleton. by intros [|].
      * apply StronglySorted_app. split_and!; [|done|repeat constructor].
        intros k k' _ ->%list_elem_of_singleton m Hm. simpl in Hm. congruence.
      * apply Forall_app. split; [done|]. by constructor.
Qed.

Lemma obj_set_last o key value :
  style_ok (o ++ [(key, value)]) → obj_set o key value = o ++ [(key, value)].
Proof.
  intros (Hnodup & Hproto & Hsorted & _). rewrite fmap_app in *.
  change ([(key, value)].*1) with [key] in *.
  apply NoDup_app in Hnodup as (_ & Hnew & _).
  apply StronglySorted_app in Hsorted as (Hbefore & _ & _).
  unfold obj_set.
  destruct (decide (key = "__proto__")) as [->|_].
  { destruct Hproto. apply elem_of_app. right. by apply list_elem_of_here. }
  destruct (decide (key ∈ o.*1)) as [Hin|_].
  { destruct (Hnew key Hin). by apply list_elem_of_here. }
  destruct (array_index key) as [n|] eqn:Hn; [|done].
  apply obj_insert_index_last; [done|].
  apply Forall_forall. intros k Hk. apply Hbefore; [done|].
  by apply list_elem_of_here.
Qed.

Lemma style_ok_nil : style_ok [].
Proof. unfold style_ok. split_and!; by try constructor; try apply not_elem_of_nil. Qed.

Lemma style_ok_prefix o o' : style_ok (o ++ o') → style_ok o.
Proof.
  intros (Hnodup & Hproto & Hsorted & Hall). rewrite fmap_app in *.
  split_and!.
  - by apply NoDup_app in Hnodup as (? & _ & _).
  - intros Hin. apply Hproto, elem_of_app. by left.
  - by apply StronglySorted_app in Hsorted as (_ & ? & _).
  - by apply Forall_app in Hall as [? _].
Qed.

Lemma obj_delete_keys key o :
  (obj_delete key o).*1 = filter (λ k, k ≠ key) (o.*1).
Proof.
  unfold obj_delete. induction o as [|[k v] o IH]; [done|].
  rewrite fmap_cons. simpl.
  destruct (decide (k = key)) as [->|Hne].
  - rewrite !filter_cons_False by (simpl; by intros ?). done.
  - rewrite !filter_cons_True by done. by rewrite fmap_cons, IH.
Qed.

Lemma StronglySorted_filter {A} (R : relation A) (P : A → Prop)
    `{∀ x, Decision (P x)} (l : list A) :
  StronglySorted R l → StronglySorted R (filter P l).
Proof.
  induction l as [|x l IH]; intros Hl; [constructor|].
  apply StronglySorted_cons in Hl as [Hx Hl].
  destruct (decide (P x)).
  - rewrite filter_cons_True by done. apply StronglySorted_cons.
    split; [|by apply IH]. apply Forall_forall. intros y Hy.
    apply list_elem_of_filter in Hy as [_ Hy].
    by eapply Forall_forall in Hx.
  - rewrite filter_cons_False by done. by apply IH.
Qed.

Lemma obj_delete_ok key o : style_ok o → style_ok (obj_delete key o).
Proof.
  intros (Hnodup & Hproto & Hsorted & Hall). unfold style_ok.
  rewrite obj_delete_keys. split_and!.
  - by apply NoDup_filter.
  - intros Hin. by apply list_elem_of_filter in Hin as [_ Hin].
  - by apply StronglySorted_filter.
  - unfold obj_delete. apply Forall_forall. intros p Hp.
    apply list_elem_of_filter in Hp as [_ Hp].
    by eapply Forall_forall in Hall.
Qed.

End StyleObjects.

Section StyleRoundTrip.

Lemma string_app_nil_r (a : string) : (a +:+ EmptyString) = a.
Proof.
  induction a as [|x a IH]; [done|]. rewrite string_app_cons. by rewrite IH.
Qed.

Lemma renderCssText_loop_app keys :
  ∀ cssText,
    renderCssText_loop keys cssText = cssText +:+ renderCssText keys.
Proof.
  unfold renderCssText.
  induction keys as [|[k v] keys IH]; intros cssText; simpl.
  - by rewrite string_app_nil_r.
  - rewrite IH, (IH (EmptyString +:+ _)).
    by rewrite string_app_nil_l, !string_app_assoc.
Qed.

Lemma renderCssText_cons key value keys :
  renderCssText ((key, value) :: keys)
  = key +:+ ": " +:+ value +:+ "; " +:+ renderCssText keys.
Proof.
  unfold renderCssText at 1. simpl. rewrite renderCssText_loop_app.
  by rewrite string_app_nil_l, !string_app_assoc.
Qed.

Lemma obj_set_length o key value :
  (length (obj_set o key value) ≤ S (length o))%nat.
Proof.
  unfold obj_set. destruct (decide (key = "__proto__")); [lia|].
  destruct (decide (key ∈ o.*1)); [rewrite length_fmap; lia|].
  destruct (array_index key) as [idx|].
  - by rewrite (Permutation_length (obj_insert_index_perm idx key value o)).
  - rewrite length_app. simpl. lia.
Qed.

Lemma parseCssText_loop_returns fuel :
  ∀ found o,
    (match found with
     | Some (_, _, rest) => S (String.length rest)
     | None => 0
     end < fuel)%nat →
    (∀ key value rest,
       found = Some (key, value, rest) → declaration_ok (key, value)) →
    style_ok o →
    ∃ o', parseCssText_loop fuel found o = Some o'
          ∧ style_ok o' ∧ (length o' < length o + fuel)%nat.
Proof.
  induction fuel as [|fuel IH]; intros found o Hfuel Hfound Hok; [lia|].
  simpl. destruct found as [[[key value] rest]|].
  - destruct (IH (regStyle_exec rest) (obj_set o key value))
      as (o' & Ho' & Hok' & Hlen).
    + destruct (regStyle_exec rest) as [[[k v] r]|] eqn:Hexec; [|lia].
      apply regStyle_exec_spec in Hexec as [_ Hlt]. lia.
    + intros k v r Hexec. by apply regStyle_exec_spec in Hexec as [? _].
    + apply obj_set_ok; [done|]. by eapply Hfound.
    + exists o'. split_and!; [done..|].
      pose proof (obj_set_length o key value). lia.
  - exists o. split_and!; [done..|lia].
Qed.

Lemma parseCssText_returns fuel cssText :
  (String.length cssText < fuel)%nat →
  ∃ o, parseCssText fuel cssText = Some o
       ∧ style_ok o ∧ (length o < fuel)%nat.
Proof.
  intros Hfuel.
  destruct (parseCssText_loop_returns fuel (regStyle_exec cssText) [])
    as (o & Ho & Hok & Hlen).
  - destruct (regStyle_exec cssText) as [[[k v] r]|] eqn:Hexec; [|lia].
    apply regStyle_exec_spec in Hexec as [_ Hlt]. lia.
  - intros k v r Hexec. by apply regStyle_exec_spec in Hexec as [? _].
  - apply style_ok_nil.
  - by exists o.
Qed.

Lemma parseCssText_loop_found fuel key value rest o :
  parseCssText_loop (S fuel) (Some (key, value, rest)) o
  = parseCssText_loop fuel (regStyle_exec rest) (obj_set o key value).
Proof. done. Qed.

Lemma parseCssText_loop_rendered keys :
  ∀ fuel o,
    Forall declaration_ok keys → (length keys < fuel)%nat →
    parseCssText_loop fuel (regStyle_exec (renderCssText keys)) o
    = Some (fold_left (λ o p, obj_set o p.1 p.2) keys o).
Proof.
  induction keys as [|[k v] keys IH]; intros fuel o Hall Hfuel;
    (destruct fuel as [|fuel]; [simpl in Hfuel; lia|]).
  - done.
  - apply Forall_cons in Hall as [Hkv Hall].
    rewrite renderCssText_cons, regStyle_exec_declaration by done.
    rewrite parseCssText_loop_found, regStyle_exec_space.
    apply IH; [done|]. simpl in Hfuel. lia.
Qed.

Lemma fold_left_obj_set keys :
  ∀ o, style_ok (o ++ keys) →
       fold_left (λ o p, obj_set o p.1 p.2) keys o = o ++ keys.
Proof.
  induction keys as [|[k v] keys IH]; intros o Hok; simpl.
  - by rewrite app_nil_r.
  - rewrite (cons_middle (k, v)), app_assoc in Hok.
    rewrite obj_set_last by (by apply style_ok_prefix in Hok).
    rewrite IH by done. by rewrite <- app_assoc.
Qed.

Lemma parseCssText_rendered fuel o :
  style_ok o → (length o < fuel)%nat →
  parseCssText fuel (renderCssText o) = Some o.
Proof.
  intros Hok Hfuel. unfold parseCssText.
  rewrite parseCssText_loop_rendered by (done || apply Hok).
  by rewrite fold_left_obj_set.
Qed.

End StyleRoundTrip.

(** X22: every style text is parsed, and the object parsed from it is the
    object parsed from its rendering: [parseCssText] undoes
    [renderCssText] on the objects [parseCssText] makes. *)
Theorem parseCssText_renderCssText fuel cssText :
  (String.length cssText < fuel)%nat →
  ∃ styles,
    parseCssText fuel cssText = Some styles
    ∧ parseCssText fuel (renderCssText styles) = Some styles.
Proof.
  intros Hfuel.
  destruct (parseCssText_returns fuel cssText Hfuel) as (o & Ho & Hok & Hlen).
  exists o. split; [done|]. by apply parseCssText_rendered.
Qed.

Lemma parseCssText_renderCssText_witness :
  (String.length "width: 25px; transform: translate3d(1px, 2px, 0px);" < 60)%nat
  ∧ ∃ styles,
      parseCssText 60 "width: 25px; transform: translate3d(1px, 2px, 0px);"
      = Some styles
      ∧ parseCssText 60 (renderCssText styles) = Some styles.
Proof.
  split; [vm_compute; lia|].
  apply (parseCssText_renderCssText 60); vm_compute; lia.
Defined.

(** X23: the base texts [onAdd] keeps declare what the style texts of the icon
    and of the shadow declare, without [transform] and, for the icon, without
    [z-index]: parsed again, they give the style objects of the two texts
    without these properties, the others with their values and in their
    order. *)
Theorem onAdd_base_texts fuel iconCssText shadowCssText :
  (String.length iconCssText < fuel)%nat →
  (String.length shadowCssText < fuel)%nat →
  ∃ icon shadow baseIconCssText baseShadowCssText,
    parseCssText fuel iconCssText = Some icon
    ∧ parseCssText fuel shadowCssText = Some shadow
    ∧ onAdd fuel iconCssText shadowCssText
      = Some (baseIconCssText, baseShadowCssText)
    ∧ parseCssText fuel baseIconCssText
      = Some (obj_delete "z-index" (obj_delete "transform" icon))
    ∧ parseCssText fuel baseShadowCssText
      = Some (obj_delete "transform" shadow).
Proof.
  intros Hicon Hshadow.
  destruct (parseCssText_returns fuel _ Hicon) as (icon & Hi & Hiok & Hilen).
  destruct (parseCssText_returns fuel _ Hshadow)
    as (shadow & Hs & Hsok & Hslen).
  exists icon, shadow. eexists _, _. split_and!; [done|done| | |].
  - unfold onAdd. rewrite Hi, Hs. reflexivity.
  - rewrite parseCssText_rendered.
    + done.
    + by do 2 apply obj_delete_ok.
    + unfold obj_delete.
      pose proof (length_filter (λ p : string * string, p.1 ≠ "z-index")
                    (filter (λ p : string * string, p.1 ≠ "transform") icon)).
      pose proof (length_filter (λ p : string * string, p.1 ≠ "transform")
                    icon). lia.
  - rewrite parseCssText_rendered; [done|by apply obj_delete_ok|].
    unfold obj_delete.
    pose proof (length_filter (λ p : string * string, p.1 ≠ "transform")
                  shadow). lia.
Qed.

Lemma onAdd_base_texts_witness :
  (String.length "margin-left: -12px; z-index: 181; transform: scale(2);" < 80)%nat
  ∧ (String.length "width: 41px; transform: none;" < 80)%nat
  ∧ ∃ icon shadow baseIconCssText baseShadowCssText,
      parseCssText 80 "margin-left: -12px; z-index: 181; transform: scale(2);"
      = Some icon
      ∧ parseCssText 80 "width: 41px; transform: none;" = Some shadow
      ∧ onAdd 80 "margin-left: -12px; z-index: 181; transform: scale(2);"
          "width: 41px; transform: none;"
        = Some (baseIconCssText, baseShadowCssText)
      ∧ parseCssText 80 baseIconCssText
        = Some (obj_delete "z-index" (obj_delete "transform" icon))
      ∧ parseCssText 80 baseShadowCssText
        = Some (obj_delete "transform" shadow).
Proof.
  split; [vm_compute; lia|]. split; [vm_compute; lia|].
  apply (onAdd_base_texts 80); vm_compute; lia.
Defined.
